(** * Wave Function Collapse core of wfc-visualizer: a shallow embedding

    The TypeScript sources embedded here, by the files that hold them:
    - [src/unnamed/part_005]: the direction tables [DX], [DY], [OPPOSITE],
      the result and state types, and the [Random] generator (types.ts);
    - [src/core/wave.ts]: the class [Wave], followed by the class
      [Propagator] (propagator.ts);
    - [src/core/overlapping-model.ts]: the class [OverlappingModel];
    - [src/core/simple-tiled-model.ts]: the class [SimpleTiledModel],
      followed by [getSymmetry] and [loadTileset] (tileset-loader.ts).
    [Wave.getMRVCell] and [Wave.getScanlineCell] are called by both models
    but are in none of these files; they are modelled from the
    specification and marked so.

    Conventions.
    - A JavaScript [number] that the program uses as an integer (an index, a
      dimension, a 32-bit word) is a [Z]; wrap-around of typed-array elements
      and of the 32-bit operators is written out with [mod].
    - A JavaScript [number] that the program uses as a real quantity (weights,
      entropies, the generator's state and output) is a binary64 [float], the
      kernel's primitive type, so that [+ - * /] and the comparisons round and
      compare exactly as the program's do.
    - [Math.log] is left to the implementation by ECMA-262; it is the one
      operation of the interface [MathLib].  Theorems quantify over it;
      [ln_ref] instantiates it where a concrete run is evaluated.
    - A typed array is a [list]; reading outside it gives [None] (the
      program's [undefined]) and writing outside it does nothing.
    - Mutable objects are threaded explicitly: every method returns the new
      state of the objects it mutates. *)

From Stdlib Require Import ZArith Lia Bool.
From Stdlib Require Import Floats.
From stdpp Require Import base option list gmap strings pretty.

#[local] Open Scope Z_scope.
#[local] Set Warnings "-inexact-float".

(* ===================================================================== *)
(** * JavaScript arrays and numbers *)
(* ===================================================================== *)

(** [a[i]] for an integer-valued [i]: [None] is [undefined]. *)
Definition rd {A : Type} (a : list A) (i : Z) : option A :=
  if i <? 0 then None else a !! Z.to_nat i.

(** [a[i] = v] on a typed array: ignored outside the array. *)
Definition wr {A : Type} (a : list A) (i : Z) (v : A) : list A :=
  if i <? 0 then a else <[Z.to_nat i := v]> a.

(** An element read that takes part in float arithmetic: [undefined]
    becomes [NaN]. *)
Definition num (o : option float) : float := default nan o.

(** [new TypedArray(n).fill(v)] for [n >= 0]. *)
Definition filled {A : Type} (n : Z) (v : A) : list A := replicate (Z.to_nat n) v.

(** The indices of [for (let i = 0; i < n; i++)]. *)
Definition upto (n : Z) : list Z := seqZ 0 n.

Definition wrap_uint8 (z : Z) : Z := z mod 256.
Definition wrap_uint32 (z : Z) : Z := z mod 4294967296.
Definition wrap_int32 (z : Z) : Z := (z + 2147483648) mod 4294967296 - 2147483648.

(** The integer a finite float truncates to ([NaN] and the infinities give 0,
    as in ECMA-262's ToInt32/ToUint32). *)
Definition float_to_Z (f : float) : Z :=
  match Prim2SF f with
  | S754_finite s m e =>
      let v := Z.shiftl (Z.pos m) e in if s then - v else v
  | _ => 0
  end.

(** The float of a natural number below 2^63 (exact below 2^53). *)
Definition Z_to_float (z : Z) : float := PrimFloat.of_uint63 (Uint63.of_Z z).

(** ECMA-262 ToUint32 of a float. *)
Definition ToUint32 (f : float) : Z := wrap_uint32 (float_to_Z f).

(** [Math.floor] *)
Definition Math_floor (f : float) : float :=
  match Prim2SF f with
  | S754_finite s m e =>
      if 0 <=? e then f
      else
        let q := Z.shiftl (Z.pos m) e in
        if s then
          PrimFloat.opp (Z_to_float (if Z.shiftl q (- e) =? Z.pos m then q else q + 1))
        else Z_to_float q
  | _ => f
  end.

(** Exceptions.  [RangeError]: a typed array of negative length;
    [TypeError]: a property read on [undefined].  [FuelExhausted] is not a
    JavaScript outcome: it is what the bounded loop of [Propagator.propagate]
    answers when its bound is reached, which [propagate_spec] excludes for a
    propagator that serves its wave (and likewise the loop of [run]). *)
Inductive JsError := RangeError | TypeError | FuelExhausted.

Inductive result (A : Type) : Type :=
| Ok (a : A)
| Throw (e : JsError).
Arguments Ok {A} a.
Arguments Throw {A} e.

#[global] Instance result_ret : MRet result := fun A a => Ok a.
#[global] Instance result_bind : MBind result := fun A B k r =>
  match r with
  | Ok a => k a
  | Throw e => Throw e
  end.

Definition is_ok {A : Type} (r : result A) : bool :=
  match r with Ok _ => true | Throw _ => false end.

(** The platform's [Math] object, as far as the program uses an operation
    that IEEE 754 does not fix. *)
Class MathLib := { Math_log : float -> float }.

(** A reference natural logarithm on binary64, for concrete runs: argument
    reduction to [sqrt(1/2), sqrt 2) and the series of [2 atanh z],
    [z = (m-1)/(m+1)].  It stands for the platform's [Math.log], which
    ECMA-262 leaves implementation-approximated: [ln_ref 1 = 0], and
    elsewhere it is close to the logarithm; no statement about a concrete
    run depends on its last bits. *)
Definition ln2 : float := 0x1.62e42fefa39efp-1%float.

Definition ln_series (z2 : float) : float :=
  fold_right (fun c acc => PrimFloat.add c (PrimFloat.mul z2 acc)) 0%float
    (map (fun k => PrimFloat.div 1 (Z_to_float k))
         [3; 5; 7; 9; 11; 13; 15; 17; 19; 21; 23; 25; 27; 29]).

Definition ln_ref (x : float) : float :=
  if PrimFloat.is_nan x then nan
  else if PrimFloat.ltb x 0 then nan
  else if PrimFloat.eqb x 0 then neg_infinity
  else if PrimFloat.eqb x infinity then infinity
  else
    let '(m, e) := PrimFloat.frshiftexp x in
    let k := PrimFloat.sub (PrimFloat.of_uint63 e) 2101 in
    let '(m, k) :=
      if PrimFloat.ltb m 0x1.6a09e667f3bcdp-1
      then (PrimFloat.mul m 2, PrimFloat.sub k 1) else (m, k) in
    let z := PrimFloat.div (PrimFloat.sub m 1) (PrimFloat.add m 1) in
    let z2 := PrimFloat.mul z z in
    let s := PrimFloat.mul z2 (ln_series z2) in
    PrimFloat.add (PrimFloat.mul k ln2)
      (PrimFloat.add (PrimFloat.mul 2 z) (PrimFloat.mul (PrimFloat.mul 2 z) s)).

Definition ref_math : MathLib := {| Math_log := ln_ref |}.

(* ===================================================================== *)
(** * src/unnamed/part_005 (types.ts): directions and the [Random] generator *)
(* ===================================================================== *)

(** Direction indices: 0 = Left, 1 = Down, 2 = Right, 3 = Up. *)
Definition DX : list Z := [-1; 0; 1; 0].
Definition DY : list Z := [0; 1; 0; -1].
Definition OPPOSITE : list Z := [2; 3; 0; 1].

(** The entries of the three tables; the default is never reached for a
    direction in 0..3. *)
Definition tbl (t : list Z) (d : Z) : Z := default 0 (rd t d).

Inductive Heuristic := entropy_h | mrv_h | scanline_h.
Inductive ObserveResult := continue | success | failure.

Module Random.

(** [private state: number].  The field is a double: [next] adds to it
    without reducing it. *)
Record t := mk { state : float }.

(** [constructor(seed) { this.state = seed >>> 0; }] *)
Definition new (seed : Z) : t := mk (Z_to_float (wrap_uint32 seed)).

(** [Math.imul] on the unsigned representatives of its 32-bit arguments. *)
Definition imul (a b : Z) : Z := wrap_uint32 (a * b).

(** The 32-bit mixing of [next], on the unsigned representative [s] of the
    state's low 32 bits:
    [t = Math.imul(t ^ (t >>> 15), t | 1);
     t ^= t + Math.imul(t ^ (t >>> 7), t | 61);
     (t ^ (t >>> 14)) >>> 0]. *)
Definition mix (s : Z) : Z :=
  let t := imul (Z.lxor s (Z.shiftr s 15)) (Z.lor s 1) in
  let t := Z.lxor t (wrap_uint32 (t + imul (Z.lxor t (Z.shiftr t 7)) (Z.lor t 61))) in
  Z.lxor t (Z.shiftr t 14).

(** [next()]: the output and the generator after the call. *)
Definition next (r : t) : float * t :=
  let s := PrimFloat.add (state r) 0x6d2b79f5 in
  (PrimFloat.div (Z_to_float (mix (ToUint32 s))) 4294967296, mk s).

(** [nextInt(max) = Math.floor(this.next() * max)] *)
Definition nextInt (r : t) (max : float) : float * t :=
  let '(x, r') := next r in (Math_floor (PrimFloat.mul x max), r').

(** The generator after [n] calls of [next]. *)
Definition after (n : N) (r : t) : t := N.iter n (fun r => snd (next r)) r.

(** The first [n] outputs. *)
Fixpoint outputs (n : nat) (r : t) : list float :=
  match n with
  | O => []
  | S n' => let '(x, r') := next r in x :: outputs n' r'
  end.

End Random.

(** The mulberry32 contract in the specification's words: the state is a
    32-bit unsigned integer, advanced by [0x6d2b79f5] modulo [2^32]; the
    output is the mixed word divided by [2^32]. *)
Module Mulberry32.

Definition advance (s : Z) : Z := (s + 0x6d2b79f5) mod 2 ^ 32.

Definition next (s : Z) : float * Z :=
  let s' := advance s in
  (PrimFloat.div (Z_to_float (Random.mix s')) 4294967296, s').

Definition after (n : N) (s : Z) : Z := N.iter n advance s.

End Mulberry32.

(* ===================================================================== *)
(** * src/core/wave.ts: the class [Wave] *)
(* ===================================================================== *)

(** [count === 1] and [count === 0] on an element that may be [undefined]. *)
Definition is1 (o : option Z) : bool := match o with Some 1 => true | _ => false end.
Definition is0 (o : option Z) : bool := match o with Some 0 => true | _ => false end.

Module EntropyMemo.
Record t := mk {
  plogpSum : list float;      (* Float64Array *)
  sum : list float;           (* Float64Array *)
  logSum : list float;        (* Float64Array *)
  patternCount : list Z;      (* Uint32Array *)
  entropy : list float        (* Float64Array *)
}.
End EntropyMemo.

Module Wave.
Section WithMath.
Context {M : MathLib}.
#[local] Open Scope float_scope.

Record t := mk {
  data : list Z;              (* Uint8Array, data[cell * patternCount + pattern] *)
  memo : EntropyMemo.t;
  plogp : list float;
  weights : list float;
  minAbsHalfPlogp : float;
  startingEntropy : float;
  width : Z;
  height : Z;
  size : Z;
  patternCount : Z
}.

Definition with_state (w : t) (d : list Z) (m : EntropyMemo.t) : t :=
  mk d m (plogp w) (weights w) (minAbsHalfPlogp w) (startingEntropy w)
     (width w) (height w) (size w) (patternCount w).

(** [weights.reduce((a, b) => a + b, 0)] *)
Definition reduce_add (xs : list float) : float := fold_left PrimFloat.add xs 0.

(** One turn of the constructor's loop over the weights: the accumulator is
    [(plogp filled so far, minPlogp, sumOfPlogp)]. *)
Definition plogp_step (sumOfWeights : float) (acc : list float * float * float)
    (wi : float) : list float * float * float :=
  let '(pl, minPlogp, sumOfPlogp) := acc in
  let p := wi / sumOfWeights in
  let plogpVal := if 0 <? p then p * Math_log p else 0 in
  let a := PrimFloat.abs plogpVal in
  (pl ++ [plogpVal],
   (if (0 <? a) && (a <? minPlogp) then a else minPlogp),
   sumOfPlogp + plogpVal).

(** [new Wave(width, height, weights)]; the typed arrays of length [size]
    raise [RangeError] when [size] is negative. *)
Definition new (width height : Z) (weights : list float) : result t :=
  let size := (width * height)%Z in
  let patternCount := Z.of_nat (length weights) in
  if (size <? 0)%Z then Throw RangeError
  else
    let sumOfWeights := reduce_add weights in
    let '(pl, minPlogp, sumOfPlogp) :=
      fold_left (plogp_step sumOfWeights) weights ([], infinity, 0) in
    let startingEntropy := Math_log sumOfWeights - sumOfPlogp in
    Ok (mk (filled (size * patternCount) 1%Z)
             (EntropyMemo.mk (filled size sumOfPlogp) (filled size sumOfWeights)
                (filled size (Math_log sumOfWeights))
                (filled size (wrap_uint32 patternCount))
                (filled size startingEntropy))
             pl weights (minPlogp / 2) startingEntropy
             width height size patternCount).

Definition get (w : t) (cellIndex pattern : Z) : bool :=
  is1 (rd (data w) (cellIndex * patternCount w + pattern)).

Definition getPossiblePatterns (w : t) (cellIndex : Z) : list Z :=
  let offset := (cellIndex * patternCount w)%Z in
  filter (fun p => is1 (rd (data w) (offset + p)) = true) (upto (patternCount w)).

(** [undefined] outside the grid *)
Definition getRemainingCount (w : t) (cellIndex : Z) : option Z :=
  rd (EntropyMemo.patternCount (memo w)) cellIndex.

Definition getEntropy (w : t) (cellIndex : Z) : option float :=
  rd (EntropyMemo.entropy (memo w)) cellIndex.

(** [a[i] -= x] on a Float64Array *)
Definition sub_at (a : list float) (i : Z) (x : float) : list float :=
  wr a i (num (rd a i) - x).

(** [a[i]--] on a Uint32Array *)
Definition dec_at (a : list Z) (i : Z) : list Z :=
  match rd a i with
  | Some c => wr a i (wrap_uint32 (c - 1))
  | None => a
  end.

Definition remove (w : t) (cellIndex pattern : Z) : t * bool :=
  let dataIndex := (cellIndex * patternCount w + pattern)%Z in
  if is0 (rd (data w) dataIndex) then (w, false)
  else
    let m := memo w in
    let data' := wr (data w) dataIndex 0%Z in
    let plogpSum' := sub_at (EntropyMemo.plogpSum m) cellIndex (num (rd (plogp w) pattern)) in
    let sum' := sub_at (EntropyMemo.sum m) cellIndex (num (rd (weights w) pattern)) in
    let patternCount' := dec_at (EntropyMemo.patternCount m) cellIndex in
    let s := num (rd sum' cellIndex) in
    if 0 <? s then
      let logSum' := wr (EntropyMemo.logSum m) cellIndex (Math_log s) in
      let entropy' :=
        wr (EntropyMemo.entropy m) cellIndex
           (num (rd logSum' cellIndex) - num (rd plogpSum' cellIndex) / s) in
      (with_state w data' (EntropyMemo.mk plogpSum' sum' logSum' patternCount' entropy'), true)
    else
      let entropy' := wr (EntropyMemo.entropy m) cellIndex 0 in
      (with_state w data'
         (EntropyMemo.mk plogpSum' sum' (EntropyMemo.logSum m) patternCount' entropy'), true).

(** The first [p] of [ps] with [data[offset + p] === 1], or [-1]. *)
Fixpoint first_possible (d : list Z) (offset : Z) (ps : list Z) : Z :=
  match ps with
  | [] => (-1)%Z
  | p :: ps' => if is1 (rd d (offset + p)) then p else first_possible d offset ps'
  end.

(** The weighted selection loop of [collapse]. *)
Fixpoint select_loop (w : t) (offset : Z) (target cumulative : float) (ps : list Z) : Z :=
  match ps with
  | [] => (-1)%Z
  | p :: ps' =>
      if is1 (rd (data w) (offset + p)) then
        let cumulative' := cumulative + num (rd (weights w) p) in
        if target <=? cumulative' then p
        else select_loop w offset target cumulative' ps'
      else select_loop w offset target cumulative ps'
  end.

(** The loop "remove all other patterns" of [collapse]. *)
Definition remove_others (w : t) (cellIndex selected : Z) : t :=
  let offset := (cellIndex * patternCount w)%Z in
  fold_left
    (fun w p =>
       if negb (p =? selected)%Z && is1 (rd (data w) (offset + p))
       then fst (remove w cellIndex p) else w)
    (upto (patternCount w)) w.

Definition collapse (w : t) (cellIndex : Z) (rng : Random.t) : t * Z * Random.t :=
  let offset := (cellIndex * patternCount w)%Z in
  let remaining := rd (EntropyMemo.patternCount (memo w)) cellIndex in
  if is0 remaining then (w, (-1)%Z, rng)
  else if is1 remaining then
    (w, first_possible (data w) offset (upto (patternCount w)), rng)
  else
    let '(r, rng') := Random.next rng in
    let target := r * num (rd (EntropyMemo.sum (memo w)) cellIndex) in
    let selected := select_loop w offset target 0 (upto (patternCount w)) in
    let selected :=
      if (selected =? -1)%Z
      then first_possible (data w) offset (reverse (upto (patternCount w)))
      else selected in
    (remove_others w cellIndex selected, selected, rng').

(** The loop of [getMinEntropyCell] over the cells still to visit. *)
Fixpoint minEntropy_loop (w : t) (cells : list Z) (minEntropy : float) (argmin : Z)
    (rng : Random.t) : Z * Random.t :=
  match cells with
  | [] => (argmin, rng)
  | i :: rest =>
      let count := rd (EntropyMemo.patternCount (memo w)) i in
      if is1 count then minEntropy_loop w rest minEntropy argmin rng
      else if is0 count then ((-2)%Z, rng)
      else
        let e := num (rd (EntropyMemo.entropy (memo w)) i) in
        if e <=? minEntropy then
          let '(r, rng') := Random.next rng in
          let noise := r * minAbsHalfPlogp w in
          if e + noise <? minEntropy
          then minEntropy_loop w rest (e + noise) i rng'
          else minEntropy_loop w rest minEntropy argmin rng'
        else minEntropy_loop w rest minEntropy argmin rng
  end.

Definition getMinEntropyCell (w : t) (rng : Random.t) : Z * Random.t :=
  minEntropy_loop w (upto (size w)) infinity (-1)%Z rng.

Definition isCollapsed (w : t) (cellIndex : Z) : bool :=
  is1 (rd (EntropyMemo.patternCount (memo w)) cellIndex).

Definition isFullyCollapsed (w : t) : bool :=
  forallb (fun i => is1 (rd (EntropyMemo.patternCount (memo w)) i)) (upto (size w)).

Definition hasContradiction (w : t) : bool :=
  existsb (fun i => is0 (rd (EntropyMemo.patternCount (memo w)) i)) (upto (size w)).

Definition getObserved (w : t) (cellIndex : Z) : Z :=
  if negb (isCollapsed w cellIndex) then (-1)%Z
  else first_possible (data w) (cellIndex * patternCount w)%Z (upto (patternCount w)).

Definition clear (w : t) : t :=
  let sumOfWeights := reduce_add (weights w) in
  let sumOfPlogp := reduce_add (plogp w) in
  with_state w
    (replicate (length (data w)) 1%Z)
    (EntropyMemo.mk
       (replicate (length (EntropyMemo.plogpSum (memo w))) sumOfPlogp)
       (replicate (length (EntropyMemo.sum (memo w))) sumOfWeights)
       (replicate (length (EntropyMemo.logSum (memo w))) (Math_log sumOfWeights))
       (replicate (length (EntropyMemo.patternCount (memo w))) (wrap_uint32 (patternCount w)))
       (replicate (length (EntropyMemo.entropy (memo w))) (startingEntropy w))).

(** Modelled from the spec: [getMRVCell] is called by [step] but is not in
    the sources at hand.  The specification gives "argmin of remaining[i]
    (>1), with a small random tie-break", "ties within MRV by a tie-break
    noise call", and for all heuristics "skip collapsed cells; return -1 if
    all cells collapsed, -2 on contradiction".  The loop below is that of
    [getMinEntropyCell] with the remaining count as the key; the
    specification does not give the magnitude of the tie-break noise, which
    is the parameter [tieBreak]. *)
Fixpoint mrv_loop (tieBreak : float) (w : t) (cells : list Z) (minKey : float)
    (argmin : Z) (rng : Random.t) : Z * Random.t :=
  match cells with
  | [] => (argmin, rng)
  | i :: rest =>
      let count := rd (EntropyMemo.patternCount (memo w)) i in
      if is1 count then mrv_loop tieBreak w rest minKey argmin rng
      else if is0 count then ((-2)%Z, rng)
      else
        let k := Z_to_float (default 0%Z count) in
        if k <=? minKey then
          let '(r, rng') := Random.next rng in
          let noise := r * tieBreak in
          if k + noise <? minKey
          then mrv_loop tieBreak w rest (k + noise) i rng'
          else mrv_loop tieBreak w rest minKey argmin rng'
        else mrv_loop tieBreak w rest minKey argmin rng
  end.

Definition mrvTieBreak : float := 1e-6.

Definition getMRVCell (w : t) (rng : Random.t) : Z * Random.t :=
  mrv_loop mrvTieBreak w (upto (size w)) infinity (-1)%Z rng.

(** Modelled from the spec: [getScanlineCell] is called by [step] but is not
    in the sources at hand.  The specification gives "resume from a cursor
    position; return the first uncollapsed cell at index >= cursor; update
    cursor to that index+1; wrap disallowed (success when cursor passes the
    end)", and for all heuristics "skip collapsed cells; return -1 if all
    cells collapsed, -2 on contradiction".  The result is the pair
    [(cell, nextStart)] that [step] reads. *)
Fixpoint scanline_loop (w : t) (cells : list Z) : Z * Z :=
  match cells with
  | [] => ((-1)%Z, size w)
  | i :: rest =>
      let count := rd (EntropyMemo.patternCount (memo w)) i in
      if is1 count then scanline_loop w rest
      else if is0 count then ((-2)%Z, i)
      else (i, (i + 1)%Z)
  end.

Definition getScanlineCell (w : t) (cursor : Z) : Z * Z :=
  scanline_loop w (seqZ cursor (size w - cursor)).

End WithMath.
End Wave.

(* ===================================================================== *)
(** * src/core/wave.ts, second part (propagator.ts): the class [Propagator] *)
(* ===================================================================== *)

Module Propagator.

(** [stack] is the Uint32Array of [size * patternCount * 2] words holding
    the pairs [cellIndex, pattern]; the [stackSize] lowest pairs are live.
    The set [affectedCells] serves the display only and is left out. *)
Record t := mk {
  propagatorData : list (list (list Z));   (* data[pattern][direction] *)
  compatible : list Z;                     (* Int32Array *)
  stack : list Z;                          (* Uint32Array *)
  stackSize : Z;
  width : Z;
  height : Z;
  patternCount : Z;
  periodic : bool
}.

Definition with_compatible (p : t) (c : list Z) : t :=
  mk (propagatorData p) c (stack p) (stackSize p) (width p) (height p)
     (patternCount p) (periodic p).

Definition with_stack (p : t) (s : list Z) (n : Z) : t :=
  mk (propagatorData p) (compatible p) s n (width p) (height p)
     (patternCount p) (periodic p).

(** [this.propagatorData.data[pattern][direction]], used as an array: a
    missing row or entry raises [TypeError]. *)
Definition data_at (p : t) (pattern direction : Z) : result (list Z) :=
  match rd (propagatorData p) pattern with
  | Some row =>
      match rd row direction with
      | Some l => Ok l
      | None => Throw TypeError
      end
  | None => Throw TypeError
  end.

(** The body of [initCompatible] for one cell, pattern and direction. *)
Definition init_entry (p : t) (i pattern direction : Z) : result t :=
  let x := Z.rem i (width p) in
  let y := i / width p in
  let nx := x + tbl DX direction in
  let ny := y + tbl DY direction in
  let hasNeighbor :=
    if periodic p then true
    else (0 <=? nx) && (nx <? width p) && (0 <=? ny) && (ny <? height p) in
  if hasNeighbor then
    compatPatterns ← data_at p pattern direction;
    let idx := i * patternCount p * 4 + pattern * 4 + direction in
    Ok (with_compatible p
          (wr (compatible p) idx (wrap_int32 (Z.of_nat (length compatPatterns)))))
  else Ok p.

(** A [for] loop whose body may throw. *)
Fixpoint for_each {A S : Type} (xs : list A) (body : S -> A -> result S) (s : S) : result S :=
  match xs with
  | [] => Ok s
  | x :: xs' => s' ← body s x; for_each xs' body s'
  end.

Definition initCompatible (p : t) : result t :=
  for_each (upto (width p * height p))
    (fun p i =>
       for_each (upto (patternCount p))
         (fun p pattern =>
            for_each (upto 4) (fun p direction => init_entry p i pattern direction) p)
         p)
    p.

(** [new Propagator(width, height, patternCount, periodic, propagatorData)] *)
Definition new (width height patternCount : Z) (periodic : bool)
    (propagatorData : list (list (list Z))) : result t :=
  let size := width * height in
  if (size * patternCount * 4 <? 0) || (size * patternCount * 2 <? 0)
  then Throw RangeError
  else
    initCompatible
      (mk propagatorData (filled (size * patternCount * 4) 0)
          (filled (size * patternCount * 2) 0) 0
          width height patternCount periodic).

Definition reset (p : t) : result t :=
  p' ← initCompatible p;
  Ok (with_stack p' (stack p') 0).

Definition addToPropagate (p : t) (cellIndex pattern : Z) : t :=
  let idx := stackSize p * 2 in
  with_stack p
    (wr (wr (stack p) idx (wrap_uint32 cellIndex)) (idx + 1) (wrap_uint32 pattern))
    (stackSize p + 1).

(** [this.compatible[i]--] on the Int32Array *)
Definition dec_at (a : list Z) (i : Z) : list Z :=
  match rd a i with
  | Some c => wr a i (wrap_int32 (c - 1))
  | None => a
  end.

Section WithMath.
Context {M : MathLib}.

(** The loop [for (const compatPattern of compatPatterns)] of [propagate];
    the flag is [true] when the loop left by [return false]. *)
Fixpoint propagate_patterns (p : t) (w : Wave.t) (neighborIndex oppositeDir : Z)
    (pats : list Z) : t * Wave.t * bool :=
  match pats with
  | [] => (p, w, false)
  | compatPattern :: rest =>
      let compatIdx := neighborIndex * patternCount p * 4 + compatPattern * 4 + oppositeDir in
      let p1 := with_compatible p (dec_at (compatible p) compatIdx) in
      if is0 (rd (compatible p1) compatIdx) && Wave.get w neighborIndex compatPattern then
        let w' := fst (Wave.remove w neighborIndex compatPattern) in
        let p2 := addToPropagate p1 neighborIndex compatPattern in
        if is0 (Wave.getRemainingCount w' neighborIndex) then (p2, w', true)
        else propagate_patterns p2 w' neighborIndex oppositeDir rest
      else propagate_patterns p1 w neighborIndex oppositeDir rest
  end.

(** The loop over the four directions for the popped pair. *)
Fixpoint propagate_directions (p : t) (w : Wave.t) (cellIndex pattern : Z)
    (dirs : list Z) : result (t * Wave.t * bool) :=
  match dirs with
  | [] => Ok (p, w, false)
  | direction :: rest =>
      let x1 := Z.rem cellIndex (width p) in
      let y1 := cellIndex / width p in
      let x2 := x1 + tbl DX direction in
      let y2 := y1 + tbl DY direction in
      let inside := (0 <=? x2) && (x2 <? width p) && (0 <=? y2) && (y2 <? height p) in
      if negb (periodic p) && negb inside
      then propagate_directions p w cellIndex pattern rest
      else
        let x2 := if periodic p then Z.rem (x2 + width p) (width p) else x2 in
        let y2 := if periodic p then Z.rem (y2 + height p) (height p) else y2 in
        let neighborIndex := x2 + y2 * width p in
        let oppositeDir := tbl OPPOSITE direction in
        compatPatterns ← data_at p pattern direction;
        let '(p', w', contradiction) :=
          propagate_patterns p w neighborIndex oppositeDir compatPatterns in
        if contradiction then Ok (p', w', true)
        else propagate_directions p' w' cellIndex pattern rest
  end.

(** One turn of [while (this.stackSize > 0)]: pop a pair and visit its
    neighbours.  A slot of the stack that was never written reads
    [undefined], on which the row lookup raises [TypeError]. *)
Definition propagate_pop (p : t) (w : Wave.t) : result (t * Wave.t * bool) :=
  let n := stackSize p - 1 in
  let idx := n * 2 in
  match rd (stack p) idx, rd (stack p) (idx + 1) with
  | Some cellIndex, Some pattern =>
      propagate_directions (with_stack p (stack p) n) w cellIndex pattern (upto 4)
  | _, _ => Throw TypeError
  end.

Fixpoint propagate_loop (fuel : nat) (p : t) (w : Wave.t) : result (t * Wave.t * bool) :=
  if 0 <? stackSize p then
    match fuel with
    | O => Throw FuelExhausted
    | S fuel' =>
        match propagate_pop p w with
        | Ok (p', w', contradiction) =>
            if contradiction then Ok (p', w', false)
            else propagate_loop fuel' p' w'
        | Throw e => Throw e
        end
    end
  else Ok (p, w, true).

(** The number of turns the loop can take: a turn pops one pair, and every
    pair it pushes clears one bit of the wave. *)
Definition ones (d : list Z) : nat := length (filter (fun b => b = 1) d).

Definition turns (p : t) (w : Wave.t) : nat :=
  (2 * ones (Wave.data w) + Z.to_nat (stackSize p))%nat.

(** [propagate(wave)]: the propagator and the wave after the call, and the
    boolean it returns. *)
Definition propagate (p : t) (w : Wave.t) : result (t * Wave.t * bool) :=
  propagate_loop (turns p w) p w.

(** What [propagateStep] returns. *)
Record StepResult := mkStepResult {
  done : bool;
  contradiction : bool;
  affectedCells : list Z
}.

(** The loop [for (const compatPattern of compatPatterns)] of
    [propagateStep]: as in [propagate], with the local list [affected]; the
    flag is [true] when the loop left by returning the contradiction. *)
Fixpoint step_patterns (p : t) (w : Wave.t) (neighborIndex oppositeDir : Z)
    (affected : list Z) (pats : list Z) : t * Wave.t * list Z * bool :=
  match pats with
  | [] => (p, w, affected, false)
  | compatPattern :: rest =>
      let compatIdx := neighborIndex * patternCount p * 4 + compatPattern * 4 + oppositeDir in
      let p1 := with_compatible p (dec_at (compatible p) compatIdx) in
      if is0 (rd (compatible p1) compatIdx) && Wave.get w neighborIndex compatPattern then
        let w' := fst (Wave.remove w neighborIndex compatPattern) in
        let p2 := addToPropagate p1 neighborIndex compatPattern in
        let affected' := affected ++ [neighborIndex] in
        if is0 (Wave.getRemainingCount w' neighborIndex) then (p2, w', affected', true)
        else step_patterns p2 w' neighborIndex oppositeDir affected' rest
      else step_patterns p1 w neighborIndex oppositeDir affected rest
  end.

(** The loop over the four directions of [propagateStep]. *)
Fixpoint step_directions (p : t) (w : Wave.t) (cellIndex pattern : Z)
    (affected : list Z) (dirs : list Z) : result (t * Wave.t * list Z * bool) :=
  match dirs with
  | [] => Ok (p, w, affected, false)
  | direction :: rest =>
      let x1 := Z.rem cellIndex (width p) in
      let y1 := cellIndex / width p in
      let x2 := x1 + tbl DX direction in
      let y2 := y1 + tbl DY direction in
      let inside := (0 <=? x2) && (x2 <? width p) && (0 <=? y2) && (y2 <? height p) in
      if negb (periodic p) && negb inside
      then step_directions p w cellIndex pattern affected rest
      else
        let x2 := if periodic p then Z.rem (x2 + width p) (width p) else x2 in
        let y2 := if periodic p then Z.rem (y2 + height p) (height p) else y2 in
        let neighborIndex := x2 + y2 * width p in
        let oppositeDir := tbl OPPOSITE direction in
        compatPatterns ← data_at p pattern direction;
        let '(p', w', affected', stop) :=
          step_patterns p w neighborIndex oppositeDir affected compatPatterns in
        if stop then Ok (p', w', affected', true)
        else step_directions p' w' cellIndex pattern affected' rest
  end.

(** [propagateStep(wave)]: the propagator and the wave after the call, and
    the object it returns. *)
Definition propagateStep (p : t) (w : Wave.t) : result (t * Wave.t * StepResult) :=
  if stackSize p =? 0 then Ok (p, w, mkStepResult true false [])
  else
    let n := stackSize p - 1 in
    let idx := n * 2 in
    match rd (stack p) idx, rd (stack p) (idx + 1) with
    | Some cellIndex, Some pattern =>
        '(p', w', affected, stop) ←
          step_directions (with_stack p (stack p) n) w cellIndex pattern [] (upto 4);
        if stop : bool then Ok (p', w', mkStepResult false true affected)
        else Ok (p', w', mkStepResult (stackSize p' =? 0) false affected)
    | _, _ => Throw TypeError
    end.

End WithMath.

Definition isEmpty (p : t) : bool := stackSize p =? 0.

End Propagator.

(* ===================================================================== *)
(** * The run state shared by the two model classes *)
(* ===================================================================== *)

(** [WFCState], the answer of [getState]. *)
Record WFCState := mkWFCState {
  totalCells : Z;
  collapsedCount : Z;
  statePatternCount : Z;
  isComplete : bool;
  hasContradiction : bool
}.

(** [OverlappingModel] and [SimpleTiledModel] hold the same mutable fields
    ([wave], [propagator], [rng], [scanlineCursor]) and their methods [step]
    and [getState] are the same text; they are embedded once, here. *)
Module Engine.
Section WithMath.
Context {M : MathLib}.

Record t := mk {
  wave : Wave.t;
  propagator : Propagator.t;
  rng : Random.t;
  scanlineCursor : Z
}.

(** The first statement of [step]: the cell index the configured heuristic
    answers, and the fields it has updated. *)
Definition select (h : Heuristic) (e : t) : Z * t :=
  match h with
  | mrv_h =>
      let '(c, rng') := Wave.getMRVCell (wave e) (rng e) in
      (c, mk (wave e) (propagator e) rng' (scanlineCursor e))
  | scanline_h =>
      let '(c, nextStart) := Wave.getScanlineCell (wave e) (scanlineCursor e) in
      (c, mk (wave e) (propagator e) (rng e) nextStart)
  | entropy_h =>
      let '(c, rng') := Wave.getMinEntropyCell (wave e) (rng e) in
      (c, mk (wave e) (propagator e) rng' (scanlineCursor e))
  end.

(** [for (const pattern of remainingPatterns) if (pattern !== selectedPattern)
    this.propagator.addToPropagate(cellIndex, pattern);] *)
Definition push_removed (p : Propagator.t) (cellIndex selectedPattern : Z)
    (remainingPatterns : list Z) : Propagator.t :=
  fold_left
    (fun p pattern =>
       if negb (pattern =? selectedPattern)
       then Propagator.addToPropagate p cellIndex pattern else p)
    remainingPatterns p.

(** [step()]: its answer and the fields after the call. *)
Definition step (h : Heuristic) (e : t) : result (ObserveResult * t) :=
  let '(cellIndex, e1) := select h e in
  if cellIndex =? -1 then Ok (success, e1)
  else if cellIndex =? -2 then Ok (failure, e1)
  else
    let remainingPatterns := Wave.getPossiblePatterns (wave e1) cellIndex in
    let '(w2, selectedPattern, rng2) := Wave.collapse (wave e1) cellIndex (rng e1) in
    if selectedPattern =? -1
    then Ok (failure, mk w2 (propagator e1) rng2 (scanlineCursor e1))
    else
      let p2 := push_removed (propagator e1) cellIndex selectedPattern remainingPatterns in
      '(p3, w3, ok) ← Propagator.propagate p2 w2;
      Ok (if ok : bool then continue else failure, mk w3 p3 rng2 (scanlineCursor e1)).

(** [getState()] with the class's [patternCount] field. *)
Definition getState (patternCount : Z) (e : t) : WFCState :=
  let '(collapsedCount, contradiction) :=
    fold_left
      (fun '(c, k) i =>
         let count := Wave.getRemainingCount (wave e) i in
         ((if is1 count then c + 1 else c), (if is0 count then true else k)))
      (upto (Wave.size (wave e))) (0, false) in
  mkWFCState (Wave.size (wave e)) collapsedCount patternCount
    (collapsedCount =? Wave.size (wave e)) contradiction.

(** The part of [clear()] that the two classes share. *)
Definition clear (e : t) : result t :=
  p' ← Propagator.reset (propagator e);
  Ok (mk (Wave.clear (wave e)) p' (rng e) 0).

(** The loop of [run(maxSteps)], which the two classes share word for word:
    [while (maxSteps < 0 || steps < maxSteps)], leaving at the first answer
    that is not [continue].  The loop has no bound of its own when
    [maxSteps] is negative; [fuel] bounds its turns here. *)
Fixpoint run_loop (h : Heuristic) (fuel : nat) (maxSteps steps : Z) (e : t)
    : result (bool * t) :=
  if (maxSteps <? 0) || (steps <? maxSteps) then
    match fuel with
    | O => Throw FuelExhausted
    | S fuel' =>
        match step h e with
        | Ok (success, e') => Ok (true, e')
        | Ok (failure, e') => Ok (false, e')
        | Ok (continue, e') => run_loop h fuel' maxSteps (steps + 1) e'
        | Throw err => Throw err
        end
    end
  else Ok (true, e).

(** [run(maxSteps)]: one turn for each cell and one more are enough. *)
Definition run (h : Heuristic) (maxSteps : Z) (e : t) : result (bool * t) :=
  run_loop h (S (Z.to_nat (Wave.size (wave e)))) maxSteps 0 e.

End WithMath.
End Engine.

(* ===================================================================== *)
(** * src/core/overlapping-model.ts *)
(* ===================================================================== *)

Record OverlappingOptions := mkOverlappingOptions {
  opt_width : Z;
  opt_height : Z;
  opt_periodic : bool;
  opt_heuristic : Heuristic;
  opt_seed : Z;
  opt_patternSize : Z;
  opt_symmetry : Z;
  opt_periodicInput : bool;
  opt_ground : bool
}.

Module OverlappingModel.
Section WithMath.
Context {M : MathLib}.

Record t := mk {
  engine : Engine.t;
  patterns : list (list Z);     (* Uint8Array[] *)
  colors : list Z;
  N : Z;
  width : Z;
  height : Z;
  periodic : bool;
  ground : bool;
  heuristic : Heuristic;
  patternCount : Z
}.

Definition with_engine (m : t) (e : Engine.t) : t :=
  mk e (patterns m) (colors m) (N m) (width m) (height m) (periodic m)
     (ground m) (heuristic m) (patternCount m).

(** [extractColors]: the colour-index sample and the palette. *)
Definition extractColors (pixels : list Z) (width height : Z) : result (list Z * list Z) :=
  if width * height <? 0 then Throw RangeError
  else
    let '(sample, colors, _, _) :=
      fold_left
        (fun '(sample, colors, colorMap, i) color =>
           match (colorMap : gmap Z Z) !! color with
           | Some index => (wr sample i (wrap_uint8 index), colors, colorMap, i + 1)
           | None =>
               let index := Z.of_nat (length colors) in
               (wr sample i (wrap_uint8 index), colors ++ [color],
                <[color := index]> colorMap, i + 1)
           end)
        pixels (filled (width * height) 0, [], ∅, 0) in
    Ok (sample, colors).

(** A Uint8Array of [n * n] cells filled by [result[x + y * n] = f x y],
    [y] outer and [x] inner. *)
Definition tabulate (n : Z) (f : Z -> Z -> Z) : list Z :=
  fold_left
    (fun result y =>
       fold_left (fun result x => wr result (x + y * n) (wrap_uint8 (f x y)))
         (upto n) result)
    (upto n) (filled (n * n) 0).

(** A Uint8Array element stored from a read that may be [undefined]. *)
Definition byte (o : option Z) : Z := default 0 o.

Definition patternFromSample (sample : list Z) (sampleWidth sampleHeight n x y : Z) : list Z :=
  tabulate n (fun dx dy =>
    let sx := Z.rem (x + dx) sampleWidth in
    let sy := Z.rem (y + dy) sampleHeight in
    byte (rd sample (sx + sy * sampleWidth))).

(** 90 degrees clockwise *)
Definition rotate (n : Z) (p : list Z) : list Z :=
  tabulate n (fun x y => byte (rd p (n - 1 - y + x * n))).

(** horizontal reflection *)
Definition reflect (n : Z) (p : list Z) : list Z :=
  tabulate n (fun x y => byte (rd p (n - 1 - x + y * n))).

(** [hash]: the polynomial in base [C], last cell lowest; the BigInt is
    the key (its decimal string is injective). *)
Definition hash (C : Z) (p : list Z) : Z :=
  fst (fold_left (fun '(result, power) v => (result + v * power, power * C))
         (reverse p) (0, 1)).

Definition variants (n : Z) (p0 : list Z) : list (list Z) :=
  let p1 := reflect n p0 in
  let p2 := rotate n p0 in
  let p3 := reflect n p2 in
  let p4 := rotate n p2 in
  let p5 := reflect n p4 in
  let p6 := rotate n p4 in
  let p7 := reflect n p6 in
  [p0; p1; p2; p3; p4; p5; p6; p7].

(** The state of the extraction loops: [patterns], [patternIndices] and
    [weights]. *)
Definition extraction : Type := list (list Z) * gmap Z Z * list float.

(** The body of the loop over [k]: [ps[k]] is [undefined] for [k >= 8], and
    [hash] then raises [TypeError]. *)
Definition add_variant (C : Z) (ps : list (list Z)) (st : extraction) (k : Z)
    : result extraction :=
  let '(patterns, patternIndices, weights) := st in
  match rd ps k with
  | None => Throw TypeError
  | Some p =>
      let h := hash C p in
      match patternIndices !! h with
      | Some existingIndex =>
          Ok (patterns, patternIndices,
              wr weights existingIndex (PrimFloat.add (num (rd weights existingIndex)) 1))
      | None =>
          Ok (patterns ++ [p],
              <[h := Z.of_nat (length patterns)]> patternIndices,
              weights ++ [1%float])
      end
  end.

Definition extractPatterns (n C : Z) (sample : list Z) (sampleWidth sampleHeight : Z)
    (periodicInput : bool) (symmetry : Z) : result (list (list Z) * list float) :=
  let xmax := if periodicInput then sampleWidth else sampleWidth - n + 1 in
  let ymax := if periodicInput then sampleHeight else sampleHeight - n + 1 in
  '(patterns, _, weights) ←
    Propagator.for_each (upto ymax)
      (fun st y =>
         Propagator.for_each (upto xmax)
           (fun st x =>
              let ps := variants n (patternFromSample sample sampleWidth sampleHeight n x y) in
              Propagator.for_each (upto symmetry) (add_variant C ps) st)
           st)
      (([], ∅, []) : extraction);
  Ok (patterns, weights).

(** [agrees(p1, p2, dx, dy)]: the loops have no effect but their early
    [return false]. *)
Definition agrees (n : Z) (p1 p2 : list Z) (dx dy : Z) : bool :=
  let xmin := if dx <? 0 then 0 else dx in
  let xmax := if dx <? 0 then dx + n else n in
  let ymin := if dy <? 0 then 0 else dy in
  let ymax := if dy <? 0 then dy + n else n in
  forallb
    (fun y =>
       forallb
         (fun x => bool_decide (rd p1 (x + n * y) = rd p2 (x - dx + n * (y - dy))))
         (seqZ xmin (xmax - xmin)))
    (seqZ ymin (ymax - ymin)).

Definition buildPropagator (n : Z) (patterns : list (list Z)) : list (list (list Z)) :=
  let T := Z.of_nat (length patterns) in
  map
    (fun p1 =>
       map
         (fun d =>
            filter
              (fun t2 => agrees n p1 (default [] (rd patterns t2)) (tbl DX d) (tbl DY d) = true)
              (upto T))
         (upto 4))
    patterns.

(** [if (wave.get(cellIndex, t)) { wave.remove(cellIndex, t);
    propagator.addToPropagate(cellIndex, t); }] *)
Definition ban (e : Engine.t) (cellIndex t : Z) : Engine.t :=
  if Wave.get (Engine.wave e) cellIndex t then
    Engine.mk (fst (Wave.remove (Engine.wave e) cellIndex t))
      (Propagator.addToPropagate (Engine.propagator e) cellIndex t)
      (Engine.rng e) (Engine.scanlineCursor e)
  else e.

(** The two loops of [applyGroundConstraint], before its call of
    [propagate]. *)
Definition ground_bans (width height T : Z) (e : Engine.t) : Engine.t :=
  fold_left
    (fun e x =>
       let e :=
         fold_left (fun e t => ban e (x + (height - 1) * width) t) (upto (T - 1)) e in
       fold_left (fun e y => ban e (x + y * width) (T - 1)) (upto (height - 1)) e)
    (upto width) e.

(** [applyGroundConstraint()]; the boolean of [propagate] is dropped. *)
Definition applyGroundConstraint (width height T : Z) (e : Engine.t) : result Engine.t :=
  let e1 := ground_bans width height T e in
  '(p, w, _) ← Propagator.propagate (Engine.propagator e1) (Engine.wave e1);
  Ok (Engine.mk w p (Engine.rng e1) (Engine.scanlineCursor e1)).

(** [new OverlappingModel(inputPixels, inputWidth, inputHeight, options)] *)
Definition new (inputPixels : list Z) (inputWidth inputHeight : Z)
    (options : OverlappingOptions) : result t :=
  let n := opt_patternSize options in
  let rng := Random.new (opt_seed options) in
  '(sample, colors) ← extractColors inputPixels inputWidth inputHeight;
  '(patterns, weights) ←
    extractPatterns n (Z.of_nat (length colors)) sample inputWidth inputHeight
      (opt_periodicInput options) (opt_symmetry options);
  let patternCount := Z.of_nat (length patterns) in
  let propagatorData := buildPropagator n patterns in
  wave ← Wave.new (opt_width options) (opt_height options) weights;
  propagator ←
    Propagator.new (opt_width options) (opt_height options) patternCount
      (opt_periodic options) propagatorData;
  let e := Engine.mk wave propagator rng 0 in
  e' ← (if opt_ground options
        then applyGroundConstraint (opt_width options) (opt_height options) patternCount e
        else Ok e);
  Ok (mk e' patterns colors n (opt_width options) (opt_height options)
        (opt_periodic options) (opt_ground options) (opt_heuristic options)
        patternCount).

Definition step (m : t) : result (ObserveResult * t) :=
  '(r, e) ← Engine.step (heuristic m) (engine m);
  Ok (r, with_engine m e).

(** [run(maxSteps = -1)] *)
Definition run (maxSteps : Z) (m : t) : result (bool * t) :=
  '(b, e) ← Engine.run (heuristic m) maxSteps (engine m);
  Ok (b, with_engine m e).

Definition getState (m : t) : WFCState := Engine.getState (patternCount m) (engine m).

Definition clear (m : t) : result t :=
  e ← Engine.clear (engine m);
  e' ← (if ground m
        then applyGroundConstraint (width m) (height m) (patternCount m) e
        else Ok e);
  Ok (with_engine m e').

End WithMath.
End OverlappingModel.

(* ===================================================================== *)
(** * src/core/simple-tiled-model.ts *)
(* ===================================================================== *)

Record SimpleTiledOptions := mkSimpleTiledOptions {
  topt_width : Z;
  topt_height : Z;
  topt_periodic : bool;
  topt_heuristic : Heuristic;
  topt_seed : Z;
  topt_blackBackground : bool
}.

Module SimpleTiledModel.
Section WithMath.
Context {M : MathLib}.

Record t := mk {
  engine : Engine.t;
  tiles : list (list Z);        (* Int32Array[] *)
  tilenames : list string;
  weights : list float;
  tilesize : Z;
  width : Z;
  height : Z;
  periodic : bool;
  blackBackground : bool;
  heuristic : Heuristic;
  patternCount : Z
}.

Definition with_engine (m : t) (e : Engine.t) : t :=
  mk e (tiles m) (tilenames m) (weights m) (tilesize m) (width m) (height m)
     (periodic m) (blackBackground m) (heuristic m) (patternCount m).

(** [new SimpleTiledModel(tiles, tilenames, tilesize, weights,
    propagatorData, options)] *)
Definition new (tiles : list (list Z)) (tilenames : list string) (tilesize : Z)
    (weights : list float) (propagatorData : list (list (list Z)))
    (options : SimpleTiledOptions) : result t :=
  let patternCount := Z.of_nat (length tiles) in
  let rng := Random.new (topt_seed options) in
  wave ← Wave.new (topt_width options) (topt_height options) weights;
  propagator ←
    Propagator.new (topt_width options) (topt_height options) patternCount
      (topt_periodic options) propagatorData;
  Ok (mk (Engine.mk wave propagator rng 0) tiles tilenames weights tilesize
        (topt_width options) (topt_height options) (topt_periodic options)
        (topt_blackBackground options) (topt_heuristic options) patternCount).

Definition step (m : t) : result (ObserveResult * t) :=
  '(r, e) ← Engine.step (heuristic m) (engine m);
  Ok (r, with_engine m e).

(** [run(maxSteps = -1)] *)
Definition run (maxSteps : Z) (m : t) : result (bool * t) :=
  '(b, e) ← Engine.run (heuristic m) maxSteps (engine m);
  Ok (b, with_engine m e).

Definition getState (m : t) : WFCState := Engine.getState (patternCount m) (engine m).

Definition clear (m : t) : result t :=
  e ← Engine.clear (engine m);
  Ok (with_engine m e).

End WithMath.
End SimpleTiledModel.

(* ===================================================================== *)
(** * src/core/simple-tiled-model.ts, second part (tileset-loader.ts): from the parsed XML to the propagator data *)
(* ===================================================================== *)

(** The attributes of a [<tile>] element after the defaults of the loader
    ([symmetry] defaults to ["X"], [weight] to 1.0). *)
Record TileElement := mkTileElement {
  tile_name : string;
  tile_symmetry : string;
  tile_weight : float
}.

(** A [<neighbor>] element: each side is a tile name and, when the attribute
    has a second part, the variant it parses to. *)
Record NeighborElement := mkNeighborElement {
  left_name : string;
  left_variant : option Z;
  right_name : string;
  right_variant : option Z
}.

(** What [loadTileset] returns, without the pixels (fetching and decoding the
    images is outside the core). *)
Record TilesetData := mkTilesetData {
  tileset_names : list string;
  tileset_weights : list float;
  tileset_action : list (list Z);
  tileset_propagatorData : list (list (list Z))
}.

Module TilesetLoader.

Record Symmetry := mkSymmetry {
  cardinality : Z;
  sym_a : Z -> Z;
  sym_b : Z -> Z
}.

Definition getSymmetry (sym : string) : Symmetry :=
  if bool_decide (sym = "L"%string) then
    mkSymmetry 4 (fun i => Z.rem (i + 1) 4)
      (fun i => if Z.rem i 2 =? 0 then i + 1 else i - 1)
  else if bool_decide (sym = "T"%string) then
    mkSymmetry 4 (fun i => Z.rem (i + 1) 4)
      (fun i => if Z.rem i 2 =? 0 then i else 4 - i)
  else if bool_decide (sym = "I"%string) then
    mkSymmetry 2 (fun i => 1 - i) (fun i => i)
  else if bool_decide (sym = String (Ascii.ascii_of_nat 92) EmptyString) then
    mkSymmetry 2 (fun i => 1 - i) (fun i => 1 - i)
  else if bool_decide (sym = "F"%string) then
    mkSymmetry 8
      (fun i => if i <? 4 then Z.rem (i + 1) 4 else 4 + Z.rem (i - 1) 4)
      (fun i => if i <? 4 then i + 4 else i - 4)
  else mkSymmetry 1 (fun i => i) (fun i => i).

(** The eight entries of [map] for variant [t] of a tile whose variants
    start at [T]. *)
Definition action_row (sy : Symmetry) (T t : Z) : list Z :=
  let a := sym_a sy in
  let b := sym_b sy in
  map (fun v => v + T)
    [t; a t; a (a t); a (a (a t)); b t; b (a t); b (a (a t)); b (a (a (a t)))].

(** The state of the loop over the tiles: [action], [firstOccurrence],
    [tilenames] and [weightList]. *)
Definition tiles_state : Type := list (list Z) * gmap string Z * list string * list float.

(** The decimal numeral of a variant index in a tile's display name. *)
Definition variant_name (name : string) (t : Z) : string :=
  (name +:+ " " +:+ pretty t)%string.

Definition add_tile (subset : option (gset string)) (st : tiles_state) (x : TileElement)
    : tiles_state :=
  let '(action, firstOccurrence, tilenames, weightList) := st in
  if match subset with Some s => negb (bool_decide (tile_name x ∈ s)) | None => false end
  then st
  else
    let sy := getSymmetry (tile_symmetry x) in
    let T := Z.of_nat (length action) in
    let variantsOf := upto (cardinality sy) in
    (action ++ map (action_row sy T) variantsOf,
     <[tile_name x := T]> firstOccurrence,
     tilenames ++ map (variant_name (tile_name x)) variantsOf,
     weightList ++ map (fun _ => tile_weight x) variantsOf).

(** [action[i][k]]: a missing row raises [TypeError]; a missing entry is
    [undefined], which raises on its next use as a row index. *)
Definition action_at (action : list (list Z)) (i k : Z) : result Z :=
  match rd action i with
  | Some row =>
      match rd row k with
      | Some v => Ok v
      | None => Throw TypeError
      end
  | None => Throw TypeError
  end.

(** [dense[d][t1][t2] = v] (the indices are in range, by
    [action]'s construction). *)
Definition set_dense (dense : list (list (list bool))) (d t1 t2 : Z) (v : bool)
    : list (list (list bool)) :=
  match rd dense d with
  | Some plane =>
      match rd plane t1 with
      | Some row => wr dense d (wr plane t1 (wr row t2 v))
      | None => dense
      end
  | None => dense
  end.

Definition get_dense (dense : list (list (list bool))) (d t1 t2 : Z) : bool :=
  match rd dense d with
  | Some plane =>
      match rd plane t1 with
      | Some row => default false (rd row t2)
      | None => false
      end
  | None => false
  end.

(** The body of the loop over the [<neighbor>] elements.  A rule naming a
    tile outside the subset, or a tile that was never declared, is
    skipped. *)
Definition add_neighbor (subset : option (gset string)) (action : list (list Z))
    (firstOccurrence : gmap string Z) (dense : list (list (list bool)))
    (x : NeighborElement) : result (list (list (list bool))) :=
  if match subset with
     | Some s => negb (bool_decide (left_name x ∈ s)) || negb (bool_decide (right_name x ∈ s))
     | None => false
     end
  then Ok dense
  else
    match firstOccurrence !! left_name x, firstOccurrence !! right_name x with
    | Some fl, Some fr =>
        L ← action_at action fl (default 0 (left_variant x));
        D ← action_at action L 1;
        R ← action_at action fr (default 0 (right_variant x));
        U ← action_at action R 1;
        R6 ← action_at action R 6; L6 ← action_at action L 6;
        L4 ← action_at action L 4; R4 ← action_at action R 4;
        L2 ← action_at action L 2; R2 ← action_at action R 2;
        let dense := set_dense dense 0 R L true in
        let dense := set_dense dense 0 R6 L6 true in
        let dense := set_dense dense 0 L4 R4 true in
        let dense := set_dense dense 0 L2 R2 true in
        D6 ← action_at action D 6; U6 ← action_at action U 6;
        U4 ← action_at action U 4; D4 ← action_at action D 4;
        D2 ← action_at action D 2; U2 ← action_at action U 2;
        let dense := set_dense dense 1 U D true in
        let dense := set_dense dense 1 D6 U6 true in
        let dense := set_dense dense 1 U4 D4 true in
        let dense := set_dense dense 1 D2 U2 true in
        Ok dense
    | _, _ => Ok dense
    end.

(** Directions 2 and 3 are the transposes of directions 0 and 1. *)
Definition transpose_dense (totalTiles : Z) (dense : list (list (list bool)))
    : list (list (list bool)) :=
  fold_left
    (fun dense t2 =>
       fold_left
         (fun dense t1 =>
            let dense := set_dense dense 2 t2 t1 (get_dense dense 0 t1 t2) in
            set_dense dense 3 t2 t1 (get_dense dense 1 t1 t2))
         (upto totalTiles) dense)
    (upto totalTiles) dense.

Definition sparse (totalTiles : Z) (dense : list (list (list bool))) : list (list (list Z)) :=
  map
    (fun t =>
       map (fun d => filter (fun t2 => get_dense dense d t t2 = true) (upto totalTiles))
         (upto 4))
    (upto totalTiles).

(** [loadTileset] from the parsed document on. *)
Definition loadTileset (tileElements : list TileElement)
    (neighborElements : list NeighborElement) (subset : option (gset string))
    : result TilesetData :=
  let '(action, firstOccurrence, tilenames, weightList) :=
    fold_left (add_tile subset) tileElements (([], ∅, [], []) : tiles_state) in
  let totalTiles := Z.of_nat (length action) in
  let dense0 := filled 4 (filled totalTiles (filled totalTiles false)) in
  dense ←
    Propagator.for_each neighborElements (add_neighbor subset action firstOccurrence) dense0;
  Ok (mkTilesetData tilenames weightList action
        (sparse totalTiles (transpose_dense totalTiles dense))).

End TilesetLoader.

(* ===================================================================== *)
(** * Invariants and specifications *)
(* ===================================================================== *)

Definition popcount (w : Wave.t) (i : Z) : Z :=
  Z.of_nat (length (Wave.getPossiblePatterns w i)).

Record shape (w : Wave.t) : Prop := mk_shape {
  sh_T : 0 <= Wave.patternCount w;
  sh_size : 0 <= Wave.size w;
  sh_data : Z.of_nat (length (Wave.data w)) = Wave.size w * Wave.patternCount w;
  sh_bits : forall k b, rd (Wave.data w) k = Some b -> b = 0 \/ b = 1;
  sh_weights : Z.of_nat (length (Wave.weights w)) = Wave.patternCount w;
  sh_plogp : Z.of_nat (length (Wave.plogp w)) = Wave.patternCount w;
  sh_plogpSum : Z.of_nat (length (EntropyMemo.plogpSum (Wave.memo w))) = Wave.size w;
  sh_sum : Z.of_nat (length (EntropyMemo.sum (Wave.memo w))) = Wave.size w;
  sh_logSum : Z.of_nat (length (EntropyMemo.logSum (Wave.memo w))) = Wave.size w;
  sh_count : Z.of_nat (length (EntropyMemo.patternCount (Wave.memo w))) = Wave.size w;
  sh_entropy : Z.of_nat (length (EntropyMemo.entropy (Wave.memo w))) = Wave.size w
}.

Definition same_static (w w' : Wave.t) : Prop :=
  Wave.plogp w' = Wave.plogp w /\ Wave.weights w' = Wave.weights w /\
  Wave.minAbsHalfPlogp w' = Wave.minAbsHalfPlogp w /\
  Wave.startingEntropy w' = Wave.startingEntropy w /\
  Wave.width w' = Wave.width w /\ Wave.height w' = Wave.height w /\
  Wave.size w' = Wave.size w /\ Wave.patternCount w' = Wave.patternCount w.


Definition counted (w : Wave.t) : Prop :=
  Wave.patternCount w < 4294967296 /\
  forall i, 0 <= i < Wave.size w ->
    rd (EntropyMemo.patternCount (Wave.memo w)) i = Some (popcount w i).


Section Defs.
Context {M : MathLib}.

(** A cell of a wave that has just been built or cleared. *)
Definition fresh_cell (w : Wave.t) (i : Z) : Prop :=
  (forall t, 0 <= t < Wave.patternCount w -> Wave.get w i t = true) /\
  rd (EntropyMemo.sum (Wave.memo w)) i = Some (Wave.reduce_add (Wave.weights w)) /\
  rd (EntropyMemo.plogpSum (Wave.memo w)) i = Some (Wave.reduce_add (Wave.plogp w)) /\
  rd (EntropyMemo.logSum (Wave.memo w)) i = Some (Math_log (Wave.reduce_add (Wave.weights w))) /\
  rd (EntropyMemo.patternCount (Wave.memo w)) i = Some (wrap_uint32 (Wave.patternCount w)) /\
  rd (EntropyMemo.entropy (Wave.memo w)) i = Some (Wave.startingEntropy w).


(** [collapse] removes, from the one cell, patterns taken in index
    order. *)
Definition removes (w : Wave.t) (i : Z) (ts : list Z) : Wave.t :=
  fold_left (fun w t => fst (Wave.remove w i t)) ts w.

(** The states of a wave: built by the constructor, then changed by [remove],
    [collapse] and [clear], called with a cell and a pattern of the grid. *)
Inductive reachable (W H : Z) (ws : list float) : Wave.t -> Prop :=
| reach_new w : Wave.new W H ws = Ok w -> reachable W H ws w
| reach_remove w i t :
    reachable W H ws w -> 0 <= i < Wave.size w -> 0 <= t < Wave.patternCount w ->
    reachable W H ws (fst (Wave.remove w i t))
| reach_collapse w i rng :
    reachable W H ws w -> 0 <= i < Wave.size w ->
    reachable W H ws (fst (fst (Wave.collapse w i rng)))
| reach_clear w : reachable W H ws w -> reachable W H ws (Wave.clear w).

(** [start - xs[r1] - xs[r2] - ...], one subtraction per removed pattern. *)
Definition sub_all (xs : list float) (rs : list Z) (start : float) : float :=
  fold_left (fun acc t => PrimFloat.sub acc (num (rd xs t))) rs start.

Definition memo_tracks (w : Wave.t) (i : Z) (rs : list Z) : Prop :=
  let s := sub_all (Wave.weights w) rs (Wave.reduce_add (Wave.weights w)) in
  let p := sub_all (Wave.plogp w) rs (Wave.reduce_add (Wave.plogp w)) in
  NoDup rs /\
  (forall t, 0 <= t < Wave.patternCount w -> (Wave.get w i t = false <-> t ∈ rs)) /\
  rd (EntropyMemo.sum (Wave.memo w)) i = Some s /\
  rd (EntropyMemo.plogpSum (Wave.memo w)) i = Some p /\
  (rs = [] \/ PrimFloat.ltb 0 s = true ->
   rd (EntropyMemo.logSum (Wave.memo w)) i = Some (Math_log s)) /\
  (rs <> [] ->
   rd (EntropyMemo.entropy (Wave.memo w)) i =
   Some (if PrimFloat.ltb 0 s then PrimFloat.sub (Math_log s) (PrimFloat.div p s) else 0%float)).

Definition tracked (w : Wave.t) : Prop :=
  shape w /\ counted w /\ forall i, 0 <= i < Wave.size w -> exists rs, memo_tracks w i rs.




(** ** The propagator against the wave it serves *)

(** The adjacency data has a row per pattern and a list per direction, and
    names patterns only. *)
Definition data_wf (T : Z) (pd : list (list (list Z))) : Prop :=
  forall t d, 0 <= t < T -> 0 <= d < 4 ->
    exists row l, rd pd t = Some row /\ rd row d = Some l /\
                  forall x, x ∈ l -> 0 <= x < T.

(** The live pairs of the stack name patterns, and the stack has room for
    one pair per bit of the wave that is still set. *)
Definition stack_ok (p : Propagator.t) (w : Wave.t) : Prop :=
  0 <= Propagator.stackSize p /\
  Z.of_nat (length (Propagator.stack p)) = Wave.size w * Wave.patternCount w * 2 /\
  Propagator.stackSize p + Z.of_nat (Propagator.ones (Wave.data w))
    <= Wave.size w * Wave.patternCount w /\
  forall k, 0 <= k < Propagator.stackSize p ->
    exists c t, rd (Propagator.stack p) (k * 2) = Some c /\
                rd (Propagator.stack p) (k * 2 + 1) = Some t /\
                0 <= t < Wave.patternCount w.

Definition serves (p : Propagator.t) (w : Wave.t) : Prop :=
  Propagator.patternCount p = Wave.patternCount w /\
  data_wf (Wave.patternCount w) (Propagator.propagatorData p) /\
  stack_ok p w.

(** A sequence of removals, each of a pattern of the grid that is possible
    in its cell when it is removed. *)
Fixpoint removals (w : Wave.t) (rs : list (Z * Z)) : Wave.t :=
  match rs with
  | [] => w
  | (j, t) :: rs' => removals (fst (Wave.remove w j t)) rs'
  end.

Fixpoint performed (w : Wave.t) (rs : list (Z * Z)) : Prop :=
  match rs with
  | [] => True
  | (j, t) :: rs' =>
      (0 <= t < Wave.patternCount w /\ Wave.get w j t = true) /\
      performed (fst (Wave.remove w j t)) rs'
  end.

(** [remaining[i] === 0] *)
Definition zero_cell (w : Wave.t) (i : Z) : Prop :=
  Wave.getRemainingCount w i = Some 0.

(** The fields of a propagator that no method changes. *)
Definition same_config (p p' : Propagator.t) : Prop :=
  Propagator.propagatorData p' = Propagator.propagatorData p /\
  Propagator.width p' = Propagator.width p /\
  Propagator.height p' = Propagator.height p /\
  Propagator.patternCount p' = Propagator.patternCount p /\
  Propagator.periodic p' = Propagator.periodic p.

(** What a loop of [propagate] has done so far: the removals it performed,
    each followed by a push. *)
Definition trace_ok (p : Propagator.t) (w : Wave.t) (p' : Propagator.t) (w' : Wave.t)
    (rs : list (Z * Z)) : Prop :=
  performed w rs /\ w' = removals w rs /\ serves p' w' /\ same_config p p' /\
  Propagator.stackSize p' = Propagator.stackSize p + Z.of_nat (length rs).

(** What both noisy scans answer: [-2] at the first cell at zero; otherwise
    the initial [argmin] or a cell of the scan that is not collapsed. *)
Definition scan_answer (w : Wave.t) (cells : list Z) (a res : Z) : Prop :=
  (res = -2 /\ exists i, i ∈ cells /\ is0 (Wave.getRemainingCount w i) = true) \/
  ((forall i, i ∈ cells -> is0 (Wave.getRemainingCount w i) = false) /\
   (res = a \/ (res ∈ cells /\ is1 (Wave.getRemainingCount w res) = false))).

(** [serves], with room left for [k] more pushes. *)
Definition serves_slack (k : Z) (p : Propagator.t) (w : Wave.t) : Prop :=
  Propagator.patternCount p = Wave.patternCount w /\
  data_wf (Wave.patternCount w) (Propagator.propagatorData p) /\
  0 <= Propagator.stackSize p /\
  Z.of_nat (length (Propagator.stack p)) = Wave.size w * Wave.patternCount w * 2 /\
  Propagator.stackSize p + k + Z.of_nat (Propagator.ones (Wave.data w))
    <= Wave.size w * Wave.patternCount w /\
  forall n, 0 <= n < Propagator.stackSize p ->
    exists c t, rd (Propagator.stack p) (n * 2) = Some c /\
                rd (Propagator.stack p) (n * 2 + 1) = Some t /\
                0 <= t < Wave.patternCount w.

(** ** The run state of a model *)

Definition engine_ok (e : Engine.t) : Prop :=
  tracked (Engine.wave e) /\
  serves (Engine.propagator e) (Engine.wave e) /\
  0 <= Engine.scanlineCursor e.

(** The invariant without the memoized scalars (it needs no bound on the
    number of patterns). *)
Definition engine_base (e : Engine.t) : Prop :=
  shape (Engine.wave e) /\ serves (Engine.propagator e) (Engine.wave e).

(** Propagation has been run to its end: the stack is empty, unless
    [propagate] stopped at a cell with no pattern left. *)
Definition settled (e : Engine.t) : Prop :=
  Propagator.stackSize (Engine.propagator e) = 0 \/ exists j, zero_cell (Engine.wave e) j.

(** The engine after some removals, each pushed: what the ground constraint,
    [step] and [propagate] do to it. *)
Definition evolved (e e' : Engine.t) : Prop :=
  exists rs,
    performed (Engine.wave e) rs /\
    Engine.wave e' = removals (Engine.wave e) rs /\
    serves (Engine.propagator e') (Engine.wave e') /\
    same_config (Engine.propagator e) (Engine.propagator e').

(** The ground constraint, as the specification states it: on the bottom
    row every pattern but the last is forbidden, elsewhere the last one
    is. *)
Definition ground_holds (W H T : Z) (w : Wave.t) : Prop :=
  forall x, 0 <= x < W ->
    (forall t, 0 <= t < T - 1 -> Wave.get w (x + (H - 1) * W) t = false) /\
    (forall y, 0 <= y < H - 1 -> Wave.get w (x + y * W) (T - 1) = false).

(** The pairs [applyGroundConstraint] bans, in the order of its loops. *)
Definition ground_pairs (W H T : Z) : list (Z * Z) :=
  flat_map
    (fun x =>
       map (fun t => (x + (H - 1) * W, t)) (upto (T - 1)) ++
       map (fun y => (x + y * W, T - 1)) (upto (H - 1)))
    (upto W).

(** ** The states of the two models *)

Definition overlapping_ok (m : OverlappingModel.t) : Prop :=
  engine_ok (OverlappingModel.engine m) /\
  settled (OverlappingModel.engine m) /\
  OverlappingModel.patternCount m = Wave.patternCount (Engine.wave (OverlappingModel.engine m)) /\
  Wave.size (Engine.wave (OverlappingModel.engine m)) =
    OverlappingModel.width m * OverlappingModel.height m /\
  (OverlappingModel.ground m = true ->
   ground_holds (OverlappingModel.width m) (OverlappingModel.height m)
     (OverlappingModel.patternCount m) (Engine.wave (OverlappingModel.engine m))).

(** A model built by the constructor (from a sample with fewer than 2^32
    patterns, the range of the Uint32Array of counts), then driven by [step]
    and [clear]. *)
Inductive overlapping_reachable : OverlappingModel.t -> Prop :=
| or_new pixels iw ih opts m :
    OverlappingModel.new pixels iw ih opts = Ok m ->
    OverlappingModel.patternCount m < 4294967296 ->
    overlapping_reachable m
| or_step m r m' :
    overlapping_reachable m -> OverlappingModel.step m = Ok (r, m') ->
    overlapping_reachable m'
| or_clear m m' :
    overlapping_reachable m -> OverlappingModel.clear m = Ok m' ->
    overlapping_reachable m'.

(** The input the tileset loader hands to [SimpleTiledModel]: one weight
    per tile, and adjacency data over the tiles. *)
Definition tiled_input_ok (tiles : list (list Z)) (weights : list float)
    (pd : list (list (list Z))) : Prop :=
  length weights = length tiles /\
  Z.of_nat (length tiles) < 4294967296 /\
  data_wf (Z.of_nat (length tiles)) pd.

Definition tiled_ok (m : SimpleTiledModel.t) : Prop :=
  engine_ok (SimpleTiledModel.engine m) /\
  settled (SimpleTiledModel.engine m) /\
  SimpleTiledModel.patternCount m = Wave.patternCount (Engine.wave (SimpleTiledModel.engine m)).

Inductive tiled_reachable : SimpleTiledModel.t -> Prop :=
| tr_new tiles tilenames tilesize weights pd opts m :
    tiled_input_ok tiles weights pd ->
    SimpleTiledModel.new tiles tilenames tilesize weights pd opts = Ok m ->
    tiled_reachable m
| tr_step m r m' :
    tiled_reachable m -> SimpleTiledModel.step m = Ok (r, m') -> tiled_reachable m'
| tr_clear m m' :
    tiled_reachable m -> SimpleTiledModel.clear m = Ok m' -> tiled_reachable m'.

End Defs.

(* ===================================================================== *)
(** * Further definitions for the statements *)
(* ===================================================================== *)

(** The value of a call that returns. *)
Definition ok_value {A : Type} (r : result A) : is_ok r = true -> A :=
  match r return is_ok r = true -> A with
  | Ok a => fun _ => a
  | Throw _ => fun H => False_rect A (eq_ind false (fun b => if b then False else True) I true H)
  end.

(** ** The memoized scalars, recomputed from the mask *)

(** The sum of [xs[t]] over the patterns [t] possible in cell [i], in index
    order. *)
Definition recompute (xs : list float) (w : Wave.t) (i : Z) : float :=
  fold_left (fun a t => PrimFloat.add a (num (rd xs t))) (Wave.getPossiblePatterns w i) 0%float.

Section Recompute.
Context {M : MathLib}.

(** The specification's invariant on cell [i]: every memoized scalar equals
    its recompute from the mask. *)
Definition memo_matches_recompute (w : Wave.t) (i : Z) : Prop :=
  let m := Wave.memo w in
  let s := num (rd (EntropyMemo.sum m) i) in
  rd (EntropyMemo.patternCount m) i = Some (popcount w i) /\
  rd (EntropyMemo.sum m) i = Some (recompute (Wave.weights w) w i) /\
  rd (EntropyMemo.plogpSum m) i = Some (recompute (Wave.plogp w) w i) /\
  rd (EntropyMemo.logSum m) i = Some (Math_log s) /\
  rd (EntropyMemo.entropy m) i =
    Some (if PrimFloat.eqb s 0 then 0%float
          else PrimFloat.sub (num (rd (EntropyMemo.logSum m) i))
                 (PrimFloat.div (num (rd (EntropyMemo.plogpSum m) i)) s)).

(** ** The keys of the entropy heuristic *)

(** The key [getMinEntropyCell] holds for each open cell it visits: the
    cell's entropy, plus the noise when the loop draws it. *)
Fixpoint minEntropy_keys (w : Wave.t) (cells : list Z) (minEntropy : float)
    (rng : Random.t) : list (Z * float) :=
  match cells with
  | [] => []
  | i :: rest =>
      let count := rd (EntropyMemo.patternCount (Wave.memo w)) i in
      if is1 count then minEntropy_keys w rest minEntropy rng
      else if is0 count then []
      else
        let e := num (rd (EntropyMemo.entropy (Wave.memo w)) i) in
        if PrimFloat.leb e minEntropy then
          let '(r, rng') := Random.next rng in
          let key := PrimFloat.add e (PrimFloat.mul r (Wave.minAbsHalfPlogp w)) in
          (i, key) ::
          minEntropy_keys w rest (if PrimFloat.ltb key minEntropy then key else minEntropy) rng'
        else (i, e) :: minEntropy_keys w rest minEntropy rng
  end.

(** ** Masks that only shrink *)

Definition shrinks (w w' : Wave.t) : Prop :=
  (forall i t, Wave.get w i t = false -> Wave.get w' i t = false) /\
  (forall i, 0 <= i < Wave.size w ->
     exists n n', Wave.getRemainingCount w i = Some n /\
                  Wave.getRemainingCount w' i = Some n' /\ n' <= n).

(** ** What [step] answers *)

(** The answer [r] of [step] against the cell index [c] its heuristic
    yields on the wave [w]. *)
Definition step_answer (h : Heuristic) (e : Engine.t) (r : ObserveResult) : Prop :=
  let c := fst (Engine.select h e) in
  let w := Engine.wave e in
  (c = -1 -> r = success) /\
  (c = -2 -> r = failure /\ exists j, zero_cell w j) /\
  (c <> -1 -> c <> -2 ->
   0 <= c < Wave.size w /\ Wave.isCollapsed w c = false /\ ~ zero_cell w c /\ r <> success) /\
  ((forall i, 0 <= i < Wave.size w -> Wave.isCollapsed w i = true) -> c = -1) /\
  (h <> scanline_h -> (exists j, zero_cell w j) -> c = -2).

(** ** Driving the propagator one pair at a time *)

(** A caller's loop over [propagateStep]: until it reports [done] or a
    contradiction. *)
Fixpoint drive (fuel : nat) (p : Propagator.t) (w : Wave.t)
    : result (Propagator.t * Wave.t * bool) :=
  match Propagator.propagateStep p w with
  | Throw err => Throw err
  | Ok (p', w', r) =>
      if Propagator.contradiction r then Ok (p', w', false)
      else if Propagator.done r then Ok (p', w', true)
      else
        match fuel with
        | O => Throw FuelExhausted
        | S fuel' => drive fuel' p' w'
        end
  end.

(** The cells that are open: neither collapsed nor at zero. *)
Definition open_cell (w : Wave.t) (i : Z) : bool :=
  negb (is0 (Wave.getRemainingCount w i)) && negb (is1 (Wave.getRemainingCount w i)).

Definition opens (w : Wave.t) : nat :=
  length (filter (fun i => open_cell w i = true) (upto (Wave.size w))).

End Recompute.

(** ** Patterns and adjacency *)

(** An [n] by [n] array of bytes, as [patternFromSample], [rotate] and
    [reflect] build them. *)
Definition is_pattern (n : Z) (p : list Z) : Prop :=
  Z.of_nat (length p) = n * n /\ Forall (fun v => 0 <= v < 256) p.

(** [data[t][d]] lists [t2]. *)
Definition allowed (pd : list (list (list Z))) (t d t2 : Z) : Prop :=
  exists row l, rd pd t = Some row /\ rd row d = Some l /\ t2 ∈ l.

(** The number [hash] computes, on the list of cells last cell first. *)
Fixpoint place_value (C : Z) (q : list Z) : Z :=
  match q with
  | [] => 0
  | v :: q' => v + C * place_value C q'
  end.

(** What the loops of [extractPatterns] keep, for patterns that all satisfy
    [G]: one weight per pattern, and [patternIndices] mapping the hash of
    each pattern to its index and nothing else. *)
Definition extraction_inv (C : Z) (G : list Z -> Prop) (st : OverlappingModel.extraction)
    : Prop :=
  let '(patterns, patternIndices, weights) := st in
  length patterns = length weights /\ Forall G patterns /\
  (forall i p, rd patterns i = Some p -> patternIndices !! OverlappingModel.hash C p = Some i) /\
  (forall h i, patternIndices !! h = Some i ->
     exists p, rd patterns i = Some p /\ OverlappingModel.hash C p = h).

(** The patterns [st'] holds include those of [st]. *)
Definition extends (st st' : OverlappingModel.extraction) : Prop :=
  forall p, p ∈ fst (fst st) -> p ∈ fst (fst st').

(** [p] is variant [k] of the window of the sample at [(x, y)], for a
    window and a variant the loops of [extractPatterns] visit. *)
Definition window_variant (n : Z) (sample : list Z) (sw sh : Z) (periodicInput : bool)
    (symmetry : Z) (x y k : Z) (p : list Z) : Prop :=
  0 <= x < (if periodicInput then sw else sw - n + 1) /\
  0 <= y < (if periodicInput then sh else sh - n + 1) /\
  0 <= k < symmetry /\
  rd (OverlappingModel.variants n (OverlappingModel.patternFromSample sample sw sh n x y)) k
    = Some p.

(** ** The tileset loader *)

(** Every row of [action] has its eight entries, each the index of a row. *)
Definition action_ok (action : list (list Z)) : Prop :=
  Forall (fun row => length row = 8%nat /\
                     Forall (fun v => 0 <= v < Z.of_nat (length action)) row) action.

(** What the loop over the tiles keeps: one name and one weight per row of
    [action], and [firstOccurrence] naming rows. *)
Definition tiles_inv (st : TilesetLoader.tiles_state) : Prop :=
  let '(action, firstOccurrence, tilenames, weightList) := st in
  length tilenames = length action /\ length weightList = length action /\
  action_ok action /\
  map_Forall (fun _ v => 0 <= v < Z.of_nat (length action)) firstOccurrence.

(** [dense] has a row of [T] entries for each direction and tile. *)
Definition dense_ok (T : Z) (dense : list (list (list bool))) : Prop :=
  forall d t1, 0 <= d < 4 -> 0 <= t1 < T ->
    exists plane row, rd dense d = Some plane /\ rd plane t1 = Some row /\
                      Z.of_nat (length row) = T.

(** The variant a rule names, when it names one, is one of the eight
    entries of a row of [action]. *)
Definition variants_ok (x : NeighborElement) : Prop :=
  (forall v, left_variant x = Some v -> 0 <= v < 8) /\
  (forall v, right_variant x = Some v -> 0 <= v < 8).

(** The tiles a rule names are loaded: in the subset, when there is one,
    and declared. *)
Definition rule_used (subset : option (gset string)) (firstOccurrence : gmap string Z)
    (x : NeighborElement) : Prop :=
  (forall s, subset = Some s -> left_name x ∈ s /\ right_name x ∈ s) /\
  is_Some (firstOccurrence !! left_name x) /\ is_Some (firstOccurrence !! right_name x).

(** What one rule does to the table: it only adds pairs, and only to
    directions 0 and 1. *)
Definition grows (dense dense' : list (list (list bool))) : Prop :=
  (forall d t1 t2, TilesetLoader.get_dense dense d t1 t2 = true ->
                   TilesetLoader.get_dense dense' d t1 t2 = true) /\
  (forall d t1 t2, 2 <= d ->
     TilesetLoader.get_dense dense' d t1 t2 = TilesetLoader.get_dense dense d t1 t2).

(** The state the loop over the [<tile>] elements ends in. *)
Definition loaded_tiles (subset : option (gset string)) (tileElements : list TileElement)
    : TilesetLoader.tiles_state :=
  fold_left (TilesetLoader.add_tile subset) tileElements ([], ∅, [], []).

Definition loaded_action (subset : option (gset string)) (tileElements : list TileElement)
    : list (list Z) :=
  fst (fst (fst (loaded_tiles subset tileElements))).

Definition loaded_first (subset : option (gset string)) (tileElements : list TileElement)
    : gmap string Z :=
  snd (fst (fst (loaded_tiles subset tileElements))).

(** Whether the loader keeps a tile. *)
Definition in_subset (subset : option (gset string)) (x : TileElement) : bool :=
  match subset with Some s => bool_decide (tile_name x ∈ s) | None => true end.

(** The body of the transposition loops, at the pair [(t2, t1)]. *)
Definition transpose_step (dense : list (list (list bool))) (a : Z * Z)
    : list (list (list bool)) :=
  let dense := TilesetLoader.set_dense dense 2 (fst a) (snd a)
                 (TilesetLoader.get_dense dense 0 (snd a) (fst a)) in
  TilesetLoader.set_dense dense 3 (fst a) (snd a)
    (TilesetLoader.get_dense dense 1 (snd a) (fst a)).

(** ** The loop of [extractColors] *)

(** The state of the loop of [extractColors] after the pixels [pre], on a
    sample of [n] cells. *)
Definition colors_inv (n : Z) (pre : list Z)
    (st : list Z * list Z * gmap Z Z * Z) : Prop :=
  let '(sample, colors, colorMap, i) := st in
  i = Z.of_nat (length pre) /\
  Z.of_nat (length sample) = n /\
  NoDup colors /\
  (forall c idx, colorMap !! c = Some idx <-> rd colors idx = Some c) /\
  (forall c, c ∈ colors <-> c ∈ pre) /\
  (forall j, 0 <= j < Z.of_nat (length pre) -> j < n ->
     exists idx, rd colors idx = rd pre j /\ rd sample j = Some (idx mod 256)).

(** The cells of the sample during the loop of [extractColors]: each is 0
    or an index of the palette. *)
Definition sample_cells (st : list Z * list Z * gmap Z Z * Z) : Prop :=
  let '(sample, colors, _, _) := st in
  Forall (fun v => 0 <= v /\ (v = 0 \/ v < Z.of_nat (length colors))) sample.

(** ** Concrete runs

    The runs below are evaluated with the reference logarithm. *)
Module Run.

#[local] Existing Instance ref_math.

#[local] Notation "'returned' r" :=
  (ok_value r (@eq_refl bool true <: is_ok r = true)) (at level 10, only parsing).

(** Three weights, one cell, pattern 0 removed. *)
Definition thirds_weights : list float := [0.1; 0.2; 0.3]%float.

Definition thirds_new : Wave.t :=
  returned (Wave.new 1 1 thirds_weights).

Definition thirds : Wave.t := fst (Wave.remove thirds_new 0 0).

(** Two equal weights, one cell, pattern 1 removed. *)
Definition halves_new : Wave.t :=
  returned (Wave.new 1 1 [1; 1]%float).

Definition halves : Wave.t := fst (Wave.remove halves_new 0 1).

(** Weights that sum to 1 exactly; cell 0 keeps patterns 0 and 1, cell 1
    keeps patterns 3 and 4. *)
Definition dyadic_weights : list float := [0.5; 0.25; 0.125; 0.0625; 0.0625]%float.

Definition dyadic_new : Wave.t :=
  returned (Wave.new 2 1 dyadic_weights).

Definition dyadic : Wave.t :=
  removals dyadic_new [(0, 2); (0, 3); (0, 4); (1, 0); (1, 1); (1, 2)].

(** Two tiles A (0) and B (1) on a row of two cells; the rules allow B to
    the right of A and B to the right of B. *)
Definition row_rules : list (list (list Z)) :=
  [ [ []; []; [1]; [] ]; [ [0; 1]; []; [1]; [] ] ].

Definition row_options (h : Heuristic) (seed : Z) : SimpleTiledOptions :=
  mkSimpleTiledOptions 2 1 false h seed false.

Definition row_new (h : Heuristic) (seed : Z) : result SimpleTiledModel.t :=
  SimpleTiledModel.new [[0]; [1]] ["A"; "B"]%string 1 [1; 1]%float row_rules
    (row_options h seed).

Definition row_entropy : SimpleTiledModel.t :=
  returned (row_new entropy_h 0).

Definition row_entropy_1 : ObserveResult * SimpleTiledModel.t :=
  returned (SimpleTiledModel.step row_entropy).

Definition row_scanline : SimpleTiledModel.t :=
  returned (row_new scanline_h 0).

Definition row_scanline_1 : ObserveResult * SimpleTiledModel.t :=
  returned (SimpleTiledModel.step row_scanline).



(** The sample [sky, sky; ground, ground] of the specification's ground
    scenario, on an output of 3 x 2 cells. *)
Definition sky : Z := 0x87ceeb.
Definition ground : Z := 0x8b4513.

Definition ground_options : OverlappingOptions :=
  mkOverlappingOptions 3 2 false entropy_h 7 2 1 true true.

Definition ground_new : OverlappingModel.t :=
  returned (OverlappingModel.new [sky; sky; ground; ground] 2 2 ground_options).

Definition ground_1 : ObserveResult * OverlappingModel.t :=
  returned (OverlappingModel.step ground_new).

Definition ground_cleared : OverlappingModel.t :=
  returned (OverlappingModel.clear (snd ground_1)).

(** A tile A of symmetry L and a tile B of symmetry X, with the rule that
    variant 1 of A is to the left of B. *)
Definition corner_tiles : list TileElement :=
  [mkTileElement "A" "L" 1; mkTileElement "B" "X" 2].

Definition corner_rules : list NeighborElement :=
  [mkNeighborElement "A" (Some 1) "B" None].

Definition corner_tileset : TilesetData :=
  returned (TilesetLoader.loadTileset corner_tiles corner_rules None).

(** Two tiles A (0) and B (1) on a row of two cells; each tile is allowed
    beside itself only. *)
Definition stripes_rules : list (list (list Z)) :=
  [ [ [0]; []; [0]; [] ]; [ [1]; []; [1]; [] ] ].

Definition stripes_new : SimpleTiledModel.t :=
  returned (SimpleTiledModel.new [[0]; [1]] ["A"; "B"]%string 1 [1; 1]%float stripes_rules
              (row_options entropy_h 0)).

Definition stripes_1 : ObserveResult * SimpleTiledModel.t :=
  returned (SimpleTiledModel.step stripes_new).

(** Tile B removed from cell 0 and pushed, then [propagate]. *)
Definition stripes_banned : Propagator.t * Wave.t :=
  (Propagator.addToPropagate (Engine.propagator (SimpleTiledModel.engine stripes_new)) 0 1,
   fst (Wave.remove (Engine.wave (SimpleTiledModel.engine stripes_new)) 0 1)).

Definition stripes_settled : Propagator.t * Wave.t * bool :=
  returned (Propagator.propagate (fst stripes_banned) (snd stripes_banned)).

(** The five tiles of [corner_tileset] on a row of two cells. *)
Definition corner_new : SimpleTiledModel.t :=
  returned (SimpleTiledModel.new [[0]; [1]; [2]; [3]; [4]] (tileset_names corner_tileset) 1
              (tileset_weights corner_tileset) (tileset_propagatorData corner_tileset)
              (row_options scanline_h 0)).

Definition corner_1 : ObserveResult * SimpleTiledModel.t :=
  returned (SimpleTiledModel.step corner_new).

End Run.

(* ===================================================================== *)
(** * The support counts of the propagator *)
(* ===================================================================== *)

Section Support.
Context {M : MathLib}.

(** The cell [propagate] visits from cell [c] in direction [d], if any. *)
Definition neighbor (p : Propagator.t) (c d : Z) : option Z :=
  let x1 := Z.rem c (Propagator.width p) in
  let y1 := c / Propagator.width p in
  let x2 := x1 + tbl DX d in
  let y2 := y1 + tbl DY d in
  let inside :=
    (0 <=? x2) && (x2 <? Propagator.width p) && (0 <=? y2) && (y2 <? Propagator.height p) in
  if negb (Propagator.periodic p) && negb inside then None
  else
    let x2 := if Propagator.periodic p
              then Z.rem (x2 + Propagator.width p) (Propagator.width p) else x2 in
    let y2 := if Propagator.periodic p
              then Z.rem (y2 + Propagator.height p) (Propagator.height p) else y2 in
    Some (x2 + y2 * Propagator.width p).

(** The pair [(c, t)] is one of the live pairs of the stack. *)
Definition pendingb (p : Propagator.t) (c t : Z) : bool :=
  existsb
    (fun k => bool_decide (rd (Propagator.stack p) (k * 2) = Some c /\
                           rd (Propagator.stack p) (k * 2 + 1) = Some t))
    (upto (Propagator.stackSize p)).

(** Pattern [t] still counts for cell [c]: it is possible there, or it has
    been removed and its removal is still on the stack. *)
Definition liveb (p : Propagator.t) (w : Wave.t) (c t : Z) : bool :=
  Wave.get w c t || pendingb p c t.

(** [data[t][d]] lists [t2]. *)
Definition listedb (pd : list (list (list Z))) (t d t2 : Z) : bool :=
  match rd pd t with
  | Some row =>
      match rd row d with
      | Some l => bool_decide (t2 ∈ l)
      | None => false
      end
  | None => false
  end.

(** The number of patterns [t] with [L t] whose list for direction [d]
    has [t2]. *)
Definition support (pd : list (list (list Z))) (T : Z) (L : Z -> bool) (t2 d : Z) : Z :=
  Z.of_nat (length (filter (fun t => L t && listedb pd t d t2 = true) (upto T))).

(** The index of the count of cell [n], pattern [t2] and direction [d]. *)
Definition cidx (T n t2 d : Z) : Z := n * T * 4 + t2 * 4 + d.

(** Adjacency lists without duplicates that are symmetric: [t2] is listed
    for [t] in direction [d] exactly when [t] is listed for [t2] in the
    opposite direction. *)
Definition data_sym (T : Z) (pd : list (list (list Z))) : Prop :=
  (forall t d row l, rd pd t = Some row -> rd row d = Some l -> NoDup l) /\
  (forall t d t2, 0 <= t < T -> 0 <= t2 < T -> 0 <= d < 4 ->
     listedb pd t d t2 = listedb pd t2 (tbl OPPOSITE d) t).

(** [data_sym], decided. *)
Definition data_symb (T : Z) (pd : list (list (list Z))) : bool :=
  forallb (fun row => forallb (fun l => bool_decide (NoDup l)) row) pd &&
  forallb
    (fun t =>
       forallb
         (fun t2 =>
            forallb
              (fun d =>
                 bool_decide (listedb pd t d t2 = listedb pd t2 (tbl OPPOSITE d) t))
              (upto 4))
         (upto T))
    (upto T).

(** The grid of the propagator is that of the wave, its sizes fit the
    typed arrays, and its adjacency lists have no duplicates and are
    symmetric. *)
Definition good_config (p : Propagator.t) (w : Wave.t) : Prop :=
  0 <= Propagator.width p /\ 0 <= Propagator.height p /\
  Propagator.width p * Propagator.height p = Wave.size w /\
  Wave.size w <= 4294967296 /\ Wave.patternCount w < 2147483648 /\
  Z.of_nat (length (Propagator.compatible p)) = Wave.size w * Wave.patternCount w * 4 /\
  (forall t d l, Propagator.data_at p t d = Ok l -> NoDup l) /\
  (forall t d t2,
     0 <= t < Wave.patternCount w -> 0 <= t2 < Wave.patternCount w -> 0 <= d < 4 ->
     listedb (Propagator.propagatorData p) t d t2 =
     listedb (Propagator.propagatorData p) t2 (tbl OPPOSITE d) t).

(** The live pairs of the stack are removals of the grid, each once. *)
Definition stack_pairs (p : Propagator.t) (w : Wave.t) : Prop :=
  forall k, 0 <= k < Propagator.stackSize p ->
    exists c t,
      rd (Propagator.stack p) (k * 2) = Some c /\
      rd (Propagator.stack p) (k * 2 + 1) = Some t /\
      0 <= c < Wave.size w /\ 0 <= t < Wave.patternCount w /\
      Wave.get w c t = false /\
      forall k', 0 <= k' < Propagator.stackSize p ->
        rd (Propagator.stack p) (k' * 2) = Some c ->
        rd (Propagator.stack p) (k' * 2 + 1) = Some t -> k' = k.

(** The counts against the patterns [L] takes for live: the count of cell
    [n], pattern [t2] and direction [d] is the number of live patterns of
    the neighbour in that direction that list [t2] towards [n], and one more
    for the entries of [X]. *)
Definition counts (p : Propagator.t) (w : Wave.t) (L : Z -> Z -> bool)
    (X : Z -> Z -> Z -> Prop) : Prop :=
  forall n t2 d c,
    0 <= n < Wave.size w -> 0 <= t2 < Wave.patternCount w -> 0 <= d < 4 ->
    neighbor p n d = Some c ->
    exists v,
      rd (Propagator.compatible p) (cidx (Wave.patternCount w) n t2 d) = Some v /\
      (X n t2 d ->
       v = support (Propagator.propagatorData p) (Wave.patternCount w) (L c) t2
             (tbl OPPOSITE d) + 1) /\
      (~ X n t2 d ->
       v = support (Propagator.propagatorData p) (Wave.patternCount w) (L c) t2
             (tbl OPPOSITE d)).

(** A possible pattern whose list for a direction is not empty has a
    positive count for it. *)
Definition positive (p : Propagator.t) (w : Wave.t) : Prop :=
  forall n t2 d l,
    0 <= n < Wave.size w -> 0 <= t2 < Wave.patternCount w -> 0 <= d < 4 ->
    neighbor p n d <> None -> Wave.get w n t2 = true ->
    Propagator.data_at p t2 d = Ok l -> l <> [] ->
    exists v, rd (Propagator.compatible p) (cidx (Wave.patternCount w) n t2 d) = Some v /\
              0 < v.

(** The invariant inside a turn of the loop, for the live patterns [L] and
    the entries [X] still to be decremented. *)
Definition turn_inv (p : Propagator.t) (w : Wave.t) (L : Z -> Z -> bool)
    (X : Z -> Z -> Z -> Prop) : Prop :=
  shape w /\ serves p w /\ good_config p w /\ stack_pairs p w /\
  (forall c t, 0 <= c < Wave.size w -> 0 <= t < Wave.patternCount w ->
     liveb p w c t = L c t) /\
  counts p w L X /\ positive p w.

(** The state of the loops of [initCompatible] on the propagator [p],
    after the entries [K]: only the counts have changed, and each entry
    of [K] whose cell has a neighbour holds the length of its list. *)
Definition init_inv (p : Propagator.t) (K : Z -> Z -> Z -> Prop) (s : Propagator.t) : Prop :=
  s = Propagator.with_compatible p (Propagator.compatible s) /\
  length (Propagator.compatible s) = length (Propagator.compatible p) /\
  forall i t d l,
    0 <= i < Propagator.width p * Propagator.height p ->
    0 <= t < Propagator.patternCount p -> 0 <= d < 4 -> K i t d ->
    neighbor p i d <> None -> Propagator.data_at p t d = Ok l ->
    rd (Propagator.compatible s) (cidx (Propagator.patternCount p) i t d)
      = Some (wrap_int32 (Z.of_nat (length l))).

(** The invariant of the propagator between two turns of its loop. *)
Definition supported (p : Propagator.t) (w : Wave.t) : Prop :=
  good_config p w /\ stack_pairs p w /\
  counts p w (liveb p w) (fun _ _ _ => False) /\ positive p w.

(** Every possible pattern has, in each direction in which its cell has a
    neighbour and its list is not empty, a possible pattern of the neighbour
    in that list. *)
Definition arc_consistent (p : Propagator.t) (w : Wave.t) : Prop :=
  forall n t2 d c l,
    0 <= n < Wave.size w -> 0 <= t2 < Wave.patternCount w -> 0 <= d < 4 ->
    neighbor p n d = Some c -> Wave.get w n t2 = true ->
    Propagator.data_at p t2 d = Ok l -> l <> [] ->
    exists t, t ∈ l /\ Wave.get w c t = true.

(** The invariant of the engine between two calls: unless some cell has no
    pattern left, the stack is empty and the counts are the supports. *)
Definition engine_supported (e : Engine.t) : Prop :=
  good_config (Engine.propagator e) (Engine.wave e) /\
  ((exists j, zero_cell (Engine.wave e) j) \/
   (Propagator.stackSize (Engine.propagator e) = 0 /\
    supported (Engine.propagator e) (Engine.wave e))).

(** The models reached from [m0] by calls of [step] and [clear]. *)
Inductive tiled_run (m0 : SimpleTiledModel.t) : SimpleTiledModel.t -> Prop :=
| tiled_run_here : tiled_run m0 m0
| tiled_run_step m r m' :
    tiled_run m0 m -> SimpleTiledModel.step m = Ok (r, m') -> tiled_run m0 m'
| tiled_run_clear m m' :
    tiled_run m0 m -> SimpleTiledModel.clear m = Ok m' -> tiled_run m0 m'.

Inductive overlapping_run (m0 : OverlappingModel.t) : OverlappingModel.t -> Prop :=
| overlapping_run_here : overlapping_run m0 m0
| overlapping_run_step m r m' :
    overlapping_run m0 m -> OverlappingModel.step m = Ok (r, m') -> overlapping_run m0 m'
| overlapping_run_clear m m' :
    overlapping_run m0 m -> OverlappingModel.clear m = Ok m' -> overlapping_run m0 m'.

End Support.

(* ===================================================================== *)
(** * Arrays *)
(* ===================================================================== *)

Section Arrays.
Context {A : Type}.
Implicit Types (a : list A) (i j : Z) (v : A).

Lemma rd_Some a i v : rd a i = Some v -> 0 <= i < Z.of_nat (length a).
Proof.
  unfold rd. destruct (Z.ltb_spec i 0) as [Hn|Hn]; [done|].
  intros H%lookup_lt_Some. lia.
Qed.

Lemma rd_is_Some a i : 0 <= i < Z.of_nat (length a) -> is_Some (rd a i).
Proof.
  intros H. unfold rd. destruct (Z.ltb_spec i 0) as [Hn|Hn]; [lia|].
  apply lookup_lt_is_Some. lia.
Qed.

Lemma rd_None a i : ~ (0 <= i < Z.of_nat (length a)) -> rd a i = None.
Proof.
  intros H. destruct (rd a i) eqn:E; [|done]. apply rd_Some in E. lia.
Qed.

Lemma length_wr a i v : length (wr a i v) = length a.
Proof. unfold wr. destruct (i <? 0); [done|]. apply length_insert. Qed.

Lemma rd_wr_eq a i v : 0 <= i < Z.of_nat (length a) -> rd (wr a i v) i = Some v.
Proof.
  intros H. unfold rd, wr. destruct (Z.ltb_spec i 0) as [Hn|Hn]; [lia|].
  apply list_lookup_insert_eq. lia.
Qed.

Lemma rd_wr_ne a i j v : i <> j -> rd (wr a i v) j = rd a j.
Proof.
  intros H. unfold rd, wr.
  destruct (Z.ltb_spec j 0) as [Hn|Hn]; [done|]. destruct (Z.ltb_spec i 0) as [Hm|Hm]; [done|].
  apply list_lookup_insert_ne. lia.
Qed.

Lemma rd_wr a i j v :
  rd (wr a i v) j = if bool_decide (i = j /\ 0 <= i < Z.of_nat (length a)) then Some v else rd a j.
Proof.
  case_bool_decide as H.
  - destruct H as [-> H]. by apply rd_wr_eq.
  - destruct (decide (i = j)) as [->|Hne]; [|by apply rd_wr_ne].
    rewrite !rd_None; [done|lia|rewrite length_wr; lia].
Qed.

Lemma rd_filled n v i : 0 <= i < n -> rd (filled n v) i = Some v.
Proof.
  intros H. unfold rd, filled. destruct (Z.ltb_spec i 0) as [Hn|Hn]; [lia|].
  apply lookup_replicate_2. lia.
Qed.

Lemma length_filled n v : Z.of_nat (length (filled n v)) = Z.max 0 n.
Proof. unfold filled. rewrite length_replicate. lia. Qed.

Lemma rd_replicate (n : nat) v i : 0 <= i < Z.of_nat n -> rd (replicate n v) i = Some v.
Proof.
  intros H. unfold rd. destruct (Z.ltb_spec i 0) as [Hn|Hn]; [lia|].
  apply lookup_replicate_2. lia.
Qed.

End Arrays.

Lemma elem_of_upto n i : i ∈ upto n <-> 0 <= i < n.
Proof. unfold upto. rewrite elem_of_seqZ. lia. Qed.

Lemma NoDup_upto n : NoDup (upto n).
Proof. apply NoDup_seqZ. Qed.

Lemma is1_true o : is1 o = true <-> o = Some 1.
Proof.
  destruct o as [z|]; simpl; [|done].
  destruct z as [|p|p]; try done; destruct p; simpl; split; congruence.
Qed.

Lemma is0_true o : is0 o = true <-> o = Some 0.
Proof.
  destruct o as [z|]; simpl; [|done].
  destruct z; simpl; split; congruence.
Qed.

Lemma is0_is1 o : is1 o = true -> is0 o = false.
Proof. intros ->%is1_true. done. Qed.

(* ===================================================================== *)
(** * [Wave.remove] *)
(* ===================================================================== *)

Section WaveFacts.
Context {M : MathLib}.
Implicit Types (w : Wave.t) (i j t : Z).

Lemma same_static_refl w : same_static w w.
Proof. by repeat split. Qed.

Lemma same_static_trans w1 w2 w3 : same_static w1 w2 -> same_static w2 w3 -> same_static w1 w3.
Proof. unfold same_static. intros (?&?&?&?&?&?&?&?) (?&?&?&?&?&?&?&?). repeat split; congruence. Qed.

Lemma remove_static w i t : same_static w (fst (Wave.remove w i t)).
Proof.
  unfold Wave.remove. destruct (is0 _); [apply same_static_refl|].
  destruct (PrimFloat.ltb _ _); by repeat split.
Qed.

Lemma remove_data w i t :
  Wave.data (fst (Wave.remove w i t)) =
  if is0 (rd (Wave.data w) (i * Wave.patternCount w + t)) then Wave.data w
  else wr (Wave.data w) (i * Wave.patternCount w + t) 0.
Proof.
  unfold Wave.remove. destruct (is0 _); [done|].
  by destruct (PrimFloat.ltb _ _).
Qed.

Lemma remove_result w i t :
  snd (Wave.remove w i t) = negb (is0 (rd (Wave.data w) (i * Wave.patternCount w + t))).
Proof.
  unfold Wave.remove. destruct (is0 _); [done|].
  by destruct (PrimFloat.ltb _ _).
Qed.

Lemma get_true w i t : Wave.get w i t = true <-> rd (Wave.data w) (i * Wave.patternCount w + t) = Some 1.
Proof. unfold Wave.get. apply is1_true. Qed.

Lemma get_range w i t :
  shape w -> 0 <= t < Wave.patternCount w -> Wave.get w i t = true -> 0 <= i < Wave.size w.
Proof.
  intros Hs Ht Hg. apply get_true, rd_Some in Hg. rewrite (sh_data _ Hs) in Hg. nia.
Qed.

(** A removed pattern never comes back, whatever the arguments. *)
Lemma remove_get_mono w i t j t' :
  Wave.get (fst (Wave.remove w i t)) j t' = true -> Wave.get w j t' = true.
Proof.
  rewrite !get_true. destruct (remove_static w i t) as (_&_&_&_&_&_&_&->).
  rewrite remove_data. destruct (is0 _); [done|].
  rewrite rd_wr. case_bool_decide; [done|done].
Qed.

Lemma remove_get_at w i t : Wave.get (fst (Wave.remove w i t)) i t = false.
Proof.
  apply not_true_is_false. rewrite get_true.
  destruct (remove_static w i t) as (_&_&_&_&_&_&_&->).
  rewrite remove_data. destruct (is0 _) eqn:E.
  - apply is0_true in E. rewrite E. done.
  - rewrite rd_wr. case_bool_decide as H; [done|].
    intros Hr. apply H. split; [done|]. by apply rd_Some in Hr.
Qed.

Lemma remove_get_other w i t j t' :
  j * Wave.patternCount w + t' <> i * Wave.patternCount w + t ->
  Wave.get (fst (Wave.remove w i t)) j t' = Wave.get w j t'.
Proof.
  intros Hne. unfold Wave.get.
  destruct (remove_static w i t) as (_&_&_&_&_&_&_&->).
  rewrite remove_data. destruct (is0 _); [done|].
  by rewrite rd_wr_ne.
Qed.

Lemma get_false_bit w i t :
  shape w -> 0 <= i < Wave.size w -> 0 <= t < Wave.patternCount w ->
  Wave.get w i t = false -> rd (Wave.data w) (i * Wave.patternCount w + t) = Some 0.
Proof.
  intros Hs Hi Ht Hg.
  destruct (rd_is_Some (Wave.data w) (i * Wave.patternCount w + t)) as [b Hb].
  { rewrite (sh_data _ Hs). nia. }
  destruct (sh_bits _ Hs _ _ Hb) as [->| ->]; [done|].
  apply get_true in Hb. congruence.
Qed.

Lemma remove_noop w i t :
  shape w -> 0 <= i < Wave.size w -> 0 <= t < Wave.patternCount w ->
  Wave.get w i t = false -> Wave.remove w i t = (w, false).
Proof.
  intros Hs Hi Ht Hg. unfold Wave.remove.
  by rewrite (get_false_bit _ _ _ Hs Hi Ht Hg).
Qed.

Lemma sub_at_other (a : list float) i j x : i <> j -> rd (Wave.sub_at a i x) j = rd a j.
Proof. intros. unfold Wave.sub_at. by rewrite rd_wr_ne. Qed.

Lemma sub_at_eq (a : list float) i x v :
  rd a i = Some v -> rd (Wave.sub_at a i x) i = Some (PrimFloat.sub v x).
Proof.
  intros H. unfold Wave.sub_at. rewrite rd_wr_eq by (by apply rd_Some in H).
  by rewrite H.
Qed.

Lemma length_sub_at (a : list float) i x : length (Wave.sub_at a i x) = length a.
Proof. apply length_wr. Qed.

Lemma dec_at_other (a : list Z) i j : i <> j -> rd (Wave.dec_at a i) j = rd a j.
Proof. intros. unfold Wave.dec_at. destruct (rd a i); [|done]. by rewrite rd_wr_ne. Qed.

Lemma dec_at_eq (a : list Z) i c :
  rd a i = Some c -> rd (Wave.dec_at a i) i = Some (wrap_uint32 (c - 1)).
Proof.
  intros H. unfold Wave.dec_at. rewrite H. rewrite rd_wr_eq by (by apply rd_Some in H). done.
Qed.

Lemma length_dec_at (a : list Z) i : length (Wave.dec_at a i) = length a.
Proof. unfold Wave.dec_at. destruct (rd a i); [|done]. apply length_wr. Qed.

(** The memoized scalars of the other cells are untouched. *)
Lemma remove_memo_other w i t j :
  i <> j ->
  let m := Wave.memo w in let m' := Wave.memo (fst (Wave.remove w i t)) in
  rd (EntropyMemo.plogpSum m') j = rd (EntropyMemo.plogpSum m) j /\
  rd (EntropyMemo.sum m') j = rd (EntropyMemo.sum m) j /\
  rd (EntropyMemo.logSum m') j = rd (EntropyMemo.logSum m) j /\
  rd (EntropyMemo.patternCount m') j = rd (EntropyMemo.patternCount m) j /\
  rd (EntropyMemo.entropy m') j = rd (EntropyMemo.entropy m) j.
Proof.
  intros Hne. unfold Wave.remove. destruct (is0 _); [done|].
  destruct (PrimFloat.ltb _ _); simpl;
    rewrite ?sub_at_other, ?dec_at_other, ?rd_wr_ne by done; done.
Qed.

(** The memoized scalars of the cell a pattern is removed from. *)
Lemma remove_memo_at w i t s p c :
  Wave.get w i t = true ->
  rd (EntropyMemo.sum (Wave.memo w)) i = Some s ->
  rd (EntropyMemo.plogpSum (Wave.memo w)) i = Some p ->
  rd (EntropyMemo.patternCount (Wave.memo w)) i = Some c ->
  Z.of_nat (length (EntropyMemo.logSum (Wave.memo w))) = Z.of_nat (length (EntropyMemo.sum (Wave.memo w))) ->
  Z.of_nat (length (EntropyMemo.entropy (Wave.memo w))) = Z.of_nat (length (EntropyMemo.sum (Wave.memo w))) ->
  let m' := Wave.memo (fst (Wave.remove w i t)) in
  let s' := PrimFloat.sub s (num (rd (Wave.weights w) t)) in
  let p' := PrimFloat.sub p (num (rd (Wave.plogp w) t)) in
  rd (EntropyMemo.sum m') i = Some s' /\
  rd (EntropyMemo.plogpSum m') i = Some p' /\
  rd (EntropyMemo.patternCount m') i = Some (wrap_uint32 (c - 1)) /\
  (if PrimFloat.ltb 0 s'
   then rd (EntropyMemo.logSum m') i = Some (Math_log s') /\
        rd (EntropyMemo.entropy m') i = Some (PrimFloat.sub (Math_log s') (PrimFloat.div p' s'))
   else rd (EntropyMemo.logSum m') i = rd (EntropyMemo.logSum (Wave.memo w)) i /\
        rd (EntropyMemo.entropy m') i = Some 0%float).
Proof.
  intros Hg Hs Hp Hc Hl He. cbv zeta. unfold Wave.remove.
  apply get_true in Hg. rewrite Hg. simpl.
  pose proof (rd_Some _ _ _ Hs) as Hi.
  rewrite (sub_at_eq _ _ _ _ Hs). simpl.
  destruct (PrimFloat.ltb _ _) eqn:E; simpl;
    rewrite ?(sub_at_eq _ _ _ _ Hs), ?(sub_at_eq _ _ _ _ Hp), ?(dec_at_eq _ _ _ Hc); simpl.
  - rewrite !rd_wr_eq by lia. simpl. done.
  - rewrite !rd_wr_eq by lia. done.
Qed.

Lemma remove_shape w i t : shape w -> shape (fst (Wave.remove w i t)).
Proof.
  intros Hs. pose proof (remove_static w i t) as (E1&E2&E3&E4&E5&E6&E7&E8).
  pose proof (remove_data w i t) as Ed.
  destruct Hs. split; rewrite ?E1, ?E2, ?E7, ?E8; try done.
  - rewrite Ed. destruct (is0 _); [done|]. by rewrite length_wr.
  - intros k b. rewrite Ed. destruct (is0 _); [by eauto|].
    rewrite rd_wr. case_bool_decide; [intros [= <-]; by left|by eauto].
  - unfold Wave.remove. destruct (is0 _); [done|].
    destruct (PrimFloat.ltb _ _); simpl; by rewrite length_sub_at.
  - unfold Wave.remove. destruct (is0 _); [done|].
    destruct (PrimFloat.ltb _ _); simpl; by rewrite length_sub_at.
  - unfold Wave.remove. destruct (is0 _); [done|].
    destruct (PrimFloat.ltb _ _); simpl; by rewrite ?length_wr.
  - unfold Wave.remove. destruct (is0 _); [done|].
    destruct (PrimFloat.ltb _ _); simpl; by rewrite length_dec_at.
  - unfold Wave.remove. destruct (is0 _); [done|].
    destruct (PrimFloat.ltb _ _); simpl; by rewrite length_wr.
Qed.

End WaveFacts.

Section Lists.
Context {A : Type}.

Lemma filter_ext_in (P Q : A -> Prop) `{!forall x, Decision (P x)} `{!forall x, Decision (Q x)}
    (l : list A) :
  (forall x, x ∈ l -> (P x <-> Q x)) -> filter P l = filter Q l.
Proof.
  induction l as [|a l IH]; intros Hext; [done|].
  rewrite !filter_cons.
  assert (P a <-> Q a) as Ha by (apply Hext; left).
  rewrite IH by (intros; apply Hext; by right).
  destruct (decide (P a)), (decide (Q a)); tauto || done.
Qed.

Lemma filter_length_drop (P Q : A -> Prop) `{!forall x, Decision (P x)} `{!forall x, Decision (Q x)}
    (l : list A) (x : A) :
  NoDup l -> x ∈ l -> P x -> ~ Q x -> (forall y, y ∈ l -> y <> x -> (P y <-> Q y)) ->
  length (filter P l) = S (length (filter Q l)).
Proof.
  induction l as [|a l IH]; intros Hnd Hin HP HQ Hext; [by apply elem_of_nil in Hin|].
  apply NoDup_cons in Hnd as [Hna Hnd].
  rewrite !filter_cons.
  apply elem_of_cons in Hin as [->|Hin].
  - rewrite decide_True by done. rewrite decide_False by done. simpl. f_equal.
    f_equal. apply filter_ext_in. intros y Hy. apply Hext; [by right|]. intros ->. done.
  - assert (a <> x) as Hne by (intros ->; done).
    assert (P a <-> Q a) as Ha by (apply Hext; [left|done]).
    assert (length (filter P l) = S (length (filter Q l))) as IH'.
    { apply IH; try done. intros; apply Hext; [by right|done]. }
    destruct (decide (P a)), (decide (Q a)); try tauto; simpl; by rewrite IH'.
Qed.

End Lists.

Section WaveFacts.
Context {M : MathLib}.
Implicit Types (w : Wave.t) (i j t : Z).

Lemma possible_iff w i p :
  p ∈ Wave.getPossiblePatterns w i <-> 0 <= p < Wave.patternCount w /\ Wave.get w i p = true.
Proof.
  unfold Wave.getPossiblePatterns, Wave.get. rewrite list_elem_of_filter, elem_of_upto. tauto.
Qed.

Lemma NoDup_possible w i : NoDup (Wave.getPossiblePatterns w i).
Proof. unfold Wave.getPossiblePatterns. apply NoDup_filter, NoDup_upto. Qed.

Lemma popcount_nonneg w i : 0 <= popcount w i.
Proof. unfold popcount. lia. Qed.

Lemma popcount_le w i : 0 <= Wave.patternCount w -> popcount w i <= Wave.patternCount w.
Proof.
  intros HT. unfold popcount, Wave.getPossiblePatterns.
  pose proof (length_filter (fun p => is1 (rd (Wave.data w) (i * Wave.patternCount w + p)) = true)
                (upto (Wave.patternCount w))) as H.
  unfold upto in H at 2. rewrite length_seqZ in H. lia.
Qed.

Lemma popcount_pos w i t :
  0 <= t < Wave.patternCount w -> Wave.get w i t = true -> 1 <= popcount w i.
Proof.
  intros Ht Hg. unfold popcount.
  assert (t ∈ Wave.getPossiblePatterns w i) as Hin by (by apply possible_iff).
  destruct (Wave.getPossiblePatterns w i); [by apply elem_of_nil in Hin|simpl; lia].
Qed.

Lemma popcount_zero w i t :
  popcount w i = 0 -> 0 <= t < Wave.patternCount w -> Wave.get w i t = false.
Proof.
  intros H0 Ht. apply not_true_is_false. intros Hg.
  pose proof (popcount_pos _ _ _ Ht Hg). lia.
Qed.

Lemma popcount_ext w w' i :
  Wave.patternCount w' = Wave.patternCount w ->
  (forall t, 0 <= t < Wave.patternCount w -> Wave.get w' i t = Wave.get w i t) ->
  popcount w' i = popcount w i.
Proof.
  intros HT H. unfold popcount, Wave.getPossiblePatterns. rewrite HT. do 2 f_equal.
  apply filter_ext_in. intros p Hp%elem_of_upto.
  specialize (H p Hp). unfold Wave.get in H. rewrite HT in H. by rewrite H.
Qed.

Lemma remove_popcount_at w i t :
  0 <= t < Wave.patternCount w -> Wave.get w i t = true ->
  popcount (fst (Wave.remove w i t)) i = popcount w i - 1.
Proof.
  intros Ht Hg. unfold popcount, Wave.getPossiblePatterns.
  destruct (remove_static w i t) as (_&_&_&_&_&_&_&->).
  rewrite (filter_length_drop
             (fun p => is1 (rd (Wave.data w) (i * Wave.patternCount w + p)) = true)
             (fun p => is1 (rd (Wave.data (fst (Wave.remove w i t))) (i * Wave.patternCount w + p)) = true)
             _ t); [lia|apply NoDup_upto|by apply elem_of_upto|exact Hg| |].
  - pose proof (remove_get_at w i t) as H. unfold Wave.get in H.
    destruct (remove_static w i t) as (_&_&_&_&_&_&_&E). rewrite E in H. by rewrite H.
  - intros y _ Hy. pose proof (remove_get_other w i t i y) as H. unfold Wave.get in H.
    destruct (remove_static w i t) as (_&_&_&_&_&_&_&E). rewrite E in H.
    rewrite H by lia. done.
Qed.

Lemma remove_popcount_other w i t j :
  0 <= t < Wave.patternCount w -> j <> i ->
  popcount (fst (Wave.remove w i t)) j = popcount w j.
Proof.
  intros Ht Hne. apply popcount_ext; [apply remove_static|].
  intros t' Ht'. apply remove_get_other. nia.
Qed.

Lemma remove_counted w i t :
  shape w -> counted w -> 0 <= i < Wave.size w -> 0 <= t < Wave.patternCount w ->
  counted (fst (Wave.remove w i t)).
Proof.
  intros Hs [HT Hc] Hi Ht.
  destruct (Wave.get w i t) eqn:Hg; [|by rewrite (remove_noop _ _ _ Hs Hi Ht Hg)].
  pose proof (remove_static w i t) as (_&_&_&_&_&_&Esz&ET).
  split; [by rewrite ET|]. rewrite Esz. intros j Hj.
  destruct (decide (i = j)) as [<-|Hne].
  - rewrite remove_popcount_at by done.
    pose proof (Hc i Hi) as Hci.
    destruct (rd_is_Some (EntropyMemo.sum (Wave.memo w)) i) as [s Hsum]; [rewrite (sh_sum _ Hs); lia|].
    destruct (rd_is_Some (EntropyMemo.plogpSum (Wave.memo w)) i) as [p Hp]; [rewrite (sh_plogpSum _ Hs); lia|].
    destruct (remove_memo_at w i t s p _ Hg Hsum Hp Hci) as (_&_&->&_).
    { rewrite (sh_logSum _ Hs), (sh_sum _ Hs). done. }
    { rewrite (sh_entropy _ Hs), (sh_sum _ Hs). done. }
    f_equal. unfold wrap_uint32. apply Z.mod_small.
    pose proof (popcount_pos _ _ _ Ht Hg). pose proof (popcount_le w i (sh_T _ Hs)). lia.
  - rewrite remove_popcount_other by done.
    destruct (remove_memo_other w i t j Hne) as (_&_&_&->&_). by apply Hc.
Qed.

End WaveFacts.

(* ===================================================================== *)
(** * The memoized scalars of reachable waves *)
(* ===================================================================== *)

Section WaveFacts.
Context {M : MathLib}.
Implicit Types (w : Wave.t) (i j t : Z).

Lemma plogp_step_eq s pl0 m0 sp0 x :
  exists v m, Wave.plogp_step s (pl0, m0, sp0) x = (pl0 ++ [v], m, PrimFloat.add sp0 v).
Proof. unfold Wave.plogp_step. eauto. Qed.

Lemma plogp_fold s ws pl0 m0 sp0 :
  exists pl1 m,
    fold_left (Wave.plogp_step s) ws (pl0, m0, sp0) = (pl0 ++ pl1, m, fold_left PrimFloat.add pl1 sp0) /\
    length pl1 = length ws.
Proof.
  revert pl0 m0 sp0. induction ws as [|x ws IH]; intros pl0 m0 sp0.
  - exists [], m0. by rewrite app_nil_r.
  - cbn [fold_left]. destruct (plogp_step_eq s pl0 m0 sp0 x) as (v & m1 & ->).
    destruct (IH (pl0 ++ [v]) m1 (PrimFloat.add sp0 v)) as (pl1 & m & E & L).
    exists (v :: pl1), m. split; [|simpl; by rewrite L].
    rewrite E. by rewrite <- app_assoc.
Qed.

(** What the constructor builds. *)
Lemma new_inv W H ws w :
  Wave.new W H ws = Ok w ->
  Wave.width w = W /\ Wave.height w = H /\ Wave.size w = W * H /\ 0 <= W * H /\
  Wave.patternCount w = Z.of_nat (length ws) /\ Wave.weights w = ws /\
  Wave.data w = filled (W * H * Z.of_nat (length ws)) 1 /\
  Wave.startingEntropy w =
    PrimFloat.sub (Math_log (Wave.reduce_add ws)) (Wave.reduce_add (Wave.plogp w)) /\
  shape w /\ forall i, 0 <= i < W * H -> fresh_cell w i.
Proof.
  unfold Wave.new. destruct (Z.ltb_spec (W * H) 0) as [|Hsz]; [done|].
  destruct (plogp_fold (Wave.reduce_add ws) ws [] infinity 0%float) as (pl & m & E & L).
  rewrite E. simpl. intros [= <-]. simpl.
  repeat split; simpl; rewrite ?length_filled; try lia; try done.
  - intros k b Hk. unfold filled in Hk. unfold rd in Hk.
    destruct (k <? 0); [done|]. apply lookup_replicate in Hk as [-> _]. by right.
  - intros t Ht. apply get_true. simpl. apply rd_filled. nia.
  - by apply rd_filled.
  - by apply rd_filled.
  - by apply rd_filled.
  - by apply rd_filled.
  - by apply rd_filled.
Qed.

Lemma clear_static w : same_static w (Wave.clear w).
Proof. by repeat split. Qed.

Lemma clear_shape w : shape w -> shape (Wave.clear w).
Proof.
  intros []. split; simpl; rewrite ?length_replicate; try done.
  intros k b Hk. unfold rd in Hk. destruct (k <? 0); [done|].
  apply lookup_replicate in Hk as [-> _]. by right.
Qed.

Lemma clear_fresh w i : shape w -> 0 <= i < Wave.size w -> fresh_cell (Wave.clear w) i.
Proof.
  intros Hs Hi. destruct Hs. repeat split; simpl.
  - intros t Ht. apply get_true. simpl. apply rd_replicate. nia.
  - apply rd_replicate. lia.
  - apply rd_replicate. lia.
  - apply rd_replicate. lia.
  - apply rd_replicate. lia.
  - apply rd_replicate. lia.
Qed.

Lemma fresh_popcount w i :
  0 <= Wave.patternCount w -> fresh_cell w i -> popcount w i = Wave.patternCount w.
Proof.
  intros HT (Hg & _). unfold popcount, Wave.getPossiblePatterns.
  assert (forall (l : list Z) (P : Z -> Prop) `{!forall x, Decision (P x)},
            (forall x, x ∈ l -> P x) -> filter P l = l) as Hall.
  { intros l P ?. induction l as [|a l IH]; intros HP; [done|].
    rewrite filter_cons_True by (apply HP; left). f_equal. apply IH.
    intros; apply HP; by right. }
  rewrite Hall.
  - unfold upto. rewrite length_seqZ. lia.
  - intros p Hp%elem_of_upto. specialize (Hg p Hp). unfold Wave.get in Hg. by rewrite Hg.
Qed.

Lemma fresh_counted w :
  shape w -> Wave.patternCount w < 4294967296 ->
  (forall i, 0 <= i < Wave.size w -> fresh_cell w i) -> counted w.
Proof.
  intros Hs HT Hf. split; [done|]. intros i Hi.
  rewrite (fresh_popcount w i (sh_T _ Hs) (Hf i Hi)).
  destruct (Hf i Hi) as (_&_&_&_&->&_). f_equal.
  apply Z.mod_small. pose proof (sh_T _ Hs). lia.
Qed.

Lemma removes_static w i ts : same_static w (removes w i ts).
Proof.
  revert w. induction ts as [|t ts IH]; intros w; [apply same_static_refl|].
  simpl. eapply same_static_trans; [apply remove_static|apply IH].
Qed.

Lemma remove_others_removes w i sel :
  exists ts, (forall t, t ∈ ts -> 0 <= t < Wave.patternCount w /\ t <> sel) /\
             Wave.remove_others w i sel = removes w i ts /\
             (forall t, 0 <= t < Wave.patternCount w -> t <> sel -> Wave.get w i t = true -> t ∈ ts).
Proof.
  unfold Wave.remove_others.
  assert (forall ps w0, Wave.patternCount w0 = Wave.patternCount w ->
            (forall t, t ∈ ps -> 0 <= t < Wave.patternCount w) ->
            exists ts, (forall t, t ∈ ts -> t ∈ ps /\ t <> sel) /\
              fold_left (fun w1 p =>
                 if negb (p =? sel) && is1 (rd (Wave.data w1) (i * Wave.patternCount w + p))
                 then fst (Wave.remove w1 i p) else w1) ps w0 = removes w0 i ts /\
              (forall t, t ∈ ps -> t <> sel -> Wave.get w0 i t = true -> t ∈ ts)) as Hgen.
  { induction ps as [|p ps IH]; intros w0 HT Hps.
    - exists []. split; [intros t Ht; by apply elem_of_nil in Ht|]. split; [done|].
      intros t Ht. by apply elem_of_nil in Ht.
    - simpl. destruct (negb (p =? sel) && is1 (rd (Wave.data w0) (i * Wave.patternCount w + p))) eqn:E.
      + apply andb_true_iff in E as [E1 E2]. apply negb_true_iff, Z.eqb_neq in E1.
        destruct (IH (fst (Wave.remove w0 i p))) as (ts & H1 & H2 & H3).
        { destruct (remove_static w0 i p) as (_&_&_&_&_&_&_&->). done. }
        { intros; apply Hps; by right. }
        exists (p :: ts). split; [|split].
        * intros t [->|Ht]%elem_of_cons; [split; [left|done]|].
          destruct (H1 t Ht). split; [by right|done].
        * done.
        * intros t [->|Ht]%elem_of_cons Hne Hg; [left|]. 
          destruct (decide (t = p)) as [->|Hnp]; [left|]. right. apply H3; try done.
          rewrite remove_get_other; [done|]. rewrite HT. lia.
      + destruct (IH w0 HT) as (ts & H1 & H2 & H3).
        { intros; apply Hps; by right. }
        exists ts. split; [|split].
        * intros t Ht. destruct (H1 t Ht). split; [by right|done].
        * done.
        * intros t [->|Ht]%elem_of_cons Hne Hg; [|by apply H3].
          exfalso. apply andb_false_iff in E as [E|E].
          -- apply negb_false_iff, Z.eqb_eq in E. done.
          -- unfold Wave.get in Hg. rewrite HT in Hg. congruence. }
  destruct (Hgen (upto (Wave.patternCount w)) w eq_refl) as (ts & H1 & H2 & H3).
  { intros t. apply elem_of_upto. }
  exists ts. split; [|split].
  - intros t Ht. destruct (H1 t Ht) as [Hin ?]. apply elem_of_upto in Hin. done.
  - done.
  - intros t Ht. apply H3. by apply elem_of_upto.
Qed.

End WaveFacts.

Section WaveFacts.
Context {M : MathLib}.
Implicit Types (w : Wave.t) (i j t : Z).

Lemma fresh_tracks w i : fresh_cell w i -> memo_tracks w i [].
Proof.
  intros (Hg & Hs & Hp & Hl & _ & _). unfold memo_tracks. simpl.
  split; [constructor|]. split; [|by repeat split].
  intros t Ht. rewrite (Hg t Ht). split; [done|]. intros H; by apply elem_of_nil in H.
Qed.

Lemma memo_tracks_remove w i t j rs :
  shape w -> 0 <= i < Wave.size w -> 0 <= t < Wave.patternCount w ->
  memo_tracks w j rs -> exists rs', memo_tracks (fst (Wave.remove w i t)) j rs'.
Proof.
  intros Hs Hi Ht Hm.
  destruct (Wave.get w i t) eqn:Hg; [|rewrite (remove_noop _ _ _ Hs Hi Ht Hg); eauto].
  pose proof (remove_static w i t) as (Ep&Ew&_&_&_&_&Esz&ET).
  destruct (decide (i = j)) as [<-|Hne].
  - exists (rs ++ [t]). unfold memo_tracks in Hm; cbv zeta in Hm; destruct Hm as (Hnd & Hmask & Hsum & Hpl & Hlog & Hent).
    pose proof (rd_is_Some (EntropyMemo.patternCount (Wave.memo w)) i) as [c Hc];
      [rewrite (sh_count _ Hs); lia|].
    destruct (remove_memo_at w i t _ _ c Hg Hsum Hpl Hc) as (Hs' & Hp' & _ & Hbr).
    { by rewrite (sh_logSum _ Hs), (sh_sum _ Hs). }
    { by rewrite (sh_entropy _ Hs), (sh_sum _ Hs). }
    assert (t ∉ rs) as Hnotin.
    { intros Hin. apply (Hmask t Ht) in Hin. congruence. }
    unfold memo_tracks. cbv zeta. rewrite Ep, Ew, ET. unfold sub_all. rewrite !fold_left_app. simpl.
    fold (sub_all (Wave.weights w) rs (Wave.reduce_add (Wave.weights w))).
    fold (sub_all (Wave.plogp w) rs (Wave.reduce_add (Wave.plogp w))).
    split_and!; try done.
    + apply NoDup_app. split; [done|]. split; [|apply NoDup_singleton].
      intros x Hx Hx'%list_elem_of_singleton. by subst.
    + intros t' Ht'. rewrite elem_of_app, list_elem_of_singleton.
      destruct (decide (t' = t)) as [->|Hnt].
      * rewrite remove_get_at. tauto.
      * rewrite remove_get_other by lia. rewrite (Hmask t' Ht'). tauto.
    + intros [Hnil|Hpos]; [by destruct rs|].
      rewrite Hpos in Hbr. by destruct Hbr.
    + intros _. destruct (PrimFloat.ltb 0 (PrimFloat.sub _ _)); simpl in Hbr; by destruct Hbr.
  - exists rs. unfold memo_tracks in Hm; cbv zeta in Hm; destruct Hm as (Hnd & Hmask & Hsum & Hpl & Hlog & Hent).
    destruct (remove_memo_other w i t j Hne) as (E1 & E2 & E3 & _ & E5).
    unfold memo_tracks. cbv zeta. rewrite Ep, Ew, ET, E1, E2, E3, E5.
    repeat split; try done.
    + rewrite remove_get_other by nia. by apply Hmask.
    + rewrite remove_get_other by nia. by apply Hmask.
Qed.

Lemma tracked_remove w i t :
  tracked w -> 0 <= i < Wave.size w -> 0 <= t < Wave.patternCount w ->
  tracked (fst (Wave.remove w i t)).
Proof.
  intros (Hs & Hc & Hm) Hi Ht. split; [by apply remove_shape|].
  split; [by apply remove_counted|].
  destruct (remove_static w i t) as (_&_&_&_&_&_&->&_).
  intros j Hj. destruct (Hm j Hj) as [rs Hrs]. by eapply memo_tracks_remove.
Qed.

Lemma tracked_removes w i ts :
  tracked w -> 0 <= i < Wave.size w -> (forall t, t ∈ ts -> 0 <= t < Wave.patternCount w) ->
  tracked (removes w i ts).
Proof.
  revert w. induction ts as [|t ts IH]; intros w Hw Hi Hts; [done|].
  simpl. destruct (remove_static w i t) as (_&_&_&_&_&_&Esz&ET).
  apply IH.
  - apply tracked_remove; [done..|]. apply Hts; left.
  - by rewrite Esz.
  - intros t' Ht'. rewrite ET. apply Hts. by right.
Qed.

(** The wave [collapse] leaves is the wave it was given, or that wave after
    the removal of some patterns from the cell. *)
Lemma collapse_wave w i rng :
  exists ts, (forall t, t ∈ ts -> 0 <= t < Wave.patternCount w) /\
             fst (fst (Wave.collapse w i rng)) = removes w i ts.
Proof.
  assert (exists ts : list Z, (forall t, t ∈ ts -> 0 <= t < Wave.patternCount w) /\
            w = removes w i ts) as Hnil.
  { exists []. split; [|done]. intros t Ht. by apply elem_of_nil in Ht. }
  unfold Wave.collapse. destruct (is0 _); [done|].
  destruct (is1 _); [done|].
  destruct (Random.next rng) as [r rng']. simpl.
  match goal with |- context [Wave.remove_others w i ?sel] =>
    destruct (remove_others_removes w i sel) as (ts & H1 & H2 & _) end.
  exists ts. split; [|done]. intros t Ht. by destruct (H1 t Ht).
Qed.

Lemma tracked_collapse w i rng :
  tracked w -> 0 <= i < Wave.size w -> tracked (fst (fst (Wave.collapse w i rng))).
Proof.
  intros Hw Hi. destruct (collapse_wave w i rng) as (ts & Hts & ->).
  by apply tracked_removes.
Qed.

Lemma tracked_fresh w :
  shape w -> Wave.patternCount w < 4294967296 ->
  (forall i, 0 <= i < Wave.size w -> fresh_cell w i) -> tracked w.
Proof.
  intros Hs HT Hf. split; [done|]. split; [by apply fresh_counted|].
  intros i Hi. exists []. by apply fresh_tracks, Hf.
Qed.

Lemma tracked_reachable W H ws w :
  Z.of_nat (length ws) < 4294967296 -> reachable W H ws w -> tracked w.
Proof.
  intros HT Hr. induction Hr as [w Hn|w i t _ IH Hi Ht|w i rng _ IH Hi|w _ IH].
  - destruct (new_inv _ _ _ _ Hn) as (_&_&Esz&_&ET&_&_&_&Hs&Hf).
    apply tracked_fresh; [done|by rewrite ET|by rewrite Esz].
  - by apply tracked_remove.
  - by apply tracked_collapse.
  - destruct IH as (Hs & [HT' _] & _).
    apply tracked_fresh; [by apply clear_shape|done|].
    intros i Hi. by apply clear_fresh.
Qed.

End WaveFacts.

(* ===================================================================== *)
(** * Sequences of removals, and the room on the stack *)
(* ===================================================================== *)

Lemma ones_wr (d : list Z) k : rd d k = Some 1 -> (Propagator.ones (wr d k 0%Z) + 1 = Propagator.ones d)%nat.
Proof.
  unfold rd, wr. destruct (k <? 0); [done|]. intros Hk.
  unfold Propagator.ones.
  rewrite <- (take_drop_middle d (Z.to_nat k) 1 Hk) at 2.
  rewrite insert_take_drop by (by apply lookup_lt_Some in Hk).
  rewrite !filter_app, !filter_cons.
  rewrite decide_False by done. rewrite decide_True by done.
  rewrite !length_app. simpl. lia.
Qed.

Lemma ones_le (d : list Z) : (Propagator.ones d <= length d)%nat.
Proof. apply length_filter. Qed.

Section RemovalFacts.
Context {M : MathLib}.
Implicit Types (w : Wave.t) (i j t : Z) (rs : list (Z * Z)).

Lemma remove_ones w j t :
  Wave.get w j t = true ->
  (Propagator.ones (Wave.data (fst (Wave.remove w j t))) + 1 = Propagator.ones (Wave.data w))%nat.
Proof.
  intros Hg. apply get_true in Hg. rewrite remove_data, Hg. simpl. by apply ones_wr.
Qed.

Lemma removals_app w rs1 rs2 : removals w (rs1 ++ rs2) = removals (removals w rs1) rs2.
Proof. revert w. induction rs1 as [|[j t] rs1 IH]; intros w; [done|]. simpl. apply IH. Qed.

Lemma performed_app w rs1 rs2 :
  performed w (rs1 ++ rs2) <-> performed w rs1 /\ performed (removals w rs1) rs2.
Proof.
  revert w. induction rs1 as [|[j t] rs1 IH]; intros w; simpl; [tauto|].
  rewrite IH. tauto.
Qed.

Lemma removals_static w rs : same_static w (removals w rs).
Proof.
  revert w. induction rs as [|[j t] rs IH]; intros w; [apply same_static_refl|].
  simpl. eapply same_static_trans; [apply remove_static|apply IH].
Qed.

Lemma removals_shape w rs : shape w -> shape (removals w rs).
Proof.
  revert w. induction rs as [|[j t] rs IH]; intros w Hs; [done|].
  simpl. by apply IH, remove_shape.
Qed.

Lemma removals_get_mono w rs i t :
  Wave.get (removals w rs) i t = true -> Wave.get w i t = true.
Proof.
  revert w. induction rs as [|[j t'] rs IH]; intros w; [done|].
  simpl. intros H%IH. by eapply remove_get_mono.
Qed.

Lemma removals_tracked w rs : tracked w -> performed w rs -> tracked (removals w rs).
Proof.
  revert w. induction rs as [|[j t] rs IH]; intros w Hw Hp; [done|].
  simpl in *. destruct Hp as [[Ht Hg] Hp]. apply IH; [|done].
  apply tracked_remove; [done| |done].
  destruct Hw as (Hs & _). by eapply get_range.
Qed.

Lemma removals_ones w rs :
  performed w rs ->
  (Propagator.ones (Wave.data (removals w rs)) + length rs = Propagator.ones (Wave.data w))%nat.
Proof.
  revert w. induction rs as [|[j t] rs IH]; intros w Hp; simpl in *; [lia|].
  destruct Hp as [[Ht Hg] Hp]. specialize (IH _ Hp).
  pose proof (remove_ones w j t Hg). lia.
Qed.

(** The memoized count of a cell no removal touches. *)
Lemma removals_count_other w rs i :
  (forall j t, (j, t) ∈ rs -> j <> i) ->
  Wave.getRemainingCount (removals w rs) i = Wave.getRemainingCount w i.
Proof.
  revert w. induction rs as [|[j t] rs IH]; intros w Hne; [done|].
  simpl. rewrite IH by (intros; eapply Hne; by right).
  unfold Wave.getRemainingCount.
  destruct (remove_memo_other w j t i) as (_&_&_&->&_); [|done].
  eapply Hne. left.
Qed.

Lemma removes_removals w i ts : removes w i ts = removals w (map (fun t => (i, t)) ts).
Proof. revert w. induction ts as [|t ts IH]; intros w; [done|]. simpl. apply IH. Qed.

(** The patterns [collapse] removes, when it goes through its weighted
    draw: all that are possible but the selected one. *)
Lemma remove_others_eq w i sel :
  Wave.remove_others w i sel =
  removes w i (filter (fun p => p <> sel) (Wave.getPossiblePatterns w i)).
Proof.
  unfold Wave.remove_others, Wave.getPossiblePatterns.
  assert (forall ps w0,
            NoDup ps ->
            Wave.patternCount w0 = Wave.patternCount w ->
            (forall p, p ∈ ps ->
               rd (Wave.data w0) (i * Wave.patternCount w + p) =
               rd (Wave.data w) (i * Wave.patternCount w + p)) ->
            fold_left (fun w1 p =>
                 if negb (p =? sel) && is1 (rd (Wave.data w1) (i * Wave.patternCount w + p))
                 then fst (Wave.remove w1 i p) else w1) ps w0 =
            removes w0 i (filter (fun p => p <> sel)
               (filter (fun p => is1 (rd (Wave.data w) (i * Wave.patternCount w + p)) = true) ps)))
    as Hgen.
  { induction ps as [|p ps IH]; intros w0 Hnd HT Hsame; [done|].
    apply NoDup_cons in Hnd as [Hnp Hnd].
    cbn [fold_left]. rewrite (Hsame p) by left.
    rewrite filter_cons.
    destruct (is1 (rd (Wave.data w) (i * Wave.patternCount w + p))) eqn:E1.
    - rewrite decide_True by done. rewrite filter_cons.
      destruct (Z.eqb_spec p sel) as [->|Hne]; simpl.
      + rewrite decide_False by tauto. apply IH; [done..|].
        intros q Hq. apply Hsame. by right.
      + rewrite decide_True by done. simpl. apply IH; [done| |].
        * destruct (remove_static w0 i p) as (_&_&_&_&_&_&_&->). done.
        * intros q Hq. rewrite remove_data. rewrite HT.
          rewrite (Hsame p) by left. rewrite (is0_is1 _ E1).
          rewrite rd_wr_ne; [apply Hsame; by right|]. intros Heq.
          assert (p = q) as -> by lia. done.
    - rewrite decide_False by done. rewrite andb_false_r.
      apply IH; [done..|]. intros q Hq. apply Hsame. by right. }
  apply Hgen; [apply NoDup_upto|done|done].
Qed.

End RemovalFacts.

(* ===================================================================== *)
(** * [Propagator.propagate] *)
(* ===================================================================== *)

Lemma same_config_refl p : same_config p p.
Proof. by repeat split. Qed.

Lemma same_config_trans p1 p2 p3 : same_config p1 p2 -> same_config p2 p3 -> same_config p1 p3.
Proof. unfold same_config. intros (?&?&?&?&?) (?&?&?&?&?). repeat split; congruence. Qed.

Lemma wrap_uint32_range t T : 0 <= t < T -> 0 <= wrap_uint32 t < T.
Proof.
  intros Ht. unfold wrap_uint32.
  pose proof (Z.mod_pos_bound t 4294967296 eq_refl).
  pose proof (Z.mod_le t 4294967296 (proj1 Ht) eq_refl). lia.
Qed.

Ltac finish :=
  split_and!;
  try first [done | lia | apply same_config_refl | (simpl; lia)
            | (eapply same_config_trans; eassumption)].

Section PropagateFacts.
Context {M : MathLib}.
Implicit Types (p : Propagator.t) (w : Wave.t) (i j t : Z) (rs : list (Z * Z)).

Lemma serves_with_compatible p w c : serves p w -> serves (Propagator.with_compatible p c) w.
Proof. done. Qed.

Lemma serves_pop p w :
  serves p w -> 0 < Propagator.stackSize p ->
  serves (Propagator.with_stack p (Propagator.stack p) (Propagator.stackSize p - 1)) w.
Proof.
  intros (HT & Hd & Hn & Hlen & Hcap & Hlive) Hpos.
  split; [done|]. split; [done|]. unfold stack_ok. simpl.
  split; [lia|]. split; [done|]. split; [lia|].
  intros k Hk. apply Hlive. lia.
Qed.

(** Pushing the pair of a removal that has just been performed. *)
Lemma serves_push p w j t :
  serves p w -> 0 <= t < Wave.patternCount w -> Wave.get w j t = true ->
  serves (Propagator.addToPropagate p j t) (fst (Wave.remove w j t)).
Proof.
  intros (HT & Hd & Hn & Hlen & Hcap & Hlive) Ht Hg.
  pose proof (remove_static w j t) as (_&_&_&_&_&_&Esz&ET).
  pose proof (remove_ones w j t Hg) as Hones.
  split; [by rewrite ET|]. split; [by rewrite ET|].
  unfold stack_ok. rewrite Esz, ET. simpl. rewrite !length_wr.
  split; [lia|]. split; [done|]. split; [lia|].
  intros k Hk. destruct (decide (k = Propagator.stackSize p)) as [->|Hne].
  - exists (wrap_uint32 j), (wrap_uint32 t).
    rewrite rd_wr_ne by lia. rewrite rd_wr_eq by lia.
    rewrite rd_wr_eq by (rewrite length_wr; lia).
    split; [done|]. split; [done|]. by apply wrap_uint32_range.
  - destruct (Hlive k) as (c & t' & H1 & H2 & H3); [lia|].
    exists c, t'. rewrite !rd_wr_ne by lia. done.
Qed.

Lemma addToPropagate_config p j t : same_config p (Propagator.addToPropagate p j t).
Proof. by repeat split. Qed.

Lemma propagate_patterns_spec pats : forall p w nb od p' w' flag,
  shape w -> serves p w -> (forall x, x ∈ pats -> 0 <= x < Wave.patternCount w) ->
  Propagator.propagate_patterns p w nb od pats = (p', w', flag) ->
  exists rs,
    performed w rs /\ w' = removals w rs /\ (forall j t, (j, t) ∈ rs -> j = nb) /\
    serves p' w' /\ same_config p p' /\
    Propagator.stackSize p' = Propagator.stackSize p + Z.of_nat (length rs) /\
    (flag = true -> zero_cell w' nb) /\
    (flag = false -> zero_cell w' nb -> zero_cell w nb).
Proof.
  induction pats as [|cp pats IH]; intros p w nb od p' w' flag Hs Hsv Hpats; simpl.
  - intros [= <- <- <-]. exists []. simpl. split_and!; try done; try lia.
    intros j t Hin. by apply elem_of_nil in Hin.
  - set (p1 := Propagator.with_compatible p _).
    assert (serves p1 w) as Hsv1 by done.
    assert (0 <= cp < Wave.patternCount w) as Hcp by (apply Hpats; left).
    assert (forall x, x ∈ pats -> 0 <= x < Wave.patternCount w) as Hpats'
      by (intros; apply Hpats; by right).
    destruct (is0 _ && Wave.get w nb cp) eqn:Ec.
    + apply andb_true_iff in Ec as [_ Hg].
      pose proof (serves_push p1 w nb cp Hsv1 Hcp Hg) as Hsv2.
      pose proof (remove_static w nb cp) as (_&_&_&_&_&_&Esz&ET).
      destruct (is0 (Wave.getRemainingCount (fst (Wave.remove w nb cp)) nb)) eqn:Ez.
      * intros [= <- <- <-]. exists [(nb, cp)].
        assert (forall j t, (j, t) ∈ [(nb, cp)] -> j = nb) as Hat'.
        { intros j t [[= -> ->]|Hin%elem_of_nil]%elem_of_cons; done. }
        assert (zero_cell (fst (Wave.remove w nb cp)) nb) as Hz by (by apply is0_true).
        simpl. split_and!; try (done || lia).
      * intros Hrec.
        destruct (IH _ _ _ _ _ _ _ (remove_shape _ _ _ Hs) Hsv2
                    ltac:(by rewrite ET) Hrec)
          as (rs & Hperf & -> & Hat & Hsv' & Hcfg & Hsz & Hf1 & Hf2).
        exists ((nb, cp) :: rs).
        assert (forall j t, (j, t) ∈ (nb, cp) :: rs -> j = nb) as Hat'.
        { intros j t [[= -> ->]|Hin]%elem_of_cons; [done|by eapply Hat]. }
        assert (Propagator.stackSize p' =
                Propagator.stackSize p + Z.of_nat (length ((nb, cp) :: rs))) as Hsz'.
        { rewrite Hsz. simpl. lia. }
        assert (flag = false ->
                zero_cell (removals (fst (Wave.remove w nb cp)) rs) nb -> zero_cell w nb) as Hf2'.
        { intros Hfl Hz. specialize (Hf2 Hfl Hz). apply is0_true in Hf2. congruence. }
        simpl. split_and!; try (done || lia).
    + intros Hrec.
      destruct (IH _ _ _ _ _ _ _ Hs Hsv1 Hpats' Hrec)
        as (rs & Hperf & -> & Hat & Hsv' & Hcfg & Hsz & Hf1 & Hf2).
      exists rs. split_and!; try (done || lia).
Qed.

Lemma data_at_wf p w t d :
  serves p w -> 0 <= t < Wave.patternCount w -> 0 <= d < 4 ->
  exists l, Propagator.data_at p t d = Ok l /\ forall x, x ∈ l -> 0 <= x < Wave.patternCount w.
Proof.
  intros (_ & Hd & _) Ht Hdir. destruct (Hd t d Ht Hdir) as (row & l & H1 & H2 & H3).
  exists l. unfold Propagator.data_at. by rewrite H1, H2.
Qed.

Lemma zero_cell_removals_at w rs nb j :
  (forall j' t, (j', t) ∈ rs -> j' = nb) -> j <> nb ->
  zero_cell (removals w rs) j -> zero_cell w j.
Proof.
  intros Hat Hne. unfold zero_cell. rewrite removals_count_other; [done|].
  intros j' t Hin ->. apply Hne. by eapply Hat.
Qed.

Lemma propagate_directions_spec dirs : forall p w c pattern,
  shape w -> serves p w -> 0 <= pattern < Wave.patternCount w ->
  (forall d, d ∈ dirs -> 0 <= d < 4) ->
  exists p' w' flag rs,
    Propagator.propagate_directions p w c pattern dirs = Ok (p', w', flag) /\
    trace_ok p w p' w' rs /\
    (flag = true -> exists j, zero_cell w' j) /\
    (flag = false -> forall j, zero_cell w' j -> zero_cell w j).
Proof.
  induction dirs as [|d dirs IH]; intros p w c pattern Hs Hsv Hpat Hdirs; simpl.
  - exists p, w, false, []. split; [done|]. split; [unfold trace_ok; finish|].
    split; [done|]. by intros _ j.
  - assert (0 <= d < 4) as Hd by (apply Hdirs; left).
    assert (forall d', d' ∈ dirs -> 0 <= d' < 4) as Hdirs' by (intros; apply Hdirs; by right).
    destruct (negb (Propagator.periodic p) && negb _) eqn:Eskip.
    { apply IH; done. }
    destruct (data_at_wf p w pattern d Hsv Hpat Hd) as (l & -> & Hl). simpl.
    match goal with |- context [Propagator.propagate_patterns p w ?nb ?od l] =>
      destruct (Propagator.propagate_patterns p w nb od l) as [[p1 w1] fl] eqn:Epat;
      destruct (propagate_patterns_spec l p w nb od p1 w1 fl Hs Hsv Hl Epat)
        as (rs & Hperf & Hw1 & Hat & Hsv1 & Hcfg1 & Hsz1 & Hf1 & Hf2);
      set (nbv := nb) in * end.
    destruct fl.
    + exists p1, w1, true, rs. split; [done|]. split; [done|].
      split; [intros _; exists nbv; by apply Hf1|done].
    + pose proof (removals_static w rs) as (_&_&_&_&_&_&_&ET). rewrite <- Hw1 in ET.
      destruct (IH p1 w1 c pattern) as (p' & w' & flag & rs' & Hrun & Htr & Hg1 & Hg2).
      { subst w1. by apply removals_shape. }
      { done. }
      { by rewrite ET. }
      { done. }
      destruct Htr as (Hperf' & Hw' & Hsv' & Hcfg' & Hsz').
      exists p', w', flag, (rs ++ rs'). split; [done|]. split.
      * assert (performed w (rs ++ rs')) by (apply performed_app; subst w1; done).
        assert (w' = removals w (rs ++ rs')) by (rewrite removals_app; by subst).
        assert (Propagator.stackSize p' =
                Propagator.stackSize p + Z.of_nat (length (rs ++ rs')))
          by (rewrite Hsz', Hsz1, length_app; lia).
        unfold trace_ok. finish.
      * split; [done|]. intros Hfl j Hz. specialize (Hg2 Hfl j Hz).
        destruct (decide (j = nbv)) as [->|Hne]; [by apply Hf2|].
        subst w1. by eapply zero_cell_removals_at.
Qed.

Lemma propagate_pop_spec p w :
  shape w -> serves p w -> 0 < Propagator.stackSize p ->
  exists p' w' flag rs,
    Propagator.propagate_pop p w = Ok (p', w', flag) /\
    performed w rs /\ w' = removals w rs /\ serves p' w' /\ same_config p p' /\
    Propagator.stackSize p' = Propagator.stackSize p - 1 + Z.of_nat (length rs) /\
    (flag = true -> exists j, zero_cell w' j) /\
    (flag = false -> forall j, zero_cell w' j -> zero_cell w j).
Proof.
  intros Hs Hsv Hpos. unfold Propagator.propagate_pop.
  pose proof Hsv as (_ & _ & _ & _ & _ & Hlive).
  destruct (Hlive (Propagator.stackSize p - 1)) as (c & t & -> & -> & Ht); [lia|].
  destruct (propagate_directions_spec (upto 4)
              (Propagator.with_stack p (Propagator.stack p) (Propagator.stackSize p - 1))
              w c t Hs (serves_pop p w Hsv Hpos) Ht)
    as (p' & w' & flag & rs & Hrun & (Hperf & Hw' & Hsv' & Hcfg & Hsz) & Hf1 & Hf2).
  { intros d. apply elem_of_upto. }
  exists p', w', flag, rs. simpl in Hsz. finish.
Qed.

Lemma propagate_loop_spec fuel : forall p w,
  shape w -> serves p w -> (Propagator.turns p w <= fuel)%nat ->
  exists p' w' ok rs,
    Propagator.propagate_loop fuel p w = Ok (p', w', ok) /\
    performed w rs /\ w' = removals w rs /\ serves p' w' /\ same_config p p' /\
    (ok = true -> Propagator.stackSize p' = 0 /\ forall j, zero_cell w' j -> zero_cell w j) /\
    (ok = false -> exists j, zero_cell w' j).
Proof.
  induction fuel as [|fuel IH]; intros p w Hs Hsv Hfuel.
  - assert (Propagator.stackSize p = 0) as Hz.
    { destruct Hsv as (_ & _ & Hn & _). unfold Propagator.turns in Hfuel. lia. }
    exists p, w, true, []. simpl. rewrite Hz. simpl. finish.
  - cbn [Propagator.propagate_loop].
    destruct (Z.ltb_spec 0 (Propagator.stackSize p)) as [Hpos|Hle].
    + destruct (propagate_pop_spec p w Hs Hsv Hpos)
        as (p1 & w1 & flag & rs & -> & Hperf & Hw1 & Hsv1 & Hcfg1 & Hsz1 & Hf1 & Hf2).
      destruct flag.
      * exists p1, w1, false, rs. pose proof (Hf1 eq_refl). finish.
      * destruct (IH p1 w1) as (p' & w' & ok & rs' & Hrun & Hperf' & Hw' & Hsv' & Hcfg' & Hok & Hko).
        { subst w1. by apply removals_shape. }
        { done. }
        { pose proof (removals_ones w rs Hperf) as Hones. rewrite <- Hw1 in Hones.
          unfold Propagator.turns in *. lia. }
        exists p', w', ok, (rs ++ rs').
        assert (performed w (rs ++ rs')) by (apply performed_app; by subst w1).
        assert (w' = removals w (rs ++ rs')) by (rewrite removals_app; by subst).
        assert (ok = true -> Propagator.stackSize p' = 0 /\
                forall j, zero_cell w' j -> zero_cell w j) as Hok'.
        { intros Hk. destruct (Hok Hk) as [Hsz Hz]. split; [done|].
          intros j Hj. apply Hf2; [done|]. by apply Hz. }
        finish.
    + destruct Hsv as (HT & Hd & Hn & Hrest).
      assert (Propagator.stackSize p = 0) as Hz by lia.
      exists p, w, true, []. finish.
Qed.

(** [propagate] returns (its loop ends within its bound, and no read
    fails), and what it does to the wave is a sequence of removals. *)
Lemma propagate_spec p w :
  shape w -> serves p w ->
  exists p' w' ok rs,
    Propagator.propagate p w = Ok (p', w', ok) /\
    performed w rs /\ w' = removals w rs /\ serves p' w' /\ same_config p p' /\
    (ok = true -> Propagator.stackSize p' = 0 /\ forall j, zero_cell w' j -> zero_cell w j) /\
    (ok = false -> exists j, zero_cell w' j).
Proof. intros Hs Hsv. by apply propagate_loop_spec. Qed.

End PropagateFacts.

(* ===================================================================== *)
(** * The cell-selection heuristics *)
(* ===================================================================== *)

Section SelectFacts.
Context {M : MathLib}.
Implicit Types (w : Wave.t) (i j t : Z).

Lemma scan_answer_skip w i cells a res :
  is0 (Wave.getRemainingCount w i) = false ->
  scan_answer w cells a res -> scan_answer w (i :: cells) a res.
Proof.
  intros Hi [(-> & j & Hj & Hz)|(Hnz & Hres)].
  - left. split; [done|]. exists j. split; [by right|done].
  - right. split.
    + intros j [->|Hj]%elem_of_cons; [done|by apply Hnz].
    + destruct Hres as [->|[Hin Hc]]; [by left|]. right. split; [by right|done].
Qed.

Lemma scan_answer_take w i cells res :
  is0 (Wave.getRemainingCount w i) = false ->
  is1 (Wave.getRemainingCount w i) = false ->
  scan_answer w cells i res -> forall a, scan_answer w (i :: cells) a res.
Proof.
  intros Hi0 Hi1 [(-> & j & Hj & Hz)|(Hnz & Hres)] a.
  - left. split; [done|]. exists j. split; [by right|done].
  - right. split.
    + intros j [->|Hj]%elem_of_cons; [done|by apply Hnz].
    + right. destruct Hres as [->|[Hin Hc]]; [split; [left|done]|split; [by right|done]].
Qed.

Lemma minEntropy_loop_spec w cells : forall m a rng,
  scan_answer w cells a (fst (Wave.minEntropy_loop w cells m a rng)).
Proof.
  induction cells as [|i cells IH]; intros m a rng; simpl.
  - right. split; [intros i Hi; by apply elem_of_nil in Hi|by left].
  - fold (Wave.getRemainingCount w i).
    destruct (is1 (Wave.getRemainingCount w i)) eqn:E1.
    { apply scan_answer_skip; [by apply is0_is1|apply IH]. }
    destruct (is0 (Wave.getRemainingCount w i)) eqn:E0.
    { left. split; [done|]. exists i. split; [left|done]. }
    destruct (PrimFloat.leb _ m); [|by apply scan_answer_skip].
    destruct (Random.next rng) as [r rng1].
    destruct (PrimFloat.ltb _ m); [|by apply scan_answer_skip].
    by apply scan_answer_take.
Qed.

Lemma minEntropy_loop_collapsed w cells : forall m a rng,
  (forall i, i ∈ cells -> is1 (Wave.getRemainingCount w i) = true) ->
  Wave.minEntropy_loop w cells m a rng = (a, rng).
Proof.
  induction cells as [|i cells IH]; intros m a rng Hall; simpl; [done|].
  fold (Wave.getRemainingCount w i). rewrite (Hall i) by left.
  apply IH. intros; apply Hall; by right.
Qed.

Lemma mrv_loop_spec tb w cells : forall m a rng,
  scan_answer w cells a (fst (Wave.mrv_loop tb w cells m a rng)).
Proof.
  induction cells as [|i cells IH]; intros m a rng; simpl.
  - right. split; [intros i Hi; by apply elem_of_nil in Hi|by left].
  - fold (Wave.getRemainingCount w i).
    destruct (is1 (Wave.getRemainingCount w i)) eqn:E1.
    { apply scan_answer_skip; [by apply is0_is1|apply IH]. }
    destruct (is0 (Wave.getRemainingCount w i)) eqn:E0.
    { left. split; [done|]. exists i. split; [left|done]. }
    destruct (PrimFloat.leb _ m); [|by apply scan_answer_skip].
    destruct (Random.next rng) as [r rng1].
    destruct (PrimFloat.ltb _ m); [|by apply scan_answer_skip].
    by apply scan_answer_take.
Qed.

Lemma mrv_loop_collapsed tb w cells : forall m a rng,
  (forall i, i ∈ cells -> is1 (Wave.getRemainingCount w i) = true) ->
  Wave.mrv_loop tb w cells m a rng = (a, rng).
Proof.
  induction cells as [|i cells IH]; intros m a rng Hall; simpl; [done|].
  fold (Wave.getRemainingCount w i). rewrite (Hall i) by left.
  apply IH. intros; apply Hall; by right.
Qed.

(** The scanline scan stops at the first cell that is not collapsed. *)
Lemma scanline_loop_spec w cells :
  let '(res, next) := Wave.scanline_loop w cells in
  (res = -2 /\ is0 (Wave.getRemainingCount w next) = true /\ next ∈ cells) \/
  (res = -1 /\ next = Wave.size w /\
   forall i, i ∈ cells -> is1 (Wave.getRemainingCount w i) = true) \/
  (res ∈ cells /\ next = res + 1 /\
   is1 (Wave.getRemainingCount w res) = false /\ is0 (Wave.getRemainingCount w res) = false).
Proof.
  induction cells as [|i cells IH]; simpl.
  - right. left. split; [done|]. split; [done|]. intros i Hi. by apply elem_of_nil in Hi.
  - fold (Wave.getRemainingCount w i).
    destruct (is1 (Wave.getRemainingCount w i)) eqn:E1.
    + destruct (Wave.scanline_loop w cells) as [res next].
      destruct IH as [(-> & Hz & Hin)|[(-> & -> & Hall)|(Hin & -> & H1 & H0)]].
      * left. split; [done|]. split; [done|by right].
      * right. left. split; [done|]. split; [done|].
        intros j [->|Hj]%elem_of_cons; [done|by apply Hall].
      * right. right. split; [by right|done].
    + destruct (is0 (Wave.getRemainingCount w i)) eqn:E0.
      * left. split; [done|]. split; [done|left].
      * right. right. split; [left|done].
Qed.

End SelectFacts.

(* ===================================================================== *)
(** * [Wave.collapse] and the pushes that follow it *)
(* ===================================================================== *)

Lemma length_filter_ne (l : list Z) (x : Z) :
  NoDup l -> x ∈ l -> (length (filter (fun p => p <> x) l) + 1 = length l)%nat.
Proof.
  intros Hnd Hin.
  assert (filter (fun _ : Z => True) l = l) as Hall.
  { clear. induction l as [|a l IH]; [done|]. rewrite filter_cons_True by done. by rewrite IH. }
  pose proof (filter_length_drop (fun _ : Z => True) (fun p => p <> x) l x Hnd Hin I) as H.
  rewrite Hall in H. rewrite H; [lia|tauto|]. intros y _ Hy. tauto.
Qed.

Section CollapseFacts.
Context {M : MathLib}.
Implicit Types (p : Propagator.t) (w : Wave.t) (i j t c : Z) (rs : list (Z * Z)).

Lemma first_possible_spec d off ps :
  (Wave.first_possible d off ps = -1 /\ forall q, q ∈ ps -> 0 <= q -> is1 (rd d (off + q)) = false) \/
  (Wave.first_possible d off ps ∈ ps /\ is1 (rd d (off + Wave.first_possible d off ps)) = true).
Proof.
  induction ps as [|q ps IH]; simpl.
  - left. split; [done|]. intros q Hq. by apply elem_of_nil in Hq.
  - destruct (is1 (rd d (off + q))) eqn:E.
    + right. split; [left|done].
    + destruct IH as [[-> Hall]|[Hin Hp]].
      * left. split; [done|]. intros q' [->|Hq']%elem_of_cons Hpos; [done|by apply Hall].
      * right. split; [by right|done].
Qed.

Lemma select_loop_spec w off target ps : forall cum,
  Wave.select_loop w off target cum ps = -1 \/
  (Wave.select_loop w off target cum ps ∈ ps /\
   is1 (rd (Wave.data w) (off + Wave.select_loop w off target cum ps)) = true).
Proof.
  induction ps as [|q ps IH]; intros cum; simpl; [by left|].
  destruct (is1 (rd (Wave.data w) (off + q))) eqn:E.
  - destruct (PrimFloat.leb _ _).
    + right. split; [left|done].
    + destruct (IH (PrimFloat.add cum (num (rd (Wave.weights w) q)))) as [->|[Hin Hp]];
        [by left|right; split; [by right|done]].
  - destruct (IH cum) as [->|[Hin Hp]]; [by left|right; split; [by right|done]].
Qed.

(** A cell whose count is neither 0 nor 1 has a pattern that [collapse]
    selects, and [collapse] removes all the others. *)
Lemma collapse_open w c rng :
  shape w -> counted w -> 0 <= c < Wave.size w ->
  is0 (Wave.getRemainingCount w c) = false -> is1 (Wave.getRemainingCount w c) = false ->
  exists sel,
    Wave.collapse w c rng =
      (removes w c (filter (fun q => q <> sel) (Wave.getPossiblePatterns w c)),
       sel, snd (Random.next rng)) /\
    0 <= sel < Wave.patternCount w /\ Wave.get w c sel = true.
Proof.
  intros Hs [HT Hc] Hi H0 H1. unfold Wave.collapse.
  unfold Wave.getRemainingCount in H0, H1. rewrite H0, H1.
  destruct (Random.next rng) as [r rng']. simpl.
  set (sel0 := Wave.select_loop _ _ _ _ _).
  set (sel := if sel0 =? -1 then _ else sel0).
  assert (sel ∈ upto (Wave.patternCount w) /\
          is1 (rd (Wave.data w) (c * Wave.patternCount w + sel)) = true) as [Hin Hp].
  { subst sel. destruct (Z.eqb_spec sel0 (-1)) as [E|E].
    - match goal with |- context [Wave.first_possible ?d ?o ?l] =>
        destruct (first_possible_spec d o l) as [[_ Hall]|[Hin Hp]] end.
      + exfalso. rewrite (Hc c Hi) in H0, H1.
        assert (popcount w c = 0) as Hz.
        { unfold popcount, Wave.getPossiblePatterns.
          assert (forall (l : list Z) (P : Z -> Prop) `{!forall x, Decision (P x)},
                    (forall x, x ∈ l -> ~ P x) -> filter P l = []) as Hnone.
          { intros l P ?. induction l as [|a l IH]; intros HP; [done|].
            rewrite filter_cons_False by (apply HP; left). apply IH.
            intros; apply HP; by right. }
          rewrite Hnone; [reflexivity|].
          intros q Hq. rewrite Hall; [discriminate| |].
          - by rewrite elem_of_reverse.
          - apply elem_of_upto in Hq. lia. }
        rewrite Hz in H0. done.
      + split; [|done]. by rewrite elem_of_reverse in Hin.
    - subst sel0. match goal with |- context [Wave.select_loop ?a ?b ?c0 ?d ?e] =>
        destruct (select_loop_spec a b c0 e d) as [Hm|[Hin Hp]] end; [done|done]. }
  exists sel. rewrite remove_others_eq. split; [done|].
  split; [by apply elem_of_upto|done].
Qed.

Lemma performed_removes w c ts :
  NoDup ts -> (forall t, t ∈ ts -> 0 <= t < Wave.patternCount w /\ Wave.get w c t = true) ->
  performed w (map (fun t => (c, t)) ts).
Proof.
  revert w. induction ts as [|t ts IH]; intros w Hnd Hts; simpl; [done|].
  apply NoDup_cons in Hnd as [Hnt Hnd].
  split; [apply Hts; left|]. apply IH; [done|].
  intros t' Ht'. destruct (remove_static w c t) as (_&_&_&_&_&_&_&->).
  destruct (Hts t') as [Hr Hg]; [by right|]. split; [done|].
  rewrite remove_get_other; [done|]. intros Heq. assert (t' = t) as -> by lia. done.
Qed.

Lemma popcount_removals_at w rs c :
  performed w rs -> (forall j t, (j, t) ∈ rs -> j = c) ->
  popcount (removals w rs) c = popcount w c - Z.of_nat (length rs).
Proof.
  revert w. induction rs as [|[j t] rs IH]; intros w Hp Hat; simpl in *; [lia|].
  destruct Hp as [[Ht Hg] Hp]. assert (j = c) as -> by (eapply Hat; left).
  rewrite IH; [|done|intros; eapply Hat; by right].
  rewrite remove_popcount_at by done. lia.
Qed.

(** After [collapse] on an open cell, its remaining count is 1. *)
Lemma collapse_count w c sel :
  shape w -> counted w -> 0 <= c < Wave.size w ->
  0 <= sel < Wave.patternCount w -> Wave.get w c sel = true ->
  let ts := filter (fun q => q <> sel) (Wave.getPossiblePatterns w c) in
  performed w (map (fun t => (c, t)) ts) /\
  (shape w -> tracked w -> Wave.getRemainingCount (removes w c ts) c = Some 1).
Proof.
  intros Hs Hc Hi Hsel Hg ts.
  assert (performed w (map (fun t => (c, t)) ts)) as Hperf.
  { apply performed_removes; [apply NoDup_filter, NoDup_possible|].
    intros t [_ Ht]%list_elem_of_filter. by apply possible_iff in Ht. }
  split; [done|]. intros _ Htr.
  pose proof (removals_tracked w _ Htr Hperf) as (Hs' & [_ Hc'] & _).
  rewrite removes_removals. unfold Wave.getRemainingCount.
  pose proof (removals_static w (map (fun t => (c, t)) ts)) as (_&_&_&_&_&_&Esz&_).
  rewrite Hc' by (by rewrite Esz). f_equal.
  rewrite popcount_removals_at; [|done|].
  - rewrite length_map. unfold popcount. subst ts.
    pose proof (length_filter_ne (Wave.getPossiblePatterns w c) sel (NoDup_possible w c)) as Hl.
    rewrite <- Hl by (by apply possible_iff). lia.
  - intros j t [t' [[= -> ->] _]]%list_elem_of_fmap. done.
Qed.

(** ** Room on the stack for pushes that come after the removals *)

Lemma serves_slack_0 p w : serves p w <-> serves_slack 0 p w.
Proof.
  unfold serves, serves_slack, stack_ok. rewrite Z.add_0_r. tauto.
Qed.

Lemma serves_slack_removals p w rs :
  serves p w -> performed w rs -> serves_slack (Z.of_nat (length rs)) p (removals w rs).
Proof.
  intros (HT & Hd & Hn & Hlen & Hcap & Hlive) Hperf.
  pose proof (removals_static w rs) as (_&_&_&_&_&_&Esz&ET).
  pose proof (removals_ones w rs Hperf).
  unfold serves_slack. rewrite Esz, ET. split_and!; try done. lia.
Qed.

Lemma serves_slack_push p w k j t :
  0 <= k -> serves_slack (k + 1) p w -> 0 <= t < Wave.patternCount w ->
  serves_slack k (Propagator.addToPropagate p j t) w.
Proof.
  intros Hk (HT & Hd & Hn & Hlen & Hcap & Hlive) Ht.
  unfold serves_slack. simpl. rewrite !length_wr.
  split_and!; try (done || lia).
  intros n Hn'. destruct (decide (n = Propagator.stackSize p)) as [->|Hne].
  - exists (wrap_uint32 j), (wrap_uint32 t).
    rewrite rd_wr_ne by lia. rewrite rd_wr_eq by lia.
    rewrite rd_wr_eq by (rewrite length_wr; lia).
    split; [done|]. split; [done|]. by apply wrap_uint32_range.
  - destruct (Hlive n) as (c & t' & H1 & H2 & H3); [lia|].
    exists c, t'. rewrite !rd_wr_ne by lia. done.
Qed.

Lemma push_removed_eq p c sel l :
  Engine.push_removed p c sel l =
  fold_left (fun p t => Propagator.addToPropagate p c t) (filter (fun q => q <> sel) l) p.
Proof.
  unfold Engine.push_removed. revert p. induction l as [|q l IH]; intros p; [done|].
  cbn [fold_left]. rewrite filter_cons. destruct (Z.eqb_spec q sel) as [->|Hne]; simpl.
  - rewrite decide_False by tauto. apply IH.
  - rewrite decide_True by done. simpl. apply IH.
Qed.

Lemma serves_slack_pushes ts : forall p w c,
  serves_slack (Z.of_nat (length ts)) p w ->
  (forall t, t ∈ ts -> 0 <= t < Wave.patternCount w) ->
  serves (fold_left (fun p t => Propagator.addToPropagate p c t) ts p) w /\
  same_config p (fold_left (fun p t => Propagator.addToPropagate p c t) ts p).
Proof.
  induction ts as [|t ts IH]; intros p w c Hsl Hts; simpl.
  - split; [by apply serves_slack_0|apply same_config_refl].
  - destruct (IH (Propagator.addToPropagate p c t) w c) as [H1 H2].
    + apply serves_slack_push; [lia| |apply Hts; left].
      replace (Z.of_nat (length ts) + 1) with (Z.of_nat (length (t :: ts))) by (simpl; lia).
      done.
    + intros; apply Hts; by right.
    + split; [done|]. eapply same_config_trans; [|exact H2]. by repeat split.
Qed.

End CollapseFacts.

(* ===================================================================== *)
(** * [step] *)
(* ===================================================================== *)

Section EngineFacts.
Context {M : MathLib}.
Implicit Types (e : Engine.t) (p : Propagator.t) (w : Wave.t) (i j t c : Z).

Lemma zero_cell_range w j : shape w -> zero_cell w j -> 0 <= j < Wave.size w.
Proof.
  intros Hs Hz. apply rd_Some in Hz. by rewrite (sh_count _ Hs) in Hz.
Qed.

Lemma zero_cell_is0 w j : zero_cell w j <-> is0 (Wave.getRemainingCount w j) = true.
Proof. unfold zero_cell. by rewrite is0_true. Qed.

(** The open cell a heuristic answers, or why it answers none. *)
Lemma select_spec h e :
  shape (Engine.wave e) -> 0 <= Engine.scanlineCursor e ->
  let c := fst (Engine.select h e) in
  let e1 := snd (Engine.select h e) in
  let w := Engine.wave e in
  Engine.wave e1 = w /\ Engine.propagator e1 = Engine.propagator e /\
  0 <= Engine.scanlineCursor e1 /\
  (c = -2 -> exists j, zero_cell w j) /\
  (c <> -1 -> c <> -2 ->
   0 <= c < Wave.size w /\
   is0 (Wave.getRemainingCount w c) = false /\ is1 (Wave.getRemainingCount w c) = false) /\
  ((forall i, 0 <= i < Wave.size w -> is1 (Wave.getRemainingCount w i) = true) -> c = -1) /\
  (h <> scanline_h -> c <> -2 -> forall j, ~ zero_cell w j).
Proof.
  intros Hs Hcur. cbv zeta.
  assert (forall a res, scan_answer (Engine.wave e) (upto (Wave.size (Engine.wave e))) (-1) res ->
            (res = -2 -> exists j, zero_cell (Engine.wave e) j) /\
            (res <> -1 -> res <> -2 ->
             0 <= res < Wave.size (Engine.wave e) /\
             is0 (Wave.getRemainingCount (Engine.wave e) res) = false /\
             is1 (Wave.getRemainingCount (Engine.wave e) res) = false) /\
            (a <> scanline_h -> res <> -2 -> forall j, ~ zero_cell (Engine.wave e) j)) as Hscan.
  { intros a res [(-> & j & Hj & Hz)|(Hnz & Hres)].
    - split; [intros _; exists j; by apply zero_cell_is0|]. split; [done|done].
    - split.
      { intros ->. destruct Hres as [?|[Hin _]]; [done|]. apply elem_of_upto in Hin. lia. }
      split.
      { intros H1 H2. destruct Hres as [?|[Hin Hc]]; [done|].
        split; [by apply elem_of_upto in Hin|]. split; [by apply Hnz|done]. }
      intros _ _ j Hz. pose proof (zero_cell_range _ _ Hs Hz) as Hr.
      apply zero_cell_is0 in Hz. rewrite Hnz in Hz; [done|by apply elem_of_upto]. }
  destruct h; unfold Engine.select.
  - (* entropy *)
    pose proof (minEntropy_loop_spec (Engine.wave e) (upto (Wave.size (Engine.wave e)))
                  infinity (-1) (Engine.rng e)) as Ha.
    pose proof (minEntropy_loop_collapsed (Engine.wave e) (upto (Wave.size (Engine.wave e)))
                  infinity (-1) (Engine.rng e)) as Hb.
    unfold Wave.getMinEntropyCell.
    destruct (Wave.minEntropy_loop _ _ _ _ _) as [c rng'] eqn:E. simpl in *.
    destruct (Hscan entropy_h c Ha) as (H1 & H2 & H3).
    split_and!; try done.
    intros Hall. assert ((c, rng') = (-1, Engine.rng e)) as [= -> _]; [|done].
    first [apply Hb | rewrite <- E; apply Hb].
    intros i Hi%elem_of_upto. by apply Hall.
  - (* mrv *)
    pose proof (mrv_loop_spec Wave.mrvTieBreak (Engine.wave e) (upto (Wave.size (Engine.wave e)))
                  infinity (-1) (Engine.rng e)) as Ha.
    pose proof (mrv_loop_collapsed Wave.mrvTieBreak (Engine.wave e)
                  (upto (Wave.size (Engine.wave e))) infinity (-1) (Engine.rng e)) as Hb.
    unfold Wave.getMRVCell.
    destruct (Wave.mrv_loop _ _ _ _ _ _) as [c rng'] eqn:E. simpl in *.
    destruct (Hscan mrv_h c Ha) as (H1 & H2 & H3).
    split_and!; try done.
    intros Hall. assert ((c, rng') = (-1, Engine.rng e)) as [= -> _]; [|done].
    first [apply Hb | rewrite <- E; apply Hb].
    intros i Hi%elem_of_upto. by apply Hall.
  - (* scanline *)
    unfold Wave.getScanlineCell.
    pose proof (scanline_loop_spec (Engine.wave e)
                  (seqZ (Engine.scanlineCursor e)
                     (Wave.size (Engine.wave e) - Engine.scanlineCursor e))) as Ha.
    destruct (Wave.scanline_loop _ _) as [c next]. simpl.
    pose proof (sh_size _ Hs) as Hsz.
    destruct Ha as [(-> & Hz & Hin)|[(-> & -> & Hall)|(Hin & -> & H1 & H0)]].
    + apply elem_of_seqZ in Hin.
      assert (exists j, zero_cell (Engine.wave e) j) as Hex
        by (exists next; by apply zero_cell_is0).
      assert ((forall i, 0 <= i < Wave.size (Engine.wave e) ->
                 is1 (Wave.getRemainingCount (Engine.wave e) i) = true) -> -2 = -1) as Hno.
      { intros Hall. rewrite (is0_is1 _ (Hall next ltac:(lia))) in Hz. done. }
      split_and!; try (done || lia).
    + split_and!; try (done || lia).
    + apply elem_of_seqZ in Hin.
      assert ((forall i, 0 <= i < Wave.size (Engine.wave e) ->
                 is1 (Wave.getRemainingCount (Engine.wave e) i) = true) -> c = -1) as Hno.
      { intros Hall. rewrite Hall in H1 by lia. done. }
      split_and!; try (done || lia).
      intros _ _. split; [lia|done].
Qed.

(** One call of [step]: it returns, it keeps the invariant, and its answer
    tells what it found. *)
Lemma step_spec h e :
  engine_ok e ->
  exists r e' rs,
    Engine.step h e = Ok (r, e') /\
    performed (Engine.wave e) rs /\ Engine.wave e' = removals (Engine.wave e) rs /\
    engine_ok e' /\ same_config (Engine.propagator e) (Engine.propagator e') /\
    (r = failure -> exists j, zero_cell (Engine.wave e') j) /\
    (r = continue -> Propagator.stackSize (Engine.propagator e') = 0) /\
    (r = success -> fst (Engine.select h e) = -1 /\ e' = snd (Engine.select h e)) /\
    (h <> scanline_h -> r <> failure -> forall j, ~ zero_cell (Engine.wave e') j) /\
    ((forall i, 0 <= i < Wave.size (Engine.wave e) ->
        is1 (Wave.getRemainingCount (Engine.wave e) i) = true) -> r = success) /\
    (fst (Engine.select h e) = -2 -> r = failure).
Proof.
  intros (Htr & Hsv & Hcur). pose proof Htr as (Hs & Hc & _).
  pose proof (select_spec h e Hs Hcur) as Hsel. cbv zeta in Hsel.
  unfold Engine.step. destruct (Engine.select h e) as [c e1]. simpl in Hsel.
  destruct Hsel as (Ew & Ep & Hcur1 & Hm2 & Hopen & Hall & Hfull). simpl.
  destruct (Z.eqb_spec c (-1)) as [->|Hn1].
  { exists success, e1, []. rewrite Ew, Ep.
    assert (engine_ok e1) by (unfold engine_ok; by rewrite Ew, Ep).
    assert (h <> scanline_h -> success <> failure -> forall j, ~ zero_cell (Engine.wave e) j)
      by (intros Hh _; by apply Hfull).
    split_and!; try first [done | apply same_config_refl]. }
  destruct (Z.eqb_spec c (-2)) as [->|Hn2].
  { exists failure, e1, []. rewrite Ew, Ep.
    assert (engine_ok e1) by (unfold engine_ok; by rewrite Ew, Ep).
    assert (exists j, zero_cell (Engine.wave e) j) by (by apply Hm2).
    assert ((forall i, 0 <= i < Wave.size (Engine.wave e) ->
              is1 (Wave.getRemainingCount (Engine.wave e) i) = true) -> failure = success).
    { intros Ha. specialize (Hall Ha). done. }
    split_and!; try first [done | apply same_config_refl]. }
  destruct (Hopen Hn1 Hn2) as (Hci & H0 & H1).
  rewrite Ew.
  destruct (collapse_open (Engine.wave e) c (Engine.rng e1) Hs Hc Hci H0 H1)
    as (sel & -> & Hsel & Hg).
  destruct (Z.eqb_spec sel (-1)) as [->|_]; [lia|].
  set (ts := filter (fun q => q <> sel) (Wave.getPossiblePatterns (Engine.wave e) c)).
  destruct (collapse_count (Engine.wave e) c sel Hs Hc Hci Hsel Hg) as [Hperf1 Hone].
  fold ts in Hperf1, Hone. specialize (Hone Hs Htr).
  rewrite push_removed_eq. fold ts. rewrite Ep.
  set (w2 := removes (Engine.wave e) c ts) in *.
  assert (w2 = removals (Engine.wave e) (map (fun t => (c, t)) ts)) as Ew2
    by apply removes_removals.
  pose proof (removals_static (Engine.wave e) (map (fun t => (c, t)) ts)) as Hst.
  rewrite <- Ew2 in Hst. destruct Hst as (_&_&_&_&_&_&Esz2&ET2).
  destruct (serves_slack_pushes ts (Engine.propagator e) w2 c) as [Hsv2 Hcfg2].
  { rewrite Ew2. pose proof (serves_slack_removals _ _ _ Hsv Hperf1) as Hsl.
    by rewrite length_map in Hsl. }
  { intros t [_ [Ht _]%possible_iff]%list_elem_of_filter. by rewrite ET2. }
  assert (shape w2) as Hs2 by (rewrite Ew2; by apply removals_shape).
  destruct (propagate_spec _ _ Hs2 Hsv2)
    as (p3 & w3 & ok & rs2 & -> & Hperf2 & Ew3 & Hsv3 & Hcfg3 & Hok & Hko).
  simpl.
  exists (if ok then continue else failure),
         (Engine.mk w3 p3 (snd (Random.next (Engine.rng e1))) (Engine.scanlineCursor e1)),
         (map (fun t => (c, t)) ts ++ rs2).
  assert (performed (Engine.wave e) (map (fun t => (c, t)) ts ++ rs2)) as Hperf.
  { apply performed_app. split; [done|]. by rewrite <- Ew2. }
  assert (w3 = removals (Engine.wave e) (map (fun t => (c, t)) ts ++ rs2)) as Ew3'.
  { rewrite removals_app, <- Ew2. done. }
  assert (tracked w3) as Htr3 by (rewrite Ew3'; by apply removals_tracked).
  simpl. split_and!; try done.
  - by eapply same_config_trans.
  - destruct ok; [done|]. intros _. by apply Hko.
  - destruct ok; [|done]. intros _. by apply Hok.
  - by destruct ok.
  - intros Hh Hr j Hz. destruct ok; [|done]. destruct (Hok eq_refl) as [_ Hback].
    specialize (Hback j Hz). destruct (decide (j = c)) as [->|Hne].
    + unfold zero_cell in Hback. congruence.
    + apply (Hfull Hh Hn2 j). unfold zero_cell in *. rewrite Ew2 in Hback.
      rewrite removals_count_other in Hback; [done|].
      intros j' t [t' [[= -> ->] _]]%list_elem_of_fmap. done.
  - intros Ha. specialize (Hall Ha). done.
Qed.

End EngineFacts.

(* ===================================================================== *)
(** * Construction *)
(* ===================================================================== *)

Lemma for_each_ok {A S : Type} (I : S -> Prop) (xs : list A) (body : S -> A -> result S) :
  (forall s x, x ∈ xs -> I s -> exists s', body s x = Ok s' /\ I s') ->
  forall s, I s -> exists s', Propagator.for_each xs body s = Ok s' /\ I s'.
Proof.
  induction xs as [|x xs IH]; intros Hbody s Hs; simpl; [by exists s|].
  destruct (Hbody s x) as (s1 & -> & Hs1); [left|done|]. simpl.
  apply IH; [|done]. intros s' x' Hx'. apply Hbody. by right.
Qed.

Lemma initCompatible_ok p :
  data_wf (Propagator.patternCount p) (Propagator.propagatorData p) ->
  exists c, Propagator.initCompatible p = Ok (Propagator.with_compatible p c) /\
            length c = length (Propagator.compatible p).
Proof.
  intros Hd. unfold Propagator.initCompatible.
  set (I := fun s : Propagator.t =>
              exists c, s = Propagator.with_compatible p c /\
                        length c = length (Propagator.compatible p)).
  assert (I p) as HI0 by (exists (Propagator.compatible p); by destruct p).
  assert (forall i s pattern direction,
            pattern ∈ upto (Propagator.patternCount p) -> direction ∈ upto 4 -> I s ->
            exists s', Propagator.init_entry s i pattern direction = Ok s' /\ I s') as Hentry.
  { intros i s pattern direction Hp%elem_of_upto Hdir%elem_of_upto (c & -> & Hlen).
    unfold Propagator.init_entry. simpl.
    match goal with |- context [if ?b then _ else _] => destruct b end.
    - destruct (Hd pattern direction Hp Hdir) as (row & l & H1 & H2 & _).
      unfold Propagator.data_at. simpl. rewrite H1, H2. simpl.
      eexists. split; [done|]. eexists. split; [done|]. by rewrite length_wr.
    - eexists. split; [done|]. by exists c. }
  enough (exists s', Propagator.for_each (upto (Propagator.width p * Propagator.height p))
      (fun p0 i =>
         Propagator.for_each (upto (Propagator.patternCount p0))
           (fun p1 pattern =>
              Propagator.for_each (upto 4)
                (fun p2 direction => Propagator.init_entry p2 i pattern direction) p1) p0)
      p = Ok s' /\ I s') as (s' & Hrun & c & -> & Hlen) by (by exists c).
  apply (for_each_ok I); [|done].
  intros s i _ Hs.
  assert (Propagator.patternCount s = Propagator.patternCount p) as ET
    by (destruct Hs as (c & -> & _); done).
  rewrite ET. apply (for_each_ok I); [|done].
  intros s' pattern Hpat Hs'. apply (for_each_ok I); [|done].
  intros s'' direction Hdir Hs''. by apply Hentry.
Qed.

Lemma data_wf_build n (patterns : list (list Z)) :
  data_wf (Z.of_nat (length patterns)) (OverlappingModel.buildPropagator n patterns).
Proof.
  intros t d Ht Hd. unfold OverlappingModel.buildPropagator.
  destruct (rd_is_Some patterns t Ht) as [p1 Hp1].
  assert (forall {A B : Type} (f : A -> B) (l : list A) k x,
            rd l k = Some x -> rd (map f l) k = Some (f x)) as Hmap.
  { intros A B f l k x. unfold rd. destruct (k <? 0); [done|].
    intros H. by rewrite list_lookup_fmap, H. }
  assert (rd (upto 4) d = Some d) as Hd4.
  { unfold rd, upto. destruct (Z.ltb_spec d 0); [lia|].
    rewrite lookup_seqZ. split; lia. }
  eexists _, _. split; [by apply Hmap|]. split; [by apply Hmap|].
  intros x [_ Hx%elem_of_upto]%list_elem_of_filter. done.
Qed.

Section ConstructFacts.
Context {M : MathLib}.
Implicit Types (e : Engine.t) (p : Propagator.t) (w : Wave.t) (i j t c : Z).

(** A propagator just built serves a wave just built or cleared. *)
Lemma new_serves W H T periodic pd p w :
  Propagator.new W H T periodic pd = Ok p ->
  data_wf T pd -> shape w -> Wave.size w = W * H -> Wave.patternCount w = T ->
  serves p w /\ Propagator.stackSize p = 0.
Proof.
  unfold Propagator.new. destruct (_ || _) eqn:Eneg; [done|].
  apply orb_false_iff in Eneg as [E4 E2]. apply Z.ltb_ge in E4, E2.
  intros Hinit Hd Hs Esz ET.
  destruct (initCompatible_ok
              (Propagator.mk pd (filled (W * H * T * 4) 0) (filled (W * H * T * 2) 0) 0
                 W H T periodic) Hd) as (c & Hc & _).
  rewrite Hc in Hinit. injection Hinit as <-. simpl.
  split; [|done]. split; [done|]. split; [by rewrite ET|].
  unfold stack_ok. simpl. rewrite length_filled, Esz, ET.
  split; [done|]. split; [lia|]. split; [|lia].
  pose proof (ones_le (Wave.data w)). pose proof (sh_data _ Hs). lia.
Qed.



Lemma reset_serves p w :
  serves p w -> shape w ->
  exists p', Propagator.reset p = Ok p' /\ serves p' (Wave.clear w) /\
             same_config p p' /\ Propagator.stackSize p' = 0.
Proof.
  intros (HT & Hd & Hn & Hlen & Hcap & Hlive) Hs. unfold Propagator.reset.
  destruct (initCompatible_ok p) as (c & -> & _); [by rewrite HT|]. simpl.
  eexists. split; [done|]. split; [|by repeat split].
  split; [done|]. split; [done|]. unfold stack_ok. simpl.
  split; [done|]. split; [done|]. split; [|lia].
  pose proof (ones_le (replicate (length (Wave.data w)) 1)) as Ho.
  rewrite length_replicate in Ho. pose proof (sh_data _ Hs). lia.
Qed.

End ConstructFacts.

(* ===================================================================== *)
(** * The ground constraint *)
(* ===================================================================== *)

Lemma fold_left_map {A B C : Type} (f : A -> B -> A) (g : C -> B) (l : list C) (a : A) :
  fold_left f (map g l) a = fold_left (fun a x => f a (g x)) l a.
Proof. revert a. induction l as [|x l IH]; intros a; [done|]. simpl. apply IH. Qed.

Lemma fold_left_ext {A B : Type} (f g : A -> B -> A) (l : list B) (a : A) :
  (forall a x, f a x = g a x) -> fold_left f l a = fold_left g l a.
Proof. intros H. revert a. induction l as [|x l IH]; intros a; [done|]. simpl. by rewrite H, IH. Qed.

Lemma fold_left_flat_map {A B C : Type} (f : A -> B -> A) (g : C -> list B) (l : list C) (a : A) :
  fold_left f (flat_map g l) a = fold_left (fun a x => fold_left f (g x) a) l a.
Proof.
  revert a. induction l as [|x l IH]; intros a; [done|].
  simpl. by rewrite fold_left_app, IH.
Qed.

Section GroundFacts.
Context {M : MathLib}.
Implicit Types (e : Engine.t) (p : Propagator.t) (w : Wave.t) (i j t c : Z).

Lemma evolved_refl e : engine_base e -> evolved e e.
Proof.
  intros [Hs Hsv]. exists []. simpl. finish.
Qed.

Lemma evolved_trans e1 e2 e3 : evolved e1 e2 -> evolved e2 e3 -> evolved e1 e3.
Proof.
  intros (rs1 & Hp1 & Ew1 & Hsv1 & Hc1) (rs2 & Hp2 & Ew2 & Hsv2 & Hc2).
  exists (rs1 ++ rs2).
  assert (performed (Engine.wave e1) (rs1 ++ rs2))
    by (apply performed_app; split; [done|]; by rewrite <- Ew1).
  assert (Engine.wave e3 = removals (Engine.wave e1) (rs1 ++ rs2))
    by (by rewrite removals_app, <- Ew1).
  finish.
Qed.

Lemma evolved_base e e' : engine_base e -> evolved e e' -> engine_base e'.
Proof.
  intros [Hs Hsv] (rs & Hp & Ew & Hsv' & _). split; [|done].
  rewrite Ew. by apply removals_shape.
Qed.

Lemma evolved_tracked e e' : tracked (Engine.wave e) -> evolved e e' -> tracked (Engine.wave e').
Proof. intros Htr (rs & Hp & -> & _). by apply removals_tracked. Qed.

Lemma evolved_static e e' : evolved e e' -> same_static (Engine.wave e) (Engine.wave e').
Proof. intros (rs & _ & -> & _). apply removals_static. Qed.

Lemma evolved_mono e e' i t :
  evolved e e' -> Wave.get (Engine.wave e) i t = false -> Wave.get (Engine.wave e') i t = false.
Proof.
  intros (rs & _ & -> & _) Hg. apply not_true_is_false. intros Hg'.
  apply removals_get_mono in Hg'. congruence.
Qed.

Lemma ban_spec e c t :
  engine_base e ->
  (Wave.get (Engine.wave e) c t = true -> 0 <= t < Wave.patternCount (Engine.wave e)) ->
  evolved e (OverlappingModel.ban e c t) /\
  Wave.get (Engine.wave (OverlappingModel.ban e c t)) c t = false /\
  Engine.rng (OverlappingModel.ban e c t) = Engine.rng e /\
  Engine.scanlineCursor (OverlappingModel.ban e c t) = Engine.scanlineCursor e.
Proof.
  intros [Hs Hsv] Hr. unfold OverlappingModel.ban.
  destruct (Wave.get (Engine.wave e) c t) eqn:Hg.
  - simpl. split; [|split; [apply remove_get_at|done]].
    exists [(c, t)]. simpl.
    pose proof (Hr eq_refl) as Ht.
    pose proof (serves_push _ _ c t Hsv Ht Hg) as Hsv'.
    finish.
  - split; [by apply evolved_refl|done].
Qed.

(** The loops of [applyGroundConstraint] ban the pairs of [ground_pairs], in
    that order. *)
Lemma ground_bans_eq W H T e :
  OverlappingModel.ground_bans W H T e =
  fold_left (fun e ct => OverlappingModel.ban e (fst ct) (snd ct)) (ground_pairs W H T) e.
Proof.
  unfold OverlappingModel.ground_bans, ground_pairs.
  rewrite fold_left_flat_map. apply fold_left_ext. intros a x.
  by rewrite fold_left_app, !fold_left_map.
Qed.

Lemma bans_spec (l : list (Z * Z)) : forall e,
  engine_base e ->
  (forall c t, (c, t) ∈ l -> Wave.get (Engine.wave e) c t = true ->
     0 <= t < Wave.patternCount (Engine.wave e)) ->
  let e' := fold_left (fun e ct => OverlappingModel.ban e (fst ct) (snd ct)) l e in
  evolved e e' /\
  (forall c t, (c, t) ∈ l -> Wave.get (Engine.wave e') c t = false) /\
  Engine.rng e' = Engine.rng e /\ Engine.scanlineCursor e' = Engine.scanlineCursor e.
Proof.
  induction l as [|[c t] l IH]; intros e Hb Hr; simpl.
  - split; [by apply evolved_refl|]. split; [|done].
    intros c t Hin. by apply elem_of_nil in Hin.
  - destruct (ban_spec e c t Hb) as (Hev & Hg & Hrng & Hcur);
      [intros Hget; apply (Hr c t); [left|done]|].
    pose proof (evolved_static _ _ Hev) as (_&_&_&_&_&_&_&ET).
    destruct (IH (OverlappingModel.ban e c t)) as (Hev' & Hg' & Hrng' & Hcur').
    + by eapply evolved_base.
    + intros c' t' Hin Hget. rewrite ET. apply (Hr c' t'); [by right|].
      destruct (Wave.get (Engine.wave e) c' t') eqn:E; [done|].
      by rewrite (evolved_mono _ _ _ _ Hev E) in Hget.
    + split; [by eapply evolved_trans|]. split; [|by rewrite Hrng', Hcur'].
      intros c' t' [[= -> ->]|Hin]%elem_of_cons; [|by apply Hg'].
      by eapply evolved_mono.
Qed.

Lemma ground_pairs_range W H T c t :
  0 <= T -> (c, t) ∈ ground_pairs W H T -> -1 <= t < T /\ (t = -1 -> T = 0).
Proof.
  intros HT. unfold ground_pairs. rewrite list_elem_of_In, in_flat_map.
  intros (x & _ & Hin). apply in_app_or in Hin as [Hin|Hin];
    apply in_map_iff in Hin as (y & [= <- <-] & Hy);
    apply list_elem_of_In, elem_of_upto in Hy; lia.
Qed.

Lemma ground_pairs_holds W H T w :
  (forall c t, (c, t) ∈ ground_pairs W H T -> Wave.get w c t = false) ->
  ground_holds W H T w.
Proof.
  intros Hall x Hx. split.
  - intros t Ht. apply Hall. unfold ground_pairs.
    rewrite list_elem_of_In, in_flat_map. exists x.
    split; [by apply list_elem_of_In, elem_of_upto|].
    apply in_or_app. left. apply in_map_iff. exists t.
    split; [done|]. by apply list_elem_of_In, elem_of_upto.
  - intros y Hy. apply Hall. unfold ground_pairs.
    rewrite list_elem_of_In, in_flat_map. exists x.
    split; [by apply list_elem_of_In, elem_of_upto|].
    apply in_or_app. right. apply in_map_iff. exists y.
    split; [done|]. by apply list_elem_of_In, elem_of_upto.
Qed.

Lemma get_negative_pattern w c : shape w -> Wave.patternCount w = 0 -> Wave.get w c (-1) = false.
Proof.
  intros Hs HT. apply not_true_is_false. intros Hg.
  apply get_true, rd_Some in Hg. rewrite HT in Hg. lia.
Qed.

(** [applyGroundConstraint] returns, establishes the ground constraint and
    leaves its pending removals to the one [propagate] it calls. *)
Lemma applyGroundConstraint_spec W H e :
  engine_base e ->
  let T := Wave.patternCount (Engine.wave e) in
  exists e',
    OverlappingModel.applyGroundConstraint W H T e = Ok e' /\
    evolved e e' /\ ground_holds W H T (Engine.wave e') /\ settled e' /\
    Engine.rng e' = Engine.rng e /\ Engine.scanlineCursor e' = Engine.scanlineCursor e.
Proof.
  intros Hb T. unfold OverlappingModel.applyGroundConstraint.
  rewrite ground_bans_eq.
  destruct (bans_spec (ground_pairs W H T) e Hb) as (Hev & Hg & Hrng & Hcur).
  { intros c t Hin Hget. destruct Hb as [Hs _].
    destruct (ground_pairs_range W H T c t (sh_T _ Hs) Hin) as [Hr H0].
    destruct (decide (t = -1)) as [->|]; [|fold T; lia].
    rewrite get_negative_pattern in Hget; [done|done|by apply H0]. }
  set (e1 := fold_left _ _ e) in *.
  pose proof (evolved_base _ _ Hb Hev) as [Hs1 Hsv1].
  destruct (propagate_spec _ _ Hs1 Hsv1)
    as (p' & w' & ok & rs & -> & Hperf & Ew' & Hsv' & Hcfg & Hdone & Hstop).
  simpl. eexists. split; [done|].
  assert (evolved e1 (Engine.mk w' p' (Engine.rng e1) (Engine.scanlineCursor e1))) as Hev2.
  { exists rs. simpl. finish. }
  split; [by eapply evolved_trans|].
  assert (settled (Engine.mk w' p' (Engine.rng e1) (Engine.scanlineCursor e1))) as Hset.
  { destruct ok; [left; by apply Hdone|right; by apply Hstop]. }
  split; [|done].
  apply ground_pairs_holds. intros c t Hin. simpl.
  apply (evolved_mono _ _ _ _ Hev2). by apply Hg.
Qed.

End GroundFacts.

(* ===================================================================== *)
(** * The two models *)
(* ===================================================================== *)

Lemma for_each_inv {A S : Type} (I : S -> Prop) (xs : list A) (body : S -> A -> result S) :
  (forall s x s', I s -> body s x = Ok s' -> I s') ->
  forall s s', I s -> Propagator.for_each xs body s = Ok s' -> I s'.
Proof.
  intros Hbody. induction xs as [|x xs IH]; intros s s' Hs; simpl.
  - by intros [= <-].
  - destruct (body s x) as [s1|] eqn:E; [|done]. simpl. apply IH. by eapply Hbody.
Qed.

Lemma bind_Ok {A B : Type} (r : result A) (k : A -> result B) (b : B) :
  r ≫= k = Ok b -> exists a, r = Ok a /\ k a = Ok b.
Proof. destruct r as [a|]; [|done]. intros H. by exists a. Qed.

Section ModelFacts.
Context {M : MathLib}.
Implicit Types (e : Engine.t) (w : Wave.t) (i j t c : Z).


Lemma add_variant_lengths C ps st k st' :
  OverlappingModel.add_variant C ps st k = Ok st' ->
  length (fst (fst st)) = length (snd st) -> length (fst (fst st')) = length (snd st').
Proof.
  destruct st as [[pats idx] ws]. unfold OverlappingModel.add_variant.
  destruct (rd ps k); [|done]. destruct (idx !! _).
  - intros [= <-]. simpl. by rewrite length_wr.
  - intros [= <-]. simpl. rewrite !length_app. simpl. lia.
Qed.

Lemma extractPatterns_lengths n C sample sw sh pin sym patterns weights :
  OverlappingModel.extractPatterns n C sample sw sh pin sym = Ok (patterns, weights) ->
  length patterns = length weights.
Proof.
  unfold OverlappingModel.extractPatterns. intros H.
  apply bind_Ok in H as ([[pats idx] ws] & Hrun & [= <- <-]).
  set (I := fun st : OverlappingModel.extraction => length (fst (fst st)) = length (snd st)).
  change (I (pats, idx, ws)).
  revert Hrun. apply (for_each_inv I); [|done].
  intros s y s' Hs. apply (for_each_inv I); [|done].
  intros s1 x s1' Hs1. apply (for_each_inv I); [|done].
  intros s2 k s2' Hs2 Hk. by eapply add_variant_lengths.
Qed.

Lemma variants_length n p0 : length (OverlappingModel.variants n p0) = 8%nat.
Proof. done. Qed.


(** What the constructor of [OverlappingModel] builds. *)
Lemma overlapping_new_inv pixels iw ih opts m :
  OverlappingModel.new pixels iw ih opts = Ok m ->
  let e := OverlappingModel.engine m in
  engine_base e /\ settled e /\
  (OverlappingModel.patternCount m < 4294967296 -> tracked (Engine.wave e)) /\
  Engine.scanlineCursor e = 0 /\
  OverlappingModel.patternCount m = Wave.patternCount (Engine.wave e) /\
  OverlappingModel.width m = opt_width opts /\ OverlappingModel.height m = opt_height opts /\
  OverlappingModel.ground m = opt_ground opts /\
  OverlappingModel.heuristic m = opt_heuristic opts /\
  OverlappingModel.N m = opt_patternSize opts /\
  Wave.size (Engine.wave e) = opt_width opts * opt_height opts /\
  (opt_ground opts = true ->
   ground_holds (opt_width opts) (opt_height opts) (OverlappingModel.patternCount m)
     (Engine.wave e)).
Proof.
  unfold OverlappingModel.new. intros H.
  apply bind_Ok in H as ([sample colors] & Hcol & H).
  apply bind_Ok in H as ([patterns weights] & Hpat & H).
  apply bind_Ok in H as (w0 & Hw & H).
  apply bind_Ok in H as (p0 & Hp & H).
  apply bind_Ok in H as (e' & Hg & [= <-]). simpl.
  pose proof (extractPatterns_lengths _ _ _ _ _ _ _ _ _ Hpat) as Hlen.
  destruct (new_inv _ _ _ _ Hw) as (_&_&Esz&Hsz&ET&_&_&_&Hs&Hf).
  destruct (new_serves _ _ _ _ _ _ w0 Hp) as [Hsv Hst];
    [apply data_wf_build|done|done|by rewrite ET, Hlen|].
  set (e0 := Engine.mk w0 p0 (Random.new (opt_seed opts)) 0) in *.
  assert (engine_base e0) as Hb0 by done.
  assert (Z.of_nat (length patterns) < 4294967296 -> tracked (Engine.wave e0)) as Htr0.
  { intros HT. apply tracked_fresh; simpl; [done|by rewrite ET, <- Hlen|by rewrite Esz]. }
  assert (Wave.patternCount w0 = Z.of_nat (length patterns)) as ET' by (by rewrite ET, Hlen).
  destruct (opt_ground opts) eqn:Eg.
  - rewrite <- ET' in Hg.
    destruct (applyGroundConstraint_spec (opt_width opts) (opt_height opts) e0 Hb0)
      as (e1 & He1 & Hev & Hgh & Hset & Hrng & Hcur).
    simpl in He1. rewrite He1 in Hg. injection Hg as <-.
    pose proof (evolved_static _ _ Hev) as (_&_&_&_&_&_&Esz1&ET1). simpl in Esz1, ET1.
    split_and!; try done.
    + by eapply evolved_base.
    + intros HT. eapply evolved_tracked; [|exact Hev]. by apply Htr0.
    + by rewrite ET1.
    + by rewrite Esz1.
    + intros _. by rewrite <- ET'.
  - injection Hg as <-. split_and!; try done. by left.
Qed.


End ModelFacts.

(* ===================================================================== *)
(** * The invariants along the life of a model *)
(* ===================================================================== *)

Section Reachable.
Context {M : MathLib}.
Implicit Types (e : Engine.t) (w : Wave.t) (i j t c : Z).

Lemma step_evolved e e' rs :
  engine_ok e' -> performed (Engine.wave e) rs ->
  Engine.wave e' = removals (Engine.wave e) rs ->
  same_config (Engine.propagator e) (Engine.propagator e') -> evolved e e'.
Proof. intros (_ & Hsv & _) Hp Ew Hc. by exists rs. Qed.

Lemma engine_clear_spec e :
  engine_ok e ->
  exists e', Engine.clear e = Ok e' /\ engine_ok e' /\
    Engine.wave e' = Wave.clear (Engine.wave e) /\
    same_config (Engine.propagator e) (Engine.propagator e') /\
    Propagator.stackSize (Engine.propagator e') = 0 /\
    Engine.rng e' = Engine.rng e /\ Engine.scanlineCursor e' = 0.
Proof.
  intros ((Hs & (HT & Hc) & Hm) & Hsv & Hcur). unfold Engine.clear.
  destruct (reset_serves _ _ Hsv Hs) as (p' & -> & Hsv' & Hcfg & Hst). simpl.
  assert (tracked (Wave.clear (Engine.wave e))) as Htr.
  { apply tracked_fresh; simpl; [by apply clear_shape|done|].
    intros i Hi. by apply clear_fresh. }
  eexists. split; [done|]. simpl. split; [|done]. by split_and!.
Qed.

Lemma step_settled h e r e' :
  engine_ok e -> settled e -> Engine.step h e = Ok (r, e') -> settled e'.
Proof.
  intros Hok Hset Hstep.
  destruct (step_spec h e Hok)
    as (r0 & e0 & rs & Hstep0 & _ & _ & _ & _ & Hfail & Hcont & Hsucc & _).
  rewrite Hstep0 in Hstep. injection Hstep as <- <-.
  destruct Hok as ((Hs & _) & _ & Hcur).
  destruct (select_spec h e Hs Hcur) as (Ew & Ep & _).
  destruct r0.
  - left. by apply Hcont.
  - destruct (Hsucc eq_refl) as [_ ->]. unfold settled. by rewrite Ew, Ep.
  - right. by apply Hfail.
Qed.

Lemma ground_holds_evolved W H T e e' :
  evolved e e' -> ground_holds W H T (Engine.wave e) -> ground_holds W H T (Engine.wave e').
Proof.
  intros Hev Hg x Hx. destruct (Hg x Hx) as [H1 H2]. split.
  - intros t Ht. eapply evolved_mono; [done|]. by apply H1.
  - intros y Hy. eapply evolved_mono; [done|]. by apply H2.
Qed.

Lemma overlapping_new_reachable_ok pixels iw ih opts m :
  OverlappingModel.new pixels iw ih opts = Ok m ->
  OverlappingModel.patternCount m < 4294967296 -> overlapping_ok m.
Proof.
  intros Hnew HT.
  destruct (overlapping_new_inv _ _ _ _ _ Hnew)
    as ([Hs Hsv] & Hset & Htr & Hcur & ET & EW & EH & Eg & _ & _ & Esz & Hg).
  split_and!; try done.
  - split_and!; [by apply Htr|done|lia].
  - by rewrite EW, EH.
  - rewrite EW, EH, Eg. exact Hg.
Qed.

Lemma overlapping_step_spec m :
  overlapping_ok m ->
  exists r m', OverlappingModel.step m = Ok (r, m') /\ overlapping_ok m' /\
    Engine.step (OverlappingModel.heuristic m) (OverlappingModel.engine m)
      = Ok (r, OverlappingModel.engine m') /\
    m' = OverlappingModel.with_engine m (OverlappingModel.engine m').
Proof.
  intros (Hok & Hset & ET & Esz & Hg).
  destruct (step_spec (OverlappingModel.heuristic m) _ Hok)
    as (r & e' & rs & Hstep & Hp & Ew & Hok' & Hc & _).
  pose proof (step_settled _ _ _ _ Hok Hset Hstep) as Hset'.
  unfold OverlappingModel.step. rewrite Hstep. simpl.
  exists r, (OverlappingModel.with_engine m e'). split; [done|].
  split; [|by destruct m]. 
  pose proof (step_evolved _ _ _ Hok' Hp Ew Hc) as Hev.
  pose proof (evolved_static _ _ Hev) as (_&_&_&_&_&_&Esz'&ET').
  pose proof (fun Hgr => ground_holds_evolved _ _ _ _ _ Hev (Hg Hgr)) as Hg'.
  destruct m; unfold OverlappingModel.with_engine; simpl in *.
  split; [done|]. split; [done|]. simpl. split; [lia|]. split; [lia|done].
Qed.

Lemma overlapping_clear_spec m :
  overlapping_ok m -> exists m', OverlappingModel.clear m = Ok m' /\ overlapping_ok m'.
Proof.
  intros (Hok & _ & ET & Esz & Hg).
  destruct (engine_clear_spec _ Hok) as (e1 & Hcl & Hok1 & Ew & Hc & Hst & Hrng & Hcur).
  unfold OverlappingModel.clear. rewrite Hcl. simpl.
  assert (Wave.patternCount (Engine.wave e1) = OverlappingModel.patternCount m) as ET1
    by (by rewrite Ew, ET).
  assert (Wave.size (Engine.wave e1) = Wave.size (Engine.wave (OverlappingModel.engine m)))
    as Esz1 by (by rewrite Ew).
  destruct (OverlappingModel.ground m) eqn:Eg.
  - destruct Hok1 as (Htr1 & Hsv1 & Hcur1).
    destruct (applyGroundConstraint_spec (OverlappingModel.width m) (OverlappingModel.height m)
                e1) as (e2 & He2 & Hev & Hgh & Hset2 & Hrng2 & Hcur2); [by destruct Htr1|].
    simpl in He2. rewrite ET1 in He2, Hgh. rewrite He2. simpl.
    eexists. split; [done|].
    pose proof (evolved_static _ _ Hev) as (_&_&_&_&_&_&Esz'&ET').
    assert (engine_ok e2) as Hok2.
    { split; [by eapply evolved_tracked|]. split; [by destruct Hev as (?&?&?&?&?)|lia]. }
    destruct m; unfold OverlappingModel.with_engine; simpl in *.
    split; [done|]. split; [done|]. simpl. split; [lia|]. split; [lia|done].
  - simpl. eexists. split; [done|].
    destruct m; unfold OverlappingModel.with_engine; simpl in *.
    split; [done|]. split; [by left|]. simpl. split; [lia|]. split; [lia|congruence].
Qed.

Lemma overlapping_reachable_ok m : overlapping_reachable m -> overlapping_ok m.
Proof.
  induction 1 as [pixels iw ih opts m Hnew HT|m r m' _ IH Hstep|m m' _ IH Hcl].
  - by eapply overlapping_new_reachable_ok.
  - destruct (overlapping_step_spec m IH) as (r0 & m0 & Hs0 & Hok & _).
    rewrite Hs0 in Hstep. by injection Hstep as <- <-.
  - destruct (overlapping_clear_spec m IH) as (m0 & Hc0 & Hok).
    rewrite Hc0 in Hcl. by injection Hcl as <-.
Qed.


Lemma tiled_new_inv tiles tilenames tilesize weights pd opts m :
  tiled_input_ok tiles weights pd ->
  SimpleTiledModel.new tiles tilenames tilesize weights pd opts = Ok m -> tiled_ok m.
Proof.
  intros (Hlen & HT & Hd). unfold SimpleTiledModel.new. intros H.
  apply bind_Ok in H as (w0 & Hw & H).
  apply bind_Ok in H as (p0 & Hp & [= <-]). simpl.
  destruct (new_inv _ _ _ _ Hw) as (_&_&Esz&Hsz&ET&_&_&_&Hs&Hf).
  destruct (new_serves _ _ _ _ _ _ w0 Hp) as [Hsv Hst];
    [done|done|done|by rewrite ET, Hlen|].
  split; simpl; [|split; [by left|by rewrite ET, Hlen]].
  split_and!; simpl; [|done|lia].
  apply tracked_fresh; [done|by rewrite ET, Hlen|by rewrite Esz].
Qed.

Lemma tiled_step_spec m :
  tiled_ok m ->
  exists r m', SimpleTiledModel.step m = Ok (r, m') /\ tiled_ok m' /\
    Engine.step (SimpleTiledModel.heuristic m) (SimpleTiledModel.engine m)
      = Ok (r, SimpleTiledModel.engine m') /\
    m' = SimpleTiledModel.with_engine m (SimpleTiledModel.engine m').
Proof.
  intros (Hok & Hset & ET).
  destruct (step_spec (SimpleTiledModel.heuristic m) _ Hok)
    as (r & e' & rs & Hstep & Hp & Ew & Hok' & Hc & _).
  pose proof (step_settled _ _ _ _ Hok Hset Hstep) as Hset'.
  unfold SimpleTiledModel.step. rewrite Hstep. simpl.
  exists r, (SimpleTiledModel.with_engine m e'). split; [done|].
  split; [|by destruct m].
  pose proof (step_evolved _ _ _ Hok' Hp Ew Hc) as Hev.
  pose proof (evolved_static _ _ Hev) as (_&_&_&_&_&_&Esz'&ET').
  destruct m; unfold SimpleTiledModel.with_engine; simpl in *.
  split; [done|]. split; [done|]. simpl. lia.
Qed.

Lemma tiled_clear_spec m :
  tiled_ok m -> exists m', SimpleTiledModel.clear m = Ok m' /\ tiled_ok m'.
Proof.
  intros (Hok & _ & ET).
  destruct (engine_clear_spec _ Hok) as (e1 & Hcl & Hok1 & Ew & Hc & Hst & Hrng & Hcur).
  unfold SimpleTiledModel.clear. rewrite Hcl. simpl.
  eexists. split; [done|].
  destruct m; unfold SimpleTiledModel.with_engine; simpl in *.
  split; [done|]. split; [by left|]. simpl. by rewrite Ew.
Qed.

Lemma tiled_reachable_ok m : tiled_reachable m -> tiled_ok m.
Proof.
  induction 1 as [tiles tilenames tilesize weights pd opts m Hin Hnew|m r m' _ IH Hstep
                 |m m' _ IH Hcl].
  - by eapply tiled_new_inv.
  - destruct (tiled_step_spec m IH) as (r0 & m0 & Hs0 & Hok & _).
    rewrite Hs0 in Hstep. by injection Hstep as <- <-.
  - destruct (tiled_clear_spec m IH) as (m0 & Hc0 & Hok).
    rewrite Hc0 in Hcl. by injection Hcl as <-.
Qed.



End Reachable.

(* ===================================================================== *)
(** * The order of binary64 and the keys of the entropy heuristic *)
(* ===================================================================== *)

Lemma SFltb_trans a b c : SFltb a b = true -> SFltb b c = true -> SFltb a c = true.
Proof.
  unfold SFltb, SFcompare.
  destruct a as [sa|sa| |sa ma ea], b as [sb|sb| |sb mb eb], c as [sc|sc| |sc mc ec];
    try destruct sa; try destruct sb; try destruct sc; simpl; try done.
  all: change (Pos.compare_cont Eq ma mb) with (ma ?= mb)%positive;
       change (Pos.compare_cont Eq mb mc) with (mb ?= mc)%positive;
       change (Pos.compare_cont Eq ma mc) with (ma ?= mc)%positive.
  all: destruct (Z.compare_spec ea eb), (Z.compare_spec eb ec), (Z.compare_spec ea ec);
       simpl; try done; try lia.
  all: destruct (Pos.compare_spec ma mb), (Pos.compare_spec mb mc), (Pos.compare_spec ma mc);
       simpl; try done; lia.
Qed.

Lemma SFltb_irrefl a : SFltb a a = false.
Proof.
  unfold SFltb, SFcompare. destruct a as [sa|sa| |sa ma ea]; try destruct sa; simpl; try done.
  all: rewrite Z.compare_refl; change (Pos.compare_cont Eq ma ma) with (ma ?= ma)%positive;
       by rewrite Pos.compare_refl.
Qed.

Lemma ltb_trans (x y z : float) :
  PrimFloat.ltb x y = true -> PrimFloat.ltb y z = true -> PrimFloat.ltb x z = true.
Proof. rewrite !ltb_spec. apply SFltb_trans. Qed.

Lemma ltb_irrefl (x : float) : PrimFloat.ltb x x = false.
Proof. rewrite ltb_spec. apply SFltb_irrefl. Qed.

Lemma ltb_asym (x y : float) : PrimFloat.ltb x y = true -> PrimFloat.ltb y x = false.
Proof.
  intros H. apply not_true_is_false. intros H'.
  pose proof (ltb_trans _ _ _ H H') as Hxx. by rewrite ltb_irrefl in Hxx.
Qed.

(** Nothing below a bound is above a key that is itself below the bound. *)
Lemma ltb_below (x k m : float) :
  PrimFloat.ltb k m = true -> PrimFloat.ltb x m = false -> PrimFloat.ltb x k = false.
Proof.
  intros Hk Hx. apply not_true_is_false. intros H'.
  pose proof (ltb_trans _ _ _ H' Hk). congruence.
Qed.

Lemma leb_false_ltb (x y : float) : PrimFloat.leb x y = false -> PrimFloat.ltb x y = false.
Proof.
  rewrite leb_spec, ltb_spec. unfold SFleb, SFltb.
  by destruct (SFcompare _ _) as [[]|].
Qed.

Section Keys.
Context {M : MathLib}.
Implicit Types (w : Wave.t) (i j c : Z).

(** The loop of [getMinEntropyCell] keeps the cell with the least key. *)
Lemma minEntropy_loop_keys w cells : forall m a rng c,
  fst (Wave.minEntropy_loop w cells m a rng) = c -> c <> -2 ->
  let ks := minEntropy_keys w cells m rng in
  (c = a /\ forall j kj, (j, kj) ∈ ks -> PrimFloat.ltb kj m = false) \/
  (exists k, (c, k) ∈ ks /\ PrimFloat.ltb k m = true /\
             forall j kj, (j, kj) ∈ ks -> PrimFloat.ltb kj k = false).
Proof.
  induction cells as [|i cells IH]; intros m a rng c; simpl.
  { intros <- _. left. split; [done|]. intros j kj Hin. by apply elem_of_nil in Hin. }
  destruct (is1 _); [apply IH|].
  destruct (is0 _); [simpl; by intros <-|].
  destruct (PrimFloat.leb _ m) eqn:Eleb.
  - destruct (Random.next rng) as [r rng1].
    destruct (PrimFloat.ltb _ m) eqn:Eltb; intros Hc Hne.
    + destruct (IH _ _ _ _ Hc Hne) as [[-> Hall]|(k & Hin & Hlt & Hall)]; right.
      * eexists. split; [left|]. split; [done|].
        intros j kj [[= -> ->]|Hin]%elem_of_cons; [apply ltb_irrefl|by eapply Hall].
      * exists k. split; [by right|]. split; [by eapply ltb_trans|].
        intros j kj [[= -> ->]|Hin']%elem_of_cons; [by apply ltb_asym|by eapply Hall].
    + destruct (IH _ _ _ _ Hc Hne) as [[-> Hall]|(k & Hin & Hlt & Hall)]; [left|right].
      * split; [done|].
        intros j kj [[= -> ->]|Hin]%elem_of_cons; [done|by eapply Hall].
      * exists k. split; [by right|]. split; [done|].
        intros j kj [[= -> ->]|Hin']%elem_of_cons; [by eapply ltb_below|by eapply Hall].
  - apply leb_false_ltb in Eleb. intros Hc Hne.
    destruct (IH _ _ _ _ Hc Hne) as [[-> Hall]|(k & Hin & Hlt & Hall)]; [left|right].
    + split; [done|].
      intros j kj [[= -> ->]|Hin]%elem_of_cons; [done|by eapply Hall].
    + exists k. split; [by right|]. split; [done|].
      intros j kj [[= -> ->]|Hin']%elem_of_cons; [by eapply ltb_below|by eapply Hall].
Qed.

(** Every open cell of a scan that meets no cell at zero has a key. *)
Lemma minEntropy_keys_cover w cells : forall m rng,
  (forall i, i ∈ cells -> is0 (Wave.getRemainingCount w i) = false) ->
  forall j, j ∈ cells -> is1 (Wave.getRemainingCount w j) = false ->
  exists kj, (j, kj) ∈ minEntropy_keys w cells m rng.
Proof.
  induction cells as [|i cells IH]; intros m rng Hnz j Hj Hopen; simpl.
  { by apply elem_of_nil in Hj. }
  fold (Wave.getRemainingCount w i).
  assert (forall m' rng', j ∈ cells -> exists kj, (j, kj) ∈ minEntropy_keys w cells m' rng')
    as Hrest.
  { intros m' rng' Hin. apply IH; [|done|done]. intros i' Hi'. apply Hnz. by right. }
  destruct (is1 (Wave.getRemainingCount w i)) eqn:E1.
  { apply elem_of_cons in Hj as [->|Hin]; [congruence|by apply Hrest]. }
  rewrite (Hnz i) by left.
  destruct (PrimFloat.leb _ m); [destruct (Random.next rng) as [r rng1]|].
  all: apply elem_of_cons in Hj as [Hji|Hin]; [rewrite Hji; eexists; left|].
  all: edestruct Hrest as [kj Hkj]; [exact Hin|]; exists kj; right; exact Hkj.
Qed.

End Keys.

(* ===================================================================== *)
(** * Masks only shrink, and what [step] answers *)
(* ===================================================================== *)

Section Shrinks.
Context {M : MathLib}.
Implicit Types (e : Engine.t) (w : Wave.t) (i j t c : Z).

Lemma shrinks_refl w : tracked w -> shrinks w w.
Proof.
  intros (Hs & (HT & Hc) & _). split; [done|]. intros i Hi.
  exists (popcount w i), (popcount w i). unfold Wave.getRemainingCount.
  rewrite (Hc i Hi). split_and!; [done|done|lia].
Qed.

Lemma shrinks_trans w1 w2 w3 :
  Wave.size w2 = Wave.size w1 -> shrinks w1 w2 -> shrinks w2 w3 -> shrinks w1 w3.
Proof.
  intros Esz [Hg1 Hn1] [Hg2 Hn2]. split; [by auto|]. intros i Hi.
  destruct (Hn1 i Hi) as (n & n' & E1 & E2 & Hle).
  destruct (Hn2 i) as (m & m' & E3 & E4 & Hle'); [by rewrite Esz|].
  exists n, m'. split_and!; [done|done|]. rewrite E2 in E3. injection E3 as <-. lia.
Qed.

Lemma shrinks_remove w j t :
  tracked w -> 0 <= j < Wave.size w -> 0 <= t < Wave.patternCount w ->
  shrinks w (fst (Wave.remove w j t)).
Proof.
  intros Htr Hj Ht. pose proof (tracked_remove w j t Htr Hj Ht) as Htr'.
  pose proof Htr as (Hs & (HT & Hc) & _). destruct Htr' as (Hs' & (HT' & Hc') & _).
  destruct (remove_static w j t) as (_&_&_&_&_&_&Esz&ET).
  destruct (Wave.get w j t) eqn:Hg.
  - split.
    + intros i t' Hf. apply not_true_is_false. intros Hg'.
      apply remove_get_mono in Hg'. congruence.
    + intros i Hi. exists (popcount w i), (popcount (fst (Wave.remove w j t)) i).
      unfold Wave.getRemainingCount. rewrite (Hc i Hi), (Hc' i) by (by rewrite Esz).
      split_and!; [done|done|]. destruct (decide (i = j)) as [->|Hne].
      * rewrite remove_popcount_at by done. lia.
      * rewrite remove_popcount_other by done. lia.
  - rewrite remove_noop by done. simpl. by apply shrinks_refl.
Qed.

Lemma shrinks_removals w rs :
  tracked w ->
  (forall j t, (j, t) ∈ rs -> 0 <= j < Wave.size w /\ 0 <= t < Wave.patternCount w) ->
  shrinks w (removals w rs).
Proof.
  revert w. induction rs as [|[j t] rs IH]; intros w Htr Hrs; simpl.
  { by apply shrinks_refl. }
  destruct (Hrs j t) as [Hj Ht]; [left|].
  destruct (remove_static w j t) as (_&_&_&_&_&_&Esz&ET).
  eapply shrinks_trans; [exact Esz|by apply shrinks_remove|].
  apply IH; [by apply tracked_remove|].
  intros j' t' Hin. rewrite Esz, ET. apply Hrs. by right.
Qed.

Lemma performed_in_range w rs :
  shape w -> performed w rs ->
  forall j t, (j, t) ∈ rs -> 0 <= j < Wave.size w /\ 0 <= t < Wave.patternCount w.
Proof.
  revert w. induction rs as [|[j t] rs IH]; intros w Hs Hp j' t' Hin.
  { by apply elem_of_nil in Hin. }
  simpl in Hp. destruct Hp as [[Ht Hg] Hp].
  destruct (remove_static w j t) as (_&_&_&_&_&_&Esz&ET).
  apply elem_of_cons in Hin as [[= -> ->]|Hin].
  - split; [by eapply get_range|done].
  - rewrite <- Esz, <- ET. eapply IH; [|done|done]. by apply remove_shape.
Qed.

Lemma shrinks_performed w rs : tracked w -> performed w rs -> shrinks w (removals w rs).
Proof.
  intros Htr Hp. apply shrinks_removals; [done|].
  apply performed_in_range; [by destruct Htr|done].
Qed.

Lemma shrinks_collapse w j rng :
  tracked w -> 0 <= j < Wave.size w -> shrinks w (fst (fst (Wave.collapse w j rng))).
Proof.
  intros Htr Hj. destruct (collapse_wave w j rng) as (ts & Hts & ->).
  rewrite removes_removals. apply shrinks_removals; [done|].
  intros j' t' Hin. apply list_elem_of_In, in_map_iff in Hin as (t0 & [= <- <-] & Hin).
  split; [done|]. by apply Hts, list_elem_of_In.
Qed.

Lemma shrinks_propagate p w p' w' ok :
  tracked w -> serves p w -> Propagator.propagate p w = Ok (p', w', ok) -> shrinks w w'.
Proof.
  intros Htr Hsv Hrun.
  destruct (propagate_spec p w) as (p1 & w1 & ok1 & rs & Hrun1 & Hp & -> & _);
    [by destruct Htr|done|].
  rewrite Hrun1 in Hrun. injection Hrun as <- <- <-. by apply shrinks_performed.
Qed.

(** [step] returns, keeps the invariant and answers by what its heuristic
    yields. *)
Lemma step_answers h e :
  engine_ok e ->
  exists r e', Engine.step h e = Ok (r, e') /\ engine_ok e' /\ step_answer h e r /\
    shrinks (Engine.wave e) (Engine.wave e') /\
    (r = failure -> exists j, zero_cell (Engine.wave e') j) /\
    (r = continue -> Propagator.stackSize (Engine.propagator e') = 0) /\
    (r = success -> Engine.propagator e' = Engine.propagator e) /\
    (h <> scanline_h -> r <> failure -> forall j, ~ zero_cell (Engine.wave e') j).
Proof.
  intros Hok.
  destruct (step_spec h e Hok)
    as (r & e' & rs & Hstep & Hp & Ew & Hok' & Hcfg & Hfail & Hcont & Hsucc & Hnz & Hall & Hm2).
  destruct Hok as (Htr & Hsv & Hcur).
  destruct (select_spec h e) as (Ew1 & Ep1 & _ & Hs2 & Hopen & Hcol & Hnz2);
    [by destruct Htr|done|].
  exists r, e'. split; [done|]. split; [done|].
  assert (step_answer h e r) as Hans.
  { unfold step_answer. cbv zeta. split_and!.
    - intros Hc. unfold Engine.step in Hstep.
      destruct (Engine.select h e) as [c e1]. simpl in Hc. subst c. simpl in Hstep. congruence.
    - intros Hc. split; [by apply Hm2|by apply Hs2].
    - intros Hn1 Hn2. destruct (Hopen Hn1 Hn2) as (Hr & H0 & H1).
      split; [done|]. split; [done|]. split.
      + intros Hz. apply zero_cell_is0 in Hz. congruence.
      + intros ->. by destruct (Hsucc eq_refl).
    - done.
    - intros Hh Hz. destruct (decide (fst (Engine.select h e) = -2)) as [|Hne]; [done|].
      destruct Hz as [j Hz]. by destruct (Hnz2 Hh Hne j). }
  split; [done|]. split; [rewrite Ew; by apply shrinks_performed|].
  split_and!; try done.
  intros ->. destruct (Hsucc eq_refl) as [_ ->]. done.
Qed.

End Shrinks.

(** ** The generator's state *)

Lemma Random_after_state (n : N) (r : Random.t) :
  Random.state (Random.after n r) =
  N.iter n (fun s => PrimFloat.add s 0x6d2b79f5) (Random.state r).
Proof.
  unfold Random.after. induction n as [|n IH] using N.peano_ind; [done|].
  rewrite !N.iter_succ, <- IH. reflexivity.
Qed.

Lemma Mulberry32_after (n : N) (s : Z) :
  0 <= s < 2 ^ 32 -> Mulberry32.after n s = (s + Z.of_N n * 0x6d2b79f5) mod 2 ^ 32.
Proof.
  intros Hs. unfold Mulberry32.after. induction n as [|n IH] using N.peano_ind.
  - simpl. rewrite Z.add_0_r. by rewrite Z.mod_small.
  - rewrite N.iter_succ, IH. unfold Mulberry32.advance.
    rewrite Zplus_mod_idemp_l. f_equal. lia.
Qed.

(* ===================================================================== *)
(** * The concrete runs are runs of the program *)
(* ===================================================================== *)

Lemma ok_value_eq {A : Type} (r : result A) (H : is_ok r = true) : r = Ok (ok_value r H).
Proof. destruct r; [done|discriminate H]. Qed.

Lemma ok_value_pair {A B : Type} (r : result (A * B)) (H : is_ok r = true) :
  r = Ok (fst (ok_value r H), snd (ok_value r H)).
Proof. rewrite <- surjective_pairing. apply ok_value_eq. Qed.

(** A bound on evaluated integers. *)
Ltac in_range :=
  first [ split; [apply Z.leb_le|apply Z.ltb_lt]; vm_compute; reflexivity
        | apply Z.leb_le; vm_compute; reflexivity
        | apply Z.ltb_lt; vm_compute; reflexivity ].

Lemma reachable_removals `{M : MathLib} W H ws w rs :
  reachable W H ws w ->
  (forall j t, (j, t) ∈ rs -> 0 <= j < Wave.size w /\ 0 <= t < Wave.patternCount w) ->
  reachable W H ws (removals w rs).
Proof.
  revert w. induction rs as [|[j t] rs IH]; intros w Hw Hrs; [done|].
  simpl. destruct (Hrs j t) as [Hj Ht]; [left|].
  destruct (remove_static w j t) as (_&_&_&_&_&_&Esz&ET).
  apply IH; [by apply reach_remove|].
  intros j' t' Hin. rewrite Esz, ET. apply Hrs. by right.
Qed.

Module RunFacts.

#[local] Existing Instance ref_math.

Lemma thirds_reachable : reachable 1 1 Run.thirds_weights Run.thirds.
Proof. apply reach_remove; [apply reach_new, ok_value_eq|in_range|in_range]. Qed.

Lemma halves_reachable : reachable 1 1 [1; 1]%float Run.halves.
Proof. apply reach_remove; [apply reach_new, ok_value_eq|in_range|in_range]. Qed.

Lemma dyadic_reachable : reachable 2 1 Run.dyadic_weights Run.dyadic.
Proof.
  apply reachable_removals; [apply reach_new, ok_value_eq|].
  intros j t Hin.
  repeat (apply elem_of_cons in Hin as [[= -> ->]|Hin]; [split; in_range|]).
  by apply elem_of_nil in Hin.
Qed.

Lemma row_rules_ok : tiled_input_ok [[0]; [1]] [1; 1]%float Run.row_rules.
Proof.
  split; [done|]. split; [in_range|].
  intros t d Ht Hd. simpl in Ht.
  assert (t = 0 \/ t = 1) as [-> | ->] by lia;
    assert (d = 0 \/ d = 1 \/ d = 2 \/ d = 3) as [-> | [-> | [-> | ->]]] by lia;
    eexists _, _; (split; [reflexivity|]); (split; [reflexivity|]);
    intros x Hx; simpl;
    repeat (apply elem_of_cons in Hx as [->|Hx]; [lia|]); by apply elem_of_nil in Hx.
Qed.

Lemma row_entropy_reachable : tiled_reachable Run.row_entropy.
Proof. eapply tr_new; [apply row_rules_ok|apply ok_value_eq]. Qed.

Lemma row_entropy_1_reachable : tiled_reachable (snd Run.row_entropy_1).
Proof. eapply tr_step; [apply row_entropy_reachable|apply ok_value_pair]. Qed.

Lemma row_scanline_reachable : tiled_reachable Run.row_scanline.
Proof. eapply tr_new; [apply row_rules_ok|apply ok_value_eq]. Qed.






End RunFacts.

(* ===================================================================== *)
(** * More on the wave: observed patterns, [clear], [getState] *)
(* ===================================================================== *)

Lemma replicate_of_rd {A : Type} (l : list A) (v : A) :
  (forall i, 0 <= i < Z.of_nat (length l) -> rd l i = Some v) -> l = replicate (length l) v.
Proof.
  intros H. apply list_eq. intros k.
  destruct (decide (k < length l)%nat) as [Hk|Hk].
  - rewrite lookup_replicate_2 by done.
    specialize (H (Z.of_nat k)). unfold rd in H.
    destruct (Z.ltb_spec (Z.of_nat k) 0); [lia|]. rewrite Nat2Z.id in H. apply H. lia.
  - rewrite lookup_ge_None_2 by lia. symmetry. apply lookup_ge_None_2.
    rewrite length_replicate. lia.
Qed.

Lemma filter_length_all {A : Type} (P : A -> Prop) `{!forall x, Decision (P x)} (l : list A) :
  length (filter P l) = length l <-> Forall P l.
Proof.
  induction l as [|x l IH]; [by split|].
  rewrite filter_cons. pose proof (length_filter P l) as Hle.
  destruct (decide (P x)) as [Hx|Hx]; simpl.
  - split.
    + intros [= E]. constructor; [done|by apply IH].
    + intros [_ Hl]%Forall_cons. f_equal. by apply IH.
  - split; [lia|]. by intros [? _]%Forall_cons.
Qed.

Section WaveMore.
Context {M : MathLib}.
Implicit Types (e : Engine.t) (w : Wave.t) (i j t c : Z).

(** A cell whose count is 1 in a counted wave allows one pattern. *)
Lemma collapsed_possible w c :
  counted w -> 0 <= c < Wave.size w -> Wave.isCollapsed w c = true ->
  exists t, Wave.getPossiblePatterns w c = [t].
Proof.
  intros (_ & Hc) Hi Hcol. unfold Wave.isCollapsed in Hcol.
  apply is1_true in Hcol. rewrite (Hc c Hi) in Hcol. injection Hcol as Hpop.
  unfold popcount in Hpop.
  destruct (Wave.getPossiblePatterns w c) as [|t [|t' l]] eqn:E; simpl in Hpop; try lia.
  by exists t.
Qed.

Lemma getObserved_spec w c :
  counted w -> 0 <= c < Wave.size w ->
  (Wave.isCollapsed w c = false -> Wave.getObserved w c = -1) /\
  (Wave.isCollapsed w c = true ->
   exists t, Wave.getObserved w c = t /\ 0 <= t < Wave.patternCount w /\
             Wave.get w c t = true /\
             forall t', 0 <= t' < Wave.patternCount w -> Wave.get w c t' = true -> t' = t).
Proof.
  intros Hc Hi. unfold Wave.getObserved. split; [by intros ->|].
  intros Hcol. rewrite Hcol. simpl.
  destruct (collapsed_possible w c Hc Hi Hcol) as [t Et].
  assert (forall q, q ∈ Wave.getPossiblePatterns w c <-> q = t) as Hq.
  { intros q. rewrite Et. by rewrite list_elem_of_singleton. }
  assert (0 <= t < Wave.patternCount w /\ Wave.get w c t = true) as [Ht Hg].
  { apply possible_iff, Hq. done. }
  exists t. split; [|split; [done|split; [done|]]].
  - destruct (first_possible_spec (Wave.data w) (c * Wave.patternCount w)
                (upto (Wave.patternCount w))) as [[_ Hnone]|[Hin Hbit]].
    + specialize (Hnone t). unfold Wave.get in Hg. rewrite Hnone in Hg; [done| |lia].
      by apply elem_of_upto.
    + apply Hq, possible_iff. split; [by apply elem_of_upto|exact Hbit].
  - intros t' Ht' Hg'. apply Hq, possible_iff. by split.
Qed.

(** ** [clear] against the constructor *)

Lemma new_clear W H ws w0 : Wave.new W H ws = Ok w0 -> Wave.clear w0 = w0.
Proof.
  unfold Wave.new. destruct (Z.ltb_spec (W * H) 0) as [|Hsz]; [done|].
  destruct (plogp_fold (Wave.reduce_add ws) ws [] infinity 0%float) as (pl & m & E & L).
  rewrite E. simpl. intros [= <-]. unfold Wave.clear, Wave.with_state. simpl.
  unfold filled. rewrite !length_replicate. reflexivity.
Qed.

Lemma clear_same w w' :
  same_static w w' -> shape w -> shape w' -> Wave.clear w' = Wave.clear w.
Proof.
  intros (E1&E2&E3&E4&E5&E6&E7&E8) Hs Hs'.
  assert (forall a b : nat, Z.of_nat a = Z.of_nat b -> a = b) as Hinj by lia.
  assert (length (Wave.data w') = length (Wave.data w)) as Hl1.
  { apply Hinj. rewrite (sh_data _ Hs), (sh_data _ Hs'). by rewrite E7, E8. }
  assert (length (EntropyMemo.plogpSum (Wave.memo w')) =
          length (EntropyMemo.plogpSum (Wave.memo w))) as Hl2.
  { apply Hinj. rewrite (sh_plogpSum _ Hs), (sh_plogpSum _ Hs'). done. }
  assert (length (EntropyMemo.sum (Wave.memo w')) =
          length (EntropyMemo.sum (Wave.memo w))) as Hl3.
  { apply Hinj. rewrite (sh_sum _ Hs), (sh_sum _ Hs'). done. }
  assert (length (EntropyMemo.logSum (Wave.memo w')) =
          length (EntropyMemo.logSum (Wave.memo w))) as Hl4.
  { apply Hinj. rewrite (sh_logSum _ Hs), (sh_logSum _ Hs'). done. }
  assert (length (EntropyMemo.patternCount (Wave.memo w')) =
          length (EntropyMemo.patternCount (Wave.memo w))) as Hl5.
  { apply Hinj. rewrite (sh_count _ Hs), (sh_count _ Hs'). done. }
  assert (length (EntropyMemo.entropy (Wave.memo w')) =
          length (EntropyMemo.entropy (Wave.memo w))) as Hl6.
  { apply Hinj. rewrite (sh_entropy _ Hs), (sh_entropy _ Hs'). done. }
  unfold Wave.clear, Wave.with_state.
  rewrite Hl1, Hl2, Hl3, Hl4, Hl5, Hl6, E1, E2, E3, E4, E5, E6, E7, E8. reflexivity.
Qed.

Lemma reachable_static W H ws w0 w :
  Wave.new W H ws = Ok w0 -> reachable W H ws w -> same_static w0 w /\ shape w.
Proof.
  intros Hnew Hw. induction Hw as [w Hw|w i t _ [IH Hs] Hi Ht|w i rng _ [IH Hs] Hi|w _ [IH Hs]].
  - rewrite Hnew in Hw. injection Hw as <-. split; [apply same_static_refl|].
    by destruct (new_inv _ _ _ _ Hnew) as (_&_&_&_&_&_&_&_&?&_).
  - split; [|by apply remove_shape].
    eapply same_static_trans; [exact IH|apply remove_static].
  - destruct (collapse_wave w i rng) as (ts & _ & ->).
    split; [|rewrite removes_removals; by apply removals_shape].
    eapply same_static_trans; [exact IH|apply removes_static].
  - split; [|by apply clear_shape].
    eapply same_static_trans; [exact IH|apply clear_static].
Qed.

(** ** [getState] against the wave's own queries *)

Lemma getState_loop w (xs : list Z) c0 k0 :
  fold_left
    (fun '(c, k) i =>
       ((if is1 (Wave.getRemainingCount w i) then c + 1 else c),
        (if is0 (Wave.getRemainingCount w i) then true else k)))
    xs (c0, k0) =
  (c0 + Z.of_nat (length (filter (fun i => Wave.isCollapsed w i = true) xs)),
   k0 || existsb (fun i => is0 (rd (EntropyMemo.patternCount (Wave.memo w)) i)) xs).
Proof.
  revert c0 k0. induction xs as [|x xs IH]; intros c0 k0; simpl.
  { f_equal; [lia|by rewrite orb_false_r]. }
  rewrite IH, filter_cons. unfold Wave.isCollapsed, Wave.getRemainingCount.
  destruct (is1 _) eqn:E1; destruct (is0 _) eqn:E0; simpl.
  all: rewrite ?decide_True by done; rewrite ?decide_False by done; simpl.
  all: f_equal; try lia; by rewrite ?orb_true_r.
Qed.

End WaveMore.

Section WaveOps.
Context {M : MathLib}.
Implicit Types (e : Engine.t) (w : Wave.t) (i j t c : Z).

Lemma cell_pattern_index T i t j t' :
  0 <= t < T -> 0 <= t' < T -> j * T + t' = i * T + t -> j = i /\ t' = t.
Proof. intros Ht Ht' E. assert (j = i) by nia. subst. lia. Qed.

Lemma removes_get_other w c ts j t :
  0 <= t < Wave.patternCount w ->
  (forall t', t' ∈ ts -> 0 <= t' < Wave.patternCount w /\ (j <> c \/ t' <> t)) ->
  Wave.get (removes w c ts) j t = Wave.get w j t.
Proof.
  revert w. induction ts as [|t0 ts IH]; intros w Ht Hts; [done|]. simpl.
  destruct (Hts t0) as [Ht0 Hne]; [left|].
  destruct (remove_static w c t0) as (_&_&_&_&_&_&_&ET).
  rewrite IH.
  - apply remove_get_other. intros E.
    destruct (cell_pattern_index _ _ _ _ _ Ht0 Ht E). lia.
  - by rewrite ET.
  - intros t' Hin. rewrite ET. apply Hts. by right.
Qed.

Lemma removes_get_at w c ts t : t ∈ ts -> Wave.get (removes w c ts) c t = false.
Proof.
  revert w. induction ts as [|t0 ts IH]; intros w Hin; [by apply elem_of_nil in Hin|].
  simpl. apply elem_of_cons in Hin as [->|Hin]; [|by apply IH].
  apply not_true_is_false. rewrite removes_removals. intros Hg%removals_get_mono.
  by rewrite remove_get_at in Hg.
Qed.

Lemma remove_answer w i t :
  shape w -> 0 <= i < Wave.size w -> 0 <= t < Wave.patternCount w ->
  snd (Wave.remove w i t) = Wave.get w i t.
Proof.
  intros Hs Hi Ht. rewrite remove_result. unfold Wave.get.
  destruct (rd_is_Some (Wave.data w) (i * Wave.patternCount w + t)) as [b Hb].
  { rewrite (sh_data _ Hs). nia. }
  rewrite Hb. by destruct (sh_bits _ Hs _ _ Hb) as [-> | ->].
Qed.

Lemma collapse_closed w c rng :
  (zero_cell w c -> Wave.collapse w c rng = (w, -1, rng)) /\
  (Wave.isCollapsed w c = true -> Wave.collapse w c rng = (w, Wave.getObserved w c, rng)).
Proof.
  unfold zero_cell, Wave.getRemainingCount, Wave.isCollapsed, Wave.collapse, Wave.getObserved.
  split.
  - intros ->. done.
  - intros H1. rewrite H1, (is0_is1 _ H1). unfold Wave.isCollapsed. by rewrite H1.
Qed.

End WaveOps.

(* ===================================================================== *)
(** * [propagateStep] against [propagate] *)
(* ===================================================================== *)

Section PropagateStep.
Context {M : MathLib}.
Implicit Types (p : Propagator.t) (w : Wave.t).

Lemma step_patterns_eq pats : forall p w nb od aff,
  exists aff',
    Propagator.step_patterns p w nb od aff pats =
    (let '(p', w', flag) := Propagator.propagate_patterns p w nb od pats in
     (p', w', aff', flag)).
Proof.
  induction pats as [|cp pats IH]; intros p w nb od aff; simpl; [by exists aff|].
  destruct (_ && _).
  - destruct (is0 _); [by eexists|]. apply IH.
  - apply IH.
Qed.

Lemma step_directions_eq dirs : forall p w c pattern aff,
  match Propagator.propagate_directions p w c pattern dirs with
  | Ok (p', w', flag) =>
      exists aff', Propagator.step_directions p w c pattern aff dirs = Ok (p', w', aff', flag)
  | Throw err => Propagator.step_directions p w c pattern aff dirs = Throw err
  end.
Proof.
  induction dirs as [|d dirs IH]; intros p w c pattern aff; simpl; [by exists aff|].
  destruct (_ && _); [apply IH|].
  destruct (Propagator.data_at p pattern d) as [l|err]; simpl; [|done].
  match goal with
  | |- context [Propagator.step_patterns ?p0 ?w0 ?nb ?od aff l] =>
      destruct (step_patterns_eq l p0 w0 nb od aff) as [aff1 ->]
  end.
  destruct (Propagator.propagate_patterns _ _ _ _ l) as [[p1 w1] flag].
  destruct flag; [by exists aff1|]. apply IH.
Qed.

(** One call of [propagateStep] is one turn of the loop of [propagate]. *)
Lemma propagateStep_pop p w :
  Propagator.stackSize p <> 0 ->
  match Propagator.propagate_pop p w with
  | Ok (p', w', flag) =>
      exists aff,
        Propagator.propagateStep p w =
        Ok (p', w',
            Propagator.mkStepResult (negb flag && (Propagator.stackSize p' =? 0)) flag aff)
  | Throw err => Propagator.propagateStep p w = Throw err
  end.
Proof.
  intros Hne. unfold Propagator.propagateStep, Propagator.propagate_pop.
  destruct (Z.eqb_spec (Propagator.stackSize p) 0) as [|_]; [done|].
  destruct (rd _ _) as [c|]; [|done]. destruct (rd _ _) as [t|]; [|done].
  pose proof (step_directions_eq (upto 4)
                (Propagator.with_stack p (Propagator.stack p) (Propagator.stackSize p - 1))
                w c t []) as H.
  destruct (Propagator.propagate_directions _ _ _ _ _) as [[[p1 w1] flag]|err].
  - destruct H as [aff ->]. simpl. exists aff. by destruct flag.
  - by rewrite H.
Qed.

Lemma propagate_loop_drive fuel : forall p w,
  shape w -> serves p w ->
  Propagator.propagate_loop (S fuel) p w = drive fuel p w.
Proof.
  induction fuel as [|fuel IH]; intros p w Hs Hsv.
  all: pose proof Hsv as (_ & _ & Hn & _).
  all: cbn [Propagator.propagate_loop drive].
  all: destruct (Z.ltb_spec 0 (Propagator.stackSize p)) as [Hpos|Hz].
  all: try (assert (Propagator.stackSize p = 0) as E0 by lia;
            unfold Propagator.propagateStep; rewrite E0; done).
  all: destruct (propagate_pop_spec p w Hs Hsv Hpos)
         as (p1 & w1 & flag & rs & Epop & Hperf & Ew & Hsv1 & _ & Est & _).
  all: pose proof (propagateStep_pop p w ltac:(lia)) as Hstep; rewrite Epop in Hstep.
  all: destruct Hstep as [aff ->]; rewrite Epop; simpl.
  all: destruct flag; simpl; [done|].
  all: pose proof Hsv1 as (_ & _ & Hn1 & _).
  all: destruct (Z.eqb_spec (Propagator.stackSize p1) 0) as [E1|E1].
  - by rewrite E1.
  - destruct (Z.ltb_spec 0 (Propagator.stackSize p1)); [done|lia].
  - destruct (Z.ltb_spec 0 (Propagator.stackSize p1)); [lia|done].
  - apply IH; [|done]. rewrite Ew. by apply removals_shape.
Qed.

Lemma propagate_loop_more fuel : forall p w r,
  Propagator.propagate_loop fuel p w = Ok r -> Propagator.propagate_loop (S fuel) p w = Ok r.
Proof.
  induction fuel as [|fuel IH]; intros p w r.
  - cbn [Propagator.propagate_loop]. destruct (0 <? _); [done|done].
  - intros H. cbn [Propagator.propagate_loop] in H. cbn [Propagator.propagate_loop].
    destruct (0 <? Propagator.stackSize p); [|done].
    destruct (Propagator.propagate_pop p w) as [[[p1 w1] flag]|]; [|done].
    destruct flag; [done|]. by apply IH.
Qed.

End PropagateStep.

(* ===================================================================== *)
(** * [run]: the loop over [step] *)
(* ===================================================================== *)

Lemma filter_length_lt {A : Type} (P Q : A -> Prop)
    `{!forall x, Decision (P x)} `{!forall x, Decision (Q x)} (l : list A) (c : A) :
  (forall x, x ∈ l -> Q x -> P x) -> c ∈ l -> P c -> ~ Q c ->
  (length (filter Q l) < length (filter P l))%nat.
Proof.
  intros Hsub Hin Hp Hq.
  assert (forall l', (forall x, x ∈ l' -> Q x -> P x) ->
                     (length (filter Q l') <= length (filter P l'))%nat) as Hle.
  { induction l' as [|x l' IH]; intros Hs; [done|]. rewrite !filter_cons.
    assert (length (filter Q l') <= length (filter P l'))%nat
      by (apply IH; intros y Hy; apply Hs; by right).
    destruct (decide (Q x)) as [Hqx|]; destruct (decide (P x)) as [|Hnp]; simpl; try lia.
    destruct Hnp. apply Hs; [left|done]. }
  induction l as [|x l IH]; [by apply elem_of_nil in Hin|].
  rewrite !filter_cons.
  assert (length (filter Q l) <= length (filter P l))%nat
    by (apply Hle; intros y Hy; apply Hsub; by right).
  apply elem_of_cons in Hin as [->|Hin].
  - rewrite decide_False by done. rewrite decide_True by done. simpl. lia.
  - assert (length (filter Q l) < length (filter P l))%nat
      by (apply IH; [intros y Hy; apply Hsub; by right|done]).
    destruct (decide (Q x)) as [Hqx|]; destruct (decide (P x)) as [|Hnp]; simpl; try lia.
    destruct Hnp. apply Hsub; [left|done].
Qed.

Section Run.
Context {M : MathLib}.
Implicit Types (e : Engine.t) (w : Wave.t) (i j t c : Z).

Lemma open_cell_count w i n :
  Wave.getRemainingCount w i = Some n -> open_cell w i = true <-> n <> 0 /\ n <> 1.
Proof.
  intros E. unfold open_cell. rewrite E. destruct n as [|q|q]; simpl; try (split; [lia|done]).
  - split; [done|lia].
  - destruct q; simpl; split; try done; try lia.
Qed.

(** A step that answers [continue] has collapsed the cell its heuristic
    named. *)
Lemma step_continue_cell h e e' :
  engine_ok e -> Engine.step h e = Ok (continue, e') ->
  let c := fst (Engine.select h e) in
  0 <= c < Wave.size (Engine.wave e) /\ open_cell (Engine.wave e) c = true /\
  Wave.getRemainingCount (Engine.wave e') c = Some 1.
Proof.
  intros (Htr & Hsv & Hcur). pose proof Htr as (Hs & Hc & _).
  pose proof (select_spec h e Hs Hcur) as Hsel. cbv zeta in Hsel.
  unfold Engine.step. destruct (Engine.select h e) as [c e1]. simpl in Hsel.
  destruct Hsel as (Ew & Ep & Hcur1 & Hm2 & Hopen & Hall & Hfull). simpl.
  destruct (Z.eqb_spec c (-1)) as [->|Hn1]; [done|].
  destruct (Z.eqb_spec c (-2)) as [->|Hn2]; [done|].
  destruct (Hopen Hn1 Hn2) as (Hci & H0 & H1).
  rewrite Ew.
  destruct (collapse_open (Engine.wave e) c (Engine.rng e1) Hs Hc Hci H0 H1)
    as (sel & -> & Hsel & Hg).
  destruct (Z.eqb_spec sel (-1)) as [->|_]; [lia|].
  set (ts := filter (fun q => q <> sel) (Wave.getPossiblePatterns (Engine.wave e) c)).
  destruct (collapse_count (Engine.wave e) c sel Hs Hc Hci Hsel Hg) as [Hperf1 Hone].
  fold ts in Hperf1, Hone. specialize (Hone Hs Htr).
  rewrite push_removed_eq. fold ts. rewrite Ep.
  set (w2 := removes (Engine.wave e) c ts) in *.
  assert (w2 = removals (Engine.wave e) (map (fun t => (c, t)) ts)) as Ew2
    by apply removes_removals.
  pose proof (removals_static (Engine.wave e) (map (fun t => (c, t)) ts)) as Hst.
  rewrite <- Ew2 in Hst. destruct Hst as (_&_&_&_&_&_&Esz2&ET2).
  destruct (serves_slack_pushes ts (Engine.propagator e) w2 c) as [Hsv2 Hcfg2].
  { rewrite Ew2. pose proof (serves_slack_removals _ _ _ Hsv Hperf1) as Hsl.
    by rewrite length_map in Hsl. }
  { intros t [_ [Ht _]%possible_iff]%list_elem_of_filter. by rewrite ET2. }
  assert (tracked w2) as Htr2 by (rewrite Ew2; by apply removals_tracked).
  assert (shape w2) as Hs2 by (by destruct Htr2).
  destruct (propagate_spec _ _ Hs2 Hsv2)
    as (p3 & w3 & ok & rs2 & -> & Hperf2 & Ew3 & Hsv3 & Hcfg3 & Hok & Hko).
  simpl. destruct ok; [|done]. intros [= <-]. simpl.
  split; [done|]. split; [unfold open_cell; by rewrite H0, H1|].
  destruct (shrinks_performed w2 rs2 Htr2 Hperf2) as [_ Hcnt].
  destruct (Hcnt c) as (n & n' & En & En' & Hle); [by rewrite Esz2|].
  rewrite <- Ew3 in En'. rewrite Hone in En. injection En as <-.
  assert (tracked w3) as (_ & (_ & Hc3) & _) by (rewrite Ew3; by apply removals_tracked).
  assert (0 <= n').
  { pose proof (removals_static w2 rs2) as (_&_&_&_&_&_&Esz3&_). rewrite <- Ew3 in Esz3.
    unfold Wave.getRemainingCount in En'. rewrite (Hc3 c) in En' by (rewrite Esz3, Esz2; done).
    injection En' as <-. apply popcount_nonneg. }
  destruct (decide (n' = 0)) as [->|]; [|rewrite En'; f_equal; lia].
  destruct (Hok eq_refl) as [_ Hback]. specialize (Hback c En').
  unfold zero_cell in Hback. congruence.
Qed.

(** A step that answers [continue] leaves fewer open cells. *)
Lemma step_continue_opens h e e' :
  engine_ok e -> Engine.step h e = Ok (continue, e') ->
  (opens (Engine.wave e') < opens (Engine.wave e))%nat.
Proof.
  intros Hok Hstep. destruct (step_continue_cell h e e' Hok Hstep) as (Hc & Hopen & Hone).
  destruct (step_answers h e Hok) as (r0 & e0 & Hstep0 & Hok' & _ & [_ Hcnt] & _).
  rewrite Hstep0 in Hstep. injection Hstep as -> ->.
  destruct (step_spec h e Hok) as (r1 & e1 & rs & Hstep1 & _ & Ew & _).
  rewrite Hstep0 in Hstep1. injection Hstep1 as <- <-.
  pose proof (removals_static (Engine.wave e) rs) as (_&_&_&_&_&_&Esz&_).
  rewrite <- Ew in Esz. unfold opens. rewrite Esz.
  destruct Hok' as ((_ & (_ & Hc') & _) & _).
  apply (filter_length_lt _ _ _ (fst (Engine.select h e))).
  - intros x Hx%elem_of_upto Hq.
    destruct (Hcnt x Hx) as (n & n' & En & En' & Hle).
    apply (open_cell_count _ _ _ En). apply (open_cell_count _ _ _ En') in Hq.
    assert (0 <= n').
    { unfold Wave.getRemainingCount in En'. rewrite (Hc' x) in En' by (by rewrite Esz).
      injection En' as <-. apply popcount_nonneg. }
    lia.
  - by apply elem_of_upto.
  - done.
  - intros Hq. apply (open_cell_count _ _ _ Hone) in Hq. lia.
Qed.

Lemma opens_le_size w : (opens w <= Z.to_nat (Wave.size w))%nat.
Proof.
  unfold opens. etransitivity; [apply length_filter|]. unfold upto. by rewrite length_seqZ.
Qed.

(** The loop returns before its fuel is spent. *)
Lemma run_loop_spec h fuel : forall maxSteps steps e,
  engine_ok e -> settled e -> (opens (Engine.wave e) < fuel)%nat ->
  exists b e',
    Engine.run_loop h fuel maxSteps steps e = Ok (b, e') /\
    engine_ok e' /\ settled e' /\ shrinks (Engine.wave e) (Engine.wave e') /\
    same_config (Engine.propagator e) (Engine.propagator e') /\
    (b = false -> exists j, zero_cell (Engine.wave e') j) /\
    (b = true -> maxSteps < 0 -> exists e1, engine_ok e1 /\ Engine.step h e1 = Ok (success, e')).
Proof.
  induction fuel as [|fuel IH]; intros maxSteps steps e Hok Hset Hfuel; [lia|].
  cbn [Engine.run_loop].
  assert (shrinks (Engine.wave e) (Engine.wave e)) as Hrefl
    by (apply shrinks_refl; by destruct Hok).
  destruct (_ || _) eqn:Egate.
  2:{ exists true, e. split; [done|]. split; [done|]. split; [done|]. split; [done|].
      split; [apply same_config_refl|]. split; [done|].
      apply orb_false_iff in Egate as [Hneg _]. apply Z.ltb_ge in Hneg.
      intros _ ?; lia. }
  destruct (step_answers h e Hok)
    as (r & e1 & Hstep & Hok1 & _ & Hsh & Hfail & _ & _ & _).
  destruct (step_spec h e Hok) as (r' & e1' & rs & Hstep' & _ & Ew & _ & Hcfg & _).
  rewrite Hstep in Hstep'. injection Hstep' as <- <-.
  pose proof (removals_static (Engine.wave e) rs) as (_&_&_&_&_&_&Esz&_).
  rewrite <- Ew in Esz.
  assert (settled e1) as Hset1.
  { destruct (step_spec h e Hok)
      as (r0 & e0 & rs0 & Hstep0 & _ & _ & _ & _ & Hf0 & Hc0 & Hs0 & _).
    rewrite Hstep in Hstep0. injection Hstep0 as <- <-.
    destruct Hok as ((Hs & _) & _ & Hcur).
    destruct (select_spec h e Hs Hcur) as (Ew0 & Ep0 & _).
    destruct r.
    - left. by apply Hc0.
    - destruct (Hs0 eq_refl) as [_ ->]. unfold settled. by rewrite Ew0, Ep0.
    - right. by apply Hf0. }
  rewrite Hstep. destruct r.
  - pose proof (step_continue_opens h e e1 Hok Hstep) as Hlt.
    destruct (IH maxSteps (steps + 1) e1 Hok1 Hset1 ltac:(lia))
      as (b & e2 & Erun & Hok2 & Hset2 & Hsh2 & Hcfg2 & Hb & Hc2).
    exists b, e2. split; [done|]. split; [done|]. split; [done|].
    split; [by eapply shrinks_trans|]. split; [by eapply same_config_trans|]. done.
  - exists true, e1. split; [done|]. split; [done|]. split; [done|]. split; [done|].
    split; [done|]. split; [done|]. intros _ _; by exists e.
  - exists false, e1. split; [done|]. split; [done|]. split; [done|]. split; [done|].
    split; [done|]. split; [by intros _; apply Hfail|]. done.
Qed.

End Run.

(* ===================================================================== *)
(** * [extractColors]: the palette and the indexed sample *)
(* ===================================================================== *)

Lemma rd_app_l {A : Type} (l1 l2 : list A) i :
  i < Z.of_nat (length l1) -> rd (l1 ++ l2) i = rd l1 i.
Proof.
  intros H. unfold rd. destruct (Z.ltb_spec i 0); [done|].
  apply lookup_app_l. lia.
Qed.

Lemma rd_app_last {A : Type} (l : list A) x : rd (l ++ [x]) (Z.of_nat (length l)) = Some x.
Proof.
  unfold rd. destruct (Z.ltb_spec (Z.of_nat (length l)) 0); [lia|].
  rewrite Nat2Z.id. by rewrite lookup_app_r, Nat.sub_diag.
Qed.

Lemma rd_elem_of {A : Type} (l : list A) x : x ∈ l <-> exists i, rd l i = Some x.
Proof.
  rewrite list_elem_of_lookup. split.
  - intros [k Hk]. exists (Z.of_nat k). unfold rd.
    destruct (Z.ltb_spec (Z.of_nat k) 0); [lia|]. by rewrite Nat2Z.id.
  - intros [i Hi]. unfold rd in Hi. destruct (i <? 0); [done|]. by eexists.
Qed.

Lemma rd_elem_of_2 {A : Type} (l : list A) i x : rd l i = Some x -> x ∈ l.
Proof. intros H. apply rd_elem_of. by exists i. Qed.

Lemma colors_inv_step n pre st c :
  colors_inv n pre st ->
  colors_inv n (pre ++ [c])
    (let '(sample, colors, colorMap, i) := st in
     match colorMap !! c with
     | Some index => (wr sample i (wrap_uint8 index), colors, colorMap, i + 1)
     | None =>
         let index := Z.of_nat (length colors) in
         (wr sample i (wrap_uint8 index), colors ++ [c], <[c := index]> colorMap, i + 1)
     end).
Proof.
  destruct st as [[[sample colors] cmap] i].
  intros (Ei & Hlen & Hnd & Hmap & Hcol & Hsam).
  assert (forall idx (colors' : list Z) sample',
            rd colors' idx = Some c ->
            (forall k, k < Z.of_nat (length colors) -> rd colors' k = rd colors k) ->
            sample' = wr sample i (idx mod 256) ->
            forall j, 0 <= j < Z.of_nat (length (pre ++ [c])) -> j < n ->
              exists idx', rd colors' idx' = rd (pre ++ [c]) j /\
                           rd sample' j = Some (idx' mod 256)) as Hnew.
  { intros idx colors' sample' Hidx Hold -> j Hj Hjn. rewrite length_app in Hj. simpl in Hj.
    destruct (decide (j = i)) as [->|Hne].
    - exists idx. rewrite Ei at 1. rewrite rd_app_last. split; [done|].
      apply rd_wr_eq. lia.
    - destruct (Hsam j) as (idx' & H1 & H2); [lia|done|].
      exists idx'. rewrite rd_app_l by lia. rewrite rd_wr_ne by done.
      split; [|done]. rewrite <- H1. apply Hold.
      destruct (rd_is_Some pre j) as [v Ev]; [lia|].
      rewrite Ev in H1. apply rd_Some in H1. lia. }
  destruct (cmap !! c) as [idx|] eqn:Ec; unfold colors_inv.
  - split; [rewrite length_app; simpl; lia|]. split; [by rewrite length_wr|].
    split; [done|]. split; [done|]. split.
    + intros c'. rewrite Hcol, elem_of_app, list_elem_of_singleton.
      split; [tauto|]. intros [?| ->]; [done|]. apply Hcol, rd_elem_of. exists idx. by apply Hmap.
    + apply (Hnew idx); [by apply Hmap|done|done].
  - assert (c ∉ colors) as Hfresh.
    { intros [idx Hidx]%rd_elem_of. apply Hmap in Hidx. congruence. }
    split; [rewrite length_app; simpl; lia|]. split; [by rewrite length_wr|].
    split; [|split; [|split]].
    + apply NoDup_app. split; [done|]. split; [|apply NoDup_singleton].
      intros x Hx ->%list_elem_of_singleton. done.
    + intros c' idx. destruct (decide (c' = c)) as [->|Hne].
      * rewrite lookup_insert_eq. split.
        -- intros [= <-]. apply rd_app_last.
        -- intros Hrd. f_equal.
           destruct (decide (idx = Z.of_nat (length colors))) as [|Hne]; [done|].
           assert (idx < Z.of_nat (length colors)).
           { apply rd_Some in Hrd. rewrite length_app in Hrd. simpl in Hrd. lia. }
           rewrite rd_app_l in Hrd by done. destruct Hfresh. apply rd_elem_of. by exists idx.
      * rewrite lookup_insert_ne by done. rewrite Hmap. split.
        -- intros Hrd. rewrite rd_app_l; [done|]. apply rd_Some in Hrd. lia.
        -- intros Hrd.
           destruct (decide (idx = Z.of_nat (length colors))) as [->|Hne'].
           { rewrite rd_app_last in Hrd. congruence. }
           rewrite rd_app_l in Hrd; [done|].
           apply rd_Some in Hrd. rewrite length_app in Hrd. simpl in Hrd. lia.
    + intros c'. rewrite !elem_of_app, Hcol. tauto.
    + apply (Hnew (Z.of_nat (length colors))); [apply rd_app_last| |done].
      intros k Hk. by apply rd_app_l.
Qed.

Lemma colors_inv_fold n pixels : forall pre st,
  colors_inv n pre st ->
  colors_inv n (pre ++ pixels)
    (fold_left
       (fun '(sample, colors, colorMap, i) color =>
          match (colorMap : gmap Z Z) !! color with
          | Some index => (wr sample i (wrap_uint8 index), colors, colorMap, i + 1)
          | None =>
              let index := Z.of_nat (length colors) in
              (wr sample i (wrap_uint8 index), colors ++ [color],
               <[color := index]> colorMap, i + 1)
          end)
       pixels st).
Proof.
  induction pixels as [|c pixels IH]; intros pre st Hinv; simpl.
  { by rewrite app_nil_r. }
  replace (pre ++ c :: pixels) with ((pre ++ [c]) ++ pixels) by (by rewrite <- app_assoc).
  apply IH. pose proof (colors_inv_step n pre st c Hinv) as Hstep.
  destruct st as [[[sample colors] cmap] i]. exact Hstep.
Qed.

Lemma extractColors_spec pixels iw ih sample colors :
  OverlappingModel.extractColors pixels iw ih = Ok (sample, colors) ->
  Z.of_nat (length sample) = iw * ih /\
  NoDup colors /\
  (forall c, c ∈ colors <-> c ∈ pixels) /\
  (forall j, 0 <= j < Z.of_nat (length pixels) -> j < iw * ih ->
     exists idx, rd colors idx = rd pixels j /\ rd sample j = Some (idx mod 256)).
Proof.
  unfold OverlappingModel.extractColors.
  destruct (Z.ltb_spec (iw * ih) 0) as [|Hsz]; [done|].
  pose proof (colors_inv_fold (iw * ih) pixels [] (filled (iw * ih) 0, [], ∅, 0)) as Hinv.
  simpl in Hinv. destruct (fold_left _ _ _) as [[[s c] cm] i].
  intros [= <- <-]. destruct Hinv as (_ & Hlen & Hnd & _ & Hcol & Hsam); [|done].
  unfold colors_inv. rewrite length_filled. split; [done|]. split; [lia|].
  split; [constructor|]. split.
  - intros c0 idx. rewrite lookup_empty. split; [done|]. unfold rd.
    destruct (idx <? 0); done.
  - split; [done|]. simpl. lia.
Qed.

(* ===================================================================== *)
(** * Patterns: [rotate], [reflect], [agrees] and [buildPropagator] *)
(* ===================================================================== *)

Lemma list_eq_rd {A : Type} (l1 l2 : list A) :
  length l1 = length l2 ->
  (forall i, 0 <= i < Z.of_nat (length l1) -> rd l1 i = rd l2 i) -> l1 = l2.
Proof.
  intros Hlen H. apply list_eq. intros k.
  destruct (decide (k < length l1)%nat) as [Hk|Hk].
  - specialize (H (Z.of_nat k)). unfold rd in H.
    destruct (Z.ltb_spec (Z.of_nat k) 0); [lia|]. rewrite Nat2Z.id in H. apply H. lia.
  - rewrite !lookup_ge_None_2 by lia. done.
Qed.

Lemma rd_map {A B : Type} (f : A -> B) (l : list A) k : rd (map f l) k = f <$> rd l k.
Proof. unfold rd. destruct (k <? 0); [done|]. apply list_lookup_fmap. Qed.

Lemma rd_upto n k : 0 <= k < n -> rd (upto n) k = Some k.
Proof.
  intros H. unfold rd, upto. destruct (Z.ltb_spec k 0); [lia|].
  rewrite lookup_seqZ. split; lia.
Qed.

(** Writes at the places [g a], for [a] in [l]. *)
Lemma fold_wr_length {A B : Type} (g : A -> Z) (v : A -> B) (l : list A) : forall init,
  length (fold_left (fun r a => wr r (g a) (v a)) l init) = length init.
Proof.
  induction l as [|a l IH]; intros init; [done|]. simpl. by rewrite IH, length_wr.
Qed.

Lemma fold_wr_other {A B : Type} (g : A -> Z) (v : A -> B) (l : list A) k : forall init,
  (forall a, a ∈ l -> g a <> k) ->
  rd (fold_left (fun r a => wr r (g a) (v a)) l init) k = rd init k.
Proof.
  induction l as [|a l IH]; intros init Hk; [done|]. simpl.
  rewrite IH by (intros; apply Hk; by right).
  apply rd_wr_ne. intros E. by apply (Hk a); [left|].
Qed.

Lemma fold_wr_at {A B : Type} (g : A -> Z) (v : A -> B) (l : list A) : forall a init,
  a ∈ l -> (forall b, b ∈ l -> g b = g a -> v b = v a) ->
  0 <= g a < Z.of_nat (length init) ->
  rd (fold_left (fun r a => wr r (g a) (v a)) l init) (g a) = Some (v a).
Proof.
  induction l as [|b l IH]; intros a init Hin Hcons Hr; [by apply elem_of_nil in Hin|].
  simpl.
  destruct (decide (Exists (fun b' => g b' = g a) l)) as [(b' & Hb' & Eg)%Exists_exists|Hno].
  - rewrite <- Eg, <- (Hcons b') by (by right || done).
    apply IH; [done| |rewrite length_wr; lia].
    intros b0 Hb0 E0. rewrite (Hcons b0), (Hcons b') by (by right || congruence). done.
  - rewrite fold_wr_other by (intros b0 Hb0 E0; apply Hno, Exists_exists; by exists b0).
    apply elem_of_cons in Hin as [->|Hin]; [by apply rd_wr_eq|].
    destruct Hno. apply Exists_exists. by exists a.
Qed.

Lemma grid_inj n x y x' y' :
  0 <= x < n -> 0 <= x' < n -> x + y * n = x' + y' * n -> x = x' /\ y = y'.
Proof.
  intros Hx Hx' E.
  assert (y = y') as ->.
  { destruct (Z.lt_trichotomy y y') as [Hlt|[->|Hlt]]; [|done|].
    - assert (y + 1 <= y') as Hle by lia.
      apply (Z.mul_le_mono_nonneg_r _ _ n) in Hle; lia.
    - assert (y' + 1 <= y) as Hle by lia.
      apply (Z.mul_le_mono_nonneg_r _ _ n) in Hle; lia. }
  split; lia.
Qed.

Lemma tabulate_pairs n (f : Z -> Z -> Z) :
  OverlappingModel.tabulate n f =
  fold_left (fun r (a : Z * Z) => wr r (fst a + snd a * n) (wrap_uint8 (f (fst a) (snd a))))
    (flat_map (fun y => map (fun x => (x, y)) (upto n)) (upto n)) (filled (n * n) 0).
Proof.
  unfold OverlappingModel.tabulate. rewrite fold_left_flat_map.
  apply fold_left_ext. intros r y. by rewrite fold_left_map.
Qed.

Lemma tabulate_length n f : 0 <= n -> Z.of_nat (length (OverlappingModel.tabulate n f)) = n * n.
Proof. intros Hn. rewrite tabulate_pairs, fold_wr_length, length_filled. nia. Qed.

Lemma tabulate_rd n f x y :
  0 <= x < n -> 0 <= y < n ->
  rd (OverlappingModel.tabulate n f) (x + y * n) = Some (wrap_uint8 (f x y)).
Proof.
  intros Hx Hy. rewrite tabulate_pairs.
  apply (fold_wr_at (fun a : Z * Z => fst a + snd a * n)
           (fun a => wrap_uint8 (f (fst a) (snd a))) _ (x, y)).
  - apply list_elem_of_In, in_flat_map. exists y. split; [by apply list_elem_of_In, elem_of_upto|].
    apply in_map_iff. exists x. split; [done|]. by apply list_elem_of_In, elem_of_upto.
  - intros [x' y'] Hin E. simpl in *.
    apply list_elem_of_In, in_flat_map in Hin as (y0 & Hy0 & Hin).
    apply in_map_iff in Hin as (x0 & [= <- <-] & Hx0).
    apply list_elem_of_In, elem_of_upto in Hy0, Hx0.
    destruct (grid_inj n x0 y0 x y) as [-> ->]; done.
  - simpl. rewrite length_filled. nia.
Qed.

(** An index of an [n] by [n] array is [x + y * n] for one [x] and one [y]. *)
Lemma grid_index n k :
  0 <= n -> 0 <= k < n * n -> exists x y, 0 <= x < n /\ 0 <= y < n /\ k = x + y * n.
Proof.
  intros Hn Hk. assert (0 < n) by nia. exists (k mod n), (k / n).
  pose proof (Z.mod_pos_bound k n ltac:(lia)). pose proof (Z.div_mod k n ltac:(lia)).
  split; [lia|]. split; [|lia]. split; [apply Z.div_pos; lia|].
  apply Z.div_lt_upper_bound; lia.
Qed.

Lemma tabulate_pattern n f : 0 <= n -> is_pattern n (OverlappingModel.tabulate n f).
Proof.
  intros Hn. split; [by apply tabulate_length|]. apply Forall_forall.
  intros v (k & Hk)%rd_elem_of.
  pose proof (rd_Some _ _ _ Hk) as Hr. rewrite tabulate_length in Hr by done.
  destruct (grid_index n k Hn Hr) as (x & y & Hx & Hy & ->).
  rewrite tabulate_rd in Hk by done. injection Hk as <-.
  unfold wrap_uint8. apply Z.mod_pos_bound. lia.
Qed.

Lemma grid_ext n (p q : list Z) :
  0 <= n -> Z.of_nat (length p) = n * n -> Z.of_nat (length q) = n * n ->
  (forall x y, 0 <= x < n -> 0 <= y < n -> rd p (x + y * n) = rd q (x + y * n)) -> p = q.
Proof.
  intros Hn Hp Hq H. apply list_eq_rd; [lia|]. intros k Hk. rewrite Hp in Hk.
  destruct (grid_index n k Hn Hk) as (x & y & Hx & Hy & ->). by apply H.
Qed.

Lemma pattern_byte n p k : is_pattern n p -> 0 <= k < n * n ->
  rd p k = Some (wrap_uint8 (OverlappingModel.byte (rd p k))).
Proof.
  intros [Hlen Hb] Hk. destruct (rd_is_Some p k) as [v Hv]; [lia|].
  rewrite Hv. simpl. f_equal. unfold wrap_uint8. symmetry. apply Z.mod_small.
  rewrite Forall_forall in Hb. apply Hb. apply rd_elem_of. by exists k.
Qed.

Lemma rotate_rd n p x y :
  is_pattern n p -> 0 <= x < n -> 0 <= y < n ->
  rd (OverlappingModel.rotate n p) (x + y * n) = rd p (n - 1 - y + x * n).
Proof.
  intros Hp Hx Hy. unfold OverlappingModel.rotate. rewrite tabulate_rd by done.
  symmetry. apply (pattern_byte n); [done|nia].
Qed.

Lemma reflect_rd n p x y :
  is_pattern n p -> 0 <= x < n -> 0 <= y < n ->
  rd (OverlappingModel.reflect n p) (x + y * n) = rd p (n - 1 - x + y * n).
Proof.
  intros Hp Hx Hy. unfold OverlappingModel.reflect. rewrite tabulate_rd by done.
  symmetry. apply (pattern_byte n); [done|nia].
Qed.

Lemma rotate_pattern n p : 0 <= n -> is_pattern n (OverlappingModel.rotate n p).
Proof. apply tabulate_pattern. Qed.

Lemma reflect_pattern n p : 0 <= n -> is_pattern n (OverlappingModel.reflect n p).
Proof. apply tabulate_pattern. Qed.

(** ** [agrees] *)

Lemma agrees_true n p1 p2 dx dy :
  OverlappingModel.agrees n p1 p2 dx dy = true <->
  forall x y,
    (if dx <? 0 then 0 else dx) <= x < (if dx <? 0 then dx + n else n) ->
    (if dy <? 0 then 0 else dy) <= y < (if dy <? 0 then dy + n else n) ->
    rd p1 (x + n * y) = rd p2 (x - dx + n * (y - dy)).
Proof.
  unfold OverlappingModel.agrees. rewrite forallb_forall. split.
  - intros H x y Hx Hy.
    specialize (H y). rewrite forallb_forall in H.
    assert (bool_decide (rd p1 (x + n * y) = rd p2 (x - dx + n * (y - dy))) = true) as Hb.
    { apply H; apply list_elem_of_In, elem_of_seqZ; lia. }
    by apply bool_decide_eq_true in Hb.
  - intros H y Hy%list_elem_of_In%elem_of_seqZ. apply forallb_forall.
    intros x Hx%list_elem_of_In%elem_of_seqZ. apply bool_decide_eq_true. apply H; lia.
Qed.

Lemma agrees_opposite n p1 p2 dx dy :
  OverlappingModel.agrees n p1 p2 dx dy = OverlappingModel.agrees n p2 p1 (- dx) (- dy).
Proof.
  apply eq_true_iff_eq. rewrite !agrees_true. split; intros H x y Hx Hy.
  - specialize (H (x + dx) (y + dy)).
    replace (x + dx - dx) with x in H by lia. replace (y + dy - dy) with y in H by lia.
    replace (x - - dx) with (x + dx) by lia. replace (y - - dy) with (y + dy) by lia.
    symmetry. apply H.
    + destruct (Z.ltb_spec dx 0), (Z.ltb_spec (- dx) 0); lia.
    + destruct (Z.ltb_spec dy 0), (Z.ltb_spec (- dy) 0); lia.
  - specialize (H (x - dx) (y - dy)).
    replace (x - dx - - dx) with x in H by lia. replace (y - dy - - dy) with y in H by lia.
    symmetry. apply H.
    + destruct (Z.ltb_spec dx 0), (Z.ltb_spec (- dx) 0); lia.
    + destruct (Z.ltb_spec dy 0), (Z.ltb_spec (- dy) 0); lia.
Qed.

Lemma build_allowed n patterns t d t2 :
  0 <= t < Z.of_nat (length patterns) -> 0 <= d < 4 ->
  allowed (OverlappingModel.buildPropagator n patterns) t d t2 <->
  0 <= t2 < Z.of_nat (length patterns) /\
  OverlappingModel.agrees n (default [] (rd patterns t)) (default [] (rd patterns t2))
    (tbl DX d) (tbl DY d) = true.
Proof.
  intros Ht Hd. unfold allowed, OverlappingModel.buildPropagator. cbv zeta.
  destruct (rd_is_Some patterns t Ht) as [p1 Hp1].
  rewrite rd_map, Hp1. split.
  - intros (row & l & Hrow & Hl & Hin). apply (inj Some) in Hrow. subst row.
    rewrite rd_map, rd_upto in Hl by done.
    apply (inj Some) in Hl. subst l. apply list_elem_of_filter in Hin as [Hag Hin%elem_of_upto]. done.
  - intros [Ht2 Hag]. eexists _, _. split; [reflexivity|]. cbv beta. rewrite rd_map, rd_upto by done.
    split; [reflexivity|]. apply list_elem_of_filter. split; [done|by apply elem_of_upto].
Qed.

(* ===================================================================== *)
(** * The tileset loader *)
(* ===================================================================== *)

(** ** [getSymmetry] *)

Lemma getSymmetry_cases (sym : string) (P : TilesetLoader.Symmetry -> Prop) :
  P (TilesetLoader.mkSymmetry 4 (fun i => Z.rem (i + 1) 4)
       (fun i => if Z.rem i 2 =? 0 then i + 1 else i - 1)) ->
  P (TilesetLoader.mkSymmetry 4 (fun i => Z.rem (i + 1) 4)
       (fun i => if Z.rem i 2 =? 0 then i else 4 - i)) ->
  P (TilesetLoader.mkSymmetry 2 (fun i => 1 - i) (fun i => i)) ->
  P (TilesetLoader.mkSymmetry 2 (fun i => 1 - i) (fun i => 1 - i)) ->
  P (TilesetLoader.mkSymmetry 8
       (fun i => if i <? 4 then Z.rem (i + 1) 4 else 4 + Z.rem (i - 1) 4)
       (fun i => if i <? 4 then i + 4 else i - 4)) ->
  P (TilesetLoader.mkSymmetry 1 (fun i => i) (fun i => i)) ->
  P (TilesetLoader.getSymmetry sym).
Proof.
  intros. unfold TilesetLoader.getSymmetry. repeat case_bool_decide; done.
Qed.

Ltac small_index i :=
  match goal with
  | H : 0 <= i < 1 |- _ => assert (i = 0) as -> by lia
  | H : 0 <= i < 2 |- _ =>
      let E := fresh in assert (i = 0 \/ i = 1) as [E|E] by lia; rewrite E
  | H : 0 <= i < 4 |- _ =>
      let E := fresh in
      assert (i = 0 \/ i = 1 \/ i = 2 \/ i = 3) as [E|[E|[E|E]]] by lia; rewrite E
  | H : 0 <= i < 8 |- _ =>
      let E := fresh in
      assert (i = 0 \/ i = 1 \/ i = 2 \/ i = 3 \/ i = 4 \/ i = 5 \/ i = 6 \/ i = 7)
        as [E|[E|[E|[E|[E|[E|[E|E]]]]]]] by lia; rewrite E
  end.

Lemma getSymmetry_laws (sym : string) (i : Z) :
  let sy := TilesetLoader.getSymmetry sym in
  let a := TilesetLoader.sym_a sy in
  let b := TilesetLoader.sym_b sy in
  let n := TilesetLoader.cardinality sy in
  0 <= i < n ->
  0 <= a i < n /\ 0 <= b i < n /\
  a (a (a (a i))) = i /\ b (b i) = i /\ b (a (b (a i))) = i.
Proof.
  apply (getSymmetry_cases sym
    (fun sy => let a := TilesetLoader.sym_a sy in let b := TilesetLoader.sym_b sy in
               let n := TilesetLoader.cardinality sy in
               0 <= i < n -> 0 <= a i < n /\ 0 <= b i < n /\
               a (a (a (a i))) = i /\ b (b i) = i /\ b (a (b (a i))) = i));
    simpl; intros Hi; small_index i; vm_compute; repeat split; congruence.
Qed.

Lemma getSymmetry_card (sym : string) : 1 <= TilesetLoader.cardinality (TilesetLoader.getSymmetry sym).
Proof. apply (getSymmetry_cases sym (fun sy => 1 <= TilesetLoader.cardinality sy)); simpl; lia. Qed.

(** ** The loop over the tiles *)

Lemma action_row_ok sym T t :
  0 <= t < TilesetLoader.cardinality (TilesetLoader.getSymmetry sym) ->
  length (TilesetLoader.action_row (TilesetLoader.getSymmetry sym) T t) = 8%nat /\
  Forall (fun v => T <= v < T + TilesetLoader.cardinality (TilesetLoader.getSymmetry sym))
    (TilesetLoader.action_row (TilesetLoader.getSymmetry sym) T t).
Proof.
  intros Ht. split; [done|]. unfold TilesetLoader.action_row.
  set (sy := TilesetLoader.getSymmetry sym) in *.
  assert (forall i, 0 <= i < TilesetLoader.cardinality sy ->
            0 <= TilesetLoader.sym_a sy i < TilesetLoader.cardinality sy /\
            0 <= TilesetLoader.sym_b sy i < TilesetLoader.cardinality sy) as Hab.
  { intros i Hi. destruct (getSymmetry_laws sym i Hi) as (? & ? & _). done. }
  pose proof (Hab _ Ht) as [Ha1 Hb0].
  pose proof (Hab _ Ha1) as [Ha2 Hb1].
  pose proof (Hab _ Ha2) as [Ha3 Hb2].
  pose proof (Hab _ Ha3) as [_ Hb3].
  cbv zeta. simpl. repeat constructor; lia.
Qed.

Lemma action_ok_grow action rows :
  action_ok action ->
  Forall (fun row => length row = 8%nat /\
            Forall (fun v => 0 <= v < Z.of_nat (length action + length rows)) row) rows ->
  action_ok (action ++ rows).
Proof.
  intros Ha Hr. unfold action_ok in *. rewrite length_app. apply Forall_app. split; [|done].
  eapply Forall_impl; [exact Ha|]. intros row [? Hrow]. split; [done|].
  eapply Forall_impl; [exact Hrow|]. simpl. intros. lia.
Qed.

Lemma add_tile_inv subset st x : tiles_inv st -> tiles_inv (TilesetLoader.add_tile subset st x).
Proof.
  destruct st as [[[action first] names] weights]. intros (Hn & Hw & Ha & Hf).
  unfold TilesetLoader.add_tile.
  destruct (match subset with Some s => _ | None => _ end); [done|].
  set (sy := TilesetLoader.getSymmetry (tile_symmetry x)).
  pose proof (getSymmetry_card (tile_symmetry x)) as Hc. fold sy in Hc.
  assert (length (upto (TilesetLoader.cardinality sy)) = Z.to_nat (TilesetLoader.cardinality sy))
    as Hlen by (unfold upto; apply length_seqZ).
  unfold tiles_inv. rewrite !length_app, !length_map, Hlen. split_and!; [lia|lia| |].
  - apply action_ok_grow; [done|]. rewrite length_map, Hlen.
    apply Forall_forall. intros row Hrow%list_elem_of_In%in_map_iff.
    destruct Hrow as (t & <- & Ht%list_elem_of_In%elem_of_upto).
    destruct (action_row_ok (tile_symmetry x) (Z.of_nat (length action)) t Ht) as [H8 Hr].
    split; [done|]. eapply Forall_impl; [exact Hr|]. simpl. fold sy. intros. lia.
  - apply map_Forall_insert_2; [lia|].
    eapply map_Forall_impl; [exact Hf|]. simpl. intros. lia.
Qed.

Lemma add_tiles_inv subset xs : forall st,
  tiles_inv st -> tiles_inv (fold_left (TilesetLoader.add_tile subset) xs st).
Proof. induction xs as [|x xs IH]; intros st Hst; [done|]. simpl. by apply IH, add_tile_inv. Qed.

Lemma action_at_ok action i k :
  action_ok action -> 0 <= i < Z.of_nat (length action) -> 0 <= k < 8 ->
  exists v, TilesetLoader.action_at action i k = Ok v /\ 0 <= v < Z.of_nat (length action).
Proof.
  intros Ha Hi Hk. unfold TilesetLoader.action_at.
  destruct (rd_is_Some action i Hi) as [row Hrow]. rewrite Hrow.
  unfold action_ok in Ha. rewrite Forall_forall in Ha.
  destruct (Ha row) as [H8 Hr]; [apply rd_elem_of; by exists i|].
  destruct (rd_is_Some row k) as [v Hv]; [lia|]. rewrite Hv. exists v. split; [done|].
  rewrite Forall_forall in Hr. apply Hr. apply rd_elem_of. by exists k.
Qed.

(** ** The dense table *)

Lemma get_set_dense_eq T dense d t1 t2 v :
  dense_ok T dense -> 0 <= d < 4 -> 0 <= t1 < T -> 0 <= t2 < T ->
  TilesetLoader.get_dense (TilesetLoader.set_dense dense d t1 t2 v) d t1 t2 = v.
Proof.
  intros Hd Hdr H1 H2. destruct (Hd d t1 Hdr H1) as (plane & row & Hp & Hr & Hlen).
  unfold TilesetLoader.get_dense, TilesetLoader.set_dense. rewrite Hp, Hr.
  rewrite rd_wr_eq by (by eapply rd_Some). rewrite rd_wr_eq by (by eapply rd_Some).
  rewrite rd_wr_eq by lia. done.
Qed.

Lemma get_set_dense_ne dense d t1 t2 v d' t1' t2' :
  (d, t1, t2) <> (d', t1', t2') ->
  TilesetLoader.get_dense (TilesetLoader.set_dense dense d t1 t2 v) d' t1' t2' =
  TilesetLoader.get_dense dense d' t1' t2'.
Proof.
  intros Hne. unfold TilesetLoader.set_dense.
  destruct (rd dense d) as [plane|] eqn:Hp; [|done].
  destruct (rd plane t1) as [row|] eqn:Hr; [|done].
  unfold TilesetLoader.get_dense.
  destruct (decide (d = d')) as [<-|Hd]; [|by rewrite rd_wr_ne].
  rewrite rd_wr_eq by (by eapply rd_Some). rewrite Hp.
  destruct (decide (t1 = t1')) as [<-|Ht1]; [|by rewrite rd_wr_ne].
  rewrite rd_wr_eq by (by eapply rd_Some). rewrite Hr.
  rewrite rd_wr_ne by congruence. done.
Qed.

Lemma set_dense_ok T dense d t1 t2 v :
  dense_ok T dense -> dense_ok T (TilesetLoader.set_dense dense d t1 t2 v).
Proof.
  intros Hd d' t1' Hd' Ht1'. destruct (Hd d' t1' Hd' Ht1') as (plane' & row' & Hp' & Hr' & Hlen').
  unfold TilesetLoader.set_dense.
  destruct (rd dense d) as [plane|] eqn:Hp; [|by eauto].
  destruct (rd plane t1) as [row|] eqn:Hr; [|by eauto].
  destruct (decide (d = d')) as [<-|Hdd].
  - rewrite rd_wr_eq by (by eapply rd_Some). assert (plane' = plane) as -> by congruence.
    destruct (decide (t1 = t1')) as [<-|Ht].
    + assert (row' = row) as -> by congruence.
      eexists _, _. split_and!; [done| |].
      * apply rd_wr_eq. by eapply rd_Some.
      * by rewrite length_wr.
    + eexists _, _. split_and!; [done| |exact Hlen']. by rewrite rd_wr_ne.
  - eexists _, _. split_and!; [|exact Hr'|done]. by rewrite rd_wr_ne.
Qed.

Lemma dense0_ok T :
  0 <= T -> dense_ok T (filled 4 (filled T (filled T false))).
Proof.
  intros HT d t1 Hd Ht1. eexists _, _. split_and!.
  - by apply rd_filled.
  - by apply rd_filled.
  - rewrite length_filled. lia.
Qed.


(** ** The loop over the neighbor rules *)

Lemma set_dense_mono dense d t1 t2 d' t1' t2' :
  TilesetLoader.get_dense dense d' t1' t2' = true ->
  TilesetLoader.get_dense (TilesetLoader.set_dense dense d t1 t2 true) d' t1' t2' = true.
Proof.
  intros H. destruct (decide ((d, t1, t2) = (d', t1', t2'))) as [[= <- <- <-]|Hne].
  - unfold TilesetLoader.set_dense, TilesetLoader.get_dense in *.
    destruct (rd dense d) as [plane|] eqn:Hp; [|done].
    destruct (rd plane t1) as [row|] eqn:Hr; [|done].
    destruct (rd row t2) as [v|] eqn:Hv; [|done].
    rewrite rd_wr_eq by (by eapply rd_Some). rewrite rd_wr_eq by (by eapply rd_Some).
    rewrite rd_wr_eq by (by eapply rd_Some). done.
  - by rewrite get_set_dense_ne.
Qed.

Lemma grows_refl dense : grows dense dense.
Proof. by split. Qed.

Lemma grows_trans d1 d2 d3 : grows d1 d2 -> grows d2 d3 -> grows d1 d3.
Proof.
  intros [H1 H1'] [H2 H2']. split.
  - intros. by apply H2, H1.
  - intros. by rewrite H2', H1'.
Qed.

Lemma grows_set dense d t1 t2 :
  d < 2 -> grows dense (TilesetLoader.set_dense dense d t1 t2 true).
Proof.
  intros Hd. split.
  - intros. by apply set_dense_mono.
  - intros d' t1' t2' Hd'. apply get_set_dense_ne. intros [= -> _ _]. lia.
Qed.

Lemma add_neighbor_spec subset action first dense x :
  let T := Z.of_nat (length action) in
  action_ok action -> map_Forall (fun _ v => 0 <= v < T) first ->
  variants_ok x -> dense_ok T dense ->
  exists dense',
    TilesetLoader.add_neighbor subset action first dense x = Ok dense' /\
    dense_ok T dense' /\ grows dense dense' /\
    (rule_used subset first x ->
     exists fl fr L R,
       first !! left_name x = Some fl /\ first !! right_name x = Some fr /\
       TilesetLoader.action_at action fl (default 0 (left_variant x)) = Ok L /\
       TilesetLoader.action_at action fr (default 0 (right_variant x)) = Ok R /\
       0 <= L < T /\ 0 <= R < T /\
       TilesetLoader.get_dense dense' 0 R L = true).
Proof.
  intros T Ha Hf [Hvl Hvr] Hd. unfold TilesetLoader.add_neighbor.
  destruct (match subset with Some s => _ | None => _ end) eqn:Hskip.
  { exists dense. split_and!; [done|done|apply grows_refl|].
    intros (Hs & _). destruct subset as [s|]; [|done].
    destruct (Hs s eq_refl) as [Hl Hr].
    rewrite !bool_decide_eq_true_2 in Hskip by done. done. }
  destruct (first !! left_name x) as [fl|] eqn:Hfl;
    [|exists dense; split_and!; [done|done|apply grows_refl|];
      intros (_ & [? ?] & _); congruence].
  destruct (first !! right_name x) as [fr|] eqn:Hfr;
    [|exists dense; split_and!; [done|done|apply grows_refl|];
      intros (_ & _ & [? ?]); congruence].
  assert (0 <= default 0 (left_variant x) < 8) as Hlv.
  { destruct (left_variant x) as [v|] eqn:E; simpl; [by apply Hvl|lia]. }
  assert (0 <= default 0 (right_variant x) < 8) as Hrv.
  { destruct (right_variant x) as [v|] eqn:E; simpl; [by apply Hvr|lia]. }
  pose proof (Hf _ _ Hfl) as Hflr. pose proof (Hf _ _ Hfr) as Hfrr. simpl in Hflr, Hfrr.
  assert (forall i k, 0 <= i < T -> 0 <= k < 8 ->
            exists v, TilesetLoader.action_at action i k = Ok v /\ 0 <= v < T) as Hat.
  { intros. by apply action_at_ok. }
  destruct (Hat fl _ Hflr Hlv) as (L & EL & HL). rewrite EL. simpl.
  destruct (Hat L 1 HL ltac:(lia)) as (D & ED & HD). rewrite ED. simpl.
  destruct (Hat fr _ Hfrr Hrv) as (R & ER & HR). rewrite ER. simpl.
  destruct (Hat R 1 HR ltac:(lia)) as (U & EU & HU). rewrite EU. simpl.
  destruct (Hat R 6 HR ltac:(lia)) as (R6 & ER6 & HR6). rewrite ER6. simpl.
  destruct (Hat L 6 HL ltac:(lia)) as (L6 & EL6 & HL6). rewrite EL6. simpl.
  destruct (Hat L 4 HL ltac:(lia)) as (L4 & EL4 & HL4). rewrite EL4. simpl.
  destruct (Hat R 4 HR ltac:(lia)) as (R4 & ER4 & HR4). rewrite ER4. simpl.
  destruct (Hat L 2 HL ltac:(lia)) as (L2 & EL2 & HL2). rewrite EL2. simpl.
  destruct (Hat R 2 HR ltac:(lia)) as (R2 & ER2 & HR2). rewrite ER2. simpl.
  destruct (Hat D 6 HD ltac:(lia)) as (D6 & ED6 & HD6). rewrite ED6. simpl.
  destruct (Hat U 6 HU ltac:(lia)) as (U6 & EU6 & HU6). rewrite EU6. simpl.
  destruct (Hat U 4 HU ltac:(lia)) as (U4 & EU4 & HU4). rewrite EU4. simpl.
  destruct (Hat D 4 HD ltac:(lia)) as (D4 & ED4 & HD4). rewrite ED4. simpl.
  destruct (Hat D 2 HD ltac:(lia)) as (D2 & ED2 & HD2). rewrite ED2. simpl.
  destruct (Hat U 2 HU ltac:(lia)) as (U2 & EU2 & HU2). rewrite EU2. simpl.
  eexists. split; [reflexivity|]. split_and!.
  - by repeat apply set_dense_ok.
  - repeat (eapply grows_trans; [|apply grows_set; lia]). apply grows_refl.
  - intros _. exists fl, fr, L, R. do 6 (split; [done|]).
    do 7 apply set_dense_mono. by apply (get_set_dense_eq T).
Qed.


(** ** The transposition and the sparse lists *)

Lemma transpose_pairs T dense :
  TilesetLoader.transpose_dense T dense =
  fold_left
    (transpose_step)
    (flat_map (fun t2 => map (fun t1 => (t2, t1)) (upto T)) (upto T)) dense.
Proof.
  unfold TilesetLoader.transpose_dense. rewrite fold_left_flat_map.
  apply fold_left_ext. intros r t2. by rewrite fold_left_map.
Qed.

Lemma transpose_fold T (l : list (Z * Z)) : forall dense,
  dense_ok T dense ->
  (forall a, a ∈ l -> 0 <= fst a < T /\ 0 <= snd a < T) ->
  let res :=
    fold_left transpose_step l dense in
  dense_ok T res /\
  (forall d x y, d < 2 ->
     TilesetLoader.get_dense res d x y = TilesetLoader.get_dense dense d x y) /\
  (forall x y, (x, y) ∈ l ->
     TilesetLoader.get_dense res 2 x y = TilesetLoader.get_dense dense 0 y x /\
     TilesetLoader.get_dense res 3 x y = TilesetLoader.get_dense dense 1 y x) /\
  (forall x y, (x, y) ∉ l ->
     TilesetLoader.get_dense res 2 x y = TilesetLoader.get_dense dense 2 x y /\
     TilesetLoader.get_dense res 3 x y = TilesetLoader.get_dense dense 3 x y).
Proof.
  induction l as [|[t2 t1] l IH]; intros dense Hd Hl res; subst res.
  - simpl. split_and!; [done|done| |done]. by intros x y Hin%elem_of_nil.
  - destruct (Hl (t2, t1)) as [Ht2 Ht1]; [left|]. simpl in Ht2, Ht1.
    cbn [fold_left]. unfold transpose_step at 2 4 6 8 10 12. cbn [fst snd].
    set (d1 := TilesetLoader.set_dense dense 2 t2 t1 (TilesetLoader.get_dense dense 0 t1 t2)).
    set (d2 := TilesetLoader.set_dense d1 3 t2 t1 (TilesetLoader.get_dense d1 1 t1 t2)).
    assert (dense_ok T d1) as Hd1 by (by apply set_dense_ok).
    assert (dense_ok T d2) as Hd2 by (by apply set_dense_ok).
    assert (forall d x y, d < 2 ->
              TilesetLoader.get_dense d2 d x y = TilesetLoader.get_dense dense d x y) as Hlow.
    { intros d x y Hlt. unfold d2, d1.
      rewrite !get_set_dense_ne by (intros [= ? _ _]; lia). done. }
    assert (TilesetLoader.get_dense d2 2 t2 t1 = TilesetLoader.get_dense dense 0 t1 t2) as H2.
    { unfold d2. rewrite get_set_dense_ne by done. unfold d1.
      by apply (get_set_dense_eq T). }
    assert (TilesetLoader.get_dense d2 3 t2 t1 = TilesetLoader.get_dense dense 1 t1 t2) as H3.
    { unfold d2. etrans; [by apply (get_set_dense_eq T)|]. unfold d1.
      by rewrite get_set_dense_ne. }
    assert (forall x y, (x, y) <> (t2, t1) ->
              TilesetLoader.get_dense d2 2 x y = TilesetLoader.get_dense dense 2 x y /\
              TilesetLoader.get_dense d2 3 x y = TilesetLoader.get_dense dense 3 x y) as Hoth.
    { intros x y Hne. unfold d2, d1. split.
      - rewrite !get_set_dense_ne by congruence. done.
      - rewrite !get_set_dense_ne by congruence. done. }
    destruct (IH d2 Hd2) as (Hok & Hl' & Hin & Hout); [intros; apply Hl; by right|].
    split_and!; [done| | |].
    + intros d x y Hlt. by rewrite Hl', Hlow.
    + intros x y Hxy. destruct (decide ((x, y) ∈ l)) as [Hm|Hm].
      * destruct (Hin x y Hm) as [-> ->]. by rewrite !Hlow by lia.
      * destruct (Hout x y Hm) as [-> ->].
        apply elem_of_cons in Hxy as [[= -> ->]|?]; done.
    + intros x y Hxy. apply not_elem_of_cons in Hxy as [Hne Hm].
      destruct (Hout x y Hm) as [-> ->]. by apply Hoth.
Qed.

Lemma transpose_spec T dense :
  dense_ok T dense ->
  let res := TilesetLoader.transpose_dense T dense in
  (forall d x y, d < 2 ->
     TilesetLoader.get_dense res d x y = TilesetLoader.get_dense dense d x y) /\
  (forall x y, 0 <= x < T -> 0 <= y < T ->
     TilesetLoader.get_dense res 2 x y = TilesetLoader.get_dense dense 0 y x /\
     TilesetLoader.get_dense res 3 x y = TilesetLoader.get_dense dense 1 y x).
Proof.
  intros Hd res. subst res. rewrite transpose_pairs.
  destruct (transpose_fold T
    (flat_map (fun t2 => map (fun t1 => (t2, t1)) (upto T)) (upto T)) dense Hd)
    as (_ & Hlow & Hin & _).
  - intros [x y] Hin%list_elem_of_In%in_flat_map.
    destruct Hin as (t2 & Ht2%list_elem_of_In%elem_of_upto & Hin%in_map_iff).
    destruct Hin as (t1 & [= <- <-] & Ht1%list_elem_of_In%elem_of_upto). done.
  - split; [done|]. intros x y Hx Hy. apply Hin.
    apply list_elem_of_In, in_flat_map. exists x.
    split; [by apply list_elem_of_In, elem_of_upto|].
    apply in_map_iff. exists y. split; [done|]. by apply list_elem_of_In, elem_of_upto.
Qed.

Lemma rd_upto_Some n k v : rd (upto n) k = Some v -> v = k /\ 0 <= k < n.
Proof.
  intros H. pose proof (rd_Some _ _ _ H) as Hr. unfold upto in Hr.
  rewrite length_seqZ in Hr. rewrite rd_upto in H by lia. split; [congruence|lia].
Qed.

Lemma sparse_allowed T dense t d t2 :
  0 <= d < 4 ->
  allowed (TilesetLoader.sparse T dense) t d t2 <->
  0 <= t < T /\ 0 <= t2 < T /\ TilesetLoader.get_dense dense d t t2 = true.
Proof.
  intros Hd. unfold allowed, TilesetLoader.sparse. split.
  - intros (row & l & Hrow & Hl & Hin). rewrite rd_map in Hrow.
    destruct (rd (upto T) t) as [t'|] eqn:Et; [|done].
    apply rd_upto_Some in Et as [-> Ht]. apply (inj Some) in Hrow. subst row.
    rewrite rd_map, rd_upto in Hl by done. apply (inj Some) in Hl. subst l.
    apply list_elem_of_filter in Hin as [Hg Hin%elem_of_upto]. done.
  - intros (Ht & Ht2 & Hg). eexists _, _. split; [by rewrite rd_map, rd_upto|].
    cbv beta. split; [by rewrite rd_map, rd_upto|].
    apply list_elem_of_filter. split; [done|by apply elem_of_upto].
Qed.

Lemma sparse_wf T dense : data_wf T (TilesetLoader.sparse T dense).
Proof.
  intros t d Ht Hd. unfold TilesetLoader.sparse. eexists _, _.
  split; [by rewrite rd_map, rd_upto|]. cbv beta.
  split; [by rewrite rd_map, rd_upto|].
  intros x [_ Hx%elem_of_upto]%list_elem_of_filter. done.
Qed.

(** ** [loadTileset] *)


(** ** A variant that is no entry of [action] *)

Lemma action_at_error action i k e :
  TilesetLoader.action_at action i k = Throw e -> e = TypeError.
Proof.
  unfold TilesetLoader.action_at. destruct (rd action i) as [row|]; [|congruence].
  destruct (rd row k); congruence.
Qed.

Lemma action_at_outside action i k :
  action_ok action -> ~ 0 <= k < 8 -> TilesetLoader.action_at action i k = Throw TypeError.
Proof.
  intros Ha Hk. unfold TilesetLoader.action_at.
  destruct (rd action i) as [row|] eqn:Hrow; [|done].
  unfold action_ok in Ha. rewrite Forall_forall in Ha.
  destruct (Ha row) as [H8 _]; [by eapply rd_elem_of_2|].
  destruct (rd row k) as [v|] eqn:Hv; [|done]. apply rd_Some in Hv. lia.
Qed.

Lemma add_neighbor_error subset action first dense x e :
  TilesetLoader.add_neighbor subset action first dense x = Throw e -> e = TypeError.
Proof.
  unfold TilesetLoader.add_neighbor.
  destruct (match subset with Some s => _ | None => _ end); [done|].
  destruct (first !! left_name x) as [fl|]; [|done].
  destruct (first !! right_name x) as [fr|]; [|done].
  repeat match goal with
  | |- context [TilesetLoader.action_at ?a ?i ?k ≫= _] =>
      let E := fresh "E" in
      destruct (TilesetLoader.action_at a i k) as [?|?] eqn:E; simpl;
      [|intros [= <-]; by eapply action_at_error]
  end.
  done.
Qed.

Lemma add_neighbor_outside subset action first dense x :
  action_ok action -> map_Forall (fun _ v => 0 <= v < Z.of_nat (length action)) first ->
  rule_used subset first x -> ~ variants_ok x ->
  TilesetLoader.add_neighbor subset action first dense x = Throw TypeError.
Proof.
  intros Ha Hf (Hs & [fl Hfl] & [fr Hfr]) Hbad. unfold TilesetLoader.add_neighbor.
  assert (match subset with
          | Some s => negb (bool_decide (left_name x ∈ s)) || negb (bool_decide (right_name x ∈ s))
          | None => false
          end = false) as ->.
  { destruct subset as [s|]; [|done]. destruct (Hs s eq_refl).
    by rewrite !bool_decide_eq_true_2. }
  rewrite Hfl, Hfr.
  destruct (decide (0 <= default 0 (left_variant x) < 8)) as [Hl|Hl];
    [|rewrite (action_at_outside action fl (default 0 (left_variant x))) by done;
      reflexivity].
  pose proof (Hf _ _ Hfl) as Hflr. simpl in Hflr.
  destruct (action_at_ok action fl _ Ha Hflr Hl) as (L & -> & HL). simpl.
  destruct (action_at_ok action L 1 Ha HL ltac:(lia)) as (D & -> & HD). simpl.
  destruct (decide (0 <= default 0 (right_variant x) < 8)) as [Hr|Hr];
    [|rewrite (action_at_outside action fr (default 0 (right_variant x))) by done;
      reflexivity].
  destruct Hbad. split.
  - intros v Ev. by rewrite Ev in Hl.
  - intros v Ev. by rewrite Ev in Hr.
Qed.

Lemma for_each_throws {A S : Type} (body : S -> A -> result S) (err : JsError) (xs : list A) :
  (forall s x e, body s x = Throw e -> e = err) ->
  (exists x, x ∈ xs /\ forall s, body s x = Throw err) ->
  forall s, Propagator.for_each xs body s = Throw err.
Proof.
  intros Herr. induction xs as [|y xs IH]; intros (x & Hx & Hthrow) s.
  - by apply elem_of_nil in Hx.
  - simpl. destruct (body s y) as [s1|e] eqn:E; simpl.
    + apply IH. exists x. split; [|done].
      apply elem_of_cons in Hx as [->|Hx]; [|done]. by rewrite Hthrow in E.
    + by rewrite (Herr _ _ _ E).
Qed.

(** ** A load that returns *)

Lemma variants_ok_dec x : {variants_ok x} + {~ variants_ok x}.
Proof.
  unfold variants_ok.
  destruct (left_variant x) as [v|]; [destruct (decide (0 <= v < 8)) as [Hv|Hv]|];
    (destruct (right_variant x) as [v'|]; [destruct (decide (0 <= v' < 8)) as [Hv'|Hv']|]);
    try (left; split; intros ? [= <-]; done);
    try (left; split; intros ? ?; done);
    right; intros [H1 H2]; first [by apply Hv, H1 | by apply Hv', H2].
Qed.

Lemma add_neighbor_unused subset action first dense x :
  ~ rule_used subset first x ->
  TilesetLoader.add_neighbor subset action first dense x = Ok dense.
Proof.
  intros Hn. unfold TilesetLoader.add_neighbor.
  destruct (match subset with Some s => _ | None => _ end) eqn:Hskip; [done|].
  destruct (first !! left_name x) as [fl|] eqn:Hfl; [|done].
  destruct (first !! right_name x) as [fr|] eqn:Hfr; [|done].
  destruct Hn. split; [|by rewrite Hfl, Hfr].
  intros s ->. apply orb_false_iff in Hskip as [H1 H2].
  apply negb_false_iff, bool_decide_eq_true in H1, H2. done.
Qed.

Lemma rule_used_dec subset first x : {rule_used subset first x} + {~ rule_used subset first x}.
Proof.
  unfold rule_used.
  destruct (first !! left_name x) as [fl|]; [|right; intros (_ & [? ?] & _); done].
  destruct (first !! right_name x) as [fr|]; [|right; intros (_ & _ & [? ?]); done].
  destruct subset as [s|]; [|left; split; [done|by split]].
  destruct (decide (left_name x ∈ s)) as [Hl|Hl];
    [|right; intros (H & _); by destruct (H s eq_refl)].
  destruct (decide (right_name x ∈ s)) as [Hr|Hr];
    [|right; intros (H & _); by destruct (H s eq_refl)].
  left. split; [by intros ? [= <-]|by split].
Qed.

Lemma add_neighbor_Ok subset action first dense x dense' :
  let T := Z.of_nat (length action) in
  action_ok action -> map_Forall (fun _ v => 0 <= v < T) first -> dense_ok T dense ->
  TilesetLoader.add_neighbor subset action first dense x = Ok dense' ->
  dense_ok T dense' /\ grows dense dense' /\
  (rule_used subset first x ->
   exists fl fr L R,
     first !! left_name x = Some fl /\ first !! right_name x = Some fr /\
     TilesetLoader.action_at action fl (default 0 (left_variant x)) = Ok L /\
     TilesetLoader.action_at action fr (default 0 (right_variant x)) = Ok R /\
     0 <= L < T /\ 0 <= R < T /\
     TilesetLoader.get_dense dense' 0 R L = true).
Proof.
  intros T Ha Hf Hd Hrun.
  destruct (rule_used_dec subset first x) as [Hu|Hu].
  - destruct (variants_ok_dec x) as [Hv|Hv].
    + destruct (add_neighbor_spec subset action first dense x Ha Hf Hv Hd)
        as (d1 & E & H1 & H2 & H3).
      rewrite E in Hrun. injection Hrun as <-. done.
    + by rewrite add_neighbor_outside in Hrun.
  - rewrite add_neighbor_unused in Hrun by done. injection Hrun as <-.
    split_and!; [done|apply grows_refl|done].
Qed.

Lemma add_neighbors_Ok subset action first xs :
  let T := Z.of_nat (length action) in
  action_ok action -> map_Forall (fun _ v => 0 <= v < T) first ->
  forall dense dense', dense_ok T dense ->
  Propagator.for_each xs (TilesetLoader.add_neighbor subset action first) dense = Ok dense' ->
  dense_ok T dense' /\ grows dense dense' /\
  forall x, x ∈ xs -> rule_used subset first x ->
   exists fl fr L R,
     first !! left_name x = Some fl /\ first !! right_name x = Some fr /\
     TilesetLoader.action_at action fl (default 0 (left_variant x)) = Ok L /\
     TilesetLoader.action_at action fr (default 0 (right_variant x)) = Ok R /\
     0 <= L < T /\ 0 <= R < T /\
     TilesetLoader.get_dense dense' 0 R L = true.
Proof.
  intros T Ha Hf. induction xs as [|x xs IH]; intros dense dense' Hd Hrun.
  - injection Hrun as <-. split_and!; [done|apply grows_refl|]. by intros x Hx%elem_of_nil.
  - simpl in Hrun. apply bind_Ok in Hrun as (d1 & E1 & Hrun).
    destruct (add_neighbor_Ok subset action first dense x d1 Ha Hf Hd E1) as (Hd1 & Hg1 & Hrec1).
    destruct (IH d1 dense' Hd1 Hrun) as (Hd2 & Hg2 & Hrec2).
    split_and!; [done|by eapply grows_trans|].
    intros y [->|Hy]%elem_of_cons Hu; [|by apply Hrec2].
    destruct (Hrec1 Hu) as (fl & fr & L & R & ? & ? & ? & ? & ? & ? & Hget).
    exists fl, fr, L, R. do 6 (split; [done|]). by apply Hg2.
Qed.

Lemma loadTileset_inv tileElements neighborElements subset td :
  TilesetLoader.loadTileset tileElements neighborElements subset = Ok td ->
  exists action first names weights dense,
    loaded_tiles subset tileElements = (action, first, names, weights) /\
    td = mkTilesetData names weights action
           (TilesetLoader.sparse (Z.of_nat (length action))
              (TilesetLoader.transpose_dense (Z.of_nat (length action)) dense)) /\
    tiles_inv (action, first, names, weights) /\
    dense_ok (Z.of_nat (length action)) dense /\
    forall x, x ∈ neighborElements -> rule_used subset first x ->
     exists fl fr L R,
       first !! left_name x = Some fl /\ first !! right_name x = Some fr /\
       TilesetLoader.action_at action fl (default 0 (left_variant x)) = Ok L /\
       TilesetLoader.action_at action fr (default 0 (right_variant x)) = Ok R /\
       0 <= L < Z.of_nat (length action) /\ 0 <= R < Z.of_nat (length action) /\
       TilesetLoader.get_dense dense 0 R L = true.
Proof.
  unfold TilesetLoader.loadTileset, loaded_tiles.
  pose proof (add_tiles_inv subset tileElements ([], ∅, [], [])) as Hinv.
  destruct (fold_left _ tileElements _) as [[[action first] names] weights].
  destruct Hinv as (Hn & Hw & Ha & Hf).
  { split_and!; [done|done|by apply Forall_nil|]. apply map_Forall_empty. }
  intros (dense & Hrun & [= <-])%bind_Ok.
  destruct (add_neighbors_Ok subset action first neighborElements Ha Hf _ dense
              (dense0_ok (Z.of_nat (length action)) ltac:(lia)) Hrun) as (Hd & _ & Hrec).
  exists action, first, names, weights, dense. split_and!; done.
Qed.

Lemma loaded_symmetric T dense t d t2 :
  dense_ok T dense -> 0 <= d < 4 ->
  allowed (TilesetLoader.sparse T (TilesetLoader.transpose_dense T dense)) t d t2 ->
  allowed (TilesetLoader.sparse T (TilesetLoader.transpose_dense T dense)) t2 (tbl OPPOSITE d) t.
Proof.
  intros Hd Hdr Ha. destruct (transpose_spec T dense Hd) as [Hlow Hhigh].
  apply sparse_allowed in Ha as (Ht & Ht2 & Hg); [|done].
  destruct (Hhigh t t2 Ht Ht2) as [H2 H3]. destruct (Hhigh t2 t Ht2 Ht) as [H2' H3'].
  assert (d = 0 \/ d = 1 \/ d = 2 \/ d = 3) as Hcases by lia.
  destruct Hcases as [E|[E|[E|E]]]; subst d.
  - change (tbl OPPOSITE 0) with 2. apply sparse_allowed; [lia|].
    split; [done|]. split; [done|]. rewrite H2', <- (Hlow 0) by lia. done.
  - change (tbl OPPOSITE 1) with 3. apply sparse_allowed; [lia|].
    split; [done|]. split; [done|]. rewrite H3', <- (Hlow 1) by lia. done.
  - change (tbl OPPOSITE 2) with 0. apply sparse_allowed; [lia|].
    split; [done|]. split; [done|]. rewrite (Hlow 0), <- H2 by lia. done.
  - change (tbl OPPOSITE 3) with 1. apply sparse_allowed; [lia|].
    split; [done|]. split; [done|]. rewrite (Hlow 1), <- H3 by lia. done.
Qed.

(** The names and the weights the loop over the tiles collects. *)
Lemma loaded_tiles_lists subset xs : forall st : TilesetLoader.tiles_state,
  let st' := fold_left (TilesetLoader.add_tile subset) xs st in
  snd (fst st') = snd (fst st) ++
    flat_map (fun x => map (TilesetLoader.variant_name (tile_name x))
                         (upto (TilesetLoader.cardinality
                                  (TilesetLoader.getSymmetry (tile_symmetry x)))))
      (filter (fun x => in_subset subset x = true) xs) /\
  snd st' = snd st ++
    flat_map (fun x => map (fun _ => tile_weight x)
                         (upto (TilesetLoader.cardinality
                                  (TilesetLoader.getSymmetry (tile_symmetry x)))))
      (filter (fun x => in_subset subset x = true) xs).
Proof.
  induction xs as [|x xs IH]; intros st st'; subst st'.
  - simpl. by rewrite !app_nil_r.
  - cbn [fold_left]. destruct (IH (TilesetLoader.add_tile subset st x)) as [-> ->].
    destruct st as [[[action first] names] weights]. unfold TilesetLoader.add_tile.
    destruct (in_subset subset x) eqn:Hin.
    + assert (match subset with
              | Some s => negb (bool_decide (tile_name x ∈ s)) | None => false end = false) as ->.
      { unfold in_subset in Hin. destruct subset; [by rewrite Hin|done]. }
      rewrite filter_cons_True by done. cbn [flat_map fst snd].
      by rewrite <- !app_assoc.
    + assert (match subset with
              | Some s => negb (bool_decide (tile_name x ∈ s)) | None => false end = true) as ->.
      { unfold in_subset in Hin. destruct subset; [by rewrite Hin|done]. }
      rewrite filter_cons_False by (by rewrite Hin). done.
Qed.

(* ===================================================================== *)
(** * The patterns [extractPatterns] returns *)
(* ===================================================================== *)

(** ** [hash] *)

Lemma hash_fold C q : forall r pw,
  fst (fold_left (fun '(result, power) v => (result + v * power, power * C)) q (r, pw)) =
  r + pw * place_value C q.
Proof.
  induction q as [|v q IH]; intros r pw; simpl; [lia|]. rewrite IH. lia.
Qed.

Lemma hash_value C p : OverlappingModel.hash C p = place_value C (reverse p).
Proof. unfold OverlappingModel.hash. rewrite hash_fold. lia. Qed.

Lemma place_value_inj C q : forall q',
  length q = length q' ->
  Forall (fun v => 0 <= v < C) q -> Forall (fun v => 0 <= v < C) q' ->
  place_value C q = place_value C q' -> q = q'.
Proof.
  induction q as [|v q IH]; intros [|v' q'] Hlen Hq Hq' E; try done.
  apply Forall_cons in Hq as [Hv Hq]. apply Forall_cons in Hq' as [Hv' Hq'].
  simpl in E, Hlen.
  assert (v = v') as ->.
  { assert ((v + C * place_value C q) mod C = (v' + C * place_value C q') mod C) as Em
      by (by rewrite E).
    replace (v + C * place_value C q) with (v + place_value C q * C) in Em by lia.
    replace (v' + C * place_value C q') with (v' + place_value C q' * C) in Em by lia.
    rewrite !Z.mod_add in Em by lia. by rewrite !Z.mod_small in Em by lia. }
  f_equal. apply IH; [lia|done|done|]. nia.
Qed.

Lemma hash_inj C p p' :
  length p = length p' ->
  Forall (fun v => 0 <= v < C) p -> Forall (fun v => 0 <= v < C) p' ->
  OverlappingModel.hash C p = OverlappingModel.hash C p' -> p = p'.
Proof.
  intros Hlen Hp Hp'. rewrite !hash_value. intros E.
  apply (inj reverse). apply (place_value_inj C); [by rewrite !length_reverse| | |done].
  - apply Forall_reverse. done.
  - apply Forall_reverse. done.
Qed.

(** ** The loops *)

Lemma for_each_all {A S : Type} (I : S -> Prop) (R : S -> S -> Prop) (Q : A -> S -> Prop)
    (xs : list A) (body : S -> A -> result S) :
  (forall s, R s s) -> (forall s1 s2 s3, R s1 s2 -> R s2 s3 -> R s1 s3) ->
  (forall x s s', Q x s -> R s s' -> Q x s') ->
  (forall s x s', x ∈ xs -> I s -> body s x = Ok s' -> I s' /\ R s s' /\ Q x s') ->
  forall s s', I s -> Propagator.for_each xs body s = Ok s' ->
    I s' /\ R s s' /\ forall x, x ∈ xs -> Q x s'.
Proof.
  intros Hrefl Htrans Hmono. induction xs as [|x xs IH]; intros Hbody s s' Hs Hrun.
  - injection Hrun as <-. split_and!; [done|done|]. by intros x Hx%elem_of_nil.
  - simpl in Hrun. apply bind_Ok in Hrun as (s1 & E1 & Hrun).
    destruct (Hbody s x s1) as (H1 & HR1 & HQ1); [left|done|done|].
    destruct (IH (fun s0 y s0' Hy => Hbody s0 y s0' (list_elem_of_further _ _ _ Hy))
                 s1 s' H1 Hrun) as (H2 & HR2 & HQ2).
    split_and!; [done|by eapply Htrans|].
    intros y [->|Hy]%elem_of_cons; [by eapply Hmono|by apply HQ2].
Qed.

Lemma extends_refl st : extends st st.
Proof. by intros p. Qed.

Lemma extends_trans s1 s2 s3 : extends s1 s2 -> extends s2 s3 -> extends s1 s3.
Proof. intros H1 H2 p Hp. by apply H2, H1. Qed.

Lemma add_variant_spec C (G : list Z -> Prop) ps st k st' :
  extraction_inv C G st -> (forall p, rd ps k = Some p -> G p) ->
  OverlappingModel.add_variant C ps st k = Ok st' ->
  extraction_inv C G st' /\ extends st st' /\
  exists p, rd ps k = Some p /\
    ((forall a b, G a -> G b -> OverlappingModel.hash C a = OverlappingModel.hash C b -> a = b) ->
     p ∈ fst (fst st')).
Proof.
  destruct st as [[pats idx] ws]. intros (Hlen & HG & Hto & Hfrom) Hps.
  unfold OverlappingModel.add_variant.
  destruct (rd ps k) as [p|] eqn:Hp; [|done]. specialize (Hps p eq_refl).
  destruct (idx !! OverlappingModel.hash C p) as [i|] eqn:Hi; intros [= <-].
  - split; [|split; [by intros q|]].
    + split_and!; [by rewrite length_wr|done|done|done].
    + exists p. split; [done|]. intros Hinj. simpl.
      destruct (Hfrom _ _ Hi) as (q & Hq & Eh).
      assert (q = p) as <-; [|by eapply rd_elem_of_2].
      apply Hinj; [|done|done]. rewrite Forall_forall in HG. apply HG. by eapply rd_elem_of_2.
  - split; [|split].
    + split_and!.
      * rewrite !length_app. simpl. lia.
      * apply Forall_app. split; [done|]. by apply Forall_singleton.
      * intros j q Hq. destruct (decide (j = Z.of_nat (length pats))) as [->|Hj].
        -- rewrite rd_app_last in Hq. injection Hq as <-. apply lookup_insert_eq.
        -- assert (rd pats j = Some q) as Hq'.
           { pose proof (rd_Some _ _ _ Hq) as Hr. rewrite length_app in Hr. simpl in Hr.
             rewrite rd_app_l in Hq by lia. done. }
           rewrite lookup_insert_ne; [by apply Hto|].
           intros E. rewrite E, (Hto _ _ Hq') in Hi. done.
      * intros h j Hj. destruct (decide (h = OverlappingModel.hash C p)) as [->|Hh].
        -- rewrite lookup_insert_eq in Hj. injection Hj as <-. exists p.
           split; [apply rd_app_last|done].
        -- rewrite lookup_insert_ne in Hj by done.
           destruct (Hfrom _ _ Hj) as (q & Hq & Eh). exists q. split; [|done].
           rewrite rd_app_l; [done|]. by eapply rd_Some.
    + intros q Hq. simpl in *. apply elem_of_app. by left.
    + exists p. split; [done|]. intros _. simpl. apply elem_of_app. right.
      by apply list_elem_of_singleton.
Qed.

Lemma extraction_NoDup C G pats idx ws : extraction_inv C G (pats, idx, ws) -> NoDup pats.
Proof.
  intros (_ & _ & Hto & _). apply NoDup_alt. intros i j p Hi Hj.
  assert (rd pats (Z.of_nat i) = Some p) as Hi'.
  { unfold rd. destruct (Z.ltb_spec (Z.of_nat i) 0); [lia|]. by rewrite Nat2Z.id. }
  assert (rd pats (Z.of_nat j) = Some p) as Hj'.
  { unfold rd. destruct (Z.ltb_spec (Z.of_nat j) 0); [lia|]. by rewrite Nat2Z.id. }
  pose proof (Hto _ _ Hi') as E1. pose proof (Hto _ _ Hj') as E2.
  rewrite E1 in E2. injection E2. lia.
Qed.

Lemma extractPatterns_spec n C (G : list Z -> Prop) sample sw sh pin sym patterns weights :
  (forall x y k p, window_variant n sample sw sh pin sym x y k p -> G p) ->
  OverlappingModel.extractPatterns n C sample sw sh pin sym = Ok (patterns, weights) ->
  NoDup patterns /\ length patterns = length weights /\ Forall G patterns /\
  ((forall a b, G a -> G b -> OverlappingModel.hash C a = OverlappingModel.hash C b -> a = b) ->
   forall x y k p, window_variant n sample sw sh pin sym x y k p -> p ∈ patterns).
Proof.
  intros HG. unfold OverlappingModel.extractPatterns. cbv zeta.
  intros ([[pats idx] ws] & Hrun & [= <- <-])%bind_Ok.
  set (xmax := if pin then sw else sw - n + 1) in *.
  set (ymax := if pin then sh else sh - n + 1) in *.
  set (ps x y := OverlappingModel.variants n
                   (OverlappingModel.patternFromSample sample sw sh n x y)).
  set (Q3 x y k (s : OverlappingModel.extraction) :=
         (forall a b, G a -> G b -> OverlappingModel.hash C a = OverlappingModel.hash C b -> a = b) ->
         forall p, rd (ps x y) k = Some p -> p ∈ fst (fst s)).
  assert (forall x y k s s', Q3 x y k s -> extends s s' -> Q3 x y k s') as Hmono3.
  { intros x y k s s' HQ Hext Hinj p Hp. by apply Hext, HQ. }
  assert (forall x y, x ∈ upto xmax -> y ∈ upto ymax -> forall s s',
            extraction_inv C G s ->
            Propagator.for_each (upto sym) (OverlappingModel.add_variant C (ps x y)) s = Ok s' ->
            extraction_inv C G s' /\ extends s s' /\ forall k, k ∈ upto sym -> Q3 x y k s')
    as Hcell.
  { intros x y Hx Hy s s' Hs Hcell.
    refine (for_each_all (extraction_inv C G) extends (Q3 x y) _ _
              extends_refl extends_trans (Hmono3 x y) _ s s' Hs Hcell).
    intros s2 k s2' Hk Hs2 Hadd.
    assert (forall p, rd (ps x y) k = Some p -> G p) as Hps.
    { intros p Hp. apply (HG x y k). apply elem_of_upto in Hx, Hy, Hk.
      unfold window_variant. fold xmax ymax. done. }
    destruct (add_variant_spec C G _ _ _ _ Hs2 Hps Hadd) as (Hinv & Hext & p & Hp & Hin).
    split; [done|]. split; [done|]. intros Hinj q Hq.
    rewrite Hp in Hq. injection Hq as <-. by apply Hin. }
  assert (forall y, y ∈ upto ymax -> forall s s',
            extraction_inv C G s ->
            Propagator.for_each (upto xmax)
              (fun st x => Propagator.for_each (upto sym)
                             (OverlappingModel.add_variant C (ps x y)) st) s = Ok s' ->
            extraction_inv C G s' /\ extends s s' /\
            forall x, x ∈ upto xmax -> forall k, k ∈ upto sym -> Q3 x y k s')
    as Hrow.
  { intros y Hy s s' Hs Hrow.
    refine (for_each_all (extraction_inv C G) extends
              (fun x s => forall k, k ∈ upto sym -> Q3 x y k s) _ _
              extends_refl extends_trans _ _ s s' Hs Hrow).
    - intros x s1 s1' HQ Hext' k Hk. eapply Hmono3; [by apply HQ|done].
    - intros s1 x s1' Hx Hs1 Hc. by apply Hcell. }
  destruct (for_each_all (extraction_inv C G) extends
              (fun y s => forall x, x ∈ upto xmax -> forall k, k ∈ upto sym -> Q3 x y k s)
              (upto ymax)
              (fun st y => Propagator.for_each (upto xmax)
                 (fun st x => Propagator.for_each (upto sym)
                                (OverlappingModel.add_variant C (ps x y)) st) st)
              extends_refl extends_trans) with (s := ([], ∅, []) : OverlappingModel.extraction)
              (s' := (pats, idx, ws))
    as (Hinv & _ & Hall).
  - intros y s s' HQ Hext x Hx k Hk. eapply Hmono3; [by apply HQ|done].
  - intros s y s' Hy Hs Hr. by apply Hrow.
  - split_and!; [done|apply Forall_nil_2|by intros ? ? ?%rd_elem_of_2%elem_of_nil|done].
  - exact Hrun.
  - split; [by eapply extraction_NoDup|]. destruct Hinv as (Hlen & HGs & _).
    split; [done|]. split; [done|].
    intros Hinj x y k p (Hx & Hy & Hk & Hp).
    apply (Hall y ltac:(by apply elem_of_upto) x ltac:(by apply elem_of_upto)
             k ltac:(by apply elem_of_upto) Hinj p Hp).
Qed.

(** ** The cells of the patterns *)

Lemma tabulate_cells n f (P : Z -> Prop) :
  0 <= n -> (forall x y, 0 <= x < n -> 0 <= y < n -> P (wrap_uint8 (f x y))) ->
  Forall P (OverlappingModel.tabulate n f).
Proof.
  intros Hn Hf. apply Forall_forall. intros v (k & Hk)%rd_elem_of.
  pose proof (rd_Some _ _ _ Hk) as Hr. rewrite tabulate_length in Hr by done.
  destruct (grid_index n k Hn Hr) as (x & y & Hx & Hy & ->).
  rewrite tabulate_rd in Hk by done. injection Hk as <-. by apply Hf.
Qed.

Lemma byte_below C (l : list Z) i :
  0 < C -> Forall (fun v => 0 <= v < C) l ->
  0 <= wrap_uint8 (OverlappingModel.byte (rd l i)) < C.
Proof.
  intros HC Hl. unfold wrap_uint8, OverlappingModel.byte.
  destruct (rd l i) as [v|] eqn:Hv; simpl; [|by rewrite Z.mod_0_l].
  rewrite Forall_forall in Hl. pose proof (Hl v (rd_elem_of_2 _ _ _ Hv)) as Hr.
  pose proof (Z.mod_pos_bound v 256 ltac:(lia)). pose proof (Z.mod_le v 256 ltac:(lia) ltac:(lia)).
  lia.
Qed.

Lemma variants_cases n p0 k p (P : list Z -> Prop) :
  rd (OverlappingModel.variants n p0) k = Some p ->
  P p0 -> (forall q, P q -> P (OverlappingModel.rotate n q)) ->
  (forall q, P q -> P (OverlappingModel.reflect n q)) -> P p.
Proof.
  intros Hk H0 Hrot Hrefl. pose proof (rd_Some _ _ _ Hk) as Hr.
  rewrite variants_length in Hr. unfold OverlappingModel.variants in Hk. cbv zeta in Hk.
  assert (k = 0 \/ k = 1 \/ k = 2 \/ k = 3 \/ k = 4 \/ k = 5 \/ k = 6 \/ k = 7)
    as [E|[E|[E|[E|[E|[E|[E|E]]]]]]] by lia; subst k; injection Hk as <-; auto 10.
Qed.

Lemma window_variant_pattern n sample sw sh pin sym x y k p :
  0 <= n -> window_variant n sample sw sh pin sym x y k p -> is_pattern n p.
Proof.
  intros Hn (_ & _ & _ & Hp).
  apply (variants_cases _ _ _ _ (is_pattern n) Hp).
  - by apply tabulate_pattern.
  - intros q _. by apply rotate_pattern.
  - intros q _. by apply reflect_pattern.
Qed.

Lemma window_variant_below n C sample sw sh pin sym x y k p :
  0 <= n -> 0 < C -> Forall (fun v => 0 <= v < C) sample ->
  window_variant n sample sw sh pin sym x y k p -> Forall (fun v => 0 <= v < C) p.
Proof.
  intros Hn HC Hs (_ & _ & _ & Hp).
  apply (variants_cases _ _ _ _ (Forall (fun v => 0 <= v < C)) Hp).
  - apply tabulate_cells; [done|]. intros. by apply byte_below.
  - intros q Hq. apply tabulate_cells; [done|]. intros. by apply byte_below.
  - intros q Hq. apply tabulate_cells; [done|]. intros. by apply byte_below.
Qed.

(** ** The cells of the sample *)

Lemma Forall_wr {A : Type} (P : A -> Prop) (l : list A) i v :
  Forall P l -> P v -> Forall P (wr l i v).
Proof. intros Hl Hv. unfold wr. destruct (i <? 0); [done|]. by apply Forall_insert. Qed.

Lemma sample_cells_step n pre st c :
  colors_inv n pre st -> sample_cells st ->
  let st' :=
    let '(sample, colors, colorMap, i) := st in
    match colorMap !! c with
    | Some index => (wr sample i (wrap_uint8 index), colors, colorMap, i + 1)
    | None =>
        let index := Z.of_nat (length colors) in
        (wr sample i (wrap_uint8 index), colors ++ [c], <[c := index]> colorMap, i + 1)
    end in
  sample_cells st' /\ (0 < length (snd (fst (fst st'))))%nat.
Proof.
  destruct st as [[[sample colors] cmap] i].
  intros (_ & _ & _ & Hmap & _) Hcells. cbv zeta. unfold sample_cells in *.
  destruct (cmap !! c) as [idx|] eqn:Ec; cbn [fst snd].
  - apply Hmap, rd_Some in Ec.
    pose proof (Z.mod_pos_bound idx 256 ltac:(lia)).
    pose proof (Z.mod_le idx 256 ltac:(lia) ltac:(lia)).
    split; [|lia]. apply Forall_wr; [done|]. unfold wrap_uint8. lia.
  - rewrite length_app. simpl.
    pose proof (Z.mod_pos_bound (Z.of_nat (length colors)) 256 ltac:(lia)).
    pose proof (Z.mod_le (Z.of_nat (length colors)) 256 ltac:(lia) ltac:(lia)).
    split; [|lia]. apply Forall_wr; [|unfold wrap_uint8; lia].
    eapply Forall_impl; [exact Hcells|]. simpl. intros. lia.
Qed.

Lemma sample_cells_fold n pixels : forall pre st,
  colors_inv n pre st -> sample_cells st ->
  let st' :=
    fold_left
      (fun '(sample, colors, colorMap, i) color =>
         match (colorMap : gmap Z Z) !! color with
         | Some index => (wr sample i (wrap_uint8 index), colors, colorMap, i + 1)
         | None =>
             let index := Z.of_nat (length colors) in
             (wr sample i (wrap_uint8 index), colors ++ [color],
              <[color := index]> colorMap, i + 1)
         end)
      pixels st in
  sample_cells st' /\ (pixels <> [] -> (0 < length (snd (fst (fst st'))))%nat).
Proof.
  induction pixels as [|c pixels IH]; intros pre st Hinv Hcells; cbn [fold_left].
  { by split. }
  pose proof (colors_inv_step n pre st c Hinv) as Hstep.
  pose proof (sample_cells_step n pre st c Hinv Hcells) as [Hcells' Hpos].
  destruct st as [[[sample colors] cmap] i].
  destruct (IH _ _ Hstep Hcells') as [Hfin Hlen]. split; [exact Hfin|]. intros _.
  destruct pixels as [|c' pixels']; [exact Hpos|]. by apply Hlen.
Qed.

Lemma extractColors_cells pixels iw ih sample colors :
  OverlappingModel.extractColors pixels iw ih = Ok (sample, colors) -> pixels <> [] ->
  0 < Z.of_nat (length colors) /\
  Forall (fun v => 0 <= v < Z.of_nat (length colors)) sample.
Proof.
  unfold OverlappingModel.extractColors.
  destruct (Z.ltb_spec (iw * ih) 0) as [|Hsz]; [done|].
  pose proof (sample_cells_fold (iw * ih) pixels [] (filled (iw * ih) 0, [], ∅, 0)) as Hinv.
  cbv zeta in Hinv. destruct (fold_left _ _ _) as [[[s c] cm] i].
  intros [= <- <-] Hne. destruct Hinv as [Hcells Hpos].
  - unfold colors_inv. rewrite length_filled. split; [done|]. split; [lia|].
    split; [constructor|]. split.
    + intros c0 idx. rewrite lookup_empty. split; [done|]. unfold rd.
      destruct (idx <? 0); done.
    + split; [done|]. simpl. lia.
  - unfold sample_cells. apply Forall_forall. intros v Hv.
    apply elem_of_replicate in Hv as [-> _]. lia.
  - specialize (Hpos Hne). cbn [fst snd] in Hpos. split; [lia|].
    unfold sample_cells in Hcells. eapply Forall_impl; [exact Hcells|]. simpl. intros. lia.
Qed.

(** ** The patterns of a model *)

Lemma overlapping_new_parts `{M : MathLib} pixels iw ih opts m :
  OverlappingModel.new pixels iw ih opts = Ok m ->
  exists sample weights,
    OverlappingModel.extractColors pixels iw ih = Ok (sample, OverlappingModel.colors m) /\
    OverlappingModel.extractPatterns (opt_patternSize opts)
      (Z.of_nat (length (OverlappingModel.colors m))) sample iw ih
      (opt_periodicInput opts) (opt_symmetry opts) = Ok (OverlappingModel.patterns m, weights) /\
    OverlappingModel.patternCount m = Z.of_nat (length (OverlappingModel.patterns m)).
Proof.
  unfold OverlappingModel.new. intros H.
  apply bind_Ok in H as ([sample colors] & Hcol & H).
  apply bind_Ok in H as ([patterns weights] & Hpat & H).
  apply bind_Ok in H as (w0 & Hw & H).
  apply bind_Ok in H as (p0 & Hp & H).
  apply bind_Ok in H as (e' & Hg & [= <-]). simpl. by exists sample, weights.
Qed.

(* ===================================================================== *)
(** * The neighbours of a cell *)
(* ===================================================================== *)

Lemma wrap_back W x dx :
  0 < W -> 0 <= x < W -> -1 <= dx <= 1 ->
  0 <= Z.rem (x + dx + W) W < W /\ Z.rem (Z.rem (x + dx + W) W - dx + W) W = x.
Proof.
  intros HW Hx Hdx. rewrite (Z.rem_mod_nonneg (x + dx + W)) by lia.
  pose proof (Z.mod_pos_bound (x + dx + W) W HW) as Hb.
  pose proof (Z.div_mod (x + dx + W) W ltac:(lia)) as Hdm.
  split; [done|]. rewrite Z.rem_mod_nonneg by lia.
  symmetry. apply (Z.mod_unique _ _ (2 - (x + dx + W) / W)); lia.
Qed.

Lemma cell_coords W x y :
  0 < W -> 0 <= x < W -> 0 <= y -> Z.rem (x + y * W) W = x /\ (x + y * W) / W = y.
Proof.
  intros HW Hx Hy. rewrite Z.rem_mod_nonneg by nia. split.
  - symmetry. apply (Z.mod_unique _ _ y); lia.
  - symmetry. apply (Z.div_unique _ _ _ x); lia.
Qed.

Lemma coords_cell W H c :
  0 < W -> 0 <= c < W * H ->
  0 <= Z.rem c W < W /\ 0 <= c / W < H /\ c = Z.rem c W + c / W * W.
Proof.
  intros HW Hc. rewrite Z.rem_mod_nonneg by lia.
  pose proof (Z.mod_pos_bound c W HW). pose proof (Z.div_mod c W ltac:(lia)).
  split; [done|]. split; [|lia]. split; [apply Z.div_pos; lia|].
  apply Z.div_lt_upper_bound; lia.
Qed.

Lemma directions d :
  0 <= d < 4 ->
  -1 <= tbl DX d <= 1 /\ -1 <= tbl DY d <= 1 /\
  0 <= tbl OPPOSITE d < 4 /\ tbl OPPOSITE (tbl OPPOSITE d) = d /\
  tbl DX (tbl OPPOSITE d) = - tbl DX d /\ tbl DY (tbl OPPOSITE d) = - tbl DY d.
Proof.
  intros Hd. assert (d = 0 \/ d = 1 \/ d = 2 \/ d = 3) as Hcases by lia.
  destruct Hcases as [E|[E|[E|E]]]; rewrite E; vm_compute; repeat split; congruence.
Qed.

Lemma neighbor_back p c d n :
  0 <= Propagator.width p -> 0 <= Propagator.height p ->
  0 <= c < Propagator.width p * Propagator.height p -> 0 <= d < 4 ->
  neighbor p c d = Some n ->
  0 <= n < Propagator.width p * Propagator.height p /\
  neighbor p n (tbl OPPOSITE d) = Some c.
Proof.
  intros HW0 HH0 Hc Hd. unfold neighbor. cbv zeta.
  set (W := Propagator.width p) in *. set (H := Propagator.height p) in *.
  assert (0 < W) as HW by nia. assert (0 < H) as HH by nia.
  destruct (coords_cell W H c HW Hc) as (Hx1 & Hy1 & Ec).
  destruct (directions d Hd) as (Hdx & Hdy & Ho & _ & Eox & Eoy).
  set (x1 := Z.rem c W) in *. set (y1 := c / W) in *. rewrite Eox, Eoy.
  destruct (Propagator.periodic p) eqn:Eper; cbn [negb andb].
  - intros [= <-].
    destruct (wrap_back W x1 (tbl DX d) HW Hx1 Hdx) as [Hx2 Ex].
    destruct (wrap_back H y1 (tbl DY d) HH Hy1 Hdy) as [Hy2 Ey].
    set (x2 := Z.rem (x1 + tbl DX d + W) W) in *.
    set (y2 := Z.rem (y1 + tbl DY d + H) H) in *.
    destruct (cell_coords W x2 y2 HW Hx2 ltac:(lia)) as [-> ->].
    split; [nia|]. f_equal.
    replace (x2 + - tbl DX d + W) with (x2 - tbl DX d + W) by lia.
    replace (y2 + - tbl DY d + H) with (y2 - tbl DY d + H) by lia.
    rewrite Ex, Ey. lia.
  - destruct ((0 <=? x1 + tbl DX d) && (x1 + tbl DX d <? W) && (0 <=? y1 + tbl DY d) &&
              (y1 + tbl DY d <? H)) eqn:Ein; cbn [negb]; [|done].
    intros [= <-]. apply andb_true_iff in Ein as [Ein Hy2%Z.ltb_lt].
    apply andb_true_iff in Ein as [Ein Hy2'%Z.leb_le].
    apply andb_true_iff in Ein as [Hx2'%Z.leb_le Hx2%Z.ltb_lt].
    destruct (cell_coords W (x1 + tbl DX d) (y1 + tbl DY d) HW ltac:(lia) ltac:(lia)) as [-> ->].
    split; [nia|].
    replace (x1 + tbl DX d + - tbl DX d) with x1 by lia.
    replace (y1 + tbl DY d + - tbl DY d) with y1 by lia.
    assert ((0 <=? x1) && (x1 <? W) && (0 <=? y1) && (y1 <? H) = true) as ->.
    { repeat (apply andb_true_iff; split); (apply Z.leb_le || apply Z.ltb_lt); lia. }
    cbn [negb]. f_equal. lia.
Qed.

(** The neighbour relation is symmetric, with the direction reversed. *)
Lemma neighbor_sym p c d n :
  0 <= Propagator.width p -> 0 <= Propagator.height p ->
  0 <= c < Propagator.width p * Propagator.height p ->
  0 <= n < Propagator.width p * Propagator.height p -> 0 <= d < 4 ->
  neighbor p c d = Some n <-> neighbor p n (tbl OPPOSITE d) = Some c.
Proof.
  intros HW HH Hc Hn Hd. destruct (directions d Hd) as (_ & _ & Ho & Eoo & _). split.
  - intros E. by destruct (neighbor_back p c d n HW HH Hc Hd E).
  - intros E. destruct (neighbor_back p n _ c HW HH Hn Ho E) as [_ E']. by rewrite Eoo in E'.
Qed.

Lemma neighbor_config p p' c d :
  same_config p p' -> neighbor p' c d = neighbor p c d.
Proof. intros (_ & EW & EH & _ & EP). unfold neighbor. by rewrite EW, EH, EP. Qed.

(* ===================================================================== *)
(** * Support counts: counting, the stack, and one removal *)
(* ===================================================================== *)

Lemma cidx_inj T n t2 d n' t2' d' :
  0 <= t2 < T -> 0 <= t2' < T -> 0 <= d < 4 -> 0 <= d' < 4 ->
  cidx T n t2 d = cidx T n' t2' d' -> n = n' /\ t2 = t2' /\ d = d'.
Proof.
  unfold cidx. intros Ht Ht' Hd Hd' E.
  assert (d = d') as -> by lia.
  destruct (cell_pattern_index T n t2 n' t2' Ht Ht') as [-> ->]; [lia|done].
Qed.

Lemma cidx_range T size n t2 d :
  0 <= n < size -> 0 <= t2 < T -> 0 <= d < 4 -> 0 <= cidx T n t2 d < size * T * 4.
Proof. unfold cidx. intros Hn Ht Hd. nia. Qed.

Lemma wrap_int32_small z : -2147483648 <= z < 2147483648 -> wrap_int32 z = z.
Proof. intros H. unfold wrap_int32. rewrite Z.mod_small by lia. lia. Qed.

Lemma wrap_uint32_small z : 0 <= z < 4294967296 -> wrap_uint32 z = z.
Proof. intros H. unfold wrap_uint32. by rewrite Z.mod_small. Qed.

(** ** Counting *)

Lemma support_range pd T L t2 d : 0 <= T -> 0 <= support pd T L t2 d <= T.
Proof.
  intros HT. unfold support. split; [lia|].
  pose proof (length_filter (fun t => L t && listedb pd t d t2 = true) (upto T)) as Hle.
  unfold upto in Hle at 2. rewrite length_seqZ in Hle. lia.
Qed.

Lemma support_ext pd T L L' t2 d :
  (forall t, 0 <= t < T -> L t = L' t) -> support pd T L t2 d = support pd T L' t2 d.
Proof.
  intros H. unfold support. f_equal. f_equal. apply filter_ext_in.
  intros t Ht%elem_of_upto. by rewrite H.
Qed.

Lemma support_drop pd T L L' t2 d t0 :
  0 <= t0 < T -> L t0 = true -> L' t0 = false -> listedb pd t0 d t2 = true ->
  (forall t, 0 <= t < T -> t <> t0 -> L t = L' t) ->
  support pd T L t2 d = support pd T L' t2 d + 1.
Proof.
  intros Ht0 HL HL' Hlist Hoth. unfold support.
  rewrite (filter_length_drop (fun t => L t && listedb pd t d t2 = true)
             (fun t => L' t && listedb pd t d t2 = true) (upto T) t0).
  - lia.
  - apply NoDup_upto.
  - by apply elem_of_upto.
  - by rewrite HL, Hlist.
  - by rewrite HL'.
  - intros t Ht%elem_of_upto Hne. by rewrite Hoth.
Qed.

Lemma support_keep pd T L L' t2 d t0 :
  listedb pd t0 d t2 = false ->
  (forall t, 0 <= t < T -> t <> t0 -> L t = L' t) ->
  support pd T L t2 d = support pd T L' t2 d.
Proof.
  intros Hlist Hoth. unfold support. f_equal. f_equal. apply filter_ext_in.
  intros t Ht%elem_of_upto. destruct (decide (t = t0)) as [->|Hne].
  - by rewrite Hlist, !andb_false_r.
  - by rewrite Hoth.
Qed.

Lemma support_pos pd T L t2 d :
  0 < support pd T L t2 d ->
  exists t, 0 <= t < T /\ L t = true /\ listedb pd t d t2 = true.
Proof.
  unfold support. intros H.
  destruct (filter (fun t => L t && listedb pd t d t2 = true) (upto T)) as [|t l] eqn:E;
    [simpl in H; lia|].
  assert (t ∈ filter (fun t => L t && listedb pd t d t2 = true) (upto T)) as Hin
    by (rewrite E; left).
  apply list_elem_of_filter in Hin as [Hb Ht%elem_of_upto].
  apply andb_true_iff in Hb as [? ?]. by exists t.
Qed.

Lemma listedb_data (p : Propagator.t) t d t2 l :
  Propagator.data_at p t d = Ok l ->
  listedb (Propagator.propagatorData p) t d t2 = true <-> t2 ∈ l.
Proof.
  unfold Propagator.data_at, listedb.
  destruct (rd (Propagator.propagatorData p) t) as [row|]; [|done].
  destruct (rd row d) as [l'|]; [|done]. intros [= <-]. apply bool_decide_eq_true.
Qed.

(** A list without duplicates that holds the [t < T] with [P t] has as
    many elements as there are such [t]. *)
Lemma length_filter_upto (P : Z -> Prop) `{!forall x, Decision (P x)} T (l : list Z) :
  NoDup l -> (forall t, t ∈ l <-> 0 <= t < T /\ P t) ->
  length l = length (filter P (upto T)).
Proof.
  intros Hnd Hl. apply Permutation_length, NoDup_Permutation; [done| |].
  - apply NoDup_filter, NoDup_upto.
  - intros t. rewrite Hl, list_elem_of_filter, elem_of_upto. tauto.
Qed.

Section SupportFacts.
Context {M : MathLib}.
Implicit Types (p : Propagator.t) (w : Wave.t) (i j t c n : Z).

(** ** The stack *)

Lemma pendingb_true p c t :
  pendingb p c t = true <->
  exists k, 0 <= k < Propagator.stackSize p /\
            rd (Propagator.stack p) (k * 2) = Some c /\
            rd (Propagator.stack p) (k * 2 + 1) = Some t.
Proof.
  unfold pendingb. rewrite existsb_exists. split.
  - intros (k & Hk%list_elem_of_In%elem_of_upto & Hb%bool_decide_eq_true). by exists k.
  - intros (k & Hk & H1 & H2). exists k.
    split; [by apply list_elem_of_In, elem_of_upto|by apply bool_decide_eq_true].
Qed.

Lemma pendingb_compatible p cs c t :
  pendingb (Propagator.with_compatible p cs) c t = pendingb p c t.
Proof. done. Qed.

Lemma stack_pairs_pending p w c t :
  stack_pairs p w -> pendingb p c t = true ->
  0 <= c < Wave.size w /\ 0 <= t < Wave.patternCount w /\ Wave.get w c t = false.
Proof.
  intros Hsp (k & Hk & H1 & H2)%pendingb_true.
  destruct (Hsp k Hk) as (c' & t' & H1' & H2' & Hc & Ht & Hg & _).
  rewrite H1 in H1'. rewrite H2 in H2'. injection H1' as <-. injection H2' as <-. done.
Qed.

(** The pair on top of the stack, and the stack without it. *)
Lemma stack_pairs_pop p w :
  stack_pairs p w -> 0 < Propagator.stackSize p ->
  let p' := Propagator.with_stack p (Propagator.stack p) (Propagator.stackSize p - 1) in
  exists c t,
    rd (Propagator.stack p) ((Propagator.stackSize p - 1) * 2) = Some c /\
    rd (Propagator.stack p) ((Propagator.stackSize p - 1) * 2 + 1) = Some t /\
    0 <= c < Wave.size w /\ 0 <= t < Wave.patternCount w /\
    Wave.get w c t = false /\
    stack_pairs p' w /\ pendingb p c t = true /\ pendingb p' c t = false /\
    forall c0 t0, (c0, t0) <> (c, t) -> pendingb p' c0 t0 = pendingb p c0 t0.
Proof.
  intros Hsp Hpos p'.
  destruct (Hsp (Propagator.stackSize p - 1)) as (c & t & H1 & H2 & Hc & Ht & Hg & Huniq); [lia|].
  exists c, t. split; [done|]. split; [done|]. split; [done|]. split; [done|].
  split; [done|]. split; [|split; [|split]].
  - intros k Hk. simpl in Hk.
    destruct (Hsp k) as (c' & t' & H1' & H2' & Hc' & Ht' & Hg' & Huniq'); [lia|].
    exists c', t'. simpl. do 5 (split; [done|]). intros k' Hk'. apply Huniq'. lia.
  - apply pendingb_true. exists (Propagator.stackSize p - 1). split; [lia|done].
  - apply not_true_is_false. intros (k & Hk & H1' & H2')%pendingb_true. simpl in *.
    specialize (Huniq k ltac:(lia) H1' H2'). lia.
  - intros c0 t0 Hne. apply eq_true_iff_eq. rewrite !pendingb_true. simpl. split.
    + intros (k & Hk & H1' & H2'). exists k. split; [lia|done].
    + intros (k & Hk & H1' & H2'). exists k. split; [|done].
      destruct (decide (k = Propagator.stackSize p - 1)) as [->|]; [|lia].
      rewrite H1 in H1'. rewrite H2 in H2'. congruence.
Qed.

(** Pushing the pair of a removal just performed. *)
Lemma stack_pairs_push p w j t :
  shape w -> serves p w -> stack_pairs p w -> Wave.size w <= 4294967296 ->
  Wave.patternCount w < 2147483648 ->
  0 <= j < Wave.size w -> 0 <= t < Wave.patternCount w -> Wave.get w j t = true ->
  let p' := Propagator.addToPropagate p j t in
  let w' := fst (Wave.remove w j t) in
  stack_pairs p' w' /\
  forall c0 t0, 0 <= c0 < Wave.size w -> 0 <= t0 < Wave.patternCount w ->
    liveb p' w' c0 t0 = liveb p w c0 t0.
Proof.
  intros Hs (HT & Hd & Hn & Hlen & Hcap & Hlive) Hsp Hsz HT31 Hj Ht Hg p' w'.
  pose proof (remove_static w j t) as (_&_&_&_&_&_&Esz&ET).
  pose proof (remove_ones w j t Hg) as Hones.
  assert (rd (Propagator.stack p') (Propagator.stackSize p * 2) = Some j) as Htop1.
  { unfold p'. simpl. rewrite rd_wr_ne by lia. rewrite rd_wr_eq by lia.
    by rewrite wrap_uint32_small by lia. }
  assert (rd (Propagator.stack p') (Propagator.stackSize p * 2 + 1) = Some t) as Htop2.
  { unfold p'. simpl. rewrite rd_wr_eq by (rewrite length_wr; lia).
    by rewrite wrap_uint32_small by lia. }
  assert (forall k, 0 <= k < Propagator.stackSize p ->
            rd (Propagator.stack p') (k * 2) = rd (Propagator.stack p) (k * 2) /\
            rd (Propagator.stack p') (k * 2 + 1) = rd (Propagator.stack p) (k * 2 + 1)) as Hold.
  { intros k Hk. unfold p'. simpl. by rewrite !rd_wr_ne by lia. }
  assert (Propagator.stackSize p' = Propagator.stackSize p + 1) as Hss by done.
  assert (pendingb p j t = false) as Hnp.
  { apply not_true_is_false. intros Hp.
    destruct (stack_pairs_pending p w j t Hsp Hp) as (_ & _ & Hg'). congruence. }
  assert (forall c0 t0, pendingb p' c0 t0 = true <->
            pendingb p c0 t0 = true \/ (c0 = j /\ t0 = t)) as Hpend.
  { intros c0 t0. rewrite !pendingb_true. rewrite Hss. split.
    - intros (k & Hk & H1 & H2).
      destruct (decide (k = Propagator.stackSize p)) as [->|Hne].
      + right. rewrite Htop1 in H1. rewrite Htop2 in H2. split; congruence.
      + left. exists k. split; [lia|].
        destruct (Hold k ltac:(lia)) as [E1 E2]. by rewrite <- E1, <- E2.
    - intros [(k & Hk & H1 & H2)|[-> ->]].
      + exists k. split; [lia|]. destruct (Hold k Hk) as [E1 E2].
        by rewrite E1, E2.
      + exists (Propagator.stackSize p). split; [lia|]. done. }
  split.
  - intros k Hk. rewrite Hss in Hk.
    destruct (decide (k = Propagator.stackSize p)) as [->|Hne].
    + exists j, t. split; [done|]. split; [done|]. unfold w'. rewrite Esz, ET.
      split; [done|]. split; [done|]. split; [apply remove_get_at|].
      intros k' Hk' H1 H2. rewrite Hss in Hk'.
      destruct (decide (k' = Propagator.stackSize p)) as [|Hne']; [done|].
      assert (pendingb p j t = true); [|congruence].
      apply pendingb_true. exists k'. split; [lia|].
      destruct (Hold k' ltac:(lia)) as [E1 E2]. by rewrite <- E1, <- E2.
    + destruct (Hsp k) as (c' & t' & H1' & H2' & Hc' & Ht' & Hg' & Huniq'); [lia|].
      destruct (Hold k ltac:(lia)) as [E1 E2].
      exists c', t'. unfold w'. rewrite E1, E2, Esz, ET. do 4 (split; [done|]). split.
      * apply not_true_is_false. intros Hg2%remove_get_mono. congruence.
      * intros k' Hk' H1 H2. rewrite Hss in Hk'.
        destruct (decide (k' = Propagator.stackSize p)) as [->|Hne'].
        -- rewrite Htop1 in H1. rewrite Htop2 in H2. congruence.
        -- destruct (Hold k' ltac:(lia)) as [E1' E2']. rewrite E1' in H1. rewrite E2' in H2.
           apply Huniq'; [lia|done|done].
  - intros c0 t0 Hc0 Ht0. unfold liveb.
    destruct (decide (c0 = j /\ t0 = t)) as [[-> ->]|Hne].
    + unfold w'. rewrite remove_get_at, Hg. simpl. apply Hpend. by right.
    + assert (Wave.get w' c0 t0 = Wave.get w c0 t0) as ->.
      { apply remove_get_other. intros E.
        destruct (cell_pattern_index _ _ _ _ _ Ht Ht0 E). tauto. }
      f_equal. apply eq_true_iff_eq. rewrite Hpend. tauto.
Qed.

End SupportFacts.

(* ===================================================================== *)
(** * Support counts through a turn of [propagate] *)
(* ===================================================================== *)

Section TurnFacts.
Context {M : MathLib}.
Implicit Types (p : Propagator.t) (w : Wave.t) (i j t c n : Z).

Lemma counts_iff p w L (X X' : Z -> Z -> Z -> Prop) :
  (forall n t2 d, 0 <= n < Wave.size w -> 0 <= t2 < Wave.patternCount w -> 0 <= d < 4 ->
     (X n t2 d <-> X' n t2 d)) ->
  counts p w L X -> counts p w L X'.
Proof.
  intros HX Hc n t2 d c Hn Ht2 Hd Hnb.
  destruct (Hc n t2 d c Hn Ht2 Hd Hnb) as (v & Hv & H1 & H0).
  exists v. split; [done|]. rewrite <- !(HX n t2 d Hn Ht2 Hd). by split.
Qed.

Lemma counts_live p w L L' X :
  good_config p w ->
  (forall c t, 0 <= c < Wave.size w -> 0 <= t < Wave.patternCount w -> L c t = L' c t) ->
  counts p w L X -> counts p w L' X.
Proof.
  intros (HW & HH & Esz & _) HL Hc n t2 d c Hn Ht2 Hd Hnb.
  destruct (Hc n t2 d c Hn Ht2 Hd Hnb) as (v & Hv & H1 & H0).
  destruct (neighbor_back p n d c HW HH ltac:(lia) Hd Hnb) as [Hcr _].
  rewrite Esz in Hcr.
  assert (support (Propagator.propagatorData p) (Wave.patternCount w) (L' c) t2 (tbl OPPOSITE d)
          = support (Propagator.propagatorData p) (Wave.patternCount w) (L c) t2 (tbl OPPOSITE d))
    as ->.
  { apply support_ext. intros t Ht. symmetry. by apply HL. }
  by exists v.
Qed.

(** Moving the invariant to a propagator and a wave with the same counts,
    stack and configuration. *)
Lemma good_config_static p w p' w' :
  good_config p w -> same_config p p' ->
  Wave.size w' = Wave.size w -> Wave.patternCount w' = Wave.patternCount w ->
  length (Propagator.compatible p') = length (Propagator.compatible p) ->
  good_config p' w'.
Proof.
  intros (HW & HH & Esz & Hsz & HT & Hlen & Hnd & Hsym) (Epd & EW & EH & ET & EP) Es Et El.
  unfold good_config. rewrite EW, EH, Es, Et, El, Epd.
  do 6 (split; [done|]). split; [|done].
  intros t d l Hl. apply (Hnd t d). unfold Propagator.data_at in *. by rewrite <- Epd.
Qed.

(** One decrement. *)
Lemma counts_step p w L (X : Z -> Z -> Z -> Prop) nb cp od pats :
  shape w -> serves p w -> good_config p w ->
  0 <= nb < Wave.size w -> 0 <= cp < Wave.patternCount w -> 0 <= od < 4 ->
  neighbor p nb od <> None -> cp ∉ pats -> (forall t2, ~ X nb t2 od) ->
  counts p w L (fun n t2 d => (n = nb /\ d = od /\ t2 ∈ cp :: pats) \/ X n t2 d) ->
  let idx := cidx (Wave.patternCount w) nb cp od in
  let p1 := Propagator.with_compatible p (Propagator.dec_at (Propagator.compatible p) idx) in
  exists v,
    rd (Propagator.compatible p) idx = Some v /\ 1 <= v /\
    rd (Propagator.compatible p1) idx = Some (v - 1) /\
    (forall i, i <> idx -> rd (Propagator.compatible p1) i = rd (Propagator.compatible p) i) /\
    length (Propagator.compatible p1) = length (Propagator.compatible p) /\
    counts p1 w L (fun n t2 d => (n = nb /\ d = od /\ t2 ∈ pats) \/ X n t2 d).
Proof.
  intros Hs Hsv Hgc Hnb Hcp Hod Hnn Hfresh HX Hc idx p1.
  destruct (neighbor p nb od) as [c'|] eqn:Enb; [|done].
  destruct (Hc nb cp od c' Hnb Hcp Hod Enb) as (v & Hv & H1 & _).
  specialize (H1 ltac:(left; split_and!; [done|done|left])).
  pose proof (support_range (Propagator.propagatorData p) (Wave.patternCount w) (L c') cp
                (tbl OPPOSITE od) (sh_T _ Hs)) as Hr.
  destruct Hgc as (HW & HH & Esz & Hsz & HT & Hlen & Hnd & Hsym).
  assert (Propagator.dec_at (Propagator.compatible p) idx
          = wr (Propagator.compatible p) idx (v - 1)) as Edec.
  { unfold Propagator.dec_at. fold idx in Hv. rewrite Hv. f_equal. apply wrap_int32_small. lia. }
  assert (0 <= idx < Z.of_nat (length (Propagator.compatible p))) as Hidx.
  { rewrite Hlen. by apply cidx_range. }
  exists v. fold idx in Hv. split; [done|]. split; [lia|].
  unfold p1. simpl. rewrite Edec. split; [by apply rd_wr_eq|].
  split; [intros i Hi; by apply rd_wr_ne|]. split; [apply length_wr|].
  intros n t2 d c Hn Ht2 Hd Hnbr. simpl.
  change (neighbor (Propagator.with_compatible p (wr (Propagator.compatible p) idx (v - 1))) n d)
    with (neighbor p n d) in Hnbr.
  destruct (Hc n t2 d c Hn Ht2 Hd Hnbr) as (v' & Hv' & H1' & H0').
  destruct (decide (cidx (Wave.patternCount w) n t2 d = idx)) as [E|Hne].
  - apply cidx_inj in E as (-> & -> & ->); [|done..].
    assert (c = c') as -> by congruence.
    exists (v - 1). split; [by apply rd_wr_eq|]. split.
    + intros [(_ & _ & Hin)|HXn]; [done|by destruct (HX cp)].
    + intros _. lia.
  - exists v'. rewrite rd_wr_ne by done. split; [done|]. split.
    + intros HX'. apply H1'. destruct HX' as [(-> & -> & Hin)|HXn]; [|by right].
      left. split_and!; [done|done|by right].
    + intros HX'. apply H0'. intros [(-> & -> & Hin)|HXn]; [|by destruct HX'; right].
      apply elem_of_cons in Hin as [->|Hin]; [done|].
      destruct HX'. left. by split_and!.
Qed.

Lemma propagate_patterns_support L (X : Z -> Z -> Z -> Prop) nb od pats : forall p w p' w',
  turn_inv p w L (fun n t2 d => (n = nb /\ d = od /\ t2 ∈ pats) \/ X n t2 d) ->
  0 <= nb < Wave.size w -> 0 <= od < 4 -> neighbor p nb od <> None ->
  (forall t2, ~ X nb t2 od) -> NoDup pats ->
  (forall x, x ∈ pats -> 0 <= x < Wave.patternCount w) ->
  Propagator.propagate_patterns p w nb od pats = (p', w', false) ->
  turn_inv p' w' L X /\ same_config p p' /\
  Wave.size w' = Wave.size w /\ Wave.patternCount w' = Wave.patternCount w.
Proof.
  induction pats as [|cp pats IH]; intros p w p' w' Hinv Hnb Hod Hnn HX Hnd Hpats.
  - simpl. intros [= <- <-]. split; [|split; [apply same_config_refl|done]].
    destruct Hinv as (Hs & Hsv & Hgc & Hsp & HL & Hc & Hpos). split_and!; try done.
    eapply counts_iff; [|exact Hc]. intros n t2 d _ _ _. split; [|by right].
    intros [(_ & _ & Hin%elem_of_nil)|H]; done.
  - destruct Hinv as (Hs & Hsv & Hgc & Hsp & HL & Hc & Hpos).
    apply NoDup_cons in Hnd as [Hfresh Hnd].
    assert (0 <= cp < Wave.patternCount w) as Hcp by (apply Hpats; left).
    assert (forall x, x ∈ pats -> 0 <= x < Wave.patternCount w) as Hpats'
      by (intros; apply Hpats; by right).
    pose proof Hsv as (ET & _).
    destruct (counts_step p w L X nb cp od pats Hs Hsv Hgc Hnb Hcp Hod Hnn Hfresh HX Hc)
      as (v & Hv & Hv1 & Hv' & Hoth & Hlen1 & Hc1).
    cbn [Propagator.propagate_patterns]. cbv zeta.
    replace (nb * Propagator.patternCount p * 4 + cp * 4 + od)
      with (cidx (Wave.patternCount w) nb cp od) by (unfold cidx; by rewrite ET).
    set (idx := cidx (Wave.patternCount w) nb cp od) in *.
    set (p1 := Propagator.with_compatible p (Propagator.dec_at (Propagator.compatible p) idx))
      in *.
    assert (serves p1 w) as Hsv1 by done.
    assert (same_config p p1) as Hcfg1 by (by repeat split).
    assert (good_config p1 w) as Hgc1 by (by eapply good_config_static).
    assert (forall n t2 d, 0 <= n < Wave.size w -> 0 <= t2 < Wave.patternCount w ->
              0 <= d < 4 -> cidx (Wave.patternCount w) n t2 d = idx ->
              n = nb /\ t2 = cp /\ d = od) as Hidx.
    { intros n t2 d Hn Ht2 Hd E. by apply cidx_inj in E. }
    rewrite Hv'.
    destruct (is0 (Some (v - 1)) && Wave.get w nb cp) eqn:Ec.
    + apply andb_true_iff in Ec as [Hz%is0_true Hg]. injection Hz as Hz.
      pose proof (remove_static w nb cp) as (_&_&_&_&_&_&Esz&ET2).
      destruct Hgc1 as (HW & HH & Ewh & Hsz & HT & Hlen & Hndl & Hsym).
      destruct (stack_pairs_push p1 w nb cp Hs Hsv1 Hsp Hsz HT Hnb Hcp Hg) as [Hsp2 HL2].
      destruct (is0 (Wave.getRemainingCount (fst (Wave.remove w nb cp)) nb)); [done|].
      intros Hrec.
      destruct (IH (Propagator.addToPropagate p1 nb cp) (fst (Wave.remove w nb cp)) p' w')
        as (Hinv' & Hcfg' & Esz' & ET'); try (rewrite ?Esz, ?ET2; done).
      * split_and!.
        -- by apply remove_shape.
        -- by apply serves_push.
        -- apply (good_config_static p1 w); [by split_and!|by repeat split|done|done|done].
        -- done.
        -- intros c0 t0 Hc0 Ht0. rewrite Esz in Hc0. rewrite ET2 in Ht0.
           rewrite HL2 by done. by apply HL.
        -- intros n t2 d c Hn Ht2 Hd Hnbr. rewrite Esz in Hn. rewrite ET2 in *.
           by apply (Hc1 n t2 d c).
        -- intros n t2 d l Hn Ht2 Hd Hnbr Hg2 Hl Hne. rewrite Esz in Hn. rewrite ET2 in *.
           apply remove_get_mono in Hg2 as Hg1.
           destruct (decide (cidx (Wave.patternCount w) n t2 d = idx)) as [E|Hni].
           { destruct (Hidx n t2 d Hn Ht2 Hd E) as (-> & -> & ->).
             by rewrite remove_get_at in Hg2. }
           destruct (Hpos n t2 d l Hn Ht2 Hd Hnbr Hg1 Hl Hne) as (v0 & Hv0 & Hp0).
           exists v0. split; [|done]. simpl. by rewrite Hoth.
      * split; [done|]. split; [|lia].
        eapply same_config_trans; [exact Hcfg1|]. eapply same_config_trans; [|exact Hcfg'].
        by repeat split.
    + intros Hrec.
      destruct (IH p1 w p' w') as (Hinv' & Hcfg' & Esz' & ET'); try done.
      split_and!; try done.
        intros n t2 d l Hn Ht2 Hd Hnbr Hg Hl Hne.
        destruct (decide (cidx (Wave.patternCount w) n t2 d = idx)) as [E|Hni].
        { destruct (Hidx n t2 d Hn Ht2 Hd E) as (-> & -> & ->).
          rewrite Hg, andb_true_r in Ec. exists (v - 1). fold idx. split; [done|].
          destruct (decide (v - 1 = 0)) as [E0|]; [by rewrite E0 in Ec|lia]. }
        destruct (Hpos n t2 d l Hn Ht2 Hd Hnbr Hg Hl Hne) as (v0 & Hv0 & Hp0).
        exists v0. split; [|done]. by rewrite Hoth.
Qed.

Lemma turn_inv_config p w L X p' :
  turn_inv p w L X -> shape w -> Propagator.compatible p' = Propagator.compatible p ->
  Propagator.stack p' = Propagator.stack p ->
  Propagator.stackSize p' = Propagator.stackSize p -> same_config p p' ->
  turn_inv p' w L X.
Proof.
  intros Hinv _ Ec Est Ess Hcfg. destruct p as [pd cs st ss W H T per].
  destruct p' as [pd' cs' st' ss' W' H' T' per'].
  destruct Hcfg as (E1 & E2 & E3 & E4 & E5). simpl in *. by subst.
Qed.

(** The loop over the directions, for the pair [(c, t)] that was popped. *)
Lemma propagate_directions_support L c t dirs : forall p w p' w',
  turn_inv p w L
    (fun n t2 d' => exists d, d ∈ dirs /\ d' = tbl OPPOSITE d /\ neighbor p c d = Some n /\
                              listedb (Propagator.propagatorData p) t d t2 = true) ->
  0 <= c < Wave.size w -> 0 <= t < Wave.patternCount w ->
  NoDup dirs -> (forall d, d ∈ dirs -> 0 <= d < 4) ->
  Propagator.propagate_directions p w c t dirs = Ok (p', w', false) ->
  turn_inv p' w' L (fun _ _ _ => False) /\ same_config p p' /\
  Wave.size w' = Wave.size w /\ Wave.patternCount w' = Wave.patternCount w.
Proof.
  induction dirs as [|d dirs IH]; intros p w p' w' Hinv Hc Ht Hnd Hdirs.
  - simpl. intros [= <- <-]. split; [|split; [apply same_config_refl|done]].
    destruct Hinv as (Hs & Hsv & Hgc & Hsp & HL & Hcn & Hpos). split_and!; try done.
    eapply counts_iff; [|exact Hcn]. intros n t2 d' _ _ _. split; [|done].
    intros (d & Hin%elem_of_nil & _). done.
  - apply NoDup_cons in Hnd as [Hfresh Hnd].
    assert (0 <= d < 4) as Hd by (apply Hdirs; left).
    assert (forall d', d' ∈ dirs -> 0 <= d' < 4) as Hdirs' by (intros; apply Hdirs; by right).
    destruct Hinv as (Hs & Hsv & Hgc & Hsp & HL & Hcn & Hpos).
    pose proof Hgc as (HW & HH & Ewh & Hsz & HT & Hlen & Hndl & Hsym).
    destruct (directions d Hd) as (_ & _ & Hod & Eoo & _).
    cbn [Propagator.propagate_directions]. cbv zeta.
    destruct (negb (Propagator.periodic p) && negb _) eqn:Eskip.
    + assert (neighbor p c d = None) as Enone.
      { unfold neighbor. cbv zeta. by rewrite Eskip. }
      intros Hrec. apply (IH p w p' w'); try done.
      split_and!; try done. eapply counts_iff; [|exact Hcn].
      intros n t2 d' _ _ _. split.
      * intros (d0 & [->|Hin]%elem_of_cons & Hrest); [|by exists d0].
        destruct Hrest as (_ & E & _). congruence.
      * intros (d0 & Hin & Hrest). exists d0. split; [by right|done].
    + destruct (data_at_wf p w t d Hsv Ht Hd) as (l & El & Hl). rewrite El. simpl.
      match goal with |- context [Propagator.propagate_patterns p w ?nb ?od l] =>
        set (nbv := nb) in *;
        destruct (Propagator.propagate_patterns p w nbv od l) as [[p1 w1] fl] eqn:Epat end.
      assert (neighbor p c d = Some nbv) as Enb.
      { unfold neighbor. cbv zeta. by rewrite Eskip. }
      destruct (neighbor_back p c d nbv HW HH ltac:(lia) Hd Enb) as [Hnbr Eback].
      rewrite Ewh in Hnbr.
      destruct fl; [done|]. intros Hrec.
      set (Xrest := fun n t2 d' =>
             exists d0, d0 ∈ dirs /\ d' = tbl OPPOSITE d0 /\ neighbor p c d0 = Some n /\
                        listedb (Propagator.propagatorData p) t d0 t2 = true).
      destruct (propagate_patterns_support L Xrest nbv (tbl OPPOSITE d) l p w p1 w1)
        as (Hinv1 & Hcfg1 & Esz1 & ET1); try done.
      * split_and!; try done. eapply counts_iff; [|exact Hcn].
        intros n t2 d' _ _ _. split.
        -- intros (d0 & [->|Hin]%elem_of_cons & Ed' & En & Hli).
           ++ left. split; [congruence|]. split; [done|]. by apply (listedb_data p t d t2 l).
           ++ right. by exists d0.
        -- intros [(-> & -> & Hin)|(d0 & Hin & Hrest)].
           ++ exists d. split; [left|]. split; [done|]. split; [done|].
              by apply (listedb_data p t d t2 l).
           ++ exists d0. split; [by right|done].
      * by rewrite Eback.
      * intros t2 (d0 & Hin & Eo & _).
        destruct (directions d0 (Hdirs' d0 Hin)) as (_ & _ & _ & Eoo0 & _).
        assert (d0 = d) as -> by congruence. done.
      * by eapply Hndl.
      * destruct (IH p1 w1 p' w') as (Hinv' & Hcfg' & Esz' & ET'); try done.
        -- destruct Hinv1 as (Hs1 & Hsv1 & Hgc1 & Hsp1 & HL1 & Hcn1 & Hpos1).
           split_and!; try done. eapply counts_iff; [|exact Hcn1].
           intros n t2 d' _ _ _. unfold Xrest.
           pose proof Hcfg1 as (Epd & _). rewrite Epd.
           split; intros (d0 & Hin & Eo & En & Hli); exists d0;
             (split; [done|]); (split; [done|]); (split; [|done]).
           ++ by rewrite (neighbor_config p p1).
           ++ by rewrite <- (neighbor_config p p1).
        -- by rewrite Esz1.
        -- by rewrite ET1.
        -- split; [done|]. split; [by eapply same_config_trans|]. split; congruence.
Qed.

(** One turn of the loop. *)
Lemma propagate_pop_support p w p' w' :
  shape w -> serves p w -> supported p w -> 0 < Propagator.stackSize p ->
  Propagator.propagate_pop p w = Ok (p', w', false) ->
  shape w' /\ serves p' w' /\ supported p' w' /\ same_config p p' /\
  Wave.size w' = Wave.size w /\ Wave.patternCount w' = Wave.patternCount w.
Proof.
  intros Hs Hsv (Hgc & Hsp & Hcn & Hpos) Hss. unfold Propagator.propagate_pop. cbv zeta.
  destruct (stack_pairs_pop p w Hsp Hss)
    as (c & t & -> & -> & Hc & Ht & Hg & Hsp0 & Hpend & Hpend0 & Hoth).
  set (p0 := Propagator.with_stack p (Propagator.stack p) (Propagator.stackSize p - 1)) in *.
  pose proof Hgc as (HW & HH & Ewh & Hsz & HT & Hlen & Hndl & Hsym).
  intros Hrun.
  destruct (propagate_directions_support (liveb p0 w) c t (upto 4) p0 w p' w')
    as ((Hs' & Hsv' & Hgc' & Hsp' & HL' & Hcn' & Hpos') & Hcfg & Esz & ET); try done.
  - split_and!; try done; [by apply serves_pop|].
    intros n t2 d c' Hn Ht2 Hd Hnb. change (neighbor p n d = Some c') in Hnb.
    destruct (Hcn n t2 d c' Hn Ht2 Hd Hnb) as (v & Hv & _ & Hv0). specialize (Hv0 ltac:(tauto)).
    destruct (directions d Hd) as (_ & _ & Hod & Eoo & _).
    destruct (neighbor_back p n d c' HW HH ltac:(lia) Hd Hnb) as [Hc' Eback].
    exists v. split; [done|].
    destruct (decide (c' = c /\
                      listedb (Propagator.propagatorData p) t (tbl OPPOSITE d) t2 = true))
      as [[-> Hli]|Hno].
    + assert (support (Propagator.propagatorData p) (Wave.patternCount w) (liveb p w c) t2
                (tbl OPPOSITE d) =
              support (Propagator.propagatorData p) (Wave.patternCount w) (liveb p0 w c) t2
                (tbl OPPOSITE d) + 1) as Es.
      { apply (support_drop _ _ _ _ _ _ t); [done| | |done|].
        - unfold liveb. by rewrite Hpend, orb_true_r.
        - unfold liveb. by rewrite Hg, Hpend0.
        - intros t0 Ht0 Hne. unfold liveb. rewrite Hoth; [done|intros E%(f_equal snd); simpl in E; done]. }
      split; [intros _; by rewrite Hv0, Es|].
      intros Hx. destruct Hx. exists (tbl OPPOSITE d).
      split; [by apply elem_of_upto|]. split; [done|]. split; [exact Eback|done].
    + assert (support (Propagator.propagatorData p) (Wave.patternCount w) (liveb p w c') t2
                (tbl OPPOSITE d) =
              support (Propagator.propagatorData p) (Wave.patternCount w) (liveb p0 w c') t2
                (tbl OPPOSITE d)) as Es.
      { destruct (decide (c' = c)) as [->|Hnc].
        - apply (support_keep _ _ _ _ _ _ t).
          + apply not_true_is_false. tauto.
          + intros t0 Ht0 Hne. unfold liveb. rewrite Hoth; [done|intros E%(f_equal snd); simpl in E; done].
        - apply support_ext. intros t0 Ht0. unfold liveb. rewrite Hoth; [done|intros E%(f_equal fst); simpl in E; done]. }
      split; [|intros _; by rewrite Hv0, Es].
      intros (d0 & Hd0%elem_of_upto & Ed & En & Hli). destruct Hno.
      destruct (directions d0 Hd0) as (_ & _ & _ & Eoo0 & _).
      destruct (neighbor_back p c d0 n HW HH ltac:(lia) Hd0 En) as [_ Eb0].
      rewrite <- Ed in Eb0. rewrite Ed, Eoo0. split; [congruence|done].
  - apply NoDup_upto.
  - intros d. apply elem_of_upto.
  - split; [done|]. split; [done|]. split; [|done].
    split; [done|]. split; [done|]. split; [|done].
    eapply counts_live; [done| |exact Hcn'].
    intros c0 t0 Hc0 Ht0. symmetry. by apply HL'.
Qed.

Lemma propagate_loop_support fuel : forall p w p' w',
  shape w -> serves p w -> supported p w ->
  Propagator.propagate_loop fuel p w = Ok (p', w', true) ->
  shape w' /\ serves p' w' /\ supported p' w' /\ Propagator.stackSize p' = 0 /\
  same_config p p' /\
  Wave.size w' = Wave.size w /\ Wave.patternCount w' = Wave.patternCount w.
Proof.
  induction fuel as [|fuel IH]; intros p w p' w' Hs Hsv Hsup; cbn [Propagator.propagate_loop].
  - destruct (Z.ltb_spec 0 (Propagator.stackSize p)) as [Hpos|Hle]; [done|].
    intros [= <- <-]. destruct Hsv as (HT & Hd & Hn & Hrest).
    split_and!; try done; try lia; try apply same_config_refl.
  - destruct (Z.ltb_spec 0 (Propagator.stackSize p)) as [Hpos|Hle].
    + destruct (Propagator.propagate_pop p w) as [[[p1 w1] fl]|] eqn:Epop; [|done].
      destruct fl; [done|]. intros Hrec.
      destruct (propagate_pop_support p w p1 w1 Hs Hsv Hsup Hpos Epop)
        as (Hs1 & Hsv1 & Hsup1 & Hcfg1 & Esz1 & ET1).
      destruct (IH p1 w1 p' w' Hs1 Hsv1 Hsup1 Hrec) as (Hs' & Hsv' & Hsup' & Hz & Hcfg' & Esz' & ET').
      split_and!; try done; try congruence; by eapply same_config_trans.
    + intros [= <- <-]. destruct Hsv as (HT & Hd & Hn & Hrest).
      split_and!; try done; try lia; try apply same_config_refl.
Qed.

(** With the stack empty, the counts give arc consistency. *)
Lemma supported_arc_consistent p w :
  shape w -> serves p w -> supported p w -> Propagator.stackSize p = 0 ->
  arc_consistent p w.
Proof.
  intros Hs Hsv (Hgc & Hsp & Hcn & Hpos) Hz n t2 d c l Hn Ht2 Hd Hnb Hg Hl Hne.
  destruct Hgc as (HW & HH & Ewh & Hsz & HT & Hlen & Hndl & Hsym).
  destruct (Hpos n t2 d l Hn Ht2 Hd ltac:(congruence) Hg Hl Hne) as (v & Hv & Hv0).
  destruct (Hcn n t2 d c Hn Ht2 Hd Hnb) as (v' & Hv' & _ & Hsupp).
  specialize (Hsupp ltac:(tauto)). rewrite Hv in Hv'. injection Hv' as <-.
  rewrite Hsupp in Hv0. apply support_pos in Hv0 as (t & Ht & Hlive & Hli).
  destruct (directions d Hd) as (_ & _ & Hod & Eoo & _).
  rewrite Hsym, Eoo in Hli by done. exists t. split; [by apply (listedb_data p t2 d t l)|].
  unfold liveb in Hlive. apply orb_true_iff in Hlive as [?|Hp]; [done|].
  apply pendingb_true in Hp as (k & Hk & _). lia.
Qed.

End TurnFacts.

(* ===================================================================== *)
(** * Support counts after [initCompatible] *)
(* ===================================================================== *)

Lemma for_each_acc {A S : Type} (J : (A -> Prop) -> S -> Prop) (xs : list A)
    (body : S -> A -> result S) :
  (forall (K K' : A -> Prop) s, (forall x, K x <-> K' x) -> J K s -> J K' s) ->
  (forall K s x s', x ∈ xs -> J K s -> body s x = Ok s' -> J (fun y => K y \/ y = x) s') ->
  forall K s s', J K s -> Propagator.for_each xs body s = Ok s' ->
    J (fun y => K y \/ y ∈ xs) s'.
Proof.
  intros Hext. induction xs as [|x xs IH]; intros Hbody K s s' HJ Hrun.
  - injection Hrun as <-. eapply Hext; [|exact HJ]. intros y. split; [by left|].
    intros [?|Hin%elem_of_nil]; done.
  - simpl in Hrun. apply bind_Ok in Hrun as (s1 & E1 & Hrun).
    pose proof (Hbody K s x s1 ltac:(left) HJ E1) as HJ1.
    pose proof (IH (fun K0 s0 y s0' Hy => Hbody K0 s0 y s0' (list_elem_of_further _ _ _ Hy))
                  _ s1 s' HJ1 Hrun) as HJ'.
    eapply Hext; [|exact HJ']. intros y. simpl. rewrite elem_of_cons. tauto.
Qed.

Section FreshFacts.
Context {M : MathLib}.
Implicit Types (p s : Propagator.t) (w : Wave.t) (i j t c n : Z).

Lemma init_inv_ext p (K K' : Z -> Z -> Z -> Prop) s :
  (forall i t d, K i t d <-> K' i t d) -> init_inv p K s -> init_inv p K' s.
Proof.
  intros HK (E & Hlen & Hent). split; [done|]. split; [done|].
  intros i t d l Hi Ht Hd Hk. apply Hent; [done..|]. by apply HK.
Qed.

Lemma init_entry_inv p (K : Z -> Z -> Z -> Prop) s i t d s' :
  Z.of_nat (length (Propagator.compatible p))
    = Propagator.width p * Propagator.height p * Propagator.patternCount p * 4 ->
  init_inv p K s ->
  0 <= i < Propagator.width p * Propagator.height p ->
  0 <= t < Propagator.patternCount p -> 0 <= d < 4 ->
  Propagator.init_entry s i t d = Ok s' ->
  init_inv p (fun i' t' d' => K i' t' d' \/ (i' = i /\ t' = t /\ d' = d)) s'.
Proof.
  intros Hlen0 (E & Hlen & Hent) Hi Ht Hd. unfold Propagator.init_entry. cbv zeta.
  rewrite E. cbn [Propagator.width Propagator.height Propagator.periodic
                  Propagator.patternCount Propagator.with_compatible Propagator.compatible].
  assert ((if Propagator.periodic p then true
           else (0 <=? Z.rem i (Propagator.width p) + tbl DX d) &&
                (Z.rem i (Propagator.width p) + tbl DX d <? Propagator.width p) &&
                (0 <=? i / Propagator.width p + tbl DY d) &&
                (i / Propagator.width p + tbl DY d <? Propagator.height p)) = true
          <-> neighbor p i d <> None) as Hnb.
  { unfold neighbor. cbv zeta. destruct (Propagator.periodic p); cbn [negb andb]; [done|].
    destruct (_ && _ && _ && _); cbn [negb]; split; done. }
  destruct (if Propagator.periodic p then true else _) eqn:Ehas.
  - change (Propagator.data_at (Propagator.with_compatible p (Propagator.compatible s)) t d)
      with (Propagator.data_at p t d).
    destruct (Propagator.data_at p t d) as [l|] eqn:El; [|done]. simpl. intros [= <-].
    split; [done|]. simpl. split; [by rewrite length_wr|].
    intros i' t' d' l' Hi' Ht' Hd' HK Hn' El'.
    destruct (decide (cidx (Propagator.patternCount p) i' t' d'
                      = cidx (Propagator.patternCount p) i t d)) as [Eidx|Hne].
    + apply cidx_inj in Eidx as (-> & -> & ->); [|done..].
      assert (l' = l) as -> by congruence.
      unfold cidx. apply rd_wr_eq. rewrite Hlen, Hlen0. fold (cidx (Propagator.patternCount p) i t d).
      by apply cidx_range.
    + unfold cidx at 1. fold (cidx (Propagator.patternCount p) i t d).
      rewrite rd_wr_ne by done. apply Hent; try done.
      destruct HK as [?|(-> & -> & ->)]; done.
  - intros [= <-]. split; [by rewrite <- E|]. split; [done|].
    intros i' t' d' l' Hi' Ht' Hd' HK Hn' El'.
    destruct HK as [HK|(-> & -> & ->)]; [by apply Hent|].
    apply Hnb in Hn'. done.
Qed.

Lemma init_directions p (K : Z -> Z -> Z -> Prop) i t s s' :
  Z.of_nat (length (Propagator.compatible p))
    = Propagator.width p * Propagator.height p * Propagator.patternCount p * 4 ->
  init_inv p K s ->
  0 <= i < Propagator.width p * Propagator.height p -> 0 <= t < Propagator.patternCount p ->
  Propagator.for_each (upto 4) (fun s d => Propagator.init_entry s i t d) s = Ok s' ->
  init_inv p (fun i' t' d' => K i' t' d' \/ (i' = i /\ t' = t /\ 0 <= d' < 4)) s'.
Proof.
  intros Hlen0 Hs Hi Ht Hrun.
  pose proof (for_each_acc
    (fun (Kd : Z -> Prop) s0 =>
       init_inv p (fun i' t' d' => K i' t' d' \/ (i' = i /\ t' = t /\ Kd d')) s0)
    (upto 4) (fun s d => Propagator.init_entry s i t d)) as Hacc.
  assert (init_inv p (fun i' t' d' =>
            K i' t' d' \/ (i' = i /\ t' = t /\ (False \/ d' ∈ upto 4))) s') as Hfin;
    [|eapply init_inv_ext; [|exact Hfin]; intros i' t' d'; cbv beta; rewrite elem_of_upto; tauto].
  refine (Hacc _ _ (fun _ => False) s s' _ Hrun).
  - intros Kd Kd' s0 HK. apply init_inv_ext. intros i' t' d'. rewrite (HK d'). tauto.
  - intros Kd s0 d s1 Hd%elem_of_upto Hs0 Hent.
    eapply init_inv_ext; [|exact (init_entry_inv p _ s0 i t d s1 Hlen0 Hs0 Hi Ht Hd Hent)].
    intros i' t' d'. cbv beta. tauto.
  - eapply init_inv_ext; [|exact Hs]. intros i' t' d'. cbv beta. tauto.
Qed.

Lemma init_patterns p (K : Z -> Z -> Z -> Prop) i s s' :
  Z.of_nat (length (Propagator.compatible p))
    = Propagator.width p * Propagator.height p * Propagator.patternCount p * 4 ->
  init_inv p K s -> 0 <= i < Propagator.width p * Propagator.height p ->
  Propagator.for_each (upto (Propagator.patternCount p))
    (fun s t => Propagator.for_each (upto 4) (fun s d => Propagator.init_entry s i t d) s) s
    = Ok s' ->
  init_inv p
    (fun i' t' d' => K i' t' d' \/ (i' = i /\ 0 <= t' < Propagator.patternCount p /\ 0 <= d' < 4))
    s'.
Proof.
  intros Hlen0 Hs Hi Hrun.
  pose proof (for_each_acc
    (fun (Kt : Z -> Prop) s0 =>
       init_inv p (fun i' t' d' => K i' t' d' \/ (i' = i /\ Kt t' /\ 0 <= d' < 4)) s0)
    (upto (Propagator.patternCount p))
    (fun s t => Propagator.for_each (upto 4) (fun s d => Propagator.init_entry s i t d) s))
    as Hacc.
  assert (init_inv p (fun i' t' d' =>
            K i' t' d' \/ (i' = i /\ (False \/ t' ∈ upto (Propagator.patternCount p)) /\
                            0 <= d' < 4)) s') as Hfin;
    [|eapply init_inv_ext; [|exact Hfin]; intros i' t' d'; cbv beta; rewrite elem_of_upto; tauto].
  refine (Hacc _ _ (fun _ => False) s s' _ Hrun).
  - intros Kt Kt' s0 HK. apply init_inv_ext. intros i' t' d'. rewrite (HK t'). tauto.
  - intros Kt s0 t s1 Ht%elem_of_upto Hs0 Hdirs.
    eapply init_inv_ext; [|exact (init_directions p _ i t s0 s1 Hlen0 Hs0 Hi Ht Hdirs)].
    intros i' t' d'. cbv beta. tauto.
  - eapply init_inv_ext; [|exact Hs]. intros i' t' d'. cbv beta. tauto.
Qed.

(** What [initCompatible] leaves in the counts. *)
Lemma initCompatible_counts p p' :
  Z.of_nat (length (Propagator.compatible p))
    = Propagator.width p * Propagator.height p * Propagator.patternCount p * 4 ->
  Propagator.initCompatible p = Ok p' ->
  init_inv p (fun _ _ _ => True) p'.
Proof.
  intros Hlen0 Hrun. unfold Propagator.initCompatible in Hrun.
  pose proof (for_each_acc
    (fun (Ki : Z -> Prop) s0 =>
       init_inv p (fun i' t' d' =>
         Ki i' /\ 0 <= t' < Propagator.patternCount p /\ 0 <= d' < 4) s0)
    (upto (Propagator.width p * Propagator.height p))
    (fun p0 i =>
       Propagator.for_each (upto (Propagator.patternCount p0))
         (fun p1 pattern =>
            Propagator.for_each (upto 4)
              (fun p2 direction => Propagator.init_entry p2 i pattern direction) p1) p0))
    as Hacc.
  assert (init_inv p (fun i' t' d' => (False \/ i' ∈ upto (Propagator.width p * Propagator.height p))
                        /\ 0 <= t' < Propagator.patternCount p /\ 0 <= d' < 4) p') as Hfin.
  { refine (Hacc _ _ (fun _ => False) p p' _ Hrun).
    - intros Ki Ki' s0 HK. apply init_inv_ext. intros i' t' d'. rewrite (HK i'). tauto.
    - intros Ki s0 i s1 Hi%elem_of_upto Hs0 Hpat.
      assert (Propagator.patternCount s0 = Propagator.patternCount p) as ET
        by (destruct Hs0 as (-> & _); done).
      rewrite ET in Hpat.
      eapply init_inv_ext; [|exact (init_patterns p _ i s0 s1 Hlen0 Hs0 Hi Hpat)].
      intros i' t' d'. cbv beta. tauto.
    - split; [by destruct p|]. split; [done|]. by intros i t d l _ _ _ ([] & _). }
  destruct Hfin as (E & Hlen & Hent). split; [done|]. split; [done|].
  intros i t d l Hi Ht Hd _. apply Hent; try done.
  split; [right; by apply elem_of_upto|done].
Qed.

Lemma good_config_intro p w :
  0 <= Propagator.width p -> 0 <= Propagator.height p ->
  Propagator.width p * Propagator.height p = Wave.size w ->
  Wave.size w <= 4294967296 -> Wave.patternCount w < 2147483648 ->
  Z.of_nat (length (Propagator.compatible p)) = Wave.size w * Wave.patternCount w * 4 ->
  data_sym (Wave.patternCount w) (Propagator.propagatorData p) ->
  good_config p w.
Proof.
  intros HW HH Ewh Hsz HT Hlen [Hnd Hsym]. do 6 (split; [done|]). split; [|done].
  intros t d l. unfold Propagator.data_at.
  destruct (rd (Propagator.propagatorData p) t) as [row|] eqn:Er; [|done].
  destruct (rd row d) as [l'|] eqn:El; [|done]. intros [= <-]. by eapply Hnd.
Qed.

(** On a wave with every pattern possible and an empty stack, the counts
    [initCompatible] writes are the supports. *)
Lemma fresh_supported p w :
  shape w -> serves p w -> good_config p w -> Propagator.stackSize p = 0 ->
  (forall c t, 0 <= c < Wave.size w -> 0 <= t < Wave.patternCount w -> Wave.get w c t = true) ->
  (forall i t d l,
     0 <= i < Wave.size w -> 0 <= t < Wave.patternCount w -> 0 <= d < 4 ->
     neighbor p i d <> None -> Propagator.data_at p t d = Ok l ->
     rd (Propagator.compatible p) (cidx (Wave.patternCount w) i t d)
       = Some (wrap_int32 (Z.of_nat (length l)))) ->
  supported p w.
Proof.
  intros Hs Hsv Hgc Hz Hall Hent.
  pose proof Hgc as (HW & HH & Ewh & Hsz & HT & Hlen & Hndl & Hsym).
  assert (forall n t2 d c l, 0 <= n < Wave.size w -> 0 <= t2 < Wave.patternCount w ->
            0 <= d < 4 -> neighbor p n d = Some c -> Propagator.data_at p t2 d = Ok l ->
            Z.of_nat (length l) =
              support (Propagator.propagatorData p) (Wave.patternCount w) (liveb p w c) t2
                (tbl OPPOSITE d) /\
            wrap_int32 (Z.of_nat (length l)) = Z.of_nat (length l)) as Hcount.
  { intros n t2 d c l Hn Ht2 Hd Hnb Hl.
    destruct (neighbor_back p n d c HW HH ltac:(lia) Hd Hnb) as [Hc _]. rewrite Ewh in Hc.
    destruct (directions d Hd) as (_ & _ & Hod & Eoo & _).
    destruct (data_at_wf p w t2 d Hsv Ht2 Hd) as (l' & Hl' & Hrange).
    assert (l' = l) as -> by congruence.
    assert (Z.of_nat (length l) =
            support (Propagator.propagatorData p) (Wave.patternCount w) (liveb p w c) t2
              (tbl OPPOSITE d)) as E.
    { unfold support. f_equal. apply length_filter_upto; [by eapply Hndl|].
      intros t. split.
      - intros Hin. pose proof (Hrange t Hin) as Ht. split; [done|].
        unfold liveb. rewrite Hall by done. simpl.
        rewrite Hsym, Eoo by done. by apply (listedb_data p t2 d t l).
      - intros (Ht & Hb). apply andb_true_iff in Hb as [_ Hli].
        rewrite Hsym, Eoo in Hli by done. by apply (listedb_data p t2 d t l). }
    split; [done|]. apply wrap_int32_small. rewrite E.
    pose proof (support_range (Propagator.propagatorData p) (Wave.patternCount w) (liveb p w c) t2
                  (tbl OPPOSITE d) (sh_T _ Hs)). lia. }
  split; [done|]. split; [|split].
  - intros k Hk. lia.
  - intros n t2 d c Hn Ht2 Hd Hnb.
    destruct (data_at_wf p w t2 d Hsv Ht2 Hd) as (l & Hl & _).
    destruct (Hcount n t2 d c l Hn Ht2 Hd Hnb Hl) as [E Ew].
    exists (Z.of_nat (length l)). split; [|split; [done|by intros _]].
    rewrite <- Ew. apply Hent; try done. congruence.
  - intros n t2 d l Hn Ht2 Hd Hnb Hg Hl Hne.
    destruct (neighbor p n d) as [c|] eqn:Enb; [|done].
    destruct (Hcount n t2 d c l Hn Ht2 Hd Enb Hl) as [E Ew].
    exists (Z.of_nat (length l)). split.
    + rewrite <- Ew. apply Hent; try done. congruence.
    + destruct l; [done|]. simpl. lia.
Qed.

(** The propagator the constructor builds. *)
Lemma new_supported W H T periodic pd p w :
  Propagator.new W H T periodic pd = Ok p ->
  data_wf T pd -> data_sym T pd -> shape w ->
  0 <= W -> 0 <= H -> Wave.size w = W * H -> Wave.patternCount w = T ->
  W * H <= 4294967296 -> T < 2147483648 ->
  (forall c t, 0 <= c < Wave.size w -> 0 <= t < Wave.patternCount w -> Wave.get w c t = true) ->
  good_config p w /\ supported p w.
Proof.
  intros Hnew Hd Hsym Hs HW HH Esz ET Hsz HT Hall.
  destruct (new_serves W H T periodic pd p w Hnew Hd Hs Esz ET) as [Hsv Hst].
  unfold Propagator.new in Hnew. destruct (_ || _) eqn:Eneg; [done|].
  apply orb_false_iff in Eneg as [E4 E2]. apply Z.ltb_ge in E4, E2.
  set (p0 := Propagator.mk pd (filled (W * H * T * 4) 0) (filled (W * H * T * 2) 0) 0
               W H T periodic) in *.
  assert (Z.of_nat (length (Propagator.compatible p0))
          = Propagator.width p0 * Propagator.height p0 * Propagator.patternCount p0 * 4) as Hlen0.
  { simpl. rewrite length_filled. lia. }
  destruct (initCompatible_counts p0 p Hlen0 Hnew) as (E & Hlen & Hent).
  assert (good_config p w) as Hgc.
  { rewrite E. apply good_config_intro; simpl; rewrite ?Esz, ?ET; try done; try lia.
    rewrite Hlen. simpl. rewrite length_filled. lia. }
  split; [done|]. apply fresh_supported; try done.
  intros i t d l Hi Ht Hdr Hnb Hl. rewrite ET, Esz in *.
  rewrite E in Hnb, Hl. apply (Hent i t d l); done.
Qed.

(** The propagator after [reset], against the cleared wave. *)
Lemma reset_supported p w p' :
  shape w -> serves p w -> good_config p w -> Propagator.reset p = Ok p' ->
  good_config p' (Wave.clear w) /\ supported p' (Wave.clear w).
Proof.
  intros Hs Hsv Hgc Hreset.
  destruct (reset_serves p w Hsv Hs) as (p1 & Hreset1 & Hsv1 & Hcfg & Hst).
  rewrite Hreset in Hreset1. injection Hreset1 as <-.
  unfold Propagator.reset in Hreset. apply bind_Ok in Hreset as (p2 & Hinit & [= <-]).
  pose proof Hgc as (HW & HH & Ewh & Hsz & HT & Hlen & Hndl & Hsym).
  pose proof Hsv as (ET & _).
  assert (Z.of_nat (length (Propagator.compatible p))
          = Propagator.width p * Propagator.height p * Propagator.patternCount p * 4) as Hlen0
    by (rewrite Hlen, Ewh, ET; done).
  destruct (initCompatible_counts p p2 Hlen0 Hinit) as (E & Hlen2 & Hent).
  assert (good_config (Propagator.with_stack p2 (Propagator.stack p2) 0) (Wave.clear w)) as Hgc'.
  { apply (good_config_static p w); [done|done|done|done|]. simpl. done. }
  split; [done|]. apply fresh_supported; try done.
  - by apply clear_shape.
  - intros c t Hc Ht. apply (clear_fresh w c Hs Hc). done.
  - intros i t d l Hi Ht Hd Hnb Hl. simpl in *.
    rewrite (neighbor_config p _ i d Hcfg) in Hnb.
    rewrite <- ET. apply (Hent i t d l); try done; try lia.
    rewrite E in Hl. done.
Qed.

End FreshFacts.

(* ===================================================================== *)
(** * Support counts through [step] and [clear] *)
(* ===================================================================== *)

Section EngineSupport.
Context {M : MathLib}.
Implicit Types (e : Engine.t) (p : Propagator.t) (w : Wave.t) (i j t c n : Z).

(** ** The length of the array of counts *)

Lemma dec_at_length (a : list Z) i : length (Propagator.dec_at a i) = length a.
Proof. unfold Propagator.dec_at. destruct (rd a i); [apply length_wr|done]. Qed.

Lemma propagate_patterns_length pats : forall p w nb od p' w' fl,
  Propagator.propagate_patterns p w nb od pats = (p', w', fl) ->
  length (Propagator.compatible p') = length (Propagator.compatible p).
Proof.
  induction pats as [|cp pats IH]; intros p w nb od p' w' fl; simpl.
  - by intros [= <- _ _].
  - destruct (_ && _).
    + destruct (is0 _).
      * intros [= <- _ _]. simpl. apply dec_at_length.
      * intros H%IH. rewrite H. simpl. apply dec_at_length.
    + intros H%IH. rewrite H. simpl. apply dec_at_length.
Qed.

Lemma propagate_directions_length dirs : forall p w c t p' w' fl,
  Propagator.propagate_directions p w c t dirs = Ok (p', w', fl) ->
  length (Propagator.compatible p') = length (Propagator.compatible p).
Proof.
  induction dirs as [|d dirs IH]; intros p w c t p' w' fl; simpl.
  - by intros [= <- _ _].
  - destruct (_ && _); [apply IH|].
    destruct (Propagator.data_at p t d) as [l|]; [|done]. simpl.
    destruct (Propagator.propagate_patterns _ _ _ _ _) as [[p1 w1] fl1] eqn:Epat.
    apply propagate_patterns_length in Epat.
    destruct fl1; [by intros [= <- _ _]|]. intros H%IH. by rewrite H.
Qed.

Lemma propagate_loop_length fuel : forall p w p' w' ok,
  Propagator.propagate_loop fuel p w = Ok (p', w', ok) ->
  length (Propagator.compatible p') = length (Propagator.compatible p).
Proof.
  assert (forall p w p' w' fl, Propagator.propagate_pop p w = Ok (p', w', fl) ->
            length (Propagator.compatible p') = length (Propagator.compatible p)) as Hpop.
  { intros p w p' w' fl. unfold Propagator.propagate_pop.
    destruct (rd _ _); [|done]. destruct (rd _ _); [|done].
    intros H%propagate_directions_length. done. }
  induction fuel as [|fuel IH]; intros p w p' w' ok; cbn [Propagator.propagate_loop];
    destruct (0 <? Propagator.stackSize p); try done; try (by intros [= <- _ _]).
  destruct (Propagator.propagate_pop p w) as [[[p1 w1] fl]|] eqn:Epop; [|done].
  apply Hpop in Epop. destruct fl; [by intros [= <- _ _]|]. intros H%IH. by rewrite H.
Qed.

Lemma pushes_length ts : forall p c,
  length (Propagator.compatible (fold_left (fun p t => Propagator.addToPropagate p c t) ts p))
  = length (Propagator.compatible p).
Proof. induction ts as [|t ts IH]; intros p c; [done|]. simpl. by rewrite IH. Qed.

Lemma step_length h e r e' :
  Engine.step h e = Ok (r, e') ->
  length (Propagator.compatible (Engine.propagator e'))
  = length (Propagator.compatible (Engine.propagator e)).
Proof.
  unfold Engine.step.
  assert (Engine.propagator (snd (Engine.select h e)) = Engine.propagator e) as Ep.
  { unfold Engine.select. destruct h.
    - by destruct (Wave.getMinEntropyCell _ _).
    - by destruct (Wave.getMRVCell _ _).
    - by destruct (Wave.getScanlineCell _ _). }
  destruct (Engine.select h e) as [c e1]. simpl in Ep.
  destruct (c =? -1); [intros [= _ <-]; by rewrite Ep|].
  destruct (c =? -2); [intros [= _ <-]; by rewrite Ep|].
  destruct (Wave.collapse _ _ _) as [[w2 sel] rng2].
  destruct (sel =? -1); [intros [= _ <-]; by rewrite Ep|].
  intros ([[p3 w3] ok] & Hprop & [= _ <-])%bind_Ok. simpl.
  apply propagate_loop_length in Hprop. rewrite Hprop, push_removed_eq, pushes_length.
  by rewrite Ep.
Qed.

(** ** Removing and pushing *)

Lemma supported_push p w c t :
  shape w -> serves p w -> supported p w ->
  0 <= c < Wave.size w -> 0 <= t < Wave.patternCount w -> Wave.get w c t = true ->
  let p' := Propagator.addToPropagate p c t in
  let w' := fst (Wave.remove w c t) in
  shape w' /\ serves p' w' /\ supported p' w'.
Proof.
  intros Hs Hsv (Hgc & Hsp & Hcn & Hpos) Hc Ht Hg p' w'.
  pose proof (remove_static w c t) as (_&_&_&_&_&_&Esz&ET).
  pose proof Hgc as (HW & HH & Ewh & Hsz & HT & Hlen & Hndl & Hsym).
  destruct (stack_pairs_push p w c t Hs Hsv Hsp Hsz HT Hc Ht Hg) as [Hsp' HL'].
  assert (good_config p' w') as Hgc'.
  { apply (good_config_static p w); [done|apply addToPropagate_config|done|done|done]. }
  split; [by apply remove_shape|]. split; [by apply serves_push|].
  split; [done|]. split; [done|]. split.
  - apply (counts_live p' w' (liveb p w)); [done| |].
    + intros c0 t0 Hc0 Ht0. unfold w' in Hc0, Ht0. rewrite Esz in Hc0. rewrite ET in Ht0.
      symmetry. by apply HL'.
    + intros n t2 d c' Hn Ht2 Hd Hnb. unfold w' in *. rewrite Esz in Hn. rewrite ET in *.
      by apply (Hcn n t2 d c').
  - intros n t2 d l Hn Ht2 Hd Hnb Hg' Hl Hne. unfold w' in *. rewrite Esz in Hn. rewrite ET in *.
    apply remove_get_mono in Hg'. by apply (Hpos n t2 d l).
Qed.

Lemma pushes_supported c ts : forall p w,
  shape w -> serves p w -> supported p w -> 0 <= c < Wave.size w -> NoDup ts ->
  (forall t, t ∈ ts -> 0 <= t < Wave.patternCount w /\ Wave.get w c t = true) ->
  let p' := fold_left (fun p t => Propagator.addToPropagate p c t) ts p in
  let w' := removes w c ts in
  shape w' /\ serves p' w' /\ supported p' w'.
Proof.
  induction ts as [|t ts IH]; intros p w Hs Hsv Hsup Hc Hnd Hts; [done|].
  apply NoDup_cons in Hnd as [Hfresh Hnd].
  destruct (Hts t ltac:(left)) as [Ht Hg].
  destruct (supported_push p w c t Hs Hsv Hsup Hc Ht Hg) as (Hs1 & Hsv1 & Hsup1).
  pose proof (remove_static w c t) as (_&_&_&_&_&_&Esz&ET).
  cbn [fold_left removes]. unfold removes in IH. apply IH; try done.
  - by rewrite Esz.
  - intros t' Ht'. destruct (Hts t' ltac:(by right)) as [Hr Hg']. rewrite ET. split; [done|].
    rewrite remove_get_other; [done|]. intros E.
    destruct (cell_pattern_index _ _ _ _ _ Ht Hr E) as [_ ->]. done.
Qed.

(** ** A cell with no pattern left stays so *)

Lemma zero_cell_performed w rs j :
  tracked w -> performed w rs -> zero_cell w j -> zero_cell (removals w rs) j.
Proof.
  revert w. induction rs as [|[j' t] rs IH]; intros w Htr Hp Hz; [done|].
  simpl in *. destruct Hp as [[Ht Hg] Hp].
  pose proof Htr as (Hs & (_ & Hc) & _).
  pose proof (zero_cell_range w j Hs Hz) as Hj.
  assert (j' <> j) as Hne.
  { intros ->. unfold zero_cell, Wave.getRemainingCount in Hz. rewrite Hc in Hz by done.
    injection Hz as Hz. by rewrite (popcount_zero w j t Hz Ht) in Hg. }
  apply IH; [|done|].
  - apply tracked_remove; [done| |done]. by eapply get_range.
  - unfold zero_cell, Wave.getRemainingCount in *.
    by destruct (remove_memo_other w j' t j Hne) as (_&_&_&->&_).
Qed.

(** ** [step] and [clear] *)

Lemma step_supported h e r e' :
  engine_ok e -> engine_supported e -> Engine.step h e = Ok (r, e') -> engine_supported e'.
Proof.
  intros Hok [Hgc Hcase] Hstep.
  destruct (step_spec h e Hok)
    as (r0 & e0 & rs & Hstep0 & Hperf & Ew & Hok' & Hcfg & Hfail & _).
  rewrite Hstep in Hstep0. injection Hstep0 as <- <-.
  pose proof (removals_static (Engine.wave e) rs) as (_&_&_&_&_&_&Esz&ET). rewrite <- Ew in Esz, ET.
  assert (good_config (Engine.propagator e') (Engine.wave e')) as Hgc'.
  { apply (good_config_static _ _ _ _ Hgc Hcfg Esz ET). by eapply step_length. }
  split; [done|].
  destruct Hcase as [(j & Hz)|[Hst Hsup]].
  { left. exists j. rewrite Ew. apply zero_cell_performed; [by destruct Hok|done|done]. }
  destruct Hok as (Htr & Hsv & Hcur). pose proof Htr as (Hs & Hc & _).
  pose proof (select_spec h e Hs Hcur) as Hsel. cbv zeta in Hsel.
  unfold Engine.step in Hstep. destruct (Engine.select h e) as [c e1]. simpl in Hsel.
  destruct Hsel as (Ew1 & Ep1 & Hcur1 & Hm2 & Hopen & Hall & Hfull).
  destruct (Z.eqb_spec c (-1)) as [->|Hn1].
  { injection Hstep as <- <-. right. by rewrite Ew1, Ep1. }
  destruct (Z.eqb_spec c (-2)) as [->|Hn2].
  { injection Hstep as <- <-. right. by rewrite Ew1, Ep1. }
  destruct (Hopen Hn1 Hn2) as (Hci & H0 & H1).
  rewrite Ew1 in Hstep.
  destruct (collapse_open (Engine.wave e) c (Engine.rng e1) Hs Hc Hci H0 H1)
    as (sel & Ecol & Hselr & Hg).
  rewrite Ecol in Hstep.
  destruct (Z.eqb_spec sel (-1)) as [Esel|_]; [lia|].
  rewrite push_removed_eq, Ep1 in Hstep.
  set (ts := filter (fun q => q <> sel) (Wave.getPossiblePatterns (Engine.wave e) c)) in *.
  destruct (pushes_supported c ts (Engine.propagator e) (Engine.wave e) Hs Hsv Hsup Hci)
    as (Hs2 & Hsv2 & Hsup2).
  { apply NoDup_filter, NoDup_possible. }
  { intros t [_ Hin%possible_iff]%list_elem_of_filter. done. }
  apply bind_Ok in Hstep as ([[p3 w3] ok] & Hprop & Hret).
  destruct ok; injection Hret as <- <-; [|left; by apply Hfail].
  right. simpl.
  destruct (propagate_loop_support _ _ _ _ _ Hs2 Hsv2 Hsup2 Hprop) as (_ & _ & Hsup3 & Hz3 & _).
  done.
Qed.

Lemma clear_supported e e' :
  engine_ok e -> engine_supported e -> Engine.clear e = Ok e' -> engine_supported e'.
Proof.
  intros ((Hs & _) & Hsv & _) [Hgc _]. unfold Engine.clear.
  intros (p' & Hreset & [= <-])%bind_Ok. simpl.
  destruct (reset_supported _ _ _ Hs Hsv Hgc Hreset) as [Hgc' Hsup'].
  destruct (reset_serves _ _ Hsv Hs) as (p1 & Hreset1 & _ & _ & Hst).
  rewrite Hreset in Hreset1. injection Hreset1 as <-.
  split; [done|]. right. by split.
Qed.

(** Unless some cell has no pattern left, the wave is arc consistent. *)
Lemma engine_supported_arc e :
  engine_ok e -> engine_supported e -> (forall j, ~ zero_cell (Engine.wave e) j) ->
  arc_consistent (Engine.propagator e) (Engine.wave e).
Proof.
  intros ((Hs & _) & Hsv & _) [Hgc [(j & Hz)|[Hst Hsup]]] Hno; [by destruct (Hno j)|].
  by apply supported_arc_consistent.
Qed.

End EngineSupport.
(* ===================================================================== *)
(** * Support counts along the life of a model *)
(* ===================================================================== *)

Section ModelSupport.
Context {M : MathLib}.
Implicit Types (e : Engine.t) (p : Propagator.t) (w : Wave.t) (i j t c n : Z).

(** ** Symmetric adjacency lists *)

Lemma listedb_allowed pd t d t2 : listedb pd t d t2 = true <-> allowed pd t d t2.
Proof.
  unfold listedb, allowed. split.
  - destruct (rd pd t) as [row|] eqn:Er; [|done].
    destruct (rd row d) as [l|] eqn:El; [|done].
    intros H%bool_decide_eq_true. by exists row, l.
  - intros (row & l & -> & -> & Hin). by apply bool_decide_eq_true.
Qed.

Lemma data_symb_true T pd : data_symb T pd = true -> data_sym T pd.
Proof.
  unfold data_symb. intros [Hnd Hsym]%andb_true_iff. split.
  - intros t d row l Hrow Hl. rewrite forallb_forall in Hnd.
    apply rd_elem_of_2, list_elem_of_In in Hrow. specialize (Hnd row Hrow).
    rewrite forallb_forall in Hnd. apply rd_elem_of_2, list_elem_of_In in Hl.
    specialize (Hnd l Hl). by apply bool_decide_eq_true in Hnd.
  - intros t d t2 Ht Ht2 Hd. rewrite forallb_forall in Hsym.
    specialize (Hsym t ltac:(by apply list_elem_of_In, elem_of_upto)).
    rewrite forallb_forall in Hsym.
    specialize (Hsym t2 ltac:(by apply list_elem_of_In, elem_of_upto)).
    rewrite forallb_forall in Hsym.
    specialize (Hsym d ltac:(by apply list_elem_of_In, elem_of_upto)).
    by apply bool_decide_eq_true in Hsym.
Qed.

Lemma build_data_sym n (patterns : list (list Z)) :
  data_sym (Z.of_nat (length patterns)) (OverlappingModel.buildPropagator n patterns).
Proof.
  split.
  - intros t d row l. unfold OverlappingModel.buildPropagator. cbv zeta.
    rewrite rd_map. destruct (rd patterns t) as [p1|]; [|done].
    intros Hrow. apply (inj Some) in Hrow. subst row.
    rewrite rd_map. destruct (rd (upto 4) d) as [d'|]; [|done].
    intros Hl. apply (inj Some) in Hl. subst l. apply NoDup_filter, NoDup_upto.
  - intros t d t2 Ht Ht2 Hd.
    destruct (directions d Hd) as (_ & _ & Ho & _ & Ex & Ey).
    apply eq_true_iff_eq. rewrite !listedb_allowed, !build_allowed by done.
    rewrite Ex, Ey, <- agrees_opposite. tauto.
Qed.

Lemma loaded_data_sym T dense :
  dense_ok T dense ->
  data_sym T (TilesetLoader.sparse T (TilesetLoader.transpose_dense T dense)).
Proof.
  intros Hd. split.
  - intros t d row l. unfold TilesetLoader.sparse.
    rewrite rd_map. destruct (rd (upto T) t) as [t'|]; [|done].
    intros Hrow. apply (inj Some) in Hrow. subst row.
    rewrite rd_map. destruct (rd (upto 4) d) as [d'|]; [|done].
    intros Hl. apply (inj Some) in Hl. subst l. apply NoDup_filter, NoDup_upto.
  - intros t d t2 Ht Ht2 Hdr.
    destruct (directions d Hdr) as (_ & _ & Ho & Hoo & _).
    apply eq_true_iff_eq. rewrite !listedb_allowed. split; intros Ha.
    + by apply loaded_symmetric.
    + rewrite <- Hoo. by apply loaded_symmetric.
Qed.

(** ** The tiled model *)

Lemma tiled_new_supported tiles tilenames tilesize weights pd opts m :
  tiled_input_ok tiles weights pd -> data_sym (Z.of_nat (length tiles)) pd ->
  Z.of_nat (length tiles) < 2147483648 ->
  0 <= topt_width opts -> 0 <= topt_height opts ->
  topt_width opts * topt_height opts <= 4294967296 ->
  SimpleTiledModel.new tiles tilenames tilesize weights pd opts = Ok m ->
  engine_supported (SimpleTiledModel.engine m).
Proof.
  intros (Hlen & HT & Hd) Hsym HT31 HW HH Hsz. unfold SimpleTiledModel.new. intros H.
  apply bind_Ok in H as (w0 & Hw & H).
  apply bind_Ok in H as (p0 & Hp & [= <-]). simpl.
  destruct (new_inv _ _ _ _ Hw) as (_&_&Esz&Hsz'&ET&_&_&_&Hs&Hf).
  assert (Wave.patternCount w0 = Z.of_nat (length tiles)) as ET' by (by rewrite ET, Hlen).
  destruct (new_serves _ _ _ _ _ _ w0 Hp) as [Hsv Hst]; [done|done|done|done|].
  destruct (new_supported _ _ _ _ _ _ w0 Hp) as [Hgc Hsup]; try done.
  { intros c t Hc Ht. rewrite Esz in Hc. by apply (Hf c Hc). }
  split; [done|]. right. by split.
Qed.

Lemma tiled_run_supported m0 m :
  tiled_ok m0 -> engine_supported (SimpleTiledModel.engine m0) -> tiled_run m0 m ->
  tiled_ok m /\ engine_supported (SimpleTiledModel.engine m).
Proof.
  intros Hok0 Hsup0. induction 1 as [|m r m' _ [Hok Hsup] Hstep|m m' _ [Hok Hsup] Hcl].
  - done.
  - destruct (tiled_step_spec m Hok) as (r0 & m1 & Hs1 & Hok1 & Hes & _).
    rewrite Hs1 in Hstep. injection Hstep as <- <-. split; [done|].
    destruct Hok as (Heok & _). by eapply step_supported.
  - destruct (tiled_clear_spec m Hok) as (m1 & Hc1 & Hok1).
    rewrite Hc1 in Hcl. injection Hcl as <-. split; [done|].
    destruct Hok as (Heok & _).
    unfold SimpleTiledModel.clear in Hc1.
    apply bind_Ok in Hc1 as (e1 & He1 & [= <-]).
    destruct m; simpl in *. by eapply clear_supported.
Qed.

(** ** The overlapping model *)

Lemma ban_supported e c t :
  engine_base e -> supported (Engine.propagator e) (Engine.wave e) ->
  (Wave.get (Engine.wave e) c t = true -> 0 <= t < Wave.patternCount (Engine.wave e)) ->
  engine_base (OverlappingModel.ban e c t) /\
  supported (Engine.propagator (OverlappingModel.ban e c t))
    (Engine.wave (OverlappingModel.ban e c t)).
Proof.
  intros [Hs Hsv] Hsup Hr. unfold OverlappingModel.ban.
  destruct (Wave.get (Engine.wave e) c t) eqn:Hg; [|done].
  pose proof (Hr eq_refl) as Ht. pose proof (get_range _ _ _ Hs Ht Hg) as Hc.
  destruct (supported_push _ _ c t Hs Hsv Hsup Hc Ht Hg) as (Hs' & Hsv' & Hsup').
  simpl. done.
Qed.

Lemma bans_supported (l : list (Z * Z)) : forall e,
  engine_base e -> supported (Engine.propagator e) (Engine.wave e) ->
  (forall c t, (c, t) ∈ l -> Wave.get (Engine.wave e) c t = true ->
     0 <= t < Wave.patternCount (Engine.wave e)) ->
  engine_base (fold_left (fun e ct => OverlappingModel.ban e (fst ct) (snd ct)) l e) /\
  supported
    (Engine.propagator (fold_left (fun e ct => OverlappingModel.ban e (fst ct) (snd ct)) l e))
    (Engine.wave (fold_left (fun e ct => OverlappingModel.ban e (fst ct) (snd ct)) l e)).
Proof.
  induction l as [|[c t] l IH]; intros e Hb Hsup Hr; simpl; [done|].
  destruct (ban_supported e c t Hb Hsup) as [Hb1 Hsup1]; [apply Hr; left|].
  destruct (ban_spec e c t Hb) as (Hev & _); [apply Hr; left|].
  pose proof (evolved_static _ _ Hev) as (_&_&_&_&_&_&_&ET).
  apply IH; [done|done|].
  intros c' t' Hin Hget. rewrite ET. apply (Hr c' t'); [by right|].
  destruct (Wave.get (Engine.wave e) c' t') eqn:E; [done|].
  by rewrite (evolved_mono _ _ _ _ Hev E) in Hget.
Qed.

Lemma applyGroundConstraint_supported W H e e' :
  engine_base e -> supported (Engine.propagator e) (Engine.wave e) ->
  OverlappingModel.applyGroundConstraint W H (Wave.patternCount (Engine.wave e)) e = Ok e' ->
  engine_supported e'.
Proof.
  intros Hb Hsup. unfold OverlappingModel.applyGroundConstraint.
  rewrite ground_bans_eq.
  destruct (bans_supported (ground_pairs W H (Wave.patternCount (Engine.wave e))) e Hb Hsup)
    as [[Hs1 Hsv1] Hsup1].
  { intros c t Hin Hget. destruct Hb as [Hs _].
    destruct (ground_pairs_range W H _ c t (sh_T _ Hs) Hin) as [Hr H0].
    destruct (decide (t = -1)) as [->|]; [|lia].
    rewrite get_negative_pattern in Hget; [done|done|by apply H0]. }
  set (e1 := fold_left _ _ e) in *.
  intros ([[p' w'] ok] & Hprop & [= <-])%bind_Ok.
  destruct (propagate_spec _ _ Hs1 Hsv1)
    as (p2 & w2 & ok2 & rs & Hprop2 & Hperf & Ew' & Hsv' & Hcfg & Hdone & Hstop).
  rewrite Hprop in Hprop2. injection Hprop2 as <- <- <-.
  pose proof (removals_static (Engine.wave e1) rs) as (_&_&_&_&_&_&Esz&ET).
  rewrite <- Ew' in Esz, ET.
  assert (good_config p' w') as Hgc.
  { apply (good_config_static (Engine.propagator e1) (Engine.wave e1));
      [by destruct Hsup1|done|done|done|by eapply propagate_loop_length]. }
  split; [done|]. simpl. destruct ok.
  - right. unfold Propagator.propagate in Hprop.
    destruct (propagate_loop_support _ _ _ _ _ Hs1 Hsv1 Hsup1 Hprop) as (_ & _ & Hsup3 & Hz3 & _).
    done.
  - left. by apply Hstop.
Qed.

Lemma overlapping_new_supported pixels iw ih opts m :
  OverlappingModel.new pixels iw ih opts = Ok m ->
  OverlappingModel.patternCount m < 2147483648 ->
  0 <= opt_width opts -> 0 <= opt_height opts ->
  opt_width opts * opt_height opts <= 4294967296 ->
  engine_supported (OverlappingModel.engine m).
Proof.
  unfold OverlappingModel.new. intros H.
  apply bind_Ok in H as ([sample colors] & Hcol & H).
  apply bind_Ok in H as ([patterns weights] & Hpat & H).
  apply bind_Ok in H as (w0 & Hw & H).
  apply bind_Ok in H as (p0 & Hp & H).
  apply bind_Ok in H as (e' & Hg & [= <-]). simpl.
  intros HT HW HH Hsz.
  pose proof (extractPatterns_lengths _ _ _ _ _ _ _ _ _ Hpat) as Hlen.
  destruct (new_inv _ _ _ _ Hw) as (_&_&Esz&Hsz'&ET&_&_&_&Hs&Hf).
  assert (Wave.patternCount w0 = Z.of_nat (length patterns)) as ET' by (by rewrite ET, Hlen).
  destruct (new_serves _ _ _ _ _ _ w0 Hp) as [Hsv Hst];
    [apply data_wf_build|done|done|done|].
  destruct (new_supported _ _ _ _ _ _ w0 Hp) as [Hgc Hsup]; try done.
  { apply data_wf_build. }
  { apply build_data_sym. }
  { intros c t Hc Ht. rewrite Esz in Hc. by apply (Hf c Hc). }
  destruct (opt_ground opts).
  - rewrite <- ET' in Hg.
    apply (applyGroundConstraint_supported (opt_width opts) (opt_height opts)
             (Engine.mk w0 p0 (Random.new (opt_seed opts)) 0)); [done|done|exact Hg].
  - injection Hg as <-. split; [done|]. right. by split.
Qed.

Lemma overlapping_run_supported m0 m :
  overlapping_ok m0 -> engine_supported (OverlappingModel.engine m0) ->
  overlapping_run m0 m ->
  overlapping_ok m /\ engine_supported (OverlappingModel.engine m).
Proof.
  intros Hok0 Hsup0. induction 1 as [|m r m' _ [Hok Hsup] Hstep|m m' _ [Hok Hsup] Hcl].
  - done.
  - destruct (overlapping_step_spec m Hok) as (r0 & m1 & Hs1 & Hok1 & Hes & _).
    rewrite Hs1 in Hstep. injection Hstep as <- <-. split; [done|].
    destruct Hok as (Heok & _). by eapply step_supported.
  - destruct (overlapping_clear_spec m Hok) as (m1 & Hc1 & Hok1).
    rewrite Hc1 in Hcl. injection Hcl as <-. split; [done|].
    destruct Hok as (Heok & _ & ET & _).
    unfold OverlappingModel.clear in Hc1.
    apply bind_Ok in Hc1 as (e1 & He1 & Hc1).
    apply bind_Ok in Hc1 as (e2 & He2 & [= <-]).
    destruct Heok as ((Hs & _) & Hsv & _). destruct Hsup as [Hgc _].
    unfold Engine.clear in He1. apply bind_Ok in He1 as (p' & Hreset & [= <-]).
    destruct (reset_supported _ _ _ Hs Hsv Hgc Hreset) as [Hgc' Hsup'].
    destruct (reset_serves _ _ Hsv Hs) as (p1 & Hreset1 & Hsv1 & _ & Hst).
    rewrite Hreset in Hreset1. injection Hreset1 as <-.
    assert (engine_supported e2) as Hsup2.
    { destruct (OverlappingModel.ground m).
      - apply (applyGroundConstraint_supported (OverlappingModel.width m)
                 (OverlappingModel.height m)
                 (Engine.mk (Wave.clear (Engine.wave (OverlappingModel.engine m))) p'
                    (Engine.rng (OverlappingModel.engine m)) 0)).
        + split; [by apply clear_shape|done].
        + done.
        + simpl. by rewrite <- ET.
      - injection He2 as <-. split; [done|]. right. by split. }
    destruct m; simpl in *. done.
Qed.

(** ** Arc consistency of the two models *)

Lemma no_zero_cell_check w :
  forallb (fun j => negb (is0 (Wave.getRemainingCount w j)))
    (upto (Z.of_nat (length (EntropyMemo.patternCount (Wave.memo w))))) = true ->
  forall j, ~ zero_cell w j.
Proof.
  intros H j Hz. rewrite forallb_forall in H.
  pose proof Hz as Hj. unfold zero_cell, Wave.getRemainingCount in Hj. apply rd_Some in Hj.
  specialize (H j ltac:(by apply list_elem_of_In, elem_of_upto)).
  apply zero_cell_is0 in Hz. by rewrite Hz in H.
Qed.

Lemma loaded_input_ok tileElements neighborElements subset td (tiles : list (list Z)) :
  TilesetLoader.loadTileset tileElements neighborElements subset = Ok td ->
  length tiles = length (tileset_weights td) ->
  Z.of_nat (length tiles) < 4294967296 ->
  tiled_input_ok tiles (tileset_weights td) (tileset_propagatorData td) /\
  data_sym (Z.of_nat (length tiles)) (tileset_propagatorData td).
Proof.
  intros Hrun Hlen HT.
  destruct (loadTileset_inv _ _ _ _ Hrun)
    as (action & first & names & weights & dense & _ & -> & (_ & Hw & _) & Hdense & _).
  cbn [tileset_weights tileset_propagatorData] in *.
  assert (length tiles = length action) as E by congruence.
  split; [|rewrite E; by apply loaded_data_sym].
  split; [congruence|]. split; [done|]. rewrite E. apply sparse_wf.
Qed.

End ModelSupport.

(** ** The concrete runs *)

Module RunSupport.

#[local] Existing Instance ref_math.

Lemma stripes_rules_ok : tiled_input_ok [[0]; [1]] [1; 1]%float Run.stripes_rules.
Proof.
  split; [done|]. split; [in_range|].
  intros t d Ht Hd. simpl in Ht.
  assert (t = 0 \/ t = 1) as [-> | ->] by lia;
    assert (d = 0 \/ d = 1 \/ d = 2 \/ d = 3) as [-> | [-> | [-> | ->]]] by lia;
    eexists _, _; (split; [reflexivity|]); (split; [reflexivity|]);
    intros x Hx; simpl;
    repeat (apply elem_of_cons in Hx as [->|Hx]; [lia|]); by apply elem_of_nil in Hx.
Qed.

Lemma stripes_new_supported :
  shape (Engine.wave (SimpleTiledModel.engine Run.stripes_new)) /\
  serves (Engine.propagator (SimpleTiledModel.engine Run.stripes_new))
    (Engine.wave (SimpleTiledModel.engine Run.stripes_new)) /\
  supported (Engine.propagator (SimpleTiledModel.engine Run.stripes_new))
    (Engine.wave (SimpleTiledModel.engine Run.stripes_new)).
Proof.
  pose proof (tiled_new_inv _ _ _ _ _ _ Run.stripes_new stripes_rules_ok
                (ok_value_eq _ _)) as (((Hs & _) & Hsv & _) & _).
  split; [done|]. split; [done|].
  assert (engine_supported (SimpleTiledModel.engine Run.stripes_new))
    as [_ [(j & Hz)|[_ Hsup]]]; [|exfalso|done].
  - apply (tiled_new_supported [[0]; [1]] ["A"; "B"]%string 1 [1; 1]%float
             Run.stripes_rules (Run.row_options entropy_h 0) Run.stripes_new).
    + apply stripes_rules_ok.
    + apply data_symb_true. vm_compute. reflexivity.
    + in_range.
    + in_range.
    + in_range.
    + in_range.
    + apply ok_value_eq.
  - revert j Hz. apply no_zero_cell_check. vm_compute. reflexivity.
Qed.

Lemma stripes_banned_supported :
  shape (snd Run.stripes_banned) /\
  serves (fst Run.stripes_banned) (snd Run.stripes_banned) /\
  supported (fst Run.stripes_banned) (snd Run.stripes_banned).
Proof.
  destruct stripes_new_supported as (Hs & Hsv & Hsup).
  apply (supported_push _ _ 0 1 Hs Hsv Hsup); [in_range|in_range|].
  vm_compute. reflexivity.
Qed.

End RunSupport.
(* ===================================================================== *)
(** * Collapsed neighbours *)
(* ===================================================================== *)

Section OutputFacts.
Context {M : MathLib}.
Implicit Types (e : Engine.t) (p : Propagator.t) (w : Wave.t) (i j t c n : Z).

(** In an arc consistent wave, two collapsed cells that are neighbours hold
    patterns the lists allow side by side. *)
Lemma collapsed_fit p w :
  tracked w -> serves p w -> good_config p w -> arc_consistent p w ->
  forall n d c t',
    0 <= n < Wave.size w -> 0 <= d < 4 -> neighbor p n d = Some c ->
    Wave.isCollapsed w n = true -> Wave.isCollapsed w c = true ->
    allowed (Propagator.propagatorData p) (Wave.getObserved w n) d t' ->
    allowed (Propagator.propagatorData p) (Wave.getObserved w n) d (Wave.getObserved w c).
Proof.
  intros (Hs & Hc & _) (_ & Hdata & _) (HW & HH & Ewh & _) Harc n d c t' Hn Hd Hnb Hcn Hcc.
  intros (row & l & Hrow & Hl & Hin).
  destruct (neighbor_back p n d c HW HH) as [Hcr _]; [lia|done|done|]. rewrite Ewh in Hcr.
  destruct (proj2 (getObserved_spec w n Hc Hn) Hcn) as (t2 & E2 & Ht2 & Hg2 & _).
  rewrite E2 in *.
  assert (Propagator.data_at p t2 d = Ok l) as Hdat.
  { unfold Propagator.data_at. by rewrite Hrow, Hl. }
  destruct (Harc n t2 d c l Hn Ht2 Hd Hnb Hg2 Hdat) as (t & Hint & Hgt).
  { intros ->. by apply elem_of_nil in Hin. }
  destruct (Hdata t2 d Ht2 Hd) as (row' & l' & Hrow' & Hl' & Hrange).
  rewrite Hrow in Hrow'. injection Hrow' as <-. rewrite Hl in Hl'. injection Hl' as <-.
  destruct (proj2 (getObserved_spec w c Hc Hcr) Hcc) as (tc & Ec & _ & _ & Huniq).
  rewrite Ec, <- (Huniq t (Hrange t Hint) Hgt). by exists row, l.
Qed.

Lemma new_propagator_data W H T periodic pd p :
  Propagator.new W H T periodic pd = Ok p -> data_wf T pd ->
  Propagator.propagatorData p = pd.
Proof.
  unfold Propagator.new. destruct (_ || _); [done|]. intros Hinit Hd.
  destruct (initCompatible_ok
              (Propagator.mk pd (filled (W * H * T * 4) 0) (filled (W * H * T * 2) 0) 0
                 W H T periodic) Hd) as (c & Hc & _).
  rewrite Hc in Hinit. by injection Hinit as <-.
Qed.

(** ** The tiled model *)

Lemma tiled_new_data tiles tilenames tilesize weights pd opts m :
  tiled_input_ok tiles weights pd ->
  SimpleTiledModel.new tiles tilenames tilesize weights pd opts = Ok m ->
  Propagator.propagatorData (Engine.propagator (SimpleTiledModel.engine m)) = pd.
Proof.
  intros (_ & _ & Hd). unfold SimpleTiledModel.new. intros H.
  apply bind_Ok in H as (w0 & Hw & H).
  apply bind_Ok in H as (p0 & Hp & [= <-]). simpl.
  by eapply new_propagator_data.
Qed.

Lemma tiled_run_config m0 m :
  tiled_ok m0 -> tiled_run m0 m ->
  tiled_ok m /\
  same_config (Engine.propagator (SimpleTiledModel.engine m0))
    (Engine.propagator (SimpleTiledModel.engine m)).
Proof.
  intros Hok0. induction 1 as [|m r m' _ [Hok Hcfg] Hstep|m m' _ [Hok Hcfg] Hcl].
  - split; [done|apply same_config_refl].
  - destruct (tiled_step_spec m Hok) as (r0 & m1 & Hs1 & Hok1 & Hes & _).
    rewrite Hs1 in Hstep. injection Hstep as <- <-. split; [done|].
    destruct Hok as (Heok & _).
    destruct (step_spec (SimpleTiledModel.heuristic m) _ Heok)
      as (r1 & e1 & rs & Hstep1 & _ & _ & _ & Hc & _).
    rewrite Hes in Hstep1. injection Hstep1 as <- <-. by eapply same_config_trans.
  - destruct (tiled_clear_spec m Hok) as (m1 & Hc1 & Hok1).
    rewrite Hc1 in Hcl. injection Hcl as <-. split; [done|].
    destruct Hok as (Heok & _).
    destruct (engine_clear_spec _ Heok) as (e1 & He1 & _ & _ & Hc & _).
    unfold SimpleTiledModel.clear in Hc1. rewrite He1 in Hc1. injection Hc1 as <-.
    destruct m; simpl in *. by eapply same_config_trans.
Qed.

(** ** The overlapping model *)

Lemma overlapping_new_data pixels iw ih opts m :
  OverlappingModel.new pixels iw ih opts = Ok m ->
  Propagator.propagatorData (Engine.propagator (OverlappingModel.engine m)) =
    OverlappingModel.buildPropagator (OverlappingModel.N m) (OverlappingModel.patterns m) /\
  OverlappingModel.patternCount m = Z.of_nat (length (OverlappingModel.patterns m)).
Proof.
  unfold OverlappingModel.new. intros H.
  apply bind_Ok in H as ([sample colors] & Hcol & H).
  apply bind_Ok in H as ([patterns weights] & Hpat & H).
  apply bind_Ok in H as (w0 & Hw & H).
  apply bind_Ok in H as (p0 & Hp & H).
  apply bind_Ok in H as (e' & Hg & [= <-]). simpl. split; [|done].
  pose proof (new_propagator_data _ _ _ _ _ _ Hp (data_wf_build _ _)) as Epd.
  pose proof (extractPatterns_lengths _ _ _ _ _ _ _ _ _ Hpat) as Hlen.
  destruct (new_inv _ _ _ _ Hw) as (_&_&Esz&Hsz&ET&_&_&_&Hs&Hf).
  destruct (new_serves _ _ _ _ _ _ w0 Hp) as [Hsv Hst];
    [apply data_wf_build|done|done|by rewrite ET, Hlen|].
  destruct (opt_ground opts); [|by injection Hg as <-].
  destruct (applyGroundConstraint_spec (opt_width opts) (opt_height opts)
              (Engine.mk w0 p0 (Random.new (opt_seed opts)) 0))
    as (e1 & He1 & (rs & _ & _ & _ & (Epd1 & _)) & _); [done|].
  simpl in He1. rewrite ET, <- Hlen in He1. rewrite He1 in Hg. injection Hg as <-.
  by rewrite Epd1.
Qed.

Lemma overlapping_run_config m0 m :
  overlapping_ok m0 -> overlapping_run m0 m ->
  overlapping_ok m /\
  same_config (Engine.propagator (OverlappingModel.engine m0))
    (Engine.propagator (OverlappingModel.engine m)) /\
  OverlappingModel.patterns m = OverlappingModel.patterns m0 /\
  OverlappingModel.N m = OverlappingModel.N m0 /\
  OverlappingModel.patternCount m = OverlappingModel.patternCount m0.
Proof.
  intros Hok0. induction 1 as [|m r m' _ (Hok & Hcfg & Ep & En & ET) Hstep
                              |m m' _ (Hok & Hcfg & Ep & En & ET) Hcl].
  - split; [done|]. split; [apply same_config_refl|done].
  - destruct (overlapping_step_spec m Hok) as (r0 & m1 & Hs1 & Hok1 & Hes & Em).
    rewrite Hs1 in Hstep. injection Hstep as <- <-. split; [done|].
    destruct Hok as (Heok & _).
    destruct (step_spec (OverlappingModel.heuristic m) _ Heok)
      as (r1 & e1 & rs & Hstep1 & _ & _ & _ & Hc & _).
    rewrite Hes in Hstep1. injection Hstep1 as <- <-.
    split; [by eapply same_config_trans|]. rewrite Em. by destruct m.
  - destruct (overlapping_clear_spec m Hok) as (m1 & Hc1 & Hok1).
    rewrite Hc1 in Hcl. injection Hcl as <-. split; [done|].
    destruct Hok as (Heok & _ & ETw & _).
    destruct (engine_clear_spec _ Heok) as (e1 & He1 & Hok1' & Ew & Hc & _).
    unfold OverlappingModel.clear in Hc1. rewrite He1 in Hc1. simpl in Hc1.
    apply bind_Ok in Hc1 as (e2 & He2 & [= <-]).
    assert (same_config (Engine.propagator e1) (Engine.propagator e2)) as Hc2.
    { destruct (OverlappingModel.ground m); [|injection He2 as <-; apply same_config_refl].
      destruct Hok1' as ((Hs1 & _) & Hsv1 & _).
      destruct (applyGroundConstraint_spec (OverlappingModel.width m)
                  (OverlappingModel.height m) e1)
        as (e3 & He3 & (rs & _ & _ & _ & Hc3) & _); [done|].
      simpl in He3. rewrite Ew in He3. simpl in He3. rewrite <- ETw in He3.
      rewrite He3 in He2. by injection He2 as <-. }
    split; [by eapply same_config_trans, same_config_trans|]. by destruct m.
Qed.

End OutputFacts.

(* ===================================================================== *)
(** * The claims of the specification *)
(* ===================================================================== *)

(** ** Memoized scalars *)

(** C1, as amended: in every state a wave reaches from its construction by
    [remove], [collapse] and [clear] (with cell and pattern indices in
    range), and for every cell [i]: [remaining[i]] is the number of patterns
    the mask allows; [sum[i]] and [plogpSum[i]] are the totals of the
    construction minus the weights, respectively the [p log p] terms, of the
    patterns removed from the cell, subtracted one by one in the order of
    their removal; [logSum[i]] is the logarithm of [sum[i]] as long as
    nothing was removed or [sum[i] > 0]; and once a pattern was removed
    [entropy[i]] is [log(sum[i]) - plogpSum[i] / sum[i]] when [sum[i] > 0]
    and [0] otherwise. *)
Theorem wave_memo_incremental `{M : MathLib} (W H : Z) (ws : list float) (w : Wave.t) :
  Z.of_nat (length ws) < 4294967296 ->
  reachable W H ws w ->
  forall i, 0 <= i < Wave.size w ->
    Wave.getRemainingCount w i = Some (popcount w i) /\
    exists rs, memo_tracks w i rs.
Proof.
  intros HT Hw i Hi.
  destruct (tracked_reachable W H ws w HT Hw) as (_ & (_ & Hc) & Hm).
  split; [exact (Hc i Hi)|exact (Hm i Hi)].
Qed.

Lemma wave_memo_incremental_witness :
  Wave.getRemainingCount Run.thirds 0 = Some (popcount Run.thirds 0) /\
  exists rs, memo_tracks (M := ref_math) Run.thirds 0 rs.
Proof.
  apply (wave_memo_incremental (M := ref_math) 1 1 Run.thirds_weights).
  - in_range.
  - apply RunFacts.thirds_reachable.
  - in_range.
Defined.

(** C1, as stated, fails: with the weights 0.1, 0.2 and 0.3 in one cell,
    removing pattern 0 leaves the memoized sum at (0.1 + 0.2 + 0.3) - 0.1,
    which is not the sum 0.2 + 0.3 of the patterns still possible. *)
Lemma memo_recompute_counterexample :
  reachable (M := ref_math) 1 1 Run.thirds_weights Run.thirds /\
  ~ memo_matches_recompute (M := ref_math) Run.thirds 0.
Proof.
  split; [apply RunFacts.thirds_reachable|].
  intros (_ & Hsum & _).
  apply (f_equal (fun o => PrimFloat.eqb (num o) 0.5)) in Hsum.
  vm_compute in Hsum. discriminate Hsum.
Qed.

(** C8, evaluated where it fails: with two patterns of weight 1 in one
    cell, removing pattern 1 leaves one pattern and a memoized entropy of
    about 0.3466, not 0. *)
Theorem single_pattern_entropy :
  reachable (M := ref_math) 1 1 [1; 1]%float Run.halves /\
  Wave.getRemainingCount Run.halves 0 = Some 1 /\
  exists e, Wave.getEntropy Run.halves 0 = Some e /\
            PrimFloat.ltb 0.34 e = true /\ PrimFloat.ltb e 0.35 = true.
Proof.
  split; [apply RunFacts.halves_reachable|]. split; [vm_compute; reflexivity|].
  eexists. split; [vm_compute; reflexivity|]. split; vm_compute; reflexivity.
Qed.

(** ** The generator *)

(** C4, evaluated where it fails: from seed 0 the first three outputs are
    those of mulberry32, and the 4917759th output is not: by then the
    state, which [next] adds to without reducing it, has passed 2^53 and is
    no longer the exact sum. *)
Theorem random_departs_from_mulberry32 :
  Random.outputs 3 (Random.new 0) =
    map (fun n => fst (Mulberry32.next (Mulberry32.after n 0))) [0; 1; 2]%N /\
  fst (Random.next (Random.after 4917758 (Random.new 0))) = 0.56599883455783129%float /\
  fst (Mulberry32.next (Mulberry32.after 4917758 0)) = 0.87717664521187544%float.
Proof.
  split; [vm_compute; reflexivity|]. split.
  - change (fst (Random.next (Random.after 4917758 (Random.new 0))))
      with (PrimFloat.div
              (Z_to_float
                 (Random.mix
                    (ToUint32
                       (PrimFloat.add (Random.state (Random.after 4917758 (Random.new 0)))
                          0x6d2b79f5))))
              4294967296).
    rewrite Random_after_state. vm_compute. reflexivity.
  - unfold Mulberry32.next. rewrite Mulberry32_after by lia. vm_compute. reflexivity.
Qed.

(** ** Masks *)

(** C10: in a state a wave has reached, [remove] and [collapse] (with
    indices in range), [propagate] and [step] leave every pattern that is
    not possible in a cell impossible, and leave no cell with more remaining
    patterns than it had.  ([addToPropagate] and the queries do not take or
    return a wave.) *)
Theorem masks_shrink `{M : MathLib} (w : Wave.t) :
  tracked w ->
  (forall j t, 0 <= j < Wave.size w -> 0 <= t < Wave.patternCount w ->
     shrinks w (fst (Wave.remove w j t))) /\
  (forall j rng, 0 <= j < Wave.size w -> shrinks w (fst (fst (Wave.collapse w j rng)))) /\
  (forall p p' w' ok,
     serves p w -> Propagator.propagate p w = Ok (p', w', ok) -> shrinks w w') /\
  (forall h e r e',
     Engine.wave e = w -> engine_ok e -> Engine.step h e = Ok (r, e') ->
     shrinks w (Engine.wave e')).
Proof.
  intros Htr. split_and!.
  - intros j t Hj Ht. by apply shrinks_remove.
  - intros j rng Hj. by apply shrinks_collapse.
  - intros p p' w' ok Hsv Hrun. by eapply shrinks_propagate.
  - intros h e r e' <- Hok Hstep.
    destruct (step_answers h e Hok) as (r0 & e0 & Hstep0 & _ & _ & Hsh & _).
    rewrite Hstep0 in Hstep. by injection Hstep as <- <-.
Qed.

Lemma masks_shrink_witness :
  shrinks Run.thirds (fst (Wave.remove (M := ref_math) Run.thirds 0 1)).
Proof.
  refine (proj1 (masks_shrink (M := ref_math) Run.thirds _) 0 1 _ _).
  - apply (tracked_reachable 1 1 Run.thirds_weights); [in_range|apply RunFacts.thirds_reachable].
  - in_range.
  - in_range.
Defined.

(** ** The entropy heuristic *)

(** C5, as amended: when [getMinEntropyCell] answers a cell, the cell is
    open (neither collapsed nor at zero), every open cell has a key (its
    entropy, plus the noise drawn for it when the loop draws one), and no
    key is below the key of the answered cell.  A cell of lower entropy can
    lose to one of higher entropy when the noise outweighs the gap. *)
Theorem min_entropy_cell_least_key `{M : MathLib} (w : Wave.t) (rng : Random.t) (c : Z) :
  fst (Wave.getMinEntropyCell w rng) = c -> 0 <= c ->
  let ks := minEntropy_keys w (upto (Wave.size w)) infinity rng in
  (0 <= c < Wave.size w /\ Wave.isCollapsed w c = false /\ ~ zero_cell w c) /\
  (forall j, 0 <= j < Wave.size w -> Wave.isCollapsed w j = false ->
     exists kj, (j, kj) ∈ ks) /\
  exists k, (c, k) ∈ ks /\ forall j kj, (j, kj) ∈ ks -> PrimFloat.ltb kj k = false.
Proof.
  intros Hc Hpos ks. unfold Wave.getMinEntropyCell in Hc.
  pose proof (minEntropy_loop_spec w (upto (Wave.size w)) infinity (-1) rng) as Hscan.
  rewrite Hc in Hscan.
  destruct Hscan as [[-> _]|[Hnz [->|[Hin Hopen]]]]; [lia| lia|].
  split; [|split].
  - split; [by apply elem_of_upto|]. split; [exact Hopen|].
    intros Hz. apply zero_cell_is0 in Hz. rewrite (Hnz c Hin) in Hz. discriminate Hz.
  - intros j Hj Hjo. apply minEntropy_keys_cover; [exact Hnz|by apply elem_of_upto|exact Hjo].
  - destruct (minEntropy_loop_keys w (upto (Wave.size w)) infinity (-1) rng c Hc)
      as [[-> _]|(k & Hk & _ & Hall)]; [lia|lia|].
    exists k. split; [exact Hk|exact Hall].
Qed.

Lemma min_entropy_cell_least_key_witness :
  exists k,
    (1, k) ∈ minEntropy_keys Run.dyadic (upto (Wave.size Run.dyadic)) infinity (Random.new 3) /\
    forall j kj,
      (j, kj) ∈ minEntropy_keys Run.dyadic (upto (Wave.size Run.dyadic)) infinity (Random.new 3) ->
      PrimFloat.ltb kj k = false.
Proof.
  refine (proj2 (proj2 (min_entropy_cell_least_key (M := ref_math) Run.dyadic (Random.new 3) 1 _ _))).
  - vm_compute. reflexivity.
  - lia.
Defined.

(** C5, as stated, fails: with the weights 1/2, 1/4, 1/8, 1/16 and 1/16,
    cell 0 left with patterns 0 and 1 and cell 1 left with patterns 3 and
    4, both cells are open and cell 0 has the lower entropy (about 0.6365
    against 0.6931), yet from seed 3 the heuristic answers cell 1.  The
    noise scale is 0.0866, more than the gap; the generator gives 0.7202 to
    cell 0 and 0.0387 to cell 1, so the keys are 0.6989 and 0.6965. *)
Lemma min_entropy_counterexample :
  reachable (M := ref_math) 2 1 Run.dyadic_weights Run.dyadic /\
  Wave.isCollapsed Run.dyadic 0 = false /\ Wave.isCollapsed Run.dyadic 1 = false /\
  PrimFloat.ltb (num (Wave.getEntropy Run.dyadic 0)) (num (Wave.getEntropy Run.dyadic 1)) = true /\
  fst (Wave.getMinEntropyCell Run.dyadic (Random.new 3)) = 1.
Proof.
  split; [apply RunFacts.dyadic_reachable|].
  split_and!; vm_compute; reflexivity.
Qed.

(** ** The ground constraint *)



(** ** Propagation within a step *)

(** C7, as amended: when [step] answers [continue], the propagator's stack
    is empty; when it answers [success], it has not touched the propagator;
    and whenever it returns with no cell at zero, the stack is empty.  When
    it answers [failure], [propagate] may have stopped at the contradiction
    with removals still on the stack. *)
Theorem step_leaves_stack `{M : MathLib} :
  (forall m r m',
     overlapping_reachable m -> OverlappingModel.step m = Ok (r, m') ->
     let e' := OverlappingModel.engine m' in
     (r = continue -> Propagator.stackSize (Engine.propagator e') = 0) /\
     (r = success ->
      Engine.propagator e' = Engine.propagator (OverlappingModel.engine m)) /\
     ((forall j, ~ zero_cell (Engine.wave e') j) ->
      Propagator.stackSize (Engine.propagator e') = 0)) /\
  (forall m r m',
     tiled_reachable m -> SimpleTiledModel.step m = Ok (r, m') ->
     let e' := SimpleTiledModel.engine m' in
     (r = continue -> Propagator.stackSize (Engine.propagator e') = 0) /\
     (r = success ->
      Engine.propagator e' = Engine.propagator (SimpleTiledModel.engine m)) /\
     ((forall j, ~ zero_cell (Engine.wave e') j) ->
      Propagator.stackSize (Engine.propagator e') = 0)).
Proof.
  split; intros m r m' Hm Hstep e'.
  - destruct (overlapping_reachable_ok m' (or_step m r m' Hm Hstep)) as (_ & Hset & _).
    destruct (overlapping_reachable_ok m Hm) as (Hok & _).
    destruct (step_answers (OverlappingModel.heuristic m) _ Hok)
      as (r0 & e0 & Hstep0 & _ & _ & _ & _ & Hcont & Hsucc & _).
    unfold OverlappingModel.step in Hstep. rewrite Hstep0 in Hstep.
    simpl in Hstep. injection Hstep as <- <-. subst e'. simpl in *.
    split; [done|]. split; [done|].
    intros Hnz. destruct Hset as [Hst|[j Hz]]; [done|by destruct (Hnz j)].
  - destruct (tiled_reachable_ok m' (tr_step m r m' Hm Hstep)) as (_ & Hset & _).
    destruct (tiled_reachable_ok m Hm) as (Hok & _).
    destruct (step_answers (SimpleTiledModel.heuristic m) _ Hok)
      as (r0 & e0 & Hstep0 & _ & _ & _ & _ & Hcont & Hsucc & _).
    unfold SimpleTiledModel.step in Hstep. rewrite Hstep0 in Hstep.
    simpl in Hstep. injection Hstep as <- <-. subst e'. simpl in *.
    split; [done|]. split; [done|].
    intros Hnz. destruct Hset as [Hst|[j Hz]]; [done|by destruct (Hnz j)].
Qed.

Lemma step_leaves_stack_witness :
  fst Run.row_scanline_1 = continue /\
  Propagator.stackSize
    (Engine.propagator (SimpleTiledModel.engine (snd Run.row_scanline_1))) = 0.
Proof.
  split; [vm_compute; reflexivity|].
  refine (proj1 (proj2 (step_leaves_stack (M := ref_math)) Run.row_scanline
                   (fst Run.row_scanline_1) (snd Run.row_scanline_1) _ _) _).
  - apply RunFacts.row_scanline_reachable.
  - apply ok_value_pair.
  - vm_compute. reflexivity.
Defined.

(** C7, as stated, fails: on a row of two cells with the tiles A and B,
    where B may follow A and B may follow B, the first step from seed 0
    under the entropy heuristic collapses cell 1 to A; [propagate] removes A
    and then B from cell 0, pushes both and returns at the contradiction.
    [step] answers [failure] with two removals on the stack. *)
Lemma step_failure_leaves_stack :
  tiled_reachable (M := ref_math) Run.row_entropy /\
  SimpleTiledModel.step (M := ref_math) Run.row_entropy = Ok Run.row_entropy_1 /\
  fst Run.row_entropy_1 = failure /\
  Propagator.stackSize
    (Engine.propagator (SimpleTiledModel.engine (snd Run.row_entropy_1))) = 2.
Proof.
  split; [apply RunFacts.row_entropy_reachable|].
  split; [apply ok_value_eq|]. split; vm_compute; reflexivity.
Qed.

(** ** The answers of [step] *)






(** ** Construction *)




(* ===================================================================== *)
(** * Further properties of the code *)
(* ===================================================================== *)

(** ** The wave *)

(** [Wave.clear] returns a wave, whatever was removed from it since its
    construction, to exactly the state the constructor built. *)
Theorem clear_restores_construction `{M : MathLib} (W H : Z) (ws : list float)
    (w0 w : Wave.t) :
  Wave.new W H ws = Ok w0 -> reachable W H ws w -> Wave.clear w = w0.
Proof.
  intros Hnew Hw. destruct (reachable_static W H ws w0 w Hnew Hw) as [Hst Hs].
  rewrite (clear_same w0 w Hst); [by eapply new_clear| |done].
  by destruct (new_inv _ _ _ _ Hnew) as (_&_&_&_&_&_&_&_&?&_).
Qed.

Lemma clear_restores_construction_witness :
  Wave.clear (M := ref_math) Run.thirds = Run.thirds_new.
Proof.
  apply (clear_restores_construction (M := ref_math) 1 1 Run.thirds_weights).
  - apply ok_value_eq.
  - apply RunFacts.thirds_reachable.
Defined.

(** [Wave.getObserved] on a cell of a wave whose counts are right: [-1]
    when the cell is not collapsed; otherwise the one pattern the cell still
    allows. *)
Theorem getObserved_is_the_pattern `{M : MathLib} (w : Wave.t) (c : Z) :
  tracked w -> 0 <= c < Wave.size w ->
  (Wave.isCollapsed w c = false -> Wave.getObserved w c = -1) /\
  (Wave.isCollapsed w c = true ->
   exists t, Wave.getObserved w c = t /\ 0 <= t < Wave.patternCount w /\
             Wave.get w c t = true /\
             forall t', 0 <= t' < Wave.patternCount w -> Wave.get w c t' = true -> t' = t).
Proof. intros (_ & Hc & _) Hi. by apply getObserved_spec. Qed.

Lemma getObserved_is_the_pattern_witness :
  exists t, Wave.getObserved Run.halves 0 = t /\ 0 <= t < Wave.patternCount Run.halves /\
            Wave.get Run.halves 0 t = true /\
            forall t', 0 <= t' < Wave.patternCount Run.halves ->
                       Wave.get Run.halves 0 t' = true -> t' = t.
Proof.
  refine (proj2 (getObserved_is_the_pattern (M := ref_math) Run.halves 0 _ _) _).
  - apply (tracked_reachable 1 1 [1; 1]%float); [in_range|apply RunFacts.halves_reachable].
  - in_range.
  - vm_compute. reflexivity.
Defined.

(** ** [getState] *)

(** [getState] agrees with the wave's own queries: [isComplete] is
    [isFullyCollapsed()], [hasContradiction] is [hasContradiction()], and
    [collapsedCount] is the number of collapsed cells, between 0 and
    [totalCells]. *)
Theorem getState_agrees_with_wave (T : Z) (e : Engine.t) :
  0 <= Wave.size (Engine.wave e) ->
  let w := Engine.wave e in
  let st := Engine.getState T e in
  totalCells st = Wave.size w /\ statePatternCount st = T /\
  collapsedCount st =
    Z.of_nat (length (filter (fun i => Wave.isCollapsed w i = true) (upto (Wave.size w)))) /\
  0 <= collapsedCount st <= totalCells st /\
  isComplete st = Wave.isFullyCollapsed w /\
  hasContradiction st = Wave.hasContradiction w.
Proof.
  intros Hsz w st. subst st w. unfold Engine.getState.
  rewrite (getState_loop (Engine.wave e) (upto (Wave.size (Engine.wave e))) 0 false). simpl.
  set (w := Engine.wave e) in *. set (n := length (filter _ _)).
  assert (Z.of_nat (length (upto (Wave.size w))) = Wave.size w) as Hlen.
  { unfold upto. rewrite length_seqZ. lia. }
  pose proof (length_filter (fun i => Wave.isCollapsed w i = true) (upto (Wave.size w))) as Hle.
  fold n in Hle.
  split; [done|]. split; [done|]. split; [done|]. split; [lia|]. split; [|done].
  unfold Wave.isFullyCollapsed. rewrite Z.add_0_l.
  destruct (Z.eqb_spec (Z.of_nat n) (Wave.size w)) as [E|E]; symmetry.
  - apply forallb_forall. intros x Hx%list_elem_of_In.
    assert (Forall (fun i => Wave.isCollapsed w i = true) (upto (Wave.size w))) as Hall
      by (apply (proj1 (filter_length_all _ _)); fold n; lia).
    rewrite Forall_forall in Hall. exact (Hall x Hx).
  - apply not_true_is_false. intros Hall. rewrite forallb_forall in Hall.
    assert (Forall (fun i => Wave.isCollapsed w i = true) (upto (Wave.size w))) as HF.
    { apply Forall_forall. intros x Hx. apply Hall. by apply list_elem_of_In. }
    apply (proj2 (filter_length_all _ _)) in HF. fold n in HF. lia.
Qed.

Lemma getState_agrees_with_wave_witness :
  isComplete (SimpleTiledModel.getState (snd Run.row_scanline_1)) =
  Wave.isFullyCollapsed (Engine.wave (SimpleTiledModel.engine (snd Run.row_scanline_1))).
Proof.
  refine (proj1 (proj2 (proj2 (proj2 (proj2
            (getState_agrees_with_wave _ (SimpleTiledModel.engine (snd Run.row_scanline_1)) _)))))).
  in_range.
Defined.

(** [Wave.remove(i, t)] on a wave whose counts are right, with indices in
    range: it answers whether [t] was possible in cell [i]; afterwards [t]
    is not possible there, every other pattern of every cell is as before,
    the count of cell [i] has dropped by one exactly when [t] was possible,
    the other counts are unchanged, and a second removal changes
    nothing. *)
Theorem remove_clears_one_pattern `{M : MathLib} (w : Wave.t) (i t : Z) :
  tracked w -> 0 <= i < Wave.size w -> 0 <= t < Wave.patternCount w ->
  let w' := fst (Wave.remove w i t) in
  snd (Wave.remove w i t) = Wave.get w i t /\
  Wave.get w' i t = false /\
  (forall j t', 0 <= t' < Wave.patternCount w -> j <> i \/ t' <> t ->
                Wave.get w' j t' = Wave.get w j t') /\
  Wave.getRemainingCount w' i =
    Some (popcount w i - (if Wave.get w i t then 1 else 0)) /\
  (forall j, 0 <= j < Wave.size w -> j <> i ->
             Wave.getRemainingCount w' j = Wave.getRemainingCount w j) /\
  Wave.remove w' i t = (w', false).
Proof.
  intros Htr Hi Ht w'. pose proof (tracked_remove w i t Htr Hi Ht) as Htr'.
  destruct Htr as (Hs & (HT & Hc) & _). destruct Htr' as (Hs' & (HT' & Hc') & _).
  destruct (remove_static w i t) as (_&_&_&_&_&_&Esz&ET). fold w' in Hs', Hc', Esz, ET.
  split; [by apply remove_answer|]. split; [apply remove_get_at|].
  split; [|split; [|split]].
  - intros j t' Ht' Hne. apply remove_get_other. intros E.
    destruct (cell_pattern_index _ _ _ _ _ Ht Ht' E). lia.
  - unfold Wave.getRemainingCount. rewrite (Hc' i) by (by rewrite Esz). f_equal.
    destruct (Wave.get w i t) eqn:Hg.
    + by apply remove_popcount_at.
    + unfold w'. rewrite remove_noop by done. simpl. lia.
  - intros j Hj Hne. unfold Wave.getRemainingCount.
    rewrite (Hc' j) by (by rewrite Esz). rewrite (Hc j Hj). f_equal.
    by apply remove_popcount_other.
  - apply remove_noop; [done|by rewrite Esz|by rewrite ET|apply remove_get_at].
Qed.

Lemma remove_clears_one_pattern_witness :
  Wave.getRemainingCount (fst (Wave.remove (M := ref_math) Run.thirds 0 1)) 0 =
  Some (popcount Run.thirds 0 - (if Wave.get Run.thirds 0 1 then 1 else 0)).
Proof.
  refine (proj1 (proj2 (proj2 (proj2
            (remove_clears_one_pattern (M := ref_math) Run.thirds 0 1 _ _ _))))).
  - apply (tracked_reachable 1 1 Run.thirds_weights); [in_range|apply RunFacts.thirds_reachable].
  - in_range.
  - in_range.
Defined.

(** [Wave.collapse(c, rng)] on a wave whose counts are right: on a cell
    with no pattern left it answers [-1] and changes nothing; on a collapsed
    cell it answers the cell's pattern, changes nothing and draws no random
    number; on an open cell it draws one random number and answers a pattern
    that was possible, after which the cell is collapsed to that pattern and
    the other cells are as before. *)
Theorem collapse_leaves_selected `{M : MathLib} (w : Wave.t) (c : Z) (rng : Random.t) :
  tracked w -> 0 <= c < Wave.size w ->
  (zero_cell w c -> Wave.collapse w c rng = (w, -1, rng)) /\
  (Wave.isCollapsed w c = true -> Wave.collapse w c rng = (w, Wave.getObserved w c, rng)) /\
  (~ zero_cell w c -> Wave.isCollapsed w c = false ->
   exists w' sel,
     Wave.collapse w c rng = (w', sel, snd (Random.next rng)) /\
     0 <= sel < Wave.patternCount w /\ Wave.get w c sel = true /\
     Wave.getRemainingCount w' c = Some 1 /\ Wave.getObserved w' c = sel /\
     (forall t, 0 <= t < Wave.patternCount w -> Wave.get w' c t = bool_decide (t = sel)) /\
     (forall j t, j <> c -> 0 <= t < Wave.patternCount w -> Wave.get w' j t = Wave.get w j t)).
Proof.
  intros Htr Hi. destruct (collapse_closed w c rng) as [Hz Hone].
  split; [exact Hz|]. split; [exact Hone|]. intros Hnz Hopen.
  pose proof Htr as (Hs & Hc & _).
  destruct (collapse_open w c rng Hs Hc Hi) as (sel & Ecol & Hsel & Hg).
  { apply not_true_is_false. intros H0. by apply Hnz, zero_cell_is0. }
  { exact Hopen. }
  set (ts := filter (fun q => q <> sel) (Wave.getPossiblePatterns w c)) in *.
  destruct (collapse_count w c sel Hs Hc Hi Hsel Hg) as [_ Hone'].
  specialize (Hone' Hs Htr). fold ts in Hone'.
  assert (forall t, t ∈ ts <-> (0 <= t < Wave.patternCount w /\ Wave.get w c t = true) /\ t <> sel)
    as Hts.
  { intros t. unfold ts. rewrite list_elem_of_filter, possible_iff. tauto. }
  assert (tracked (removes w c ts)) as Htr'.
  { apply tracked_removes; [done|done|]. intros t Ht. by apply Hts in Ht as [[? _] _]. }
  destruct (removes_static w c ts) as (_&_&_&_&_&_&Esz&ET).
  assert (forall t, 0 <= t < Wave.patternCount w ->
                    Wave.get (removes w c ts) c t = bool_decide (t = sel)) as Hmask.
  { intros t Ht. destruct (decide (t = sel)) as [->|Hne].
    - rewrite bool_decide_eq_true_2 by done. rewrite removes_get_other; [done|done|].
      intros t' Hin. apply Hts in Hin as [[? _] ?]. split; [done|by right].
    - rewrite bool_decide_eq_false_2 by done.
      destruct (Wave.get w c t) eqn:Hgt.
      + apply removes_get_at. apply Hts. by split.
      + apply not_true_is_false. rewrite removes_removals. intros Hg'%removals_get_mono.
        congruence. }
  exists (removes w c ts), sel. split; [exact Ecol|]. split; [done|]. split; [done|].
  split; [done|]. split; [|split; [done|]].
  - destruct (getObserved_spec (removes w c ts) c) as [_ Hobs];
      [by destruct Htr' as (_ & ? & _)|by rewrite Esz|].
    destruct Hobs as (t & Eobs & Ht & Hgt & Huniq).
    { unfold Wave.isCollapsed. apply is1_true. exact Hone'. }
    rewrite Eobs. symmetry. apply Huniq; [by rewrite ET|].
    rewrite Hmask by done. by apply bool_decide_eq_true_2.
  - intros j t Hne Ht. apply removes_get_other; [done|].
    intros t' Hin. apply Hts in Hin as [[? _] _]. split; [done|by left].
Qed.

Lemma collapse_leaves_selected_witness :
  Wave.collapse (M := ref_math) Run.halves 0 (Random.new 5) =
  (Run.halves, Wave.getObserved Run.halves 0, Random.new 5).
Proof.
  refine (proj1 (proj2 (collapse_leaves_selected (M := ref_math) Run.halves 0 (Random.new 5) _ _)) _).
  - apply (tracked_reachable 1 1 [1; 1]%float); [in_range|apply RunFacts.halves_reachable].
  - in_range.
  - vm_compute. reflexivity.
Defined.

(** ** The propagator one pair at a time *)

(** [propagateStep] on an empty stack reports [done] and changes nothing;
    otherwise it does what one turn of the loop of [propagate] does to the
    propagator and the wave, reports the contradiction when that turn stops
    at one, and reports [done] when the turn leaves the stack empty. *)
Theorem propagateStep_is_one_turn `{M : MathLib} (p : Propagator.t) (w : Wave.t) :
  (Propagator.stackSize p = 0 ->
   Propagator.propagateStep p w = Ok (p, w, Propagator.mkStepResult true false [])) /\
  (Propagator.stackSize p <> 0 ->
   match Propagator.propagate_pop p w with
   | Ok (p', w', flag) =>
       exists aff,
         Propagator.propagateStep p w =
         Ok (p', w',
             Propagator.mkStepResult (negb flag && (Propagator.stackSize p' =? 0)) flag aff)
   | Throw err => Propagator.propagateStep p w = Throw err
   end).
Proof.
  split; [|apply propagateStep_pop].
  intros E. unfold Propagator.propagateStep. by rewrite E.
Qed.

Lemma propagateStep_is_one_turn_witness :
  let p := Engine.propagator (SimpleTiledModel.engine (snd Run.row_entropy_1)) in
  let w := Engine.wave (SimpleTiledModel.engine (snd Run.row_entropy_1)) in
  match Propagator.propagate_pop (M := ref_math) p w with
  | Ok (p', w', flag) =>
      exists aff,
        Propagator.propagateStep (M := ref_math) p w =
        Ok (p', w',
            Propagator.mkStepResult (negb flag && (Propagator.stackSize p' =? 0)) flag aff)
  | Throw err => Propagator.propagateStep (M := ref_math) p w = Throw err
  end.
Proof.
  intros p w. refine (proj2 (propagateStep_is_one_turn (M := ref_math) p w) _).
  vm_compute. discriminate.
Defined.

(** Calling [propagateStep] until it reports [done] or a contradiction
    leaves the propagator and the wave as one call of [propagate] does, with
    [propagate]'s answer. *)
Theorem drive_is_propagate `{M : MathLib} (p : Propagator.t) (w : Wave.t) :
  shape w -> serves p w ->
  drive (Propagator.turns p w) p w = Propagator.propagate p w.
Proof.
  intros Hs Hsv.
  destruct (propagate_spec p w Hs Hsv) as (p' & w' & ok & rs & Erun & _).
  rewrite <- propagate_loop_drive by done.
  rewrite Erun. apply propagate_loop_more. exact Erun.
Qed.

Lemma drive_is_propagate_witness :
  let p := Engine.propagator (SimpleTiledModel.engine (snd Run.row_entropy_1)) in
  let w := Engine.wave (SimpleTiledModel.engine (snd Run.row_entropy_1)) in
  drive (M := ref_math) (Propagator.turns p w) p w = Propagator.propagate (M := ref_math) p w.
Proof.
  intros p w.
  destruct (tiled_reachable_ok (M := ref_math) _ RunFacts.row_entropy_1_reachable)
    as (((Hs & _) & Hsv & _) & _).
  exact (drive_is_propagate (M := ref_math) p w Hs Hsv).
Defined.

(** ** [run] *)

(** [run(maxSteps)] returns, in both models and for every [maxSteps], the
    negative ones included: each step that answers [continue] collapses a
    cell, so the loop takes at most one step per cell and one more.  When
    it returns [false] some cell has no pattern left; when it returns
    [true] with a negative [maxSteps], its last step answered [success]; in
    all cases no pattern has been added to any cell. *)
Theorem run_returns `{M : MathLib} :
  (forall m maxSteps,
     overlapping_reachable m ->
     exists b m',
       OverlappingModel.run maxSteps m = Ok (b, m') /\
       let w := Engine.wave (OverlappingModel.engine m) in
       let e' := OverlappingModel.engine m' in
       shrinks w (Engine.wave e') /\
       (b = false -> exists j, zero_cell (Engine.wave e') j) /\
       (b = true -> maxSteps < 0 ->
        exists e1, engine_ok e1 /\
                   Engine.step (OverlappingModel.heuristic m) e1 = Ok (success, e'))) /\
  (forall m maxSteps,
     tiled_reachable m ->
     exists b m',
       SimpleTiledModel.run maxSteps m = Ok (b, m') /\
       let w := Engine.wave (SimpleTiledModel.engine m) in
       let e' := SimpleTiledModel.engine m' in
       shrinks w (Engine.wave e') /\
       (b = false -> exists j, zero_cell (Engine.wave e') j) /\
       (b = true -> maxSteps < 0 ->
        exists e1, engine_ok e1 /\
                   Engine.step (SimpleTiledModel.heuristic m) e1 = Ok (success, e'))).
Proof.
  split; intros m maxSteps Hm.
  - destruct (overlapping_reachable_ok m Hm) as (Hok & Hset & _).
    destruct (run_loop_spec (OverlappingModel.heuristic m)
                (S (Z.to_nat (Wave.size (Engine.wave (OverlappingModel.engine m)))))
                maxSteps 0 _ Hok Hset)
      as (b & e' & Erun & _ & _ & Hsh & _ & Hb & Hs).
    { pose proof (opens_le_size (Engine.wave (OverlappingModel.engine m))). lia. }
    exists b, (OverlappingModel.with_engine m e').
    unfold OverlappingModel.run, Engine.run. rewrite Erun. simpl. by split.
  - destruct (tiled_reachable_ok m Hm) as (Hok & Hset & _).
    destruct (run_loop_spec (SimpleTiledModel.heuristic m)
                (S (Z.to_nat (Wave.size (Engine.wave (SimpleTiledModel.engine m)))))
                maxSteps 0 _ Hok Hset)
      as (b & e' & Erun & _ & _ & Hsh & _ & Hb & Hs).
    { pose proof (opens_le_size (Engine.wave (SimpleTiledModel.engine m))). lia. }
    exists b, (SimpleTiledModel.with_engine m e').
    unfold SimpleTiledModel.run, Engine.run. rewrite Erun. simpl. by split.
Qed.

Lemma run_returns_witness :
  exists b m', SimpleTiledModel.run (M := ref_math) (-1) Run.row_scanline = Ok (b, m').
Proof.
  destruct (proj2 (run_returns (M := ref_math)) Run.row_scanline (-1)
              RunFacts.row_scanline_reachable) as (b & m' & E & _).
  by exists b, m'.
Defined.

(** ** The overlapping model's input *)

(** [extractColors] builds a palette and an index sample that decode back
    to the pixels: the palette lists each colour of the image once and
    nothing else, the sample has [width * height] cells, and the cell of
    pixel [j] holds the palette index of that pixel's colour, reduced modulo
    256 by the byte array; with at most 256 colours it is that index. *)
Theorem extractColors_round_trip (pixels : list Z) (iw ih : Z) (sample colors : list Z) :
  OverlappingModel.extractColors pixels iw ih = Ok (sample, colors) ->
  Z.of_nat (length sample) = iw * ih /\
  NoDup colors /\
  (forall c, c ∈ colors <-> c ∈ pixels) /\
  (forall j, 0 <= j < Z.of_nat (length pixels) -> j < iw * ih ->
     exists idx, rd colors idx = rd pixels j /\ rd sample j = Some (idx mod 256)) /\
  ((length colors <= 256)%nat ->
   forall j, 0 <= j < Z.of_nat (length pixels) -> j < iw * ih ->
     exists idx, rd sample j = Some idx /\ rd colors idx = rd pixels j).
Proof.
  intros Hrun. destruct (extractColors_spec _ _ _ _ _ Hrun) as (Hlen & Hnd & Hin & Hdec).
  split_and!; try done.
  intros Hc j Hj Hj'. destruct (Hdec j Hj Hj') as (idx & Hidx & Hs).
  exists idx. split; [|done]. rewrite Hs. f_equal. apply Z.mod_small.
  destruct (rd_is_Some pixels j Hj) as [v Hv]. rewrite Hv in Hidx.
  apply rd_Some in Hidx. lia.
Qed.

Lemma extractColors_round_trip_witness :
  exists idx, rd [0; 1; 0; 2] 3 = Some idx /\ rd [5; 7; 9] idx = rd [5; 7; 5; 9] 3.
Proof.
  refine (proj2 (proj2 (proj2 (proj2
    (extractColors_round_trip [5; 7; 5; 9] 2 2 [0; 1; 0; 2] [5; 7; 9] _)))) _ 3 _ _).
  - vm_compute. reflexivity.
  - simpl. lia.
  - simpl. lia.
  - lia.
Defined.

(** [rotate] and [reflect] act on an [N] by [N] pattern as a quarter turn
    and a mirror image: reflecting twice or rotating four times gives the
    pattern back, a mirrored quarter turn is three quarter turns of the
    mirror image, and both results are again [N] by [N] patterns. *)
Theorem rotate_reflect_laws (n : Z) (p : list Z) :
  0 <= n -> is_pattern n p ->
  let rot := OverlappingModel.rotate n in
  let refl := OverlappingModel.reflect n in
  refl (refl p) = p /\
  rot (rot (rot (rot p))) = p /\
  refl (rot p) = rot (rot (rot (refl p))) /\
  is_pattern n (rot p) /\ is_pattern n (refl p).
Proof.
  intros Hn Hp rot refl.
  assert (forall q, is_pattern n (rot q)) as Hrot by (intros; by apply rotate_pattern).
  assert (forall q, is_pattern n (refl q)) as Hrefl by (intros; by apply reflect_pattern).
  split_and!; [| | |done|done].
  - apply (grid_ext n); [done|apply Hrefl|apply Hp|]. intros x y Hx Hy.
    subst refl. rewrite !reflect_rd by (done || lia). f_equal. lia.
  - apply (grid_ext n); [done|apply Hrot|apply Hp|]. intros x y Hx Hy.
    subst rot. rewrite !rotate_rd by (done || lia). f_equal. lia.
  - apply (grid_ext n); [done|apply Hrefl|apply Hrot|]. intros x y Hx Hy.
    subst rot refl.
    repeat first [rewrite reflect_rd by (done || lia) | rewrite rotate_rd by (done || lia)].
    f_equal. lia.
Qed.

Lemma rotate_reflect_laws_witness :
  OverlappingModel.reflect 2 (OverlappingModel.reflect 2 [0; 1; 2; 3]) = [0; 1; 2; 3].
Proof.
  refine (proj1 (rotate_reflect_laws 2 [0; 1; 2; 3] _ _)).
  - lia.
  - split; [reflexivity|]. repeat constructor; lia.
Defined.

(** The adjacency lists [buildPropagator] computes are symmetric: pattern
    [t2] is listed for pattern [t] in direction [d] exactly when [t] is
    listed for [t2] in the opposite direction. *)
Theorem buildPropagator_symmetric (n : Z) (patterns : list (list Z)) (t d t2 : Z) :
  0 <= d < 4 ->
  allowed (OverlappingModel.buildPropagator n patterns) t d t2 <->
  allowed (OverlappingModel.buildPropagator n patterns) t2 (tbl OPPOSITE d) t.
Proof.
  intros Hd.
  assert (forall t d t2, allowed (OverlappingModel.buildPropagator n patterns) t d t2 ->
            0 <= t < Z.of_nat (length patterns)) as Hrange.
  { intros t0 d0 t3 (row & l & Hrow & _). apply rd_Some in Hrow.
    unfold OverlappingModel.buildPropagator in Hrow. by rewrite length_map in Hrow. }
  assert (0 <= tbl OPPOSITE d < 4 /\ tbl DX (tbl OPPOSITE d) = - tbl DX d /\
          tbl DY (tbl OPPOSITE d) = - tbl DY d) as (Ho & Ex & Ey).
  { assert (d = 0 \/ d = 1 \/ d = 2 \/ d = 3) as Hcases by lia.
    destruct Hcases as [E|[E|[E|E]]]; rewrite E; vm_compute; repeat split; congruence. }
  split; intros Ha; pose proof (Hrange _ _ _ Ha) as Hr.
  - apply build_allowed in Ha as [Hr2 Hag]; [|done..].
    apply build_allowed; [done..|]. split; [done|].
    by rewrite Ex, Ey, <- agrees_opposite.
  - apply build_allowed in Ha as [Hr2 Hag]; [|done..].
    apply build_allowed; [done..|]. split; [done|].
    by rewrite agrees_opposite, <- Ex, <- Ey.
Qed.

Lemma buildPropagator_symmetric_witness :
  allowed (OverlappingModel.buildPropagator 2 [[0; 1; 0; 1]; [1; 0; 1; 0]]) 0 0 1 <->
  allowed (OverlappingModel.buildPropagator 2 [[0; 1; 0; 1]; [1; 0; 1; 0]]) 1 2 0.
Proof.
  apply (buildPropagator_symmetric 2 [[0; 1; 0; 1]; [1; 0; 1; 0]] 0 0 1). lia.
Defined.

(** ** The tileset loader *)

(** For every symmetry letter, the index maps [a] (quarter turn) and [b]
    (mirror image) that [getSymmetry] returns send the variants
    [0 .. cardinality - 1] to variants, and act on them as a quarter turn and
    a mirror image do: four turns give the variant back, two mirror images
    give it back, and mirroring a turn twice over gives it back. *)
Theorem getSymmetry_is_dihedral (sym : string) (i : Z) :
  let sy := TilesetLoader.getSymmetry sym in
  let a := TilesetLoader.sym_a sy in
  let b := TilesetLoader.sym_b sy in
  let n := TilesetLoader.cardinality sy in
  0 <= i < n ->
  0 <= a i < n /\ 0 <= b i < n /\
  a (a (a (a i))) = i /\ b (b i) = i /\ b (a (b (a i))) = i.
Proof. apply getSymmetry_laws. Qed.

Lemma getSymmetry_is_dihedral_witness :
  TilesetLoader.sym_b (TilesetLoader.getSymmetry "F")
    (TilesetLoader.sym_a (TilesetLoader.getSymmetry "F")
       (TilesetLoader.sym_b (TilesetLoader.getSymmetry "F")
          (TilesetLoader.sym_a (TilesetLoader.getSymmetry "F") 5))) = 5.
Proof.
  refine (proj2 (proj2 (proj2 (proj2 (getSymmetry_is_dihedral "F" 5 _))))).
  vm_compute. split; [discriminate|reflexivity].
Defined.



(** A neighbor rule that is used (both its tiles declared and in the
    subset) and names a variant outside 0 .. 7 makes [loadTileset] raise
    [TypeError]. *)
Theorem loadTileset_rejects_variant (tileElements : list TileElement)
    (neighborElements : list NeighborElement) (subset : option (gset string))
    (x : NeighborElement) :
  x ∈ neighborElements ->
  rule_used subset (loaded_first subset tileElements) x ->
  ~ variants_ok x ->
  TilesetLoader.loadTileset tileElements neighborElements subset = Throw TypeError.
Proof.
  intros Hx Hu Hbad. unfold TilesetLoader.loadTileset.
  unfold loaded_first, loaded_tiles in Hu.
  pose proof (add_tiles_inv subset tileElements ([], ∅, [], [])) as Hinv.
  destruct (fold_left _ tileElements _) as [[[action first] names] weights].
  destruct Hinv as (Hn & Hw & Ha & Hf).
  { split_and!; [done|done|by apply Forall_nil|]. apply map_Forall_empty. }
  simpl in Hu.
  rewrite (for_each_throws (TilesetLoader.add_neighbor subset action first) TypeError);
    [done| |].
  - intros s y e. apply add_neighbor_error.
  - exists x. split; [done|]. intros s. by apply add_neighbor_outside.
Qed.

Lemma loadTileset_rejects_variant_witness :
  TilesetLoader.loadTileset Run.corner_tiles
    [mkNeighborElement "A" (Some 8) "B" None] None = Throw TypeError.
Proof.
  apply (loadTileset_rejects_variant _ _ _ (mkNeighborElement "A" (Some 8) "B" None)).
  - apply list_elem_of_singleton. reflexivity.
  - split; [done|]. split; vm_compute; eexists; reflexivity.
  - intros [H _]. specialize (H 8 eq_refl). lia.
Defined.

(** The adjacency lists [loadTileset] returns are symmetric: tile [t2] is
    listed for tile [t] in direction [d] exactly when [t] is listed for [t2]
    in the opposite direction. *)
Theorem loadTileset_symmetric (tileElements : list TileElement)
    (neighborElements : list NeighborElement) (subset : option (gset string))
    (td : TilesetData) (t d t2 : Z) :
  TilesetLoader.loadTileset tileElements neighborElements subset = Ok td ->
  0 <= d < 4 ->
  allowed (tileset_propagatorData td) t d t2 <->
  allowed (tileset_propagatorData td) t2 (tbl OPPOSITE d) t.
Proof.
  intros Hrun Hd.
  destruct (loadTileset_inv _ _ _ _ Hrun)
    as (action & first & names & weights & dense & _ & -> & _ & Hdense & _).
  cbn [tileset_propagatorData].
  assert (0 <= tbl OPPOSITE d < 4 /\ tbl OPPOSITE (tbl OPPOSITE d) = d) as [Ho Hoo].
  { assert (d = 0 \/ d = 1 \/ d = 2 \/ d = 3) as Hcases by lia.
    destruct Hcases as [E|[E|[E|E]]]; rewrite E; vm_compute; repeat split; congruence. }
  split; intros Ha.
  - by apply loaded_symmetric.
  - rewrite <- Hoo. by apply loaded_symmetric.
Qed.

Lemma loadTileset_symmetric_witness :
  allowed (tileset_propagatorData Run.corner_tileset) 4 0 1 <->
  allowed (tileset_propagatorData Run.corner_tileset) 1 (tbl OPPOSITE 0) 4.
Proof.
  apply (loadTileset_symmetric Run.corner_tiles Run.corner_rules None Run.corner_tileset 4 0 1).
  - apply ok_value_eq.
  - lia.
Defined.

(** [loadTileset] records every neighbor rule that is used: with [L] the
    variant the rule names on its left and [R] the one on its right, the
    lists it returns have [L] in direction 0 (to the left) of [R], and [R] in
    direction 2 (to the right) of [L]. *)
Theorem loadTileset_records_rules (tileElements : list TileElement)
    (neighborElements : list NeighborElement) (subset : option (gset string))
    (td : TilesetData) (x : NeighborElement) :
  TilesetLoader.loadTileset tileElements neighborElements subset = Ok td ->
  x ∈ neighborElements ->
  rule_used subset (loaded_first subset tileElements) x ->
  exists fl fr L R,
    loaded_first subset tileElements !! left_name x = Some fl /\
    loaded_first subset tileElements !! right_name x = Some fr /\
    TilesetLoader.action_at (loaded_action subset tileElements) fl
      (default 0 (left_variant x)) = Ok L /\
    TilesetLoader.action_at (loaded_action subset tileElements) fr
      (default 0 (right_variant x)) = Ok R /\
    allowed (tileset_propagatorData td) R 0 L /\
    allowed (tileset_propagatorData td) L 2 R.
Proof.
  intros Hrun Hx Hu.
  destruct (loadTileset_inv _ _ _ _ Hrun)
    as (action & first & names & weights & dense & Hst & -> & _ & Hdense & Hrec).
  unfold loaded_first, loaded_action in *. rewrite Hst in *. cbn [fst snd] in *.
  destruct (Hrec x Hx Hu) as (fl & fr & L & R & Hfl & Hfr & HL & HR & HLr & HRr & Hget).
  exists fl, fr, L, R. do 4 (split; [done|]). cbn [tileset_propagatorData].
  assert (allowed (TilesetLoader.sparse (Z.of_nat (length action))
            (TilesetLoader.transpose_dense (Z.of_nat (length action)) dense)) R 0 L) as Ha.
  { apply sparse_allowed; [lia|]. split; [done|]. split; [done|].
    destruct (transpose_spec _ dense Hdense) as [Hlow _]. by rewrite Hlow by lia. }
  split; [done|]. by apply (loaded_symmetric _ dense R 0 L).
Qed.

Lemma loadTileset_records_rules_witness :
  exists fl fr L R,
    loaded_first None Run.corner_tiles !! "A"%string = Some fl /\
    loaded_first None Run.corner_tiles !! "B"%string = Some fr /\
    TilesetLoader.action_at (loaded_action None Run.corner_tiles) fl 1 = Ok L /\
    TilesetLoader.action_at (loaded_action None Run.corner_tiles) fr 0 = Ok R /\
    allowed (tileset_propagatorData Run.corner_tileset) R 0 L /\
    allowed (tileset_propagatorData Run.corner_tileset) L 2 R.
Proof.
  apply (loadTileset_records_rules Run.corner_tiles Run.corner_rules None Run.corner_tileset
           (mkNeighborElement "A" (Some 1) "B" None)).
  - apply ok_value_eq.
  - apply list_elem_of_singleton. reflexivity.
  - split; [done|]. split; vm_compute; eexists; reflexivity.
Defined.

(** The names and weights [loadTileset] returns: each tile that is kept
    (every tile, or the tiles of the subset) contributes, in the order of the
    document, one name [name t] and one copy of its weight for each of
    its [cardinality] variants [t]; a tile outside the subset contributes
    nothing. *)
Theorem loadTileset_variants (tileElements : list TileElement)
    (neighborElements : list NeighborElement) (subset : option (gset string))
    (td : TilesetData) :
  TilesetLoader.loadTileset tileElements neighborElements subset = Ok td ->
  let kept := filter (fun x => in_subset subset x = true) tileElements in
  let variantsOf x :=
    upto (TilesetLoader.cardinality (TilesetLoader.getSymmetry (tile_symmetry x))) in
  tileset_names td =
    flat_map (fun x => map (TilesetLoader.variant_name (tile_name x)) (variantsOf x)) kept /\
  tileset_weights td = flat_map (fun x => map (fun _ => tile_weight x) (variantsOf x)) kept.
Proof.
  intros Hrun kept variantsOf.
  destruct (loadTileset_inv _ _ _ _ Hrun)
    as (action & first & names & weights & dense & Hst & -> & _).
  destruct (loaded_tiles_lists subset tileElements ([], ∅, [], [])) as [Hn Hw].
  unfold loaded_tiles in Hst. rewrite Hst in Hn, Hw. simpl in Hn, Hw.
  cbn [tileset_names tileset_weights]. by rewrite Hn, Hw.
Qed.

Lemma loadTileset_variants_witness :
  tileset_names Run.corner_tileset = ["A 0"; "A 1"; "A 2"; "A 3"; "B 0"]%string /\
  tileset_weights Run.corner_tileset = [1; 1; 1; 1; 2]%float.
Proof.
  apply (loadTileset_variants Run.corner_tiles Run.corner_rules None Run.corner_tileset).
  apply ok_value_eq.
Defined.

(** ** The patterns of the overlapping model *)

(** [extractPatterns] returns each pattern once: the list has no
    duplicates, one weight per pattern, and every pattern in it is an [N] by
    [N] byte array that is one of the first [symmetry] variants of a window
    of the sample.  When the cells of the sample are below the number of
    colours [C], no variant of a window is missing. *)
Theorem extractPatterns_distinct (n C : Z) (sample : list Z) (sw sh : Z) (periodicInput : bool)
    (symmetry : Z) (patterns : list (list Z)) (weights : list float) :
  0 <= n ->
  OverlappingModel.extractPatterns n C sample sw sh periodicInput symmetry
    = Ok (patterns, weights) ->
  NoDup patterns /\ length weights = length patterns /\
  (forall p, p ∈ patterns ->
     is_pattern n p /\
     exists x y k, window_variant n sample sw sh periodicInput symmetry x y k p) /\
  (0 < C -> Forall (fun v => 0 <= v < C) sample ->
   forall x y k p,
     window_variant n sample sw sh periodicInput symmetry x y k p -> p ∈ patterns).
Proof.
  intros Hn Hrun. split_and!.
  - by destruct (extractPatterns_spec n C (fun _ => True) sample sw sh periodicInput symmetry
                   patterns weights (fun _ _ _ _ _ => Logic.I) Hrun) as (? & _).
  - symmetry. by eapply extractPatterns_lengths.
  - intros p Hp.
    destruct (extractPatterns_spec n C
                (fun p => is_pattern n p /\
                   exists x y k, window_variant n sample sw sh periodicInput symmetry x y k p)
                sample sw sh periodicInput symmetry patterns weights) as (_ & _ & HG & _);
      [|done|].
    + intros x y k q Hq. split; [by eapply window_variant_pattern|by exists x, y, k].
    + rewrite Forall_forall in HG. by apply HG.
  - intros HC Hs.
    destruct (extractPatterns_spec n C
                (fun p => Z.of_nat (length p) = n * n /\ Forall (fun v => 0 <= v < C) p)
                sample sw sh periodicInput symmetry patterns weights) as (_ & _ & _ & Hall);
      [|done|].
    + intros x y k q Hq. split; [|by eapply window_variant_below].
      by destruct (window_variant_pattern _ _ _ _ _ _ _ _ _ _ Hn Hq).
    + apply Hall. intros a b [Ha Ha'] [Hb Hb'] E. apply (hash_inj C); [lia|done|done|done].
Qed.

Lemma extractPatterns_distinct_witness :
  NoDup [[0; 1; 0; 1]; [1; 0; 1; 0]; [1; 1; 0; 0]; [0; 0; 1; 1]].
Proof.
  refine (proj1 (extractPatterns_distinct 2 2 [0; 1; 0; 1] 2 2 true 8
                   [[0; 1; 0; 1]; [1; 0; 1; 0]; [1; 1; 0; 0]; [0; 0; 1; 1]]
                   [8; 8; 8; 8]%float _ _)).
  - lia.
  - vm_compute. reflexivity.
Defined.

(** The patterns of a constructed overlapping model, for an image with at
    least one pixel: the list has no duplicates and [patternCount] entries,
    each an [N] by [N] byte array, and a pattern is in it exactly when it is
    one of the first [symmetry] variants of a window of the colour-index
    sample of the image. *)
Theorem new_patterns_are_the_windows `{M : MathLib} (pixels : list Z) (iw ih : Z)
    (opts : OverlappingOptions) (m : OverlappingModel.t) :
  OverlappingModel.new pixels iw ih opts = Ok m ->
  0 <= opt_patternSize opts -> pixels <> [] ->
  exists sample,
    OverlappingModel.extractColors pixels iw ih = Ok (sample, OverlappingModel.colors m) /\
    NoDup (OverlappingModel.patterns m) /\
    OverlappingModel.patternCount m = Z.of_nat (length (OverlappingModel.patterns m)) /\
    forall p,
      p ∈ OverlappingModel.patterns m <->
      is_pattern (opt_patternSize opts) p /\
      exists x y k,
        window_variant (opt_patternSize opts) sample iw ih (opt_periodicInput opts)
          (opt_symmetry opts) x y k p.
Proof.
  intros Hnew Hn Hne.
  destruct (overlapping_new_parts _ _ _ _ _ Hnew) as (sample & weights & Hcol & Hpat & HT).
  destruct (extractColors_cells _ _ _ _ _ Hcol Hne) as [HC Hcells].
  destruct (extractPatterns_spec (opt_patternSize opts)
              (Z.of_nat (length (OverlappingModel.colors m)))
              (fun p => (is_pattern (opt_patternSize opts) p /\
                 exists x y k, window_variant (opt_patternSize opts) sample iw ih
                                 (opt_periodicInput opts) (opt_symmetry opts) x y k p) /\
                 Forall (fun v => 0 <= v < Z.of_nat (length (OverlappingModel.colors m))) p)
              sample iw ih (opt_periodicInput opts) (opt_symmetry opts)
              (OverlappingModel.patterns m) weights) as (Hnd & _ & HG & Hall); [|done|].
  { intros x y k q Hq. split; [split|].
    - by eapply window_variant_pattern.
    - by exists x, y, k.
    - by eapply window_variant_below. }
  exists sample. split; [done|]. split; [done|]. split; [done|].
  intros p. split.
  - intros Hp. rewrite Forall_forall in HG. by destruct (HG p Hp).
  - intros (_ & x & y & k & Hw). refine (Hall _ x y k p Hw).
    intros a b [[[Ha _] _] Ha'] [[[Hb _] _] Hb'] E.
    apply (hash_inj (Z.of_nat (length (OverlappingModel.colors m)))); [lia|done|done|done].
Qed.

Lemma new_patterns_are_the_windows_witness :
  NoDup (OverlappingModel.patterns Run.ground_new).
Proof.
  destruct (new_patterns_are_the_windows (M := ref_math)
              [Run.sky; Run.sky; Run.ground; Run.ground] 2 2 Run.ground_options Run.ground_new)
    as (sample & _ & Hnd & _).
  - apply ok_value_eq.
  - simpl. lia.
  - discriminate.
  - exact Hnd.
Defined.

(** ** The support counts and arc consistency *)

(** [propagate] keeps the counts of the propagator equal to the supports.
    When, on entry, the count of each cell, pattern and direction with a
    neighbour is the number of patterns of that neighbour, possible or
    removed with the removal still on the stack, that list the pattern
    towards the cell, and [propagate] answers [true], then the stack is
    empty, the counts are the supports again, and the wave is arc
    consistent: every possible pattern whose list for a direction is not
    empty has, when its cell has a neighbour there, a possible pattern of
    that neighbour in the list. *)
Theorem propagate_keeps_support `{M : MathLib} (p : Propagator.t) (w : Wave.t)
    (p' : Propagator.t) (w' : Wave.t) :
  shape w -> serves p w -> supported p w ->
  Propagator.propagate p w = Ok (p', w', true) ->
  Propagator.stackSize p' = 0 /\ supported p' w' /\ arc_consistent p' w'.
Proof.
  intros Hs Hsv Hsup Hrun. unfold Propagator.propagate in Hrun.
  destruct (propagate_loop_support _ _ _ _ _ Hs Hsv Hsup Hrun)
    as (Hs' & Hsv' & Hsup' & Hz & _).
  split; [done|]. split; [done|]. by apply supported_arc_consistent.
Qed.

Lemma propagate_keeps_support_witness :
  Propagator.stackSize (fst (fst Run.stripes_settled)) = 0 /\
  exists t, t ∈ [0] /\ Wave.get (snd (fst Run.stripes_settled)) 1 t = true.
Proof.
  destruct RunSupport.stripes_banned_supported as (Hs & Hsv & Hsup).
  destruct (propagate_keeps_support (M := ref_math)
              (fst Run.stripes_banned) (snd Run.stripes_banned)
              (fst (fst Run.stripes_settled)) (snd (fst Run.stripes_settled)) Hs Hsv Hsup)
    as (Hz & _ & Harc).
  - vm_compute. reflexivity.
  - split; [exact Hz|].
    apply (Harc 0 0 2 1 [0]);
      [in_range|in_range|in_range|vm_compute; reflexivity|vm_compute; reflexivity
      |vm_compute; reflexivity|discriminate].
Defined.

(** A tiled model stays arc consistent.  Built from adjacency lists
    without duplicates that are symmetric, with fewer than 2^31 tiles on a
    grid of at most 2^32 cells, and then driven by [step] and [clear] in any
    order, the model is arc consistent whenever no cell has lost all its
    tiles: every tile still possible in a cell whose list for a direction is
    not empty has, when the cell has a neighbour in that direction, a tile
    of the list still possible in that neighbour. *)
Theorem tiled_arc_consistency `{M : MathLib} (tiles : list (list Z)) (tilenames : list string)
    (tilesize : Z) (weights : list float) (pd : list (list (list Z)))
    (opts : SimpleTiledOptions) (m0 m : SimpleTiledModel.t) :
  tiled_input_ok tiles weights pd -> data_sym (Z.of_nat (length tiles)) pd ->
  Z.of_nat (length tiles) < 2147483648 ->
  0 <= topt_width opts -> 0 <= topt_height opts ->
  topt_width opts * topt_height opts <= 4294967296 ->
  SimpleTiledModel.new tiles tilenames tilesize weights pd opts = Ok m0 ->
  tiled_run m0 m ->
  (forall j, ~ zero_cell (Engine.wave (SimpleTiledModel.engine m)) j) ->
  arc_consistent (Engine.propagator (SimpleTiledModel.engine m))
    (Engine.wave (SimpleTiledModel.engine m)).
Proof.
  intros Hin Hsym HT HW HH Hsz Hnew Hrun Hno.
  pose proof (tiled_new_inv _ _ _ _ _ _ _ Hin Hnew) as Hok0.
  pose proof (tiled_new_supported _ _ _ _ _ _ _ Hin Hsym HT HW HH Hsz Hnew) as Hsup0.
  destruct (tiled_run_supported m0 m Hok0 Hsup0 Hrun) as [(Hok & _) Hsup].
  by apply engine_supported_arc.
Qed.

Lemma tiled_arc_consistency_witness :
  exists t, t ∈ [0] /\ Wave.get (Engine.wave (SimpleTiledModel.engine (snd Run.stripes_1))) 1 t = true.
Proof.
  apply (tiled_arc_consistency (M := ref_math) [[0]; [1]] ["A"; "B"]%string 1 [1; 1]%float
           Run.stripes_rules (Run.row_options entropy_h 0) Run.stripes_new (snd Run.stripes_1)
           RunSupport.stripes_rules_ok) with (n := 0) (t2 := 0) (d := 2).
  - apply data_symb_true. vm_compute. reflexivity.
  - in_range.
  - in_range.
  - in_range.
  - in_range.
  - apply ok_value_eq.
  - eapply tiled_run_step; [apply tiled_run_here|apply ok_value_pair].
  - apply no_zero_cell_check. vm_compute. reflexivity.
  - in_range.
  - in_range.
  - in_range.
  - vm_compute. reflexivity.
  - vm_compute. reflexivity.
  - vm_compute. reflexivity.
  - discriminate.
Defined.

(** The adjacency lists of [loadTileset] fit the tiled model.  A model
    built from the weights and the lists [loadTileset] returns, with as
    many tiles as weights, fewer than 2^31, on a grid of at most 2^32 cells,
    and then driven by [step] and [clear], is arc consistent whenever no
    cell has lost all its tiles. *)
Theorem loaded_tileset_arc_consistency `{M : MathLib} (tileElements : list TileElement)
    (neighborElements : list NeighborElement) (subset : option (gset string))
    (td : TilesetData) (tiles : list (list Z)) (tilenames : list string) (tilesize : Z)
    (opts : SimpleTiledOptions) (m0 m : SimpleTiledModel.t) :
  TilesetLoader.loadTileset tileElements neighborElements subset = Ok td ->
  length tiles = length (tileset_weights td) ->
  Z.of_nat (length tiles) < 2147483648 ->
  0 <= topt_width opts -> 0 <= topt_height opts ->
  topt_width opts * topt_height opts <= 4294967296 ->
  SimpleTiledModel.new tiles tilenames tilesize (tileset_weights td)
    (tileset_propagatorData td) opts = Ok m0 ->
  tiled_run m0 m ->
  (forall j, ~ zero_cell (Engine.wave (SimpleTiledModel.engine m)) j) ->
  arc_consistent (Engine.propagator (SimpleTiledModel.engine m))
    (Engine.wave (SimpleTiledModel.engine m)).
Proof.
  intros Hload Hlen HT HW HH Hsz Hnew Hrun Hno.
  destruct (loaded_input_ok _ _ _ _ tiles Hload Hlen) as [Hin Hsym]; [lia|].
  pose proof (tiled_new_inv _ _ _ _ _ _ _ Hin Hnew) as Hok0.
  pose proof (tiled_new_supported _ _ _ _ _ _ _ Hin Hsym HT HW HH Hsz Hnew) as Hsup0.
  destruct (tiled_run_supported m0 m Hok0 Hsup0 Hrun) as [(Hok & _) Hsup].
  by apply engine_supported_arc.
Qed.

Lemma loaded_tileset_arc_consistency_witness :
  exists t, t ∈ [4] /\ Wave.get (Engine.wave (SimpleTiledModel.engine (snd Run.corner_1))) 1 t = true.
Proof.
  apply (loaded_tileset_arc_consistency (M := ref_math) Run.corner_tiles Run.corner_rules None
           Run.corner_tileset [[0]; [1]; [2]; [3]; [4]] (tileset_names Run.corner_tileset) 1
           (Run.row_options scanline_h 0) Run.corner_new (snd Run.corner_1))
    with (n := 0) (t2 := 1) (d := 2).
  - apply ok_value_eq.
  - vm_compute. reflexivity.
  - in_range.
  - in_range.
  - in_range.
  - in_range.
  - apply ok_value_eq.
  - eapply tiled_run_step; [apply tiled_run_here|apply ok_value_pair].
  - apply no_zero_cell_check. vm_compute. reflexivity.
  - in_range.
  - in_range.
  - in_range.
  - vm_compute. reflexivity.
  - vm_compute. reflexivity.
  - vm_compute. reflexivity.
  - discriminate.
Defined.

(** An overlapping model stays arc consistent.  Built by the constructor
    with fewer than 2^31 patterns on an output of at most 2^32 cells, the
    ground constraint applied when it is asked for, and then driven by
    [step] and [clear], the model is arc consistent whenever no cell has
    lost all its patterns: every pattern still possible in a cell that
    agrees with some pattern in a direction has, when the cell has a
    neighbour there, a pattern it agrees with still possible in that
    neighbour. *)
Theorem overlapping_arc_consistency `{M : MathLib} (pixels : list Z) (iw ih : Z)
    (opts : OverlappingOptions) (m0 m : OverlappingModel.t) :
  OverlappingModel.new pixels iw ih opts = Ok m0 ->
  OverlappingModel.patternCount m0 < 2147483648 ->
  0 <= opt_width opts -> 0 <= opt_height opts ->
  opt_width opts * opt_height opts <= 4294967296 ->
  overlapping_run m0 m ->
  (forall j, ~ zero_cell (Engine.wave (OverlappingModel.engine m)) j) ->
  arc_consistent (Engine.propagator (OverlappingModel.engine m))
    (Engine.wave (OverlappingModel.engine m)).
Proof.
  intros Hnew HT HW HH Hsz Hrun Hno.
  assert (overlapping_ok m0) as Hok0 by (eapply overlapping_new_reachable_ok; [done|lia]).
  pose proof (overlapping_new_supported _ _ _ _ _ Hnew HT HW HH Hsz) as Hsup0.
  destruct (overlapping_run_supported m0 m Hok0 Hsup0 Hrun) as [(Hok & _) Hsup].
  by apply engine_supported_arc.
Qed.

Lemma overlapping_arc_consistency_witness :
  exists t, t ∈ [1] /\ Wave.get (Engine.wave (OverlappingModel.engine Run.ground_cleared)) 3 t = true.
Proof.
  apply (overlapping_arc_consistency (M := ref_math) [Run.sky; Run.sky; Run.ground; Run.ground]
           2 2 Run.ground_options Run.ground_new Run.ground_cleared)
    with (n := 0) (t2 := 0) (d := 1).
  - apply ok_value_eq.
  - in_range.
  - in_range.
  - in_range.
  - in_range.
  - eapply overlapping_run_clear; [|apply ok_value_eq].
    eapply overlapping_run_step; [apply overlapping_run_here|apply ok_value_pair].
  - apply no_zero_cell_check. vm_compute. reflexivity.
  - in_range.
  - in_range.
  - in_range.
  - vm_compute. reflexivity.
  - vm_compute. reflexivity.
  - vm_compute. reflexivity.
  - discriminate.
Defined.

(** ** Collapsed neighbours *)

(** In a tiled model, collapsed neighbours hold tiles the adjacency lists
    allow side by side.  For a model built from lists without duplicates
    that are symmetric (fewer than 2^31 tiles, at most 2^32 cells) and driven
    by [step] and [clear], as long as no cell has lost all its tiles: when
    cell [n] and its neighbour [c] in direction [d] are both collapsed, and
    the list of the tile of [n] for [d] is not empty, the tile of [c] is in
    that list. *)
Theorem tiled_collapsed_neighbours_fit `{M : MathLib} (tiles : list (list Z))
    (tilenames : list string) (tilesize : Z) (weights : list float)
    (pd : list (list (list Z))) (opts : SimpleTiledOptions) (m0 m : SimpleTiledModel.t) :
  tiled_input_ok tiles weights pd -> data_sym (Z.of_nat (length tiles)) pd ->
  Z.of_nat (length tiles) < 2147483648 ->
  0 <= topt_width opts -> 0 <= topt_height opts ->
  topt_width opts * topt_height opts <= 4294967296 ->
  SimpleTiledModel.new tiles tilenames tilesize weights pd opts = Ok m0 ->
  tiled_run m0 m ->
  (forall j, ~ zero_cell (Engine.wave (SimpleTiledModel.engine m)) j) ->
  forall n d c t',
    0 <= n < Wave.size (Engine.wave (SimpleTiledModel.engine m)) -> 0 <= d < 4 ->
    neighbor (Engine.propagator (SimpleTiledModel.engine m)) n d = Some c ->
    Wave.isCollapsed (Engine.wave (SimpleTiledModel.engine m)) n = true ->
    Wave.isCollapsed (Engine.wave (SimpleTiledModel.engine m)) c = true ->
    allowed pd (Wave.getObserved (Engine.wave (SimpleTiledModel.engine m)) n) d t' ->
    allowed pd (Wave.getObserved (Engine.wave (SimpleTiledModel.engine m)) n) d
      (Wave.getObserved (Engine.wave (SimpleTiledModel.engine m)) c).
Proof.
  intros Hin Hsym HT HW HH Hsz Hnew Hrun Hno.
  pose proof (tiled_new_inv _ _ _ _ _ _ _ Hin Hnew) as Hok0.
  pose proof (tiled_new_supported _ _ _ _ _ _ _ Hin Hsym HT HW HH Hsz Hnew) as Hsup0.
  destruct (tiled_run_supported m0 m Hok0 Hsup0 Hrun) as [(Hok & _) Hsup].
  destruct (tiled_run_config m0 m Hok0 Hrun) as [_ (Epd & _)].
  rewrite (tiled_new_data _ _ _ _ _ _ _ Hin Hnew) in Epd. rewrite <- Epd.
  pose proof Hok as (Htr & Hsv & _). destruct Hsup as [Hgc Hcase].
  apply collapsed_fit; try done.
  apply engine_supported_arc; [done|by split|done].
Qed.

Lemma tiled_collapsed_neighbours_fit_witness :
  allowed Run.stripes_rules
    (Wave.getObserved (Engine.wave (SimpleTiledModel.engine (snd Run.stripes_1))) 0) 2
    (Wave.getObserved (Engine.wave (SimpleTiledModel.engine (snd Run.stripes_1))) 1).
Proof.
  apply (tiled_collapsed_neighbours_fit (M := ref_math) [[0]; [1]] ["A"; "B"]%string 1
           [1; 1]%float Run.stripes_rules (Run.row_options entropy_h 0) Run.stripes_new
           (snd Run.stripes_1) RunSupport.stripes_rules_ok) with (t' := 0).
  - apply data_symb_true. vm_compute. reflexivity.
  - in_range.
  - in_range.
  - in_range.
  - in_range.
  - apply ok_value_eq.
  - eapply tiled_run_step; [apply tiled_run_here|apply ok_value_pair].
  - apply no_zero_cell_check. vm_compute. reflexivity.
  - in_range.
  - in_range.
  - vm_compute. reflexivity.
  - vm_compute. reflexivity.
  - vm_compute. reflexivity.
  - exists [[0]; []; [0]; []], [0].
    split; [vm_compute; reflexivity|]. split; [reflexivity|left].
Defined.

(** In an overlapping model, collapsed neighbours hold patterns that agree
    on their overlap.  For a model built by the constructor (fewer than 2^31
    patterns, at most 2^32 cells) and driven by [step] and [clear], as long
    as no cell has lost all its patterns: when cell [n] and its neighbour [c]
    in direction [d] are both collapsed, and the pattern of [n] agrees with
    some pattern of the model at the offset of [d], it agrees with the
    pattern of [c] at that offset. *)
Theorem overlapping_collapsed_neighbours_fit `{M : MathLib} (pixels : list Z) (iw ih : Z)
    (opts : OverlappingOptions) (m0 m : OverlappingModel.t) :
  OverlappingModel.new pixels iw ih opts = Ok m0 ->
  OverlappingModel.patternCount m0 < 2147483648 ->
  0 <= opt_width opts -> 0 <= opt_height opts ->
  opt_width opts * opt_height opts <= 4294967296 ->
  overlapping_run m0 m ->
  (forall j, ~ zero_cell (Engine.wave (OverlappingModel.engine m)) j) ->
  forall n d c q2 q q',
    0 <= n < Wave.size (Engine.wave (OverlappingModel.engine m)) -> 0 <= d < 4 ->
    neighbor (Engine.propagator (OverlappingModel.engine m)) n d = Some c ->
    Wave.isCollapsed (Engine.wave (OverlappingModel.engine m)) n = true ->
    Wave.isCollapsed (Engine.wave (OverlappingModel.engine m)) c = true ->
    rd (OverlappingModel.patterns m)
       (Wave.getObserved (Engine.wave (OverlappingModel.engine m)) n) = Some q2 ->
    rd (OverlappingModel.patterns m)
       (Wave.getObserved (Engine.wave (OverlappingModel.engine m)) c) = Some q ->
    q' ∈ OverlappingModel.patterns m ->
    OverlappingModel.agrees (OverlappingModel.N m) q2 q' (tbl DX d) (tbl DY d) = true ->
    OverlappingModel.agrees (OverlappingModel.N m) q2 q (tbl DX d) (tbl DY d) = true.
Proof.
  intros Hnew HT HW HH Hsz Hrun Hno n d c q2 q q' Hn Hd Hnb Hcn Hcc Hq2 Hq Hq' Hag.
  assert (overlapping_ok m0) as Hok0 by (eapply overlapping_new_reachable_ok; [done|lia]).
  pose proof (overlapping_new_supported _ _ _ _ _ Hnew HT HW HH Hsz) as Hsup0.
  destruct (overlapping_run_supported m0 m Hok0 Hsup0 Hrun) as [(Hok & _) Hsup].
  destruct (overlapping_run_config m0 m Hok0 Hrun) as (_ & (Epd & _) & Ep & En & ET).
  destruct (overlapping_new_data _ _ _ _ _ Hnew) as [Epd0 ET0].
  rewrite Epd0, <- En, <- Ep in Epd.
  pose proof Hok as (Htr & Hsv & _). destruct Hsup as [Hgc Hcase].
  pose proof (rd_Some _ _ _ Hq2) as Hr2.
  apply rd_elem_of in Hq' as [k Hk]. pose proof (rd_Some _ _ _ Hk) as Hkr.
  assert (allowed (Propagator.propagatorData (Engine.propagator (OverlappingModel.engine m)))
            (Wave.getObserved (Engine.wave (OverlappingModel.engine m)) n) d k) as Ha.
  { rewrite Epd. apply build_allowed; [done|done|]. split; [done|]. by rewrite Hq2, Hk. }
  apply (collapsed_fit _ _ Htr Hsv Hgc) with (c := c) in Ha; try done.
  - rewrite Epd in Ha. apply build_allowed in Ha as [_ Ha]; [|done|done].
    by rewrite Hq2, Hq in Ha.
  - apply engine_supported_arc; [done|by split|done].
Qed.

Lemma overlapping_collapsed_neighbours_fit_witness :
  OverlappingModel.agrees (OverlappingModel.N (snd Run.ground_1)) [0; 0; 1; 1] [1; 1; 0; 0]
    (tbl DX 1) (tbl DY 1) = true.
Proof.
  apply (overlapping_collapsed_neighbours_fit (M := ref_math)
           [Run.sky; Run.sky; Run.ground; Run.ground] 2 2 Run.ground_options Run.ground_new
           (snd Run.ground_1)) with (n := 0) (c := 3) (q' := [1; 1; 0; 0]).
  - apply ok_value_eq.
  - in_range.
  - in_range.
  - in_range.
  - in_range.
  - eapply overlapping_run_step; [apply overlapping_run_here|apply ok_value_pair].
  - apply no_zero_cell_check. vm_compute. reflexivity.
  - in_range.
  - in_range.
  - vm_compute. reflexivity.
  - vm_compute. reflexivity.
  - vm_compute. reflexivity.
  - vm_compute. reflexivity.
  - vm_compute. reflexivity.
  - apply rd_elem_of. exists 1. vm_compute. reflexivity.
  - vm_compute. reflexivity.
Defined.
